(* ===== verification/_CoqProject ===== *)
-Q . S2P
Prelude.v
Order.v
Policy.v
Source.v
Ir.v
Graph.v
GraphIntegrity.v
GraphTemplate.v
GraphInsert.v
GraphRemove.v
GraphOps.v
ArtifactDefs.v
Artifacts.v
ArtifactInvalidation.v
ArtifactStore.v
ArtifactRestore.v
ArtifactOps.v
Values.v
Env.v
EnvProps.v
Compare.v
CompareTermination.v
CompareOrder.v
CompareEqual.v
CompareSort.v
Gc.v
GcProps.v
