(* ===== verification/Prelude.v ===== *)
(** * The CAAP kernel: a verification development

    CAAP is a compiler platform: programs are trees of literals, names and calls
    in a mutable IR graph, semantic policies say in which phase and with which
    effects a call may run, compiled artifacts are kept in an invalidating cache,
    and an evaluator runs programs over shared mutable values and lexical
    environments that a cycle collector reclaims. This library models the core
    crate ([caap/src]) and proves what makes those parts correct.

    ** The parts and where they are

    - [Prelude]: results and the [?] operator, the state-and-error monad [se] for
      methods on [&mut self] (a failing method returns its error and the state it
      left behind), identifiers and counters at their width, strings by bytes,
      shared list and map lemmas.
    - [Order]: Rust's [Ord] as the class [TotalCmp]; sorting, deduplication and
      windows of slices; [BTreeMap] and [BTreeSet] as ordered listings of finite
      maps and sets. Components ask for a [TotalCmp] instance and are proved
      against the class.
    - [Policy]: [semantic/policy.rs]. Policy labels, capability names with the
      segment-prefix order [covers], effect sets as sorted vectors searched by
      bisection.
    - [Source], [Ir]: [source.rs], [error.rs], [ir.rs], and the evaluation errors
      of [values.rs]. Positions and spans, errors, literals, expression
      specifications and nodes.
    - [Graph]: [graph.rs], every operation of [IRGraph], [IRGraphTemplate] and
      [GraphBuilder] on the record of its five tables.
    - [GraphIntegrity]: [validate_integrity] with its three-colour walk, and the
      invariant [wf] that it decides.
    - [GraphTemplate], [GraphInsert], [GraphRemove]: serialised templates, building
      a subtree from an expression, removing and replacing subtrees.
    - [GraphOps]: the state-changing operations of [IRGraph] and [GraphBuilder] as
      steps, with the conditions the code leaves to its callers ([op_allowed]); the
      forest invariant of every reachable graph.
    - [ArtifactDefs], [Artifacts]: [artifacts/defs.rs] and [artifacts/cache.rs].
      The cache keeps entries, dependency lists and their inverse, lineages and
      dirty marks; values are a type parameter.
    - [ArtifactInvalidation], [ArtifactStore], [ArtifactRestore], [ArtifactOps]:
      invalidation, storing, snapshots, and the invariant of reachable caches.
    - [Values], [Env]: [values.rs]. Runtime values, floats by bit pattern, the
      store of shared objects, and the [Environment] methods. An [Rc<RefCell<..>>]
      is a location, so aliasing and pointer equality are those of the code.
    - [EnvProps]: resolution, cached addresses, assignment, definition.
    - [Compare]: [builtins/value_compare.rs]. Ordered comparison, the sort key, and
      structural equality, order and hash over a heap that may be cyclic.
    - [CompareTermination], [CompareOrder], [CompareEqual], [CompareSort]: the
      walks end; the order is the total order of finite trees; equality, order
      and hash agree; what the sort key guarantees.
    - [Gc], [GcProps]: the cycle collector of [values.rs] over a heap of
      reference-counted cells.

    ** What the theorems show

    - IR graph: the validator accepts exactly the well-formed graphs, and its parent
      walk ends on every parent map; templates round-trip and their own validator
      agrees with it; insertion, erasure and replacement change exactly the subtree
      they name, and the forest invariant holds after every sequence of calls that
      meet [op_allowed], failing calls included. The calls it excludes break the
      invariant: a replacement by a subtree that contains the old one is accepted and
      closes a cycle ([replace_subtree_cycle]), an insertion that fails halfway
      leaves children without a parent ([insert_expr_spec_not_atomic]), and
      [try_call] and [replace_node] do not check their children and marks (examples
      in [GraphOps]).
    - Artifact cache: an invalidation marks exactly the transitive dependents; a
      new lineage head hides what was built from the old one; a snapshot restores
      the cache it was taken from; the inverse index is exact in every reachable
      cache; a plain store changes one entry and its edges only. A failing
      [store_with_lineage] is not atomic, and a dependency that is not stored makes
      the cache unsaveable.
    - Environments: a cached lexical address answers exactly as resolving the name
      does, for reading and for assigning; an assignment or definition changes one
      variable; every reachable store has finite parent chains.
    - Comparison: termination on every heap; on acyclic values a total order whose
      equality is structural equality and is respected by the hash; signed zeros,
      NaN and cyclic lists are the exceptions ([structural_agreement_limits]). The
      sort key is a total preorder on integers that floats represent exactly, and
      every other 64-bit integer breaks it.
    - Collector: it always returns, never changes a reachable cell, and leaves only
      environments held by something it does not trace; whatever leads back to itself
      through a parent link or a reference cell is never collected.
    - Policies: effect-set inclusion by bisection is set inclusion, capability
      coverage is the segment prefix order, labels round-trip.

    ** Fuel

    Loops of the source that are not structural run on fuel computed from their
    input, and a theorem shows it is never used up: subtree removal by the number
    of child links, the colour walk by the number of parent entries (running out is an
    outcome of its own there, [WalkFuel], shown not to occur), invalidation by the
    number of dependency edges, parent chains by the location of the environment
    (a parent is older than its child), structural walks by the square of the
    number of containers times the tuple nesting, and the collector by edges,
    nodes and tracked environments. [expr_spec_for_subtree] takes the fuel as an
    argument and the round-trip theorem says how much suffices.

    ** What is not modelled

    The evaluator and its builtins other than comparison, the semantic graph, the
    compiler driver and the front end, the PEG engine, and the language server,
    debug adapter, command line and system runtime. Encodings (serde, JSON), disk
    access, string interning and stack growth have no effect on the modelled
    results. Hash-map iteration orders do not occur in any modelled result.

    ** Plan

    Next come the evaluator over [Values], [Env] and [Graph] (budgets, tail calls,
    signals, macro expansion), then the arithmetic, sequence and mutation builtins,
    then the PEG engine with its memoisation. *)

From stdpp Require Export base tactics option list gmap strings pretty
  fin_maps fin_map_dom sorting numbers relations well_founded.

(** ** Notation scope of the development *)

Declare Scope caap_scope.
Delimit Scope caap_scope with caap.

(** ** Fallible results: Rust's [Result<A, E>] with the [?] operator as bind *)

Inductive Result (E A : Type) : Type :=
  | Ok (a : A)
  | Err (e : E).
Arguments Ok {E A} a : assert.
Arguments Err {E A} e : assert.

Global Instance result_ret {E} : MRet (Result E) := λ A a, Ok a.
Global Instance result_bind {E} : MBind (Result E) := λ A B f m,
  match m with Ok a => f a | Err e => Err e end.
Global Instance result_fmap {E} : FMap (Result E) := λ A B f m,
  match m with Ok a => Ok (f a) | Err e => Err e end.

(** [Option::ok_or_else]. *)
Definition ok_or {E A} (o : option A) (e : E) : Result E A :=
  match o with Some a => Ok a | None => Err e end.

(** [Result::ok]. *)
Definition result_ok {E A} (r : Result E A) : option A :=
  match r with Ok a => Some a | Err _ => None end.

(** [Result::map_err]. *)
Definition map_err {E F A} (f : E → F) (r : Result E A) : Result F A :=
  match r with Ok a => Ok a | Err e => Err (f e) end.

(** Run for the error only. *)
Definition discard {E A} (r : Result E A) : Result E unit :=
  match r with Ok _ => Ok tt | Err e => Err e end.

(** [for x in xs { body(x)?; }] *)
Fixpoint for_each {E A} (f : A → Result E unit) (xs : list A) : Result E unit :=
  match xs with
  | [] => Ok tt
  | x :: xs => match f x with Ok _ => for_each f xs | Err e => Err e end
  end.

(** [for x in xs { acc = body(acc, x)?; }] *)
Fixpoint try_fold {E A B} (f : B → A → Result E B) (acc : B) (xs : list A) : Result E B :=
  match xs with
  | [] => Ok acc
  | x :: xs => match f acc x with Ok acc => try_fold f acc xs | Err e => Err e end
  end.

Section result_lemmas.
Context {E : Type}.

Lemma bind_ok {A B} (m : Result E A) (f : A → Result E B) b :
  m ≫= f = Ok b ↔ ∃ a, m = Ok a ∧ f a = Ok b.
Proof. destruct m; cbn; naive_solver. Qed.

Lemma seq_ok {B} (m : Result E unit) (k : Result E B) b :
  (m ≫= λ _, k) = Ok b ↔ m = Ok tt ∧ k = Ok b.
Proof. destruct m as [[]|]; cbn; naive_solver. Qed.

(** A bind whose first step can only return [c]. *)
Lemma bind_ok_det {A B} (c : A) (m : Result E A) (f : A → Result E B) b :
  (∀ a, m = Ok a → a = c) → m ≫= f = Ok b ↔ m = Ok c ∧ f c = Ok b.
Proof. intros Hc. rewrite bind_ok. split; [intros (a & Ha & ?)|]; naive_solver. Qed.

Lemma for_each_ok {A} (f : A → Result E unit) xs :
  for_each f xs = Ok tt ↔ Forall (λ x, f x = Ok tt) xs.
Proof.
  induction xs as [|x xs IH]; cbn; [by split|].
  rewrite Forall_cons, <-IH. destruct (f x) as [[]|]; naive_solver.
Qed.

(** Guards: [if cond { return Err(..) }] before [k]. *)
Lemma if_err_ok {A} (b : bool) (e : E) (k : Result E A) a :
  (if b then Err e else k) = Ok a ↔ b = false ∧ k = Ok a.
Proof. destruct b; split; [done|by intros [? _]|done|by intros [_ ?]]. Qed.

Lemma if_decide_err_ok {A} P `{!Decision P} (e : E) (k : Result E A) a :
  (if decide P then Err e else k) = Ok a ↔ ¬ P ∧ k = Ok a.
Proof. destruct (decide P); split; [done|by intros [? _]|done|by intros [_ ?]]. Qed.

Lemma if_decide_ok {A} P `{!Decision P} (e : E) (a b : A) :
  (if decide P then Ok a else Err e) = Ok b ↔ P ∧ a = b.
Proof. destruct (decide P); split; [by intros [= ->]|by intros [_ ->]|done|by intros [? _]]. Qed.

Lemma ok_inj {A} (a b : A) : Ok (E := E) a = Ok b ↔ a = b.
Proof. split; [by intros [= ->]|by intros ->]. Qed.

Lemma discard_ok {A} (r : Result E A) : discard r = Ok tt ↔ ∃ a, r = Ok a.
Proof. destruct r; cbn; naive_solver. Qed.

Lemma try_fold_app {A B} (f : B → A → Result E B) acc xs ys :
  try_fold f acc (xs ++ ys) = try_fold f acc xs ≫= λ acc', try_fold f acc' ys.
Proof. revert acc; induction xs as [|x xs IH]; intros acc; cbn; [done|]. by destruct (f acc x). Qed.

Lemma mapM_result_ok {A B} (f : A → Result E B) xs ys :
  mapM f xs = Ok ys ↔ Forall2 (λ x y, f x = Ok y) xs ys.
Proof.
  revert ys; induction xs as [|x xs IH]; intros ys; cbn.
  - split; [intros [= <-]; constructor|]. by intros ->%Forall2_nil_inv_l.
  - split.
    + intros (y & Hy & (ys' & Hys & [= <-])%bind_ok)%bind_ok.
      constructor; [done|]. by apply IH.
    + intros (y & ys' & Hy & Hys & ->)%Forall2_cons_inv_l.
      rewrite Hy; cbn. by rewrite (proj2 (IH _) Hys).
Qed.
End result_lemmas.

(** A loop that refuses a repeated key: [if !seen.insert(k) { return Err(..) }],
    together with a test [ok] of each element. *)
Lemma unique_fold_ok {E A K} `{Countable K} (f : gset K → A → Result E (gset K))
    (key : A → K) (ok : A → Prop) :
  (∀ seen x s, f seen x = Ok s ↔ ok x ∧ key x ∉ seen ∧ s = {[key x]} ∪ seen) →
  ∀ l seen s, try_fold f seen l = Ok s ↔
    Forall ok l ∧ NoDup (key <$> l) ∧ (∀ x, x ∈ l → key x ∉ seen) ∧
    s = list_to_set (key <$> l) ∪ seen.
Proof.
  intros Hf l. induction l as [|x l IH]; intros seen s; cbn.
  - split; [intros [= ->]|intros (_ & _ & _ & ->)]; [|f_equal; set_solver].
    split_and!; [constructor|constructor|set_solver|set_solver].
  - rewrite Forall_cons, NoDup_cons. destruct (f seen x) as [s'|e] eqn:Hfx.
    + apply Hf in Hfx as (Hok & Hx & ->). rewrite IH. split.
      * intros (H1 & H2 & H3 & ->). split_and!; [done..| |done| |set_solver].
        { intros (y & Hy & Hin)%list_elem_of_fmap. apply (H3 y); [done|set_solver]. }
        intros y [->|Hy]%elem_of_cons; [done|]. specialize (H3 y Hy). set_solver.
      * intros ([_ H1] & [H2 H2'] & H3 & ->). split_and!; [done..| |set_solver].
        intros y Hy. specialize (H3 y). rewrite not_elem_of_union, not_elem_of_singleton.
        split; [|apply H3; set_solver]. intros Heq. apply H2. rewrite <-Heq.
        by apply list_elem_of_fmap_2.
    + split; [done|]. intros ([Hok _] & _ & H3 & _). exfalso.
      assert (f seen x = Ok ({[key x]} ∪ seen)) as Hok'; [|congruence].
      apply Hf. split_and!; [done| |done]. apply H3. set_solver.
Qed.

(** ** State and errors: methods that take [&mut self] and return a [Result].

    The state survives an error, as it does in Rust: whatever was written
    before the early return stays written. *)

Definition SE (S E A : Type) : Type := S → Result E A * S.

Section se_monad.
Context {S E : Type}.

Global Instance se_ret : MRet (SE S E) := λ A a s, (Ok a, s).
Global Instance se_bind : MBind (SE S E) := λ A B f m s,
  match m s with
  | (Ok a, s') => f a s'
  | (Err e, s') => (Err e, s')
  end.

Definition se_get : SE S E S := λ s, (Ok s, s).
Definition se_modify (f : S → S) : SE S E unit := λ s, (Ok tt, f s).
Definition se_throw {A} (e : E) : SE S E A := λ s, (Err e, s).
(** Run a [&self] method that may fail. *)
Definition se_lift {A} (f : S → Result E A) : SE S E A := λ s, (f s, s).

(** What one run of [m] from a state satisfying [P] guarantees of its result
    and final state, on success and on error alike. *)
Definition hoare {A} (P : S → Prop) (m : SE S E A) (Q : Result E A → S → Prop) : Prop :=
  ∀ s, P s → Q (m s).1 (m s).2.

Lemma hoare_ret {A} (P : S → Prop) (a : A) (Q : Result E A → S → Prop) :
  (∀ s, P s → Q (Ok a) s) → hoare P (mret a) Q.
Proof. intros HQ s Hs. by apply HQ. Qed.

Lemma hoare_bind {A B} (P : S → Prop) (m : SE S E A) (f : A → SE S E B)
    (R : A → S → Prop) (Q : Result E B → S → Prop) :
  hoare P m (λ r s, match r with Ok a => R a s | Err e => Q (Err e) s end) →
  (∀ a, hoare (R a) (f a) Q) →
  hoare P (m ≫= f) Q.
Proof.
  intros Hm Hf s Hs. specialize (Hm s Hs). unfold mbind, se_bind.
  destruct (m s) as [[a|e] s']; cbn in *; [by apply Hf|done].
Qed.

Lemma hoare_lift {A} (P : S → Prop) (f : S → Result E A) (Q : Result E A → S → Prop) :
  (∀ s, P s → Q (f s) s) → hoare P (se_lift f) Q.
Proof. intros HQ s Hs. by apply HQ. Qed.

Lemma hoare_modify (P : S → Prop) (f : S → S) (Q : Result E unit → S → Prop) :
  (∀ s, P s → Q (Ok tt) (f s)) → hoare P (se_modify f) Q.
Proof. intros HQ s Hs. by apply HQ. Qed.

Lemma hoare_conseq {A} (P P' : S → Prop) (m : SE S E A) (Q Q' : Result E A → S → Prop) :
  hoare P' m Q' → (∀ s, P s → P' s) → (∀ r s, Q' r s → Q r s) → hoare P m Q.
Proof. intros Hm HP HQ s Hs. by apply HQ, Hm, HP. Qed.
End se_monad.
Arguments hoare {S E A} P m Q : assert.

(** ** Machine integers at their width *)

Definition u32_max : N := 4294967295.
Definition u64_max : N := 18446744073709551615.
Definition i64_min : Z := -9223372036854775808.
Definition i64_max : Z := 9223372036854775807.

(** [u32::checked_add]; [u64::checked_add]. *)
Definition u32_checked_add (a b : N) : option N :=
  if (a + b <=? u32_max)%N then Some (a + b)%N else None.
Definition u64_checked_add (a b : N) : option N :=
  if (a + b <=? u64_max)%N then Some (a + b)%N else None.
(** [u64::saturating_add]. *)
Definition u64_saturating_add (a b : N) : N := N.min (a + b) u64_max.

Definition in_i64 (z : Z) : Prop := (i64_min ≤ z ≤ i64_max)%Z.
Global Instance in_i64_dec z : Decision (in_i64 z) := _.

Lemma u32_checked_add_Some a b c :
  u32_checked_add a b = Some c ↔ c = (a + b)%N ∧ (c ≤ u32_max)%N.
Proof. unfold u32_checked_add. destruct (N.leb_spec (a + b) u32_max); naive_solver lia. Qed.

Lemma u64_checked_add_Some a b c :
  u64_checked_add a b = Some c ↔ c = (a + b)%N ∧ (c ≤ u64_max)%N.
Proof. unfold u64_checked_add. destruct (N.leb_spec (a + b) u64_max); naive_solver lia. Qed.

(** ** Rendering of Rust's [Debug] output used in messages *)

Definition debug_option (o : option N) : string :=
  match o with Some n => "Some(" +:+ pretty n +:+ ")" | None => "None" end.

Fixpoint join_strings (sep : string) (l : list string) : string :=
  match l with
  | [] => ""
  | [s] => s
  | s :: l => s +:+ sep +:+ join_strings sep l
  end.

Definition debug_list (l : list N) : string :=
  "[" +:+ join_strings ", " (pretty <$> l) +:+ "]".

(** ** Lists *)

(** [Vec::contains] on node ids, decided by equality. *)
Definition list_mem `{EqDecision A} (x : A) (l : list A) : bool := bool_decide (x ∈ l).

(** [iter().position(|item| item == x)]. *)
Fixpoint position `{EqDecision A} (x : A) (l : list A) : option nat :=
  match l with
  | [] => None
  | y :: l => if decide (y = x) then Some 0 else S <$> position x l
  end.

(** [Vec::insert] at an index that is at most the length. *)
Definition insert_at {A} (i : nat) (x : A) (l : list A) : list A := take i l ++ x :: drop i l.

(** [Vec::remove] at an index below the length. *)
Definition remove_at {A} (i : nat) (l : list A) : list A := take i l ++ drop (S i) l.

Lemma not_not_dec (P : Prop) `{!Decision P} : ¬ ¬ P ↔ P.
Proof. split; [apply dec_stable|tauto]. Qed.

Section list_lemmas.
Context `{EqDecision A}.
Implicit Types l : list A.

Lemma position_Some x l i : position x l = Some i → l !! i = Some x ∧ x ∉ take i l.
Proof.
  revert i; induction l as [|y l IH]; intros i; cbn; [done|].
  case_decide as Hd; [intros [= <-]; subst; split; [done|]; apply not_elem_of_nil|].
  intros (j & Hj & ->)%fmap_Some. destruct (IH j Hj) as [? ?].
  split; [done|]. cbn. rewrite not_elem_of_cons. naive_solver.
Qed.

Lemma position_None x l : position x l = None ↔ x ∉ l.
Proof.
  induction l as [|y l IH]; cbn; [split; [intros _; apply not_elem_of_nil|done]|].
  rewrite not_elem_of_cons. case_decide as Hd; [naive_solver|].
  rewrite fmap_None, IH. naive_solver.
Qed.

Lemma position_elem_of x l : x ∈ l → ∃ i, position x l = Some i.
Proof.
  intros Hx. destruct (position x l) as [i|] eqn:E; [eauto|].
  by apply position_None in E.
Qed.

Lemma elem_of_insert_at i x y l : y ∈ insert_at i x l ↔ y = x ∨ y ∈ l.
Proof.
  unfold insert_at. rewrite <-(take_drop i l) at 3.
  rewrite !elem_of_app, elem_of_cons. tauto.
Qed.

Lemma NoDup_insert_at i x l : x ∉ l → NoDup l → NoDup (insert_at i x l).
Proof.
  unfold insert_at. rewrite <-(take_drop i l) at 1 2. intros Hx Hl.
  rewrite <-Permutation_middle. constructor; done.
Qed.

Lemma lookup_split_at l i x : l !! i = Some x → l = take i l ++ x :: drop (S i) l.
Proof. intros H. by rewrite take_drop_middle. Qed.

Lemma elem_of_remove_at_NoDup l i x y :
  NoDup l → l !! i = Some x → y ∈ remove_at i l ↔ y ∈ l ∧ y ≠ x.
Proof.
  intros Hnd Hi. unfold remove_at.
  assert (Permutation l (x :: take i l ++ drop (S i) l)) as Hp.
  { rewrite (lookup_split_at l i x Hi) at 1. symmetry. apply Permutation_middle. }
  rewrite Hp in Hnd. apply NoDup_cons in Hnd as [Hx _].
  assert (y ∈ l ↔ y ∈ x :: take i l ++ drop (S i) l) as -> by (by rewrite <-Hp).
  rewrite elem_of_cons. set_solver.
Qed.

Lemma NoDup_remove_at l i : NoDup l → NoDup (remove_at i l).
Proof.
  intros Hl. unfold remove_at. destruct (decide (i < length l)) as [Hlt|Hge].
  - destruct (lookup_lt_is_Some_2 l i Hlt) as [x Hx].
    rewrite (lookup_split_at l i x Hx), <-Permutation_middle in Hl.
    by apply NoDup_cons in Hl as [_ ?].
  - rewrite take_ge, drop_ge, app_nil_r by lia. done.
Qed.
End list_lemmas.

Lemma list_filter_all {A} (P : A → Prop) `{!∀ x, Decision (P x)} (l : list A) :
  (∀ x, x ∈ l → P x) → filter P l = l.
Proof.
  induction l as [|x l IH]; intros Hl; [done|]. rewrite filter_cons_True by (apply Hl; set_solver).
  f_equal. apply IH. intros y Hy. apply Hl. set_solver.
Qed.

(** [sort_unstable] on ids. *)
Definition sort_ids (l : list N) : list N := merge_sort N.le l.

(** ** Strings, ordered by bytes as Rust's [str] *)

(** [str::cmp]. *)
Definition str_cmp (s t : string) : comparison := String.compare s t.

Definition str_lt (s t : string) : Prop := str_cmp s t = Lt.

(** [String.append] does not reduce by [simpl]; these equations unfold it. *)
Lemma string_app_nil r : "" +:+ r = r.
Proof. done. Qed.

Lemma string_app_cons a p r : String a p +:+ r = String a (p +:+ r).
Proof. done. Qed.

Lemma string_app_inj p r r' : p +:+ r = p +:+ r' → r = r'.
Proof.
  induction p as [|a p IH]; [done|]. rewrite !string_app_cons. intros [= ?]. by apply IH.
Qed.

Global Instance string_app_assoc : Assoc (=) String.append.
Proof. intros s t u. induction s as [|a s IH]; [done|]. rewrite !string_app_cons. by f_equal. Qed.

Section string_order.
Lemma str_cmp_eq s t : str_cmp s t = Eq ↔ s = t.
Proof.
  split; [apply String.compare_eq_iff|]. intros <-. unfold str_cmp.
  induction s as [|a s IH]; cbn; [done|]. unfold Ascii.compare. by rewrite N.compare_refl.
Qed.

Lemma str_cmp_refl s : str_cmp s s = Eq.
Proof. by apply str_cmp_eq. Qed.

Lemma str_cmp_antisym s t : str_cmp s t = CompOpp (str_cmp t s).
Proof. apply String.compare_antisym. Qed.

Lemma str_cmp_gt s t : str_cmp s t = Gt ↔ str_lt t s.
Proof. unfold str_lt. rewrite (str_cmp_antisym s t). by destruct (str_cmp t s). Qed.

Lemma ascii_compare_lt_trans a b c :
  Ascii.compare a b = Lt → Ascii.compare b c = Lt → Ascii.compare a c = Lt.
Proof. unfold Ascii.compare. rewrite !N.compare_lt_iff. lia. Qed.

Lemma ascii_compare_eq a b : Ascii.compare a b = Eq → a = b.
Proof.
  unfold Ascii.compare. rewrite N.compare_eq_iff. intros H.
  by rewrite <-(Ascii.ascii_N_embedding a), <-(Ascii.ascii_N_embedding b), H.
Qed.

Global Instance str_lt_strict : StrictOrder str_lt.
Proof.
  split; [intros s; unfold complement, str_lt; by rewrite str_cmp_refl|].
  unfold str_lt, str_cmp.
  intros s; induction s as [|a s IH]; intros [|b t] [|c u]; cbn; try done.
  destruct (Ascii.compare a b) eqn:Hab; [|intros _|done].
  - apply ascii_compare_eq in Hab as ->. intros Hst.
    destruct (Ascii.compare b c); [by apply IH|done..].
  - destruct (Ascii.compare b c) eqn:Hbc; [apply ascii_compare_eq in Hbc as ->|intros _|done].
    + by rewrite Hab.
    + by rewrite (ascii_compare_lt_trans a b c).
Qed.
End string_order.

(** Strictly ascending lists, the content of a [BTreeSet]. *)
Definition ascending (l : list string) : Prop := StronglySorted str_lt l.

Lemma ascending_NoDup l : ascending l → NoDup l.
Proof.
  induction 1 as [|x l _ IH Hx]; [constructor|]. constructor; [|done].
  intros Hin. rewrite Forall_forall in Hx. by apply (irreflexivity str_lt x), Hx.
Qed.

Lemma ascending_lookup_lt l i j x y :
  ascending l → l !! i = Some x → l !! j = Some y → i < j → str_lt x y.
Proof.
  intros Hl; revert i j. induction Hl as [|z l _ IH Hz]; intros i j; [done|].
  destruct i as [|i], j as [|j]; cbn; [lia| |lia|].
  - intros [= ->] Hj _. rewrite Forall_forall in Hz. apply Hz. by eapply list_elem_of_lookup_2.
  - intros Hi Hj ?. apply (IH i j); [done..|lia].
Qed.

(** ** Automation *)

Create HintDb caap.
Create Rewrite HintDb result_ok.
#[export] Hint Rewrite @if_err_ok @if_decide_err_ok @if_decide_ok @ok_inj @bind_ok @discard_ok
  @for_each_ok negb_false_iff negb_true_iff : result_ok.
#[export] Hint Resolve ascending_NoDup : caap.

(** Split every conjunction and boolean connective of the context. *)
Ltac bool_to_prop :=
  repeat match goal with
  | H : _ && _ = true |- _ => apply andb_true_iff in H as [? ?]
  | H : _ || _ = true |- _ => apply orb_true_iff in H
  | H : _ || _ = false |- _ => apply orb_false_iff in H as [? ?]
  | H : negb _ = true |- _ => apply negb_true_iff in H
  | H : negb _ = false |- _ => apply negb_false_iff in H
  | H : bool_decide _ = true |- _ => apply bool_decide_eq_true in H
  | H : bool_decide _ = false |- _ => apply bool_decide_eq_false in H
  end.

(** Case analysis on the scrutinee of the first [match] of the goal or of a
    hypothesis, keeping its equation. *)
Ltac case_hyp H := match type of H with context [match ?x with _ => _ end] => destruct x eqn:? end.
