(* ===== verification/Order.v ===== *)
(** Total orders given by a comparison function (Rust's [Ord]), the sorts the
    code runs on them ([sort], [dedup]) and ordered iteration of a [BTreeMap].

    [TotalCmp] is the interface: what a component that sorts or searches relies
    on. Instances: strings by bytes and vectors lexicographically, which are the
    [Ord] instances the artifact keys derive. *)

From S2P Require Import Prelude.

Class TotalCmp {A : Type} (cmp : A → A → comparison) : Prop := {
  cmp_eq : ∀ x y, cmp x y = Eq ↔ x = y;
  cmp_opp : ∀ x y, cmp y x = CompOpp (cmp x y);
  cmp_lt_trans : ∀ x y z, cmp x y = Lt → cmp y z = Lt → cmp x z = Lt;
}.

Arguments cmp_eq {A} cmp {_} x y : assert.
Arguments cmp_opp {A} cmp {_} x y : assert.
Arguments cmp_lt_trans {A} cmp {_} x y z _ _ : assert.

Definition cmp_lt {A} (cmp : A → A → comparison) (x y : A) : Prop := cmp x y = Lt.

Global Instance str_total : TotalCmp str_cmp.
Proof.
  split.
  - apply str_cmp_eq.
  - intros x y. apply str_cmp_antisym.
  - intros x y z. apply (transitivity (R := str_lt)).
Qed.

(** [Ord] of [Vec]: lexicographic, a proper prefix first. *)
Fixpoint list_cmp {A} (cmp : A → A → comparison) (l k : list A) : comparison :=
  match l, k with
  | [], [] => Eq
  | [], _ :: _ => Lt
  | _ :: _, [] => Gt
  | x :: l, y :: k => match cmp x y with Eq => list_cmp cmp l k | c => c end
  end.

Global Instance list_total {A} (cmp : A → A → comparison) :
  TotalCmp cmp → TotalCmp (list_cmp cmp).
Proof.
  intros Hc. split.
  - intros l. induction l as [|x l IH]; intros [|y k]; cbn; try naive_solver.
    destruct (cmp x y) eqn:E.
    + apply (cmp_eq cmp) in E as ->. rewrite IH. naive_solver.
    + split; [done|]. intros [= -> ->]. by rewrite (proj2 (cmp_eq cmp y y) eq_refl) in E.
    + split; [done|]. intros [= -> ->]. by rewrite (proj2 (cmp_eq cmp y y) eq_refl) in E.
  - intros l. induction l as [|x l IH]; intros [|y k]; cbn; try done.
    rewrite (cmp_opp cmp x y). destruct (cmp x y); cbn; [apply IH|done..].
  - intros l. induction l as [|x l IH]; intros [|y k] [|z m]; cbn; try done.
    destruct (cmp x y) eqn:Exy; try done.
    + apply (cmp_eq cmp) in Exy as ->. intros ?. destruct (cmp y z); [by apply IH|done..].
    + intros _. destruct (cmp y z) eqn:Eyz; try done.
      * apply (cmp_eq cmp) in Eyz as ->. by rewrite Exy.
      * intros _. by rewrite (cmp_lt_trans cmp x y z).
Qed.

(** ** Sorting *)

(** [sort()]. *)
Fixpoint insert_sorted {A} (cmp : A → A → comparison) (x : A) (l : list A) : list A :=
  match l with
  | [] => [x]
  | y :: l' => match cmp x y with Gt => y :: insert_sorted cmp x l' | _ => x :: l end
  end.

Definition isort {A} (cmp : A → A → comparison) (l : list A) : list A :=
  foldr (insert_sorted cmp) [] l.

(** [dedup()]: drops an element equal to its predecessor. *)
Fixpoint dedup {A} (cmp : A → A → comparison) (l : list A) : list A :=
  match l with
  | x :: (y :: _) as l' => match cmp x y with Eq => dedup cmp l' | _ => x :: dedup cmp l' end
  | _ => l
  end.

(** [windows(2).any(test)]. *)
Fixpoint windows_any {A} (test : A → A → bool) (l : list A) : bool :=
  match l with
  | x :: (y :: _) as l' => test x y || windows_any test l'
  | _ => false
  end.

Section sorting.
Context {A : Type} (cmp : A → A → comparison) `{!TotalCmp cmp}.
Implicit Types l : list A.

Lemma cmp_refl x : cmp x x = Eq.
Proof. by apply (cmp_eq cmp). Qed.

Lemma cmp_gt_lt x y : cmp x y = Gt ↔ cmp y x = Lt.
Proof. rewrite (cmp_opp cmp x y). by destruct (cmp x y). Qed.

Lemma insert_sorted_perm x l : insert_sorted cmp x l ≡ₚ x :: l.
Proof.
  induction l as [|y l IH]; cbn; [done|]. destruct (cmp x y); [done..|].
  rewrite IH. apply perm_swap.
Qed.

Lemma isort_perm l : isort cmp l ≡ₚ l.
Proof. induction l as [|x l IH]; cbn; [done|]. by rewrite insert_sorted_perm, IH. Qed.

Definition cmp_le (x y : A) : Prop := cmp x y ≠ Gt.

Lemma cmp_le_trans x y z : cmp_le x y → cmp_le y z → cmp_le x z.
Proof.
  unfold cmp_le. destruct (cmp x y) eqn:E1; [|destruct (cmp y z) eqn:E2|]; try done.
  - by apply (cmp_eq cmp) in E1 as ->.
  - apply (cmp_eq cmp) in E2 as ->. by rewrite E1.
  - intros _ _. by rewrite (cmp_lt_trans cmp x y z).
Qed.

Lemma insert_sorted_sorted x l :
  StronglySorted cmp_le l → StronglySorted cmp_le (insert_sorted cmp x l).
Proof.
  induction 1 as [|y l Hl IH Hy]; cbn; [repeat constructor|].
  assert (cmp x y ≠ Gt → StronglySorted cmp_le (x :: y :: l)) as Hcons.
  { intros Hxy. constructor; [by constructor|]. constructor; [done|].
    eapply Forall_impl; [exact Hy|]. intros z. by apply cmp_le_trans. }
  destruct (cmp x y) eqn:E; [by apply Hcons..|].
  constructor; [done|]. rewrite insert_sorted_perm. constructor; [|done].
  unfold cmp_le. by rewrite (cmp_opp cmp x y), E.
Qed.

Lemma isort_sorted l : StronglySorted cmp_le (isort cmp l).
Proof. induction l as [|x l IH]; cbn; [constructor|]. by apply insert_sorted_sorted. Qed.

Lemma dedup_cons x y l :
  dedup cmp (x :: y :: l) =
    match cmp x y with Eq => dedup cmp (y :: l) | _ => x :: dedup cmp (y :: l) end.
Proof. done. Qed.

Lemma windows_any_cons (test : A → A → bool) x y l :
  windows_any test (x :: y :: l) = test x y || windows_any test (y :: l).
Proof. done. Qed.

Lemma dedup_elem_of x l : x ∈ dedup cmp l ↔ x ∈ l.
Proof.
  induction l as [|y l IH]; [done|]. destruct l as [|z l]; [done|].
  rewrite dedup_cons. destruct (cmp y z) eqn:E.
  - apply (cmp_eq cmp) in E as ->. rewrite IH. set_solver.
  - rewrite !elem_of_cons in *. rewrite IH. done.
  - rewrite !elem_of_cons in *. rewrite IH. done.
Qed.

Lemma dedup_ascending l : StronglySorted cmp_le l → StronglySorted (cmp_lt cmp) (dedup cmp l).
Proof.
  induction 1 as [|y l Hl IH Hy]; [constructor|]. destruct l as [|z l]; [repeat constructor|].
  rewrite dedup_cons. destruct (cmp y z) eqn:E; [done| |].
  - constructor; [done|]. apply Forall_forall. intros w Hw. rewrite dedup_elem_of in Hw.
    assert (cmp_le z w) as Hzw.
    { apply elem_of_cons in Hw as [->|Hw]; [unfold cmp_le; by rewrite cmp_refl|].
      apply StronglySorted_inv in Hl as [_ Hz]. rewrite Forall_forall in Hz. by apply Hz. }
    unfold cmp_le in Hzw. unfold cmp_lt. destruct (cmp z w) eqn:Ezw; try done.
    + by apply (cmp_eq cmp) in Ezw as <-.
    + by apply (cmp_lt_trans cmp y z w).
  - by inversion_clear Hy.
Qed.

Lemma ascending_cmp_NoDup l : StronglySorted (cmp_lt cmp) l → NoDup l.
Proof.
  induction 1 as [|x l _ IH Hx]; [constructor|]. constructor; [|done].
  intros Hin. rewrite Forall_forall in Hx. specialize (Hx x Hin). unfold cmp_lt in Hx.
  by rewrite cmp_refl in Hx.
Qed.

(** An ascending list is a fixed point of [sort] and [dedup]. *)
Lemma ascending_isort l : StronglySorted (cmp_lt cmp) l → isort cmp l = l.
Proof.
  induction 1 as [|x l Hl IH Hx]; [done|].
  change (isort cmp (x :: l)) with (insert_sorted cmp x (isort cmp l)). rewrite IH.
  destruct l as [|y l]; [done|]. cbn. apply Forall_cons in Hx as [Hxy _].
  unfold cmp_lt in Hxy. by rewrite Hxy.
Qed.

Lemma ascending_dedup l : StronglySorted (cmp_lt cmp) l → dedup cmp l = l.
Proof.
  induction 1 as [|x l Hl IH Hx]; [done|]. destruct l as [|y l]; [done|]. rewrite dedup_cons.
  apply Forall_cons in Hx as [Hxy _]. unfold cmp_lt in Hxy. rewrite Hxy. by rewrite IH.
Qed.

(** Two ascending lists with the same elements are equal. *)
Lemma ascending_unique l k :
  StronglySorted (cmp_lt cmp) l → StronglySorted (cmp_lt cmp) k →
  (∀ x, x ∈ l ↔ x ∈ k) → l = k.
Proof.
  intros Hl. revert k. induction Hl as [|x l Hl IH Hx]; intros k Hk Heq.
  { destruct k as [|y k]; [done|]. specialize (Heq y). set_solver. }
  destruct Hk as [|y k Hk Hy]; [specialize (Heq x); set_solver|].
  rewrite Forall_forall in Hx, Hy. unfold cmp_lt in *.
  assert (x = y) as ->.
  { assert (x ∈ y :: k) as [->|Hxk]%elem_of_cons by (apply Heq; set_solver); [done|].
    assert (y ∈ x :: l) as [->|Hyl]%elem_of_cons by (apply Heq; set_solver); [done|].
    specialize (Hx y Hyl). specialize (Hy x Hxk). rewrite (cmp_opp cmp x y), Hx in Hy. done. }
  f_equal. apply IH; [done|]. intros z. split; intros Hz.
  - assert (z ∈ y :: k) as [->|?]%elem_of_cons by (apply Heq; set_solver); [|done].
    specialize (Hx y Hz). by rewrite cmp_refl in Hx.
  - assert (z ∈ y :: l) as [->|?]%elem_of_cons by (apply Heq; set_solver); [|done].
    specialize (Hy y Hz). by rewrite cmp_refl in Hy.
Qed.

Lemma windows_ascending l :
  windows_any (λ x y, match cmp x y with Lt => false | _ => true end) l = false ↔
    StronglySorted (cmp_lt cmp) l.
Proof.
  split.
  - intros Hw. apply Sorted_StronglySorted; [intros x y z; apply (cmp_lt_trans cmp)|].
    induction l as [|x l IH]; [constructor|]. destruct l as [|y l]; [repeat constructor|].
    rewrite windows_any_cons in Hw. apply orb_false_iff in Hw as [Hxy Hw].
    constructor; [by apply IH|]. constructor. unfold cmp_lt. by destruct (cmp x y).
  - induction 1 as [|x l Hl IH Hx]; [done|]. destruct l as [|y l]; [done|].
    rewrite windows_any_cons, IH. apply Forall_cons in Hx as [Hxy _]. unfold cmp_lt in Hxy.
    by rewrite Hxy.
Qed.

(** On a sorted list, no two neighbours are equal iff nothing repeats. *)
Lemma windows_distinct `{EqDecision A} l :
  StronglySorted cmp_le l → windows_any (λ x y, bool_decide (x = y)) l = false ↔ NoDup l.
Proof.
  induction 1 as [|x l Hl IH Hx]; [split; [constructor|done]|].
  destruct l as [|y l]; [split; [intros _; apply NoDup_singleton|done]|].
  rewrite windows_any_cons, orb_false_iff, bool_decide_eq_false, IH, (NoDup_cons x).
  split; [|set_solver]. intros [Hxy Hnd]. split; [|done]. intros [->|Hin]%elem_of_cons; [done|].
  apply Forall_cons in Hx as [Hle _]. apply StronglySorted_inv in Hl as [_ Hy].
  rewrite Forall_forall in Hy. specialize (Hy x Hin). unfold cmp_le in *.
  rewrite (cmp_opp cmp x y) in Hy. destruct (cmp x y) eqn:E; [by apply (cmp_eq cmp) in E|done|done].
Qed.

Lemma sorted_ascending l :
  StronglySorted cmp_le l → NoDup l → StronglySorted (cmp_lt cmp) l.
Proof.
  induction 1 as [|x l Hl IH Hx]; [constructor|]. intros [Hn Hnd]%NoDup_cons.
  constructor; [by apply IH|]. apply Forall_forall. intros y Hy. rewrite Forall_forall in Hx.
  specialize (Hx y Hy). unfold cmp_le in Hx. unfold cmp_lt.
  destruct (cmp x y) eqn:E; [apply (cmp_eq cmp) in E; by subst|done|done].
Qed.
End sorting.

(** ** Ordered iteration of maps and sets *)

Section ordered_maps.
Context {K : Type} `{Countable K} (cmp : K → K → comparison) `{!TotalCmp cmp}.

(** [BTreeSet] in order. *)
Definition set_in_order (s : gset K) : list K := isort cmp (elements s).

(** [BTreeMap] in key order. *)
Definition map_in_order {A} (m : gmap K A) : list (K * A) :=
  omap (λ k, (λ a, (k, a)) <$> m !! k) (set_in_order (dom m)).

Lemma elem_of_set_in_order s x : x ∈ set_in_order s ↔ x ∈ s.
Proof. unfold set_in_order. rewrite isort_perm. by rewrite elem_of_elements. Qed.

Lemma set_in_order_NoDup s : NoDup (set_in_order s).
Proof. unfold set_in_order. rewrite isort_perm. apply NoDup_elements. Qed.

Lemma set_in_order_length s : length (set_in_order s) = size s.
Proof. unfold set_in_order. by rewrite isort_perm. Qed.

Lemma elem_of_map_in_order {A} (m : gmap K A) k a : (k, a) ∈ map_in_order m ↔ m !! k = Some a.
Proof.
  unfold map_in_order. rewrite list_elem_of_omap. setoid_rewrite elem_of_set_in_order.
  setoid_rewrite fmap_Some. split.
  - by intros (k' & _ & a' & Ha & [= <- <-]).
  - intros Ha. exists k. split; [apply elem_of_dom; eauto|eauto].
Qed.

Lemma map_in_order_keys {A} (m : gmap K A) : (map_in_order m).*1 = set_in_order (dom m).
Proof.
  unfold map_in_order.
  assert (Forall (λ k, is_Some (m !! k)) (set_in_order (dom m))) as Hall.
  { apply Forall_forall. intros k. by rewrite elem_of_set_in_order, elem_of_dom. }
  induction Hall as [|k l [a Ha] _ IH]; [done|]. cbn. rewrite Ha. cbn. by rewrite IH.
Qed.

Lemma map_in_order_NoDup {A} (m : gmap K A) : NoDup (map_in_order m).*1.
Proof. rewrite map_in_order_keys. apply set_in_order_NoDup. Qed.
End ordered_maps.
