(* ===== verification/Policy.v ===== *)
(** Semantic policies of callables: [caap/src/semantic/policy.rs].

    The label enums with their parsers, effect tags and effect sets (sorted
    vectors searched by bisection), effect policies and capability names.
    A string is its UTF-8 byte sequence; [EffectSet] keeps the sorted,
    duplicate-free vector the Rust code keeps. *)

From S2P Require Import Prelude.

(** Errors of the semantic layer carry their message; [CaapError] (file
    [Source]) wraps them. Rust's [{value:?}] is [debug_str]. *)
Definition SemanticError := string.

Definition quote : string := String (Ascii.ascii_of_nat 34) EmptyString.

(** [char::escape_debug] in a string, byte by byte: quotes, backslashes and control
    characters are escaped. Characters beyond ASCII are left as they are, although
    Rust escapes the unprintable ones among them too. *)
Definition debug_char (c : Ascii.ascii) : string :=
  let n := Ascii.N_of_ascii c in
  let hex (d : N) : string :=
    String (Ascii.ascii_of_N (if (d <? 10)%N then 48 + d else 87 + d)) EmptyString in
  if (n =? 0)%N then "\0"
  else if (n =? 9)%N then "\t"
  else if (n =? 10)%N then "\n"
  else if (n =? 13)%N then "\r"
  else if (n =? 34)%N || (n =? 92)%N then "\" +:+ String c EmptyString
  else if (n <? 16)%N then "\u{" +:+ hex n +:+ "}"
  else if (n <? 32)%N || (n =? 127)%N then "\u{" +:+ hex (n / 16)%N +:+ hex (n mod 16)%N +:+ "}"
  else String c EmptyString.

Definition debug_str (s : string) : string :=
  quote +:+ String.concat EmptyString (debug_char <$> String.list_ascii_of_string s) +:+ quote.

(** ** Label enums *)

Inductive PhasePolicy := PhaseRuntime | PhaseCompileTime | PhaseDual.
Inductive EvalPolicy := EvalEager | EvalLazyIf | EvalSequential | EvalSpecialForm.
Inductive ControlPolicy := ControlPlain | ControlConditionalBranch | ControlStructuredExit.
Inductive ScopePolicy := ScopeNone | ScopeLexicalBinding.
Inductive FoldPolicy := FoldAlways | FoldRuntimePure | FoldNever.

Global Instance PhasePolicy_eq_dec : EqDecision PhasePolicy.
Proof. solve_decision. Defined.
Global Instance EvalPolicy_eq_dec : EqDecision EvalPolicy.
Proof. solve_decision. Defined.
Global Instance ControlPolicy_eq_dec : EqDecision ControlPolicy.
Proof. solve_decision. Defined.
Global Instance ScopePolicy_eq_dec : EqDecision ScopePolicy.
Proof. solve_decision. Defined.
Global Instance FoldPolicy_eq_dec : EqDecision FoldPolicy.
Proof. solve_decision. Defined.

Definition phase_as_str (p : PhasePolicy) : string :=
  match p with
  | PhaseRuntime => "runtime"
  | PhaseCompileTime => "compile_time"
  | PhaseDual => "dual"
  end.

Definition phase_parse_label (value : string) : Result SemanticError PhasePolicy :=
  if decide (value = "runtime") then Ok PhaseRuntime
  else if decide (value = "compile_time") then Ok PhaseCompileTime
  else if decide (value = "dual") then Ok PhaseDual
  else Err ("phase policy must be one of runtime, compile_time, or dual: "
              +:+ debug_str value).

Definition eval_as_str (p : EvalPolicy) : string :=
  match p with
  | EvalEager => "eager"
  | EvalLazyIf => "lazy_if"
  | EvalSequential => "sequential"
  | EvalSpecialForm => "special_form"
  end.

Definition eval_parse_label (value : string) : Result SemanticError EvalPolicy :=
  if decide (value = "eager") then Ok EvalEager
  else if decide (value = "lazy_if") then Ok EvalLazyIf
  else if decide (value = "sequential") then Ok EvalSequential
  else if decide (value = "special_form") then Ok EvalSpecialForm
  else Err ("eval policy must be one of eager, lazy_if, sequential, or special_form: "
              +:+ debug_str value).

Definition control_as_str (p : ControlPolicy) : string :=
  match p with
  | ControlPlain => "plain"
  | ControlConditionalBranch => "conditional_branch"
  | ControlStructuredExit => "structured_exit"
  end.

Definition control_parse_label (value : string) : Result SemanticError ControlPolicy :=
  if decide (value = "plain") then Ok ControlPlain
  else if decide (value = "conditional_branch") then Ok ControlConditionalBranch
  else if decide (value = "structured_exit") then Ok ControlStructuredExit
  else Err ("control policy must be one of plain, conditional_branch, or structured_exit: "
              +:+ debug_str value).

Definition scope_as_str (p : ScopePolicy) : string :=
  match p with
  | ScopeNone => "none"
  | ScopeLexicalBinding => "lexical_binding"
  end.

Definition scope_parse_label (value : string) : Result SemanticError ScopePolicy :=
  if decide (value = "none") then Ok ScopeNone
  else if decide (value = "lexical_binding") then Ok ScopeLexicalBinding
  else Err ("scope policy must be one of none or lexical_binding: " +:+ debug_str value).

Definition fold_as_str (p : FoldPolicy) : string :=
  match p with
  | FoldAlways => "always"
  | FoldRuntimePure => "runtime_pure"
  | FoldNever => "never"
  end.

Definition fold_parse_label (value : string) : Result SemanticError FoldPolicy :=
  if decide (value = "always") then Ok FoldAlways
  else if decide (value = "runtime_pure") then Ok FoldRuntimePure
  else if decide (value = "never") then Ok FoldNever
  else Err ("fold policy must be one of always, runtime_pure, or never: " +:+ debug_str value).

(** ** Strings as bytes *)

Definition char_code (c : Ascii.ascii) : nat := Ascii.nat_of_ascii c.

(** [ch.is_ascii_lowercase() || ch.is_ascii_digit() || ch == '_']. *)
Definition tag_char (c : Ascii.ascii) : bool :=
  let n := char_code c in
  ((97 <=? n) && (n <=? 122)) || ((48 <=? n) && (n <=? 57)) || (n =? 95).

Fixpoint string_forallb (f : Ascii.ascii → bool) (s : string) : bool :=
  match s with
  | EmptyString => true
  | String c s => f c && string_forallb f s
  end.

(** [str::starts_with], [str::ends_with] and [str::contains] with a string
    pattern: on valid UTF-8 they are the byte-wise tests. *)
Fixpoint starts_with (p s : string) : bool :=
  match p, s with
  | EmptyString, _ => true
  | String a p, String b s => bool_decide (a = b) && starts_with p s
  | String _ _, EmptyString => false
  end.

Fixpoint ends_with (p s : string) : bool :=
  bool_decide (s = p) ||
  match s with EmptyString => false | String _ s => ends_with p s end.

Fixpoint str_contains (p s : string) : bool :=
  starts_with p s ||
  match s with EmptyString => false | String _ s => str_contains p s end.

Fixpoint bytes_string (l : list nat) : string :=
  match l with
  | [] => EmptyString
  | n :: l => String (Ascii.ascii_of_nat n) (bytes_string l)
  end.

(** The UTF-8 encodings of Unicode [White_Space], what [str::trim] and
    [char::is_whitespace] test. *)
Definition white_space : list string :=
  bytes_string <$>
    ([[9]; [10]; [11]; [12]; [13]; [32]; [194; 133]; [194; 160]; [225; 154; 128];
      [226; 128; 168]; [226; 128; 169]; [226; 128; 175]; [226; 129; 159]; [227; 128; 128]]
     ++ ((λ n, [226; 128; n]) <$> seq 128 11)).

(** The UTF-8 encodings of the control characters ([char::is_control]). *)
Definition control_chars : list string :=
  bytes_string <$> (((λ n, [n]) <$> (seq 0 32 ++ [127])) ++ ((λ n, [194; n]) <$> seq 128 32)).

(** [s.trim() != s]. *)
Definition has_outer_space (s : string) : bool :=
  existsb (λ w, starts_with w s || ends_with w s) white_space.

Definition validate_effect_policy_tag (tag : string) : Result SemanticError unit :=
  if decide (tag = "") then Err "effect policy tags must be non-empty"
  else if has_outer_space tag then
    Err ("effect policy tags must not contain leading or trailing whitespace: "
           +:+ debug_str tag)
  else if negb (string_forallb tag_char tag) then
    Err ("effect policy tag contains unsupported characters: " +:+ debug_str tag)
  else if starts_with "_" tag || ends_with "_" tag || str_contains "__" tag then
    Err ("effect policy tags must be snake_case with non-empty segments: "
           +:+ debug_str tag)
  else Ok tt.

Abbreviation EffectTag := string (only parsing).

Definition effect_tag_new (value : string) : Result SemanticError EffectTag :=
  _ ← validate_effect_policy_tag value; Ok value.

(** ** Capability names *)

Abbreviation CapabilityName := string (only parsing).

(** [str::split('.')]: the segments between dots, the empty ones included. *)
Fixpoint split_dots (s : string) : list string :=
  match s with
  | EmptyString => [EmptyString]
  | String c s =>
      if char_code c =? 46 then EmptyString :: split_dots s
      else match split_dots s with
           | seg :: rest => String c seg :: rest
           | [] => [String c EmptyString]
           end
  end.

Definition validate_capability_segment (segment : string) : Result SemanticError unit :=
  if decide (segment = "") then Err "capability name segments must be non-empty"
  else if existsb (λ w, str_contains w segment) white_space then
    Err "capability name segments must not contain whitespace"
  else if str_contains "*" segment then
    Err "capability wildcard grants are not supported; grant concrete capabilities explicitly"
  else Ok tt.

Definition validate_capability_name (capability : string) : Result SemanticError unit :=
  if decide (capability = "") then Err "capability name must be non-empty"
  else if has_outer_space capability then
    Err "capability name must not contain leading or trailing whitespace"
  else if existsb (λ w, str_contains w capability) control_chars then
    Err "capability name must not contain control characters"
  else for_each validate_capability_segment (split_dots capability).

Definition capability_new (value : string) : Result SemanticError CapabilityName :=
  _ ← validate_capability_name value; Ok value.

(** [str::strip_prefix]. *)
Fixpoint strip_prefix (p s : string) : option string :=
  match p, s with
  | EmptyString, s => Some s
  | String a p, String b s => if decide (a = b) then strip_prefix p s else None
  | String _ _, EmptyString => None
  end.

(** [CapabilityName::covers]: a grant covers itself and every dotted refinement. *)
Definition covers (self requested : CapabilityName) : bool :=
  bool_decide (self = requested) ||
  match strip_prefix self requested with
  | Some rest => starts_with "." rest
  | None => false
  end.

(** ** Effect sets *)

Record EffectSet := { es_tags : list EffectTag }.

Definition es_empty : EffectSet := {| es_tags := [] |}.

(** [BTreeSet::insert] into the sorted tag list: the set and whether the tag
    was new. *)
Fixpoint btree_insert (tag : EffectTag) (l : list EffectTag) : list EffectTag * bool :=
  match l with
  | [] => ([tag], true)
  | x :: l' =>
      match str_cmp tag x with
      | Lt => (tag :: l, true)
      | Eq => (l, false)
      | Gt => let '(r, fresh) := btree_insert tag l' in (x :: r, fresh)
      end
  end.

Definition from_unique_strings (values : list string) (label : string) :
    Result SemanticError EffectSet :=
  seen ← try_fold (λ seen value,
    tag ← map_err (λ error, label +:+ " is invalid (" +:+ debug_str value +:+ "): " +:+ error)
            (effect_tag_new value);
    let '(seen', fresh) := btree_insert tag seen in
    if negb fresh then Err (label +:+ " is duplicated: " +:+ tag)
    else Ok seen') [] values;
  Ok {| es_tags := seen |}.

Definition from_string_set (values : list string) (label : string) :
    Result SemanticError EffectSet :=
  seen ← try_fold (λ seen value,
    tag ← map_err (λ error, label +:+ " is invalid (" +:+ debug_str value +:+ "): " +:+ error)
            (effect_tag_new value);
    Ok (btree_insert tag seen).1) [] values;
  Ok {| es_tags := seen |}.

(** [slice::binary_search_by] on the sorted tags: bisection of a window
    [[base, base + size)], halving [size] each round, then one comparison. *)
Fixpoint bisect (fuel : nat) (l : list EffectTag) (expected : string) (base size : nat) : nat :=
  match fuel with
  | 0 => base
  | S fuel =>
      if size <=? 1 then base
      else
        let half := size / 2 in
        let mid := base + half in
        let base' := match l !! mid with
                     | Some x => match str_cmp x expected with Gt => base | _ => mid end
                     | None => base
                     end in
        bisect fuel l expected base' (size - half)
  end.

Definition binary_search_ok (l : list EffectTag) (expected : string) : bool :=
  match l with
  | [] => false
  | _ => match l !! bisect (length l) l expected 0 (length l) with
         | Some x => match str_cmp x expected with Eq => true | _ => false end
         | None => false
         end
  end.

Definition es_contains (self : EffectSet) (expected : EffectTag) : bool :=
  binary_search_ok (es_tags self) expected.

Definition es_is_empty (self : EffectSet) : bool :=
  match es_tags self with [] => true | _ => false end.

Definition es_is_subset_of (self allowed : EffectSet) : bool :=
  forallb (es_contains allowed) (es_tags self).

Inductive BuiltinEffectTag :=
  | TagCompilerRegistry | TagEmitDiagnostics | TagEmitEvents | TagHostServices | TagImpure
  | TagMutation | TagReadAttributes | TagReadFacts | TagReadFiles | TagReadIr | TagReadSymbols
  | TagRequestRestart | TagUseFiles | TagUseHostServices | TagWriteAttributes | TagWriteFacts
  | TagWriteFiles | TagWriteIr | TagWriteSymbols.

Definition builtin_tag_as_str (t : BuiltinEffectTag) : string :=
  match t with
  | TagCompilerRegistry => "compiler_registry"
  | TagEmitDiagnostics => "emit_diagnostics"
  | TagEmitEvents => "emit_events"
  | TagHostServices => "host_services"
  | TagImpure => "impure"
  | TagMutation => "mutation"
  | TagReadAttributes => "read_attributes"
  | TagReadFacts => "read_facts"
  | TagReadFiles => "read_files"
  | TagReadIr => "read_ir"
  | TagReadSymbols => "read_symbols"
  | TagRequestRestart => "request_restart"
  | TagUseFiles => "use_files"
  | TagUseHostServices => "use_host_services"
  | TagWriteAttributes => "write_attributes"
  | TagWriteFacts => "write_facts"
  | TagWriteFiles => "write_files"
  | TagWriteIr => "write_ir"
  | TagWriteSymbols => "write_symbols"
  end.

Definition from_builtin_tags (tags : list BuiltinEffectTag) : EffectSet :=
  {| es_tags := fold_left (λ seen t, (btree_insert (builtin_tag_as_str t) seen).1) tags [] |}.

(** ** Effect policies *)

Record EffectPolicy := { ep_tags : EffectSet }.

Definition ep_pure : EffectPolicy := {| ep_tags := es_empty |}.

Definition ep_new (tags : list string) : Result SemanticError EffectPolicy :=
  tags ← from_unique_strings tags "effect policy tag"; Ok {| ep_tags := tags |}.

Definition ep_single (tag : string) : Result SemanticError EffectPolicy := ep_new [tag].

Definition ep_parse_label (value : string) : Result SemanticError EffectPolicy :=
  if decide (value = "pure") then Ok ep_pure else ep_single value.

Definition ep_builtins (tags : list BuiltinEffectTag) : EffectPolicy :=
  {| ep_tags := from_builtin_tags tags |}.

Definition ep_builtin (tag : BuiltinEffectTag) : EffectPolicy := ep_builtins [tag].

Definition ep_is_pure (self : EffectPolicy) : bool := es_is_empty (ep_tags self).

Definition ep_allows (self : EffectPolicy) (tag : string) : bool :=
  es_contains (ep_tags self) tag.

Definition ep_is_subset_of (self : EffectPolicy) (allowed : EffectSet) : bool :=
  es_is_subset_of (ep_tags self) allowed.

(** * Properties *)

(** ** Effect sets are ascending and bisection decides membership *)

Section effect_sets.
Implicit Types l : list EffectTag.

Lemma btree_insert_elem_of t l u : u ∈ (btree_insert t l).1 ↔ u = t ∨ u ∈ l.
Proof.
  induction l as [|x l IH]; cbn; [set_solver|].
  destruct (str_cmp t x) eqn:E; cbn.
  - apply str_cmp_eq in E as ->. set_solver.
  - set_solver.
  - destruct (btree_insert t l) as [r fresh]; cbn in *. rewrite !elem_of_cons, IH. tauto.
Qed.

Lemma btree_insert_ascending t l : ascending l → ascending (btree_insert t l).1.
Proof.
  unfold ascending. induction 1 as [|x l Hl IH Hx]; cbn; [repeat constructor|].
  destruct (str_cmp t x) eqn:E; cbn.
  - by constructor.
  - repeat constructor; [done..|]. eapply Forall_impl; [exact Hx|].
    intros y Hy. by transitivity x.
  - destruct (btree_insert t l) as [r fresh] eqn:Hr; cbn in *. constructor; [done|].
    apply Forall_forall. intros y Hy.
    assert (y = t ∨ y ∈ l) as [->|Hy'].
    { apply btree_insert_elem_of. by rewrite Hr. }
    + by apply str_cmp_gt.
    + rewrite Forall_forall in Hx. by apply Hx.
Qed.

Lemma btree_insert_fresh t l : (btree_insert t l).2 = false → t ∈ l.
Proof.
  induction l as [|x l IH]; cbn; [done|].
  destruct (str_cmp t x) eqn:E; cbn; [|done|].
  - apply str_cmp_eq in E as ->. set_solver.
  - destruct (btree_insert t l) as [r fresh]; cbn in *. set_solver.
Qed.

Lemma bisect_window fuel l e base size k :
  ascending l → l !! k = Some e → base ≤ k < base + size → base + size ≤ length l →
  size ≤ fuel → bisect fuel l e base size = k.
Proof.
  intros Hl Hk. revert base size.
  induction fuel as [|fuel IH]; intros base size Hwin Hlen Hfuel; [lia|].
  cbn [bisect]. destruct (Nat.leb_spec size 1) as [Hsz|Hsz]; [lia|].
  assert (size / 2 < size ∧ 1 ≤ size / 2 ∧ size / 2 ≤ size - size / 2) as (H1 & H2 & H3).
  { pose proof (Nat.div_mod_eq size 2). pose proof (Nat.mod_upper_bound size 2). lia. }
  destruct (l !! (base + size / 2)) as [x|] eqn:Hmid.
  2:{ apply lookup_ge_None in Hmid. lia. }
  destruct (str_cmp x e) eqn:Hcmp; apply IH; try lia.
  - apply str_cmp_eq in Hcmp as ->.
    assert (base + size / 2 = k); [|lia].
    by apply (NoDup_lookup l _ _ e); [apply ascending_NoDup|..].
  - destruct (decide (k < base + size / 2)) as [Hlt|]; [|lia].
    pose proof (ascending_lookup_lt l _ _ _ _ Hl Hk Hmid Hlt) as Hxe.
    exfalso. apply (irreflexivity str_lt e). by transitivity x.
  - destruct (decide (k < base + size / 2)) as [|Hge]; [lia|].
    apply str_cmp_gt in Hcmp.
    destruct (decide (k = base + size / 2)) as [->|Hne].
    { rewrite Hk in Hmid; injection Hmid as ->. exfalso. by apply (irreflexivity str_lt x). }
    pose proof (ascending_lookup_lt l _ _ _ _ Hl Hmid Hk ltac:(lia)) as Hxe.
    exfalso. apply (irreflexivity str_lt e). by transitivity x.
Qed.

Lemma binary_search_spec l e : ascending l → binary_search_ok l e = true ↔ e ∈ l.
Proof.
  intros Hl. unfold binary_search_ok. split.
  - destruct l as [|y l']; [done|]. set (i := bisect _ _ _ _ _).
    destruct ((y :: l') !! i) as [x|] eqn:Hx; [|done].
    destruct (str_cmp x e) eqn:Hc; try done. intros _.
    apply str_cmp_eq in Hc as ->. by eapply list_elem_of_lookup_2.
  - intros [k Hk]%list_elem_of_lookup.
    rewrite (bisect_window _ l e 0 (length l) k); [|done|done| |lia|lia].
    + rewrite Hk, str_cmp_refl. by destruct l.
    + apply lookup_lt_Some in Hk. lia.
Qed.

Lemma unique_fold_inv label values l l' :
  try_fold (λ seen value,
    tag ← map_err (λ error, label +:+ " is invalid (" +:+ debug_str value +:+ "): " +:+ error)
            (effect_tag_new value);
    let '(seen', fresh) := btree_insert tag seen in
    if negb fresh then Err (label +:+ " is duplicated: " +:+ tag) else Ok seen') l values
    = Ok l' →
  ascending l → ascending l' ∧ ∀ t, t ∈ l' ↔ t ∈ l ∨ t ∈ values.
Proof.
  revert l. induction values as [|v vs IH]; intros l; cbn.
  { intros [= ->] ?. set_solver. }
  unfold effect_tag_new. destruct (validate_effect_policy_tag v); [cbn|done].
  pose proof (btree_insert_elem_of v l) as Hmem.
  pose proof (btree_insert_ascending v l) as Hasc.
  destruct (btree_insert v l) as [r [|]]; cbn in *; [|done].
  intros Hr Hl. destruct (IH r Hr (Hasc Hl)) as [? Ht].
  split; [done|]. intros t. rewrite Ht, Hmem, elem_of_cons. tauto.
Qed.

Lemma set_fold_inv label values l l' :
  try_fold (λ seen value,
    tag ← map_err (λ error, label +:+ " is invalid (" +:+ debug_str value +:+ "): " +:+ error)
            (effect_tag_new value);
    Ok (btree_insert tag seen).1) l values = Ok l' →
  ascending l → ascending l' ∧ ∀ t, t ∈ l' ↔ t ∈ l ∨ t ∈ values.
Proof.
  revert l. induction values as [|v vs IH]; intros l; cbn.
  { intros [= ->] ?. set_solver. }
  unfold effect_tag_new. destruct (validate_effect_policy_tag v); [cbn|done].
  intros Hr Hl. destruct (IH _ Hr (btree_insert_ascending v l Hl)) as [? Ht].
  split; [done|]. intros t. rewrite Ht, btree_insert_elem_of, elem_of_cons. tauto.
Qed.

Lemma builtin_fold_inv (tags : list BuiltinEffectTag) l :
  ascending l →
  let r := fold_left (λ seen t, (btree_insert (builtin_tag_as_str t) seen).1) tags l in
  ascending r ∧ ∀ u, u ∈ r ↔ u ∈ l ∨ ∃ t, t ∈ tags ∧ u = builtin_tag_as_str t.
Proof.
  revert l. induction tags as [|t ts IH]; intros l Hl; cbn; [set_solver|].
  destruct (IH _ (btree_insert_ascending (builtin_tag_as_str t) l Hl)) as [? Hu].
  split; [done|]. intros u. rewrite Hu, btree_insert_elem_of. set_solver.
Qed.
End effect_sets.

(** The effect sets the constructors build. *)
Inductive es_built : EffectSet → Prop :=
  | es_built_empty : es_built es_empty
  | es_built_unique values label s :
      from_unique_strings values label = Ok s → es_built s
  | es_built_set values label s :
      from_string_set values label = Ok s → es_built s
  | es_built_builtin tags : es_built (from_builtin_tags tags).

Lemma es_built_ascending s : es_built s → ascending (es_tags s).
Proof.
  destruct 1 as [|values label s H|values label s H|tags]; [constructor| | |].
  - unfold from_unique_strings in H. apply bind_ok in H as (l & Hl & [= <-]).
    by apply unique_fold_inv in Hl as [? _]; [|constructor].
  - unfold from_string_set in H. apply bind_ok in H as (l & Hl & [= <-]).
    by apply set_fold_inv in Hl as [? _]; [|constructor].
  - apply (builtin_fold_inv tags []). constructor.
Qed.
#[export] Hint Resolve es_built_ascending : caap.

(** C25: On every effect set the constructors can build, [EffectSet::contains]
    (a binary search) decides membership, and [EffectSet::is_subset_of] decides
    inclusion of the tags: the effect check of the evaluator is exact. *)
Theorem effect_subset_exact (s allowed : EffectSet) :
  es_built s → es_built allowed →
  (∀ t, es_contains allowed t = true ↔ t ∈ es_tags allowed) ∧
  (es_is_subset_of s allowed = true ↔ ∀ t, t ∈ es_tags s → t ∈ es_tags allowed).
Proof.
  intros Hs Ha. assert (∀ t, es_contains allowed t = true ↔ t ∈ es_tags allowed) as Hc.
  { intros t. unfold es_contains. apply binary_search_spec. auto with caap. }
  split; [done|]. unfold es_is_subset_of. rewrite forallb_forall.
  setoid_rewrite Hc. setoid_rewrite list_elem_of_In. naive_solver.
Qed.

(** The effect sets of two policies, one within the other. *)
Lemma effect_subset_exact_witness :
  es_built (from_builtin_tags [TagMutation]) ∧
  es_is_subset_of (from_builtin_tags [TagMutation])
    (from_builtin_tags [TagReadIr; TagMutation]) = true.
Proof.
  split; [constructor|].
  apply (proj2 (effect_subset_exact (from_builtin_tags [TagMutation])
    (from_builtin_tags [TagReadIr; TagMutation])
    (es_built_builtin [TagMutation]) (es_built_builtin [TagReadIr; TagMutation]))).
  vm_compute. intros t Ht. set_solver.
Defined.

(** ** Labels *)

(** C27: Every policy label prints to a string its parser reads back, and no
    other string parses: [parse_label] and [as_str] are inverse on all five
    policy enums. *)
Theorem policy_labels_roundtrip :
  (∀ s p, phase_parse_label s = Ok p ↔ s = phase_as_str p) ∧
  (∀ s p, eval_parse_label s = Ok p ↔ s = eval_as_str p) ∧
  (∀ s p, control_parse_label s = Ok p ↔ s = control_as_str p) ∧
  (∀ s p, scope_parse_label s = Ok p ↔ s = scope_as_str p) ∧
  (∀ s p, fold_parse_label s = Ok p ↔ s = fold_as_str p).
Proof.
  split_and!; intros s p;
    (split; [|intros ->; by destruct p]);
    unfold phase_parse_label, eval_parse_label, control_parse_label, scope_parse_label,
      fold_parse_label; repeat case_decide; naive_solver.
Qed.

(** ** Builtin effect tags *)

Definition all_builtin_tags : list BuiltinEffectTag :=
  [TagCompilerRegistry; TagEmitDiagnostics; TagEmitEvents; TagHostServices; TagImpure;
   TagMutation; TagReadAttributes; TagReadFacts; TagReadFiles; TagReadIr; TagReadSymbols;
   TagRequestRestart; TagUseFiles; TagUseHostServices; TagWriteAttributes; TagWriteFacts;
   TagWriteFiles; TagWriteIr; TagWriteSymbols].

Lemma builtin_tags_valid t : effect_tag_new (builtin_tag_as_str t) = Ok (builtin_tag_as_str t).
Proof. by destruct t; vm_compute. Qed.

Lemma builtin_tag_as_str_inj t u : builtin_tag_as_str t = builtin_tag_as_str u → t = u.
Proof. by destruct t, u. Qed.

(** ** Capabilities *)

Section capabilities.
Lemma strip_prefix_Some p s r : strip_prefix p s = Some r ↔ s = p +:+ r.
Proof.
  revert s; induction p as [|a p IH]; intros [|b s]; simpl;
    rewrite ?string_app_nil, ?string_app_cons; [split; congruence..|].
  case_decide; [subst|]; rewrite ?IH; split; congruence.
Qed.

Lemma starts_with_app p s : starts_with p s = true ↔ ∃ r, s = p +:+ r.
Proof.
  revert s; induction p as [|a p IH]; intros [|b s]; simpl;
    setoid_rewrite string_app_nil || setoid_rewrite string_app_cons;
    [split; [eauto|done]..|split; [done|by intros [r Hr]]|].
  rewrite andb_true_iff, bool_decide_eq_true, IH. split.
  - intros [-> [r ->]]. by exists r.
  - intros [r [= -> ->]]. eauto.
Qed.

Lemma covers_spec a b : covers a b = true ↔ a = b ∨ ∃ r, b = a +:+ "." +:+ r.
Proof.
  unfold covers. rewrite orb_true_iff, bool_decide_eq_true.
  destruct (strip_prefix a b) as [r|] eqn:E.
  - apply strip_prefix_Some in E as ->. rewrite starts_with_app. split.
    + intros [?|[r' ->]]; [by left|right; eauto].
    + intros [?|[r' Hr]]; [by left|right; exists r'].
      by apply string_app_inj in Hr.
  - split; [intros [?|?]; [by left|done]|]. intros [?|[r ->]]; [by left|].
    assert (strip_prefix a (a +:+ "." +:+ r) = Some ("." +:+ r)) as Hs
      by (by apply strip_prefix_Some).
    congruence.
Qed.

Lemma split_dots_nonempty s : split_dots s ≠ [].
Proof. destruct s as [|c s]; cbn; [done|]. case_match; [done|]. by case_match. Qed.

(** Splitting at a dot splits the segment list. *)
Lemma split_dots_app a r :
  split_dots (a +:+ "." +:+ r) = split_dots a ++ split_dots r.
Proof.
  induction a as [|c a IH]; [done|].
  change (String c a +:+ "." +:+ r) with (String c (a +:+ "." +:+ r)). cbn [split_dots].
  rewrite IH. destruct (char_code c =? 46); [done|].
  pose proof (split_dots_nonempty a). by destruct (split_dots a).
Qed.

(** The inverse of [split_dots]. *)
Definition join_dots : list string → string := join_strings ".".

Lemma join_split_dots s : join_dots (split_dots s) = s.
Proof.
  unfold join_dots. induction s as [|c s IH]; [done|]. cbn [split_dots].
  pose proof (split_dots_nonempty s) as Hne.
  destruct (Nat.eqb_spec (char_code c) 46) as [Hc|].
  - assert (c = Ascii.ascii_of_nat 46) as ->.
    { rewrite <-Hc. symmetry. apply Ascii.ascii_nat_embedding. }
    destruct (split_dots s) as [|x xs] eqn:Hs; [done|].
    change (join_strings "." ("" :: x :: xs)) with ("." +:+ join_strings "." (x :: xs)).
    by rewrite IH.
  - destruct (split_dots s) as [|x [|y ys]] eqn:Hs; [done| |]; cbn in *; [by rewrite IH|].
    by rewrite string_app_cons, IH.
Qed.

Lemma join_dots_app l k : l ≠ [] → k ≠ [] →
  join_dots (l ++ k) = join_dots l +:+ "." +:+ join_dots k.
Proof.
  unfold join_dots. intros Hl Hk. induction l as [|x l IH]; [done|].
  destruct l as [|y l].
  - destruct k as [|z k]; [done|]. done.
  - change (join_strings "." ((x :: y :: l) ++ k))
      with (x +:+ "." +:+ join_strings "." ((y :: l) ++ k)).
    rewrite IH by done.
    change (join_strings "." (x :: y :: l)) with (x +:+ "." +:+ join_strings "." (y :: l)).
    by rewrite !(assoc_L String.append).
Qed.
End capabilities.

(** C26: [CapabilityName::covers] is exactly the prefix order on dotted
    segments, so a grant never covers a name that merely shares characters
    ([fs] does not cover [fsx]) and coverage is a partial order. *)
Theorem covers_segment_prefix (a b : CapabilityName) :
  covers a b = true ↔ split_dots a `prefix_of` split_dots b.
Proof.
  rewrite covers_spec. split.
  - intros [->|[r ->]]; [done|]. rewrite split_dots_app. by eexists.
  - intros [k Hk]. destruct k as [|x k].
    + left. rewrite <-(join_split_dots a), <-(join_split_dots b), Hk, app_nil_r. done.
    + right. exists (join_dots (x :: k)).
      rewrite <-(join_split_dots b), Hk, <-(join_split_dots a) at 1.
      rewrite join_split_dots. rewrite join_dots_app; [|apply split_dots_nonempty|done].
      by rewrite join_split_dots.
Qed.

(** Escapes in messages. *)
Example debug_str_escapes :
  debug_str ("a" +:+ String (Ascii.ascii_of_nat 10) "\" +:+ String (Ascii.ascii_of_nat 27) quote) =
    quote +:+ "a\n\\\u{1b}\" +:+ quote +:+ quote.
Proof. by vm_compute. Qed.
