(* ===== verification/Source.v ===== *)
(** Source locations, evaluation errors and the error type of the kernel:
    [caap/src/source.rs], the error records of [caap/src/values.rs] and
    [caap/src/error.rs].

    Offsets, lines and columns are [usize] and kept as [N]; no arithmetic is
    done on them here, only comparisons. *)

From S2P Require Import Prelude Policy.

(** ** Source locations (source.rs) *)

Record SourcePoint := { sp_offset : N; sp_line : N; sp_column : N }.
Record SourceRange := { sr_start : SourcePoint; sr_end : SourcePoint }.
Record SourceSpanLocator := { loc_file_id : option N; loc_path : option string }.

Record SourceSpan := {
  span_file_id : option N;
  span_start : N;
  span_end : N;
  span_path : option string;
  span_start_line : N;
  span_start_col : N;
  span_end_line : N;
  span_end_col : N;
}.

Global Instance SourcePoint_eq_dec : EqDecision SourcePoint.
Proof. solve_decision. Defined.
Global Instance SourceSpan_eq_dec : EqDecision SourceSpan.
Proof. solve_decision. Defined.

(** [(a, b) < (c, d)] on pairs: lexicographic. *)
Definition pair_ltb (p q : N * N) : bool :=
  ((p.1 <? q.1) || ((p.1 =? q.1) && (p.2 <? q.2)))%N.

Definition source_point_new (offset line column : N) : Result string SourcePoint :=
  if (line =? 0)%N then Err "source point line must be positive"
  else if (column =? 0)%N then Err "source point column must be positive"
  else Ok {| sp_offset := offset; sp_line := line; sp_column := column |}.

Definition source_range_new (start stop : SourcePoint) : Result string SourceRange :=
  if (sp_offset stop <? sp_offset start)%N then
    Err "source range end offset must not precede start offset"
  else if pair_ltb (sp_line stop, sp_column stop) (sp_line start, sp_column start) then
    Err "source range end location must not precede start location"
  else Ok {| sr_start := start; sr_end := stop |}.

Definition locator_new (file_id : option N) (path : option string) :
    Result string SourceSpanLocator :=
  if decide (path = Some "") then Err "source span path must be non-empty when present"
  else Ok {| loc_file_id := file_id; loc_path := path |}.

Definition span_with_locator (locator : option SourceSpanLocator)
    (start stop start_line start_col end_line end_col : N) : Result string SourceSpan :=
  default_locator ← locator_new None None;
  let locator := default default_locator locator in
  locator ← locator_new (loc_file_id locator) (loc_path locator);
  if (stop <? start)%N then Err "source span end offset must not precede start offset"
  else if ((start_line =? 0) || (start_col =? 0) || (end_line =? 0) || (end_col =? 0))%N then
    Err "source span line/column values must be positive"
  else if pair_ltb (end_line, end_col) (start_line, start_col) then
    Err "source span end location must not precede start location"
  else Ok {| span_file_id := loc_file_id locator; span_start := start; span_end := stop;
             span_path := loc_path locator; span_start_line := start_line;
             span_start_col := start_col; span_end_line := end_line;
             span_end_col := end_col |}.

Definition span_new (start stop start_line start_col end_line end_col : N) :
    Result string SourceSpan :=
  span_with_locator None start stop start_line start_col end_line end_col.

Definition span_range (self : SourceSpan) : SourceRange :=
  {| sr_start := {| sp_offset := span_start self; sp_line := span_start_line self;
                    sp_column := span_start_col self |};
     sr_end := {| sp_offset := span_end self; sp_line := span_end_line self;
                  sp_column := span_end_col self |} |}.

(** ** Evaluation errors (values.rs) *)

Record RuntimeCallFrame := {
  frame_unit_id : option string;
  frame_node_id : N;
  frame_phase : PhasePolicy;
  frame_name : option string;
  frame_span : option SourceSpan;
}.

Record EvaluationError := {
  ee_message : string;
  ee_category : option string;
  ee_fatal : bool;
  ee_frames : list RuntimeCallFrame;
}.

Definition evaluation_error_new (message : string) : EvaluationError :=
  {| ee_message := message; ee_category := None; ee_fatal := false; ee_frames := [] |}.

Definition with_category (self : EvaluationError) (category : string) : EvaluationError :=
  {| ee_message := ee_message self; ee_category := Some category;
     ee_fatal := ee_fatal self; ee_frames := ee_frames self |}.

Definition into_fatal (self : EvaluationError) : EvaluationError :=
  {| ee_message := ee_message self; ee_category := ee_category self;
     ee_fatal := true; ee_frames := ee_frames self |}.

(** Frames are pushed innermost first; a frame for the node that was pushed
    last is dropped. *)
Definition push_frame (self : EvaluationError) (frame : RuntimeCallFrame) : EvaluationError :=
  match last (ee_frames self) with
  | Some l =>
      if decide (frame_node_id l = frame_node_id frame ∧ frame_unit_id l = frame_unit_id frame)
      then self
      else {| ee_message := ee_message self; ee_category := ee_category self;
              ee_fatal := ee_fatal self; ee_frames := ee_frames self ++ [frame] |}
  | None => {| ee_message := ee_message self; ee_category := ee_category self;
               ee_fatal := ee_fatal self; ee_frames := ee_frames self ++ [frame] |}
  end.

(** ** Kernel errors (error.rs)

    The [Diagnostic] payload is kept to the two fields [error.rs] reads. *)

Inductive CaapError :=
  | Artifacts (message : string)
  | Compiler (message : string)
  | Context (context : string) (source : CaapError)
  | DiagnosticError (code : option string) (message : string)
  | Diagnostics (message : string)
  | EvalError (error : EvaluationError)
  | Graph (message : string)
  | Host (message : string)
  | Ir (message : string)
  | Parse (message : string)
  | Semantic (message : string)
  | Unit (message : string).

Abbreviation CaapResult := (Result CaapError).

Definition error_message (self : CaapError) : string :=
  match self with
  | Artifacts m | Compiler m | Diagnostics m | Graph m | Host m | Ir m | Parse m
  | Semantic m | Unit m => m
  | Context context _ => context
  | DiagnosticError _ message => message
  | EvalError error => ee_message error
  end.

Fixpoint error_domain (self : CaapError) : string :=
  match self with
  | Artifacts _ => "artifacts"
  | Compiler _ => "compiler"
  | Context _ source => error_domain source
  | DiagnosticError _ _ => "diagnostic"
  | Diagnostics _ => "diagnostics"
  | EvalError _ => "eval"
  | Graph _ => "graph"
  | Host _ => "host"
  | Ir _ => "ir"
  | Parse _ => "parse"
  | Semantic _ => "semantic"
  | Unit _ => "unit"
  end.

Definition with_context (self : CaapError) (context : string) : CaapError :=
  if decide (context = "") then self else Context context self.

(** [Display for CaapError], the text an evaluation error made from a kernel
    error carries. An evaluation error prints its category and message; the
    frame listing is not rendered. *)
Definition error_display (self : CaapError) : string :=
  match self with
  | Context context source =>
      error_domain source +:+ " error: " +:+ context +:+ ": " +:+ error_message source
  | DiagnosticError (Some code) message =>
      "diagnostic error [" +:+ code +:+ "]: " +:+ message
  | DiagnosticError None message => "diagnostic error: " +:+ message
  | EvalError error =>
      match ee_category error with
      | Some category => "EvaluationError[" +:+ category +:+ "]: " +:+ ee_message error
      | None => "EvaluationError: " +:+ ee_message error
      end
  | _ => error_domain self +:+ " error: " +:+ error_message self
  end.
