(* ===== verification/Ir.v ===== *)
(** The IR data model: [caap/src/ir.rs].

    Three node kinds; detached expressions are [ExprSpec] trees. Node ids are
    [u32] and kept as [N] (allocation checks the width, see file [Graph]);
    integer literals are [i64] kept as [Z]; a float is its IEEE-754 bit
    pattern. Interning of identifiers only shares storage and is not
    observable through these operations. *)

From S2P Require Import Prelude Policy Source.

Abbreviation NodeId := N (only parsing).

(** An [f64] by its 64-bit pattern. *)
Record F64 := { f64_bits : N }.

Global Instance F64_eq_dec : EqDecision F64.
Proof. solve_decision. Defined.

Inductive IrLiteralData :=
  | LitNull
  | LitBool (b : bool)
  | LitInt (i : Z)
  | LitFloat (f : F64)
  | LitStr (s : string)
  | LitTuple (items : list IrLiteralData)
  | LitDict (entries : list (string * IrLiteralData)).

(** [entries.sort_by(|l, r| l.0.cmp(&r.0))]: a stable insertion sort by key. *)
Fixpoint dict_insert (e : string * IrLiteralData) (l : list (string * IrLiteralData)) :
    list (string * IrLiteralData) :=
  match l with
  | [] => [e]
  | x :: l' => match str_cmp e.1 x.1 with
               | Gt => x :: dict_insert e l'
               | _ => e :: l
               end
  end.

Definition dict_sort (l : list (string * IrLiteralData)) : list (string * IrLiteralData) :=
  foldr dict_insert [] l.

(** [IrLiteralData::dict]. *)
Definition ir_literal_dict (entries : list (string * IrLiteralData)) : CaapResult IrLiteralData :=
  match list_find (λ e, e.1 = "") entries with
  | Some (idx, _) =>
      Err (Ir ("IR literal dict key at index " +:+ pretty (N.of_nat idx)
                 +:+ " must be non-empty"))
  | None => Ok (LitDict (dict_sort entries))
  end.

(** ** Detached expressions *)

Record NameSpec := { ns_identifier : string; ns_span : option SourceSpan }.
Record LiteralSpec := { ls_value : IrLiteralData; ls_span : option SourceSpan }.

Inductive ExprSpec :=
  | SpecName (spec : NameSpec)
  | SpecLiteral (spec : LiteralSpec)
  | SpecCall (callee : ExprSpec) (args : list ExprSpec) (span : option SourceSpan).

Definition name_spec_with_span (identifier : string) (span : option SourceSpan) :
    CaapResult NameSpec :=
  if decide (identifier = "") then Err (Ir "name spec identifier must be non-empty")
  else Ok {| ns_identifier := identifier; ns_span := span |}.

Definition name_with_span (identifier : string) (span : option SourceSpan) : CaapResult ExprSpec :=
  spec ← name_spec_with_span identifier span; Ok (SpecName spec).

Definition literal_with_span (value : IrLiteralData) (span : option SourceSpan) : ExprSpec :=
  SpecLiteral {| ls_value := value; ls_span := span |}.

Definition call_with_span (callee : ExprSpec) (args : list ExprSpec)
    (span : option SourceSpan) : ExprSpec := SpecCall callee args span.

Definition spec_span (self : ExprSpec) : option SourceSpan :=
  match self with
  | SpecName spec => ns_span spec
  | SpecLiteral spec => ls_span spec
  | SpecCall _ _ span => span
  end.

(** Induction over the nested argument lists. *)
Section expr_spec_ind.
Variable P : ExprSpec → Prop.
Hypothesis Hname : ∀ spec, P (SpecName spec).
Hypothesis Hlit : ∀ spec, P (SpecLiteral spec).
Hypothesis Hcall : ∀ callee args span, P callee → Forall P args → P (SpecCall callee args span).

Fixpoint expr_spec_ind (s : ExprSpec) : P s :=
  match s with
  | SpecName spec => Hname spec
  | SpecLiteral spec => Hlit spec
  | SpecCall callee args span =>
      Hcall callee args span (expr_spec_ind callee)
        ((fix go (l : list ExprSpec) : Forall P l :=
            match l with
            | [] => List.Forall_nil P
            | x :: l => List.Forall_cons P x l (expr_spec_ind x) (go l)
            end) args)
  end.
End expr_spec_ind.

(** Nodes of a specification, and its height. *)
Fixpoint spec_size (s : ExprSpec) : nat :=
  match s with
  | SpecName _ | SpecLiteral _ => 1
  | SpecCall callee args _ => S (spec_size callee + sum_list (spec_size <$> args))
  end.

Fixpoint spec_height (s : ExprSpec) : nat :=
  match s with
  | SpecName _ | SpecLiteral _ => 1
  | SpecCall callee args _ => S (spec_height callee `max` max_list (spec_height <$> args))
  end.

(** ** Graph nodes *)

Record NameNode := { nn_id : NodeId; nn_identifier : string }.
Record LiteralNode := { ln_id : NodeId; ln_value : IrLiteralData }.
Record CallNode := { cn_id : NodeId; cn_callee : NodeId; cn_args : list NodeId }.

Inductive Node :=
  | NodeName (n : NameNode)
  | NodeLiteral (n : LiteralNode)
  | NodeCall (n : CallNode).

Definition name_node_new (id : NodeId) (identifier : string) : CaapResult NameNode :=
  if decide (identifier = "") then Err (Ir "name node identifier must be non-empty")
  else Ok {| nn_id := id; nn_identifier := identifier |}.

Definition node_id (self : Node) : NodeId :=
  match self with
  | NodeName n => nn_id n
  | NodeLiteral n => ln_id n
  | NodeCall n => cn_id n
  end.

Definition children (self : Node) : list NodeId :=
  match self with
  | NodeName _ | NodeLiteral _ => []
  | NodeCall n => cn_callee n :: cn_args n
  end.

Definition has_children (self : Node) : bool :=
  match self with NodeCall _ => true | _ => false end.

Definition contains_child (self : Node) (id : NodeId) : bool :=
  match self with
  | NodeName _ | NodeLiteral _ => false
  | NodeCall n => (cn_callee n =? id)%N || list_mem id (cn_args n)
  end.

Definition is_name_node (self : Node) : bool :=
  match self with NodeName _ => true | _ => false end.

Lemma contains_child_spec n id : contains_child n id = true ↔ id ∈ children n.
Proof.
  destruct n as [| |n]; cbn; [set_solver..|]. unfold list_mem.
  rewrite orb_true_iff, N.eqb_eq, bool_decide_eq_true. set_solver.
Qed.
