(* ===== verification/Graph.v ===== *)
(** The mutable IR graph: [caap/src/graph.rs].

    [IRGraph] keeps the maps of the Rust struct ([HashMap] as [gmap],
    [HashSet] as [gset]). A [&mut self] method that can fail is a computation
    of the state-and-error monad [GM]: on an early return the graph keeps what
    was written before it. A Rust loop over a [HashMap] runs here in the order
    of [map_to_list]; the order only selects which of several errors is
    reported. *)

From S2P Require Import Prelude Policy Source Ir.

Record IRGraph := {
  root_id : NodeId;
  nodes : gmap NodeId Node;
  parents : gmap NodeId (option NodeId);
  source_spans : gmap NodeId SourceSpan;
  internal_nodes : gset NodeId;
  top_level_forms : list NodeId;
  top_level_set : gset NodeId;
  next_id : NodeId;
}.

Abbreviation GM := (SE IRGraph CaapError).

(** Field updates. *)
Definition set_root_id (v : NodeId) (g : IRGraph) : IRGraph :=
  {| root_id := v; nodes := nodes g; parents := parents g; source_spans := source_spans g;
     internal_nodes := internal_nodes g; top_level_forms := top_level_forms g;
     top_level_set := top_level_set g; next_id := next_id g |}.
Definition set_nodes (v : gmap NodeId Node) (g : IRGraph) : IRGraph :=
  {| root_id := root_id g; nodes := v; parents := parents g; source_spans := source_spans g;
     internal_nodes := internal_nodes g; top_level_forms := top_level_forms g;
     top_level_set := top_level_set g; next_id := next_id g |}.
Definition set_parents (v : gmap NodeId (option NodeId)) (g : IRGraph) : IRGraph :=
  {| root_id := root_id g; nodes := nodes g; parents := v; source_spans := source_spans g;
     internal_nodes := internal_nodes g; top_level_forms := top_level_forms g;
     top_level_set := top_level_set g; next_id := next_id g |}.
Definition set_source_spans (v : gmap NodeId SourceSpan) (g : IRGraph) : IRGraph :=
  {| root_id := root_id g; nodes := nodes g; parents := parents g; source_spans := v;
     internal_nodes := internal_nodes g; top_level_forms := top_level_forms g;
     top_level_set := top_level_set g; next_id := next_id g |}.
Definition set_internal_nodes (v : gset NodeId) (g : IRGraph) : IRGraph :=
  {| root_id := root_id g; nodes := nodes g; parents := parents g;
     source_spans := source_spans g; internal_nodes := v;
     top_level_forms := top_level_forms g; top_level_set := top_level_set g;
     next_id := next_id g |}.
Definition set_top_level (forms : list NodeId) (set : gset NodeId) (g : IRGraph) : IRGraph :=
  {| root_id := root_id g; nodes := nodes g; parents := parents g;
     source_spans := source_spans g; internal_nodes := internal_nodes g;
     top_level_forms := forms; top_level_set := set; next_id := next_id g |}.
Definition set_next_id (v : NodeId) (g : IRGraph) : IRGraph :=
  {| root_id := root_id g; nodes := nodes g; parents := parents g;
     source_spans := source_spans g; internal_nodes := internal_nodes g;
     top_level_forms := top_level_forms g; top_level_set := top_level_set g; next_id := v |}.

Definition graph_new : IRGraph :=
  {| root_id := 0; nodes := ∅; parents := ∅; source_spans := ∅; internal_nodes := ∅;
     top_level_forms := []; top_level_set := ∅; next_id := 0 |}.

(** ** Reads *)

Definition node (self : IRGraph) (id : NodeId) : option Node := nodes self !! id.

(** [parents.get(&id).copied().flatten()]. *)
Definition parent_of (self : IRGraph) (id : NodeId) : option NodeId :=
  match parents self !! id with Some p => p | None => None end.

Definition parent (self : IRGraph) (id : NodeId) : option (option NodeId) := parents self !! id.

Definition source_span (self : IRGraph) (id : NodeId) : option SourceSpan :=
  source_spans self !! id.

Definition contains (self : IRGraph) (id : NodeId) : bool :=
  match nodes self !! id with Some _ => true | None => false end.

Definition is_internal_node (self : IRGraph) (id : NodeId) : bool :=
  bool_decide (id ∈ internal_nodes self).

Definition has_top_level_form (self : IRGraph) (id : NodeId) : bool :=
  bool_decide (id ∈ top_level_set self).

Definition node_ids (self : IRGraph) : list NodeId := sort_ids (map_to_list (nodes self)).*1.

Definition node_count (self : IRGraph) : nat := size (nodes self).

(** ** Requirements (private helpers) *)

Definition require_node (id : NodeId) (label : string) (self : IRGraph) : CaapResult unit :=
  if contains self id then Ok tt
  else Err (Graph (label +:+ " does not exist: " +:+ pretty id)).

Definition require_detached_top_level_form (id : NodeId) (self : IRGraph) : CaapResult unit :=
  _ ← require_node id "top-level form" self;
  match parent_of self id with
  | Some _ => Err (Graph ("IR graph top-level form " +:+ pretty id +:+ " has a parent"))
  | None => Ok tt
  end.

Definition require_new_subtree_root (id : NodeId) (self : IRGraph) : CaapResult unit :=
  _ ← require_node id "replacement subtree root" self;
  match parent_of self id with
  | Some _ => Err (Graph ("replacement subtree root " +:+ pretty id +:+ " has a parent"))
  | None =>
      if has_top_level_form self id then
        Err (Graph "replacement subtree root must not already be top-level")
      else Ok tt
  end.

Definition require_new_top_level_form (id : NodeId) (self : IRGraph) : CaapResult unit :=
  _ ← require_detached_top_level_form id self;
  if has_top_level_form self id then Err (Graph "IR graph top-level forms must be unique")
  else Ok tt.

Definition top_level_index (id : NodeId) (self : IRGraph) : CaapResult nat :=
  ok_or (position id (top_level_forms self))
    (Graph ("top-level form does not exist: " +:+ pretty id)).

(** [seen] starts with the callee; every argument must be new. *)
Definition validate_unique_call_children (callee : NodeId) (args : list NodeId) :
    CaapResult unit :=
  discard (try_fold (λ (seen : gset NodeId) arg,
        if decide (arg ∈ seen) then
          Err (Graph ("call child node appears more than once: " +:+ pretty arg))
        else Ok ({[arg]} ∪ seen)) {[callee]} args).

Definition validate_call_children (callee : NodeId) (args : list NodeId) (self : IRGraph) :
    CaapResult unit :=
  _ ← validate_unique_call_children callee args;
  if negb (contains self callee) then
    Err (Graph ("call callee node does not exist: " +:+ pretty callee))
  else for_each (λ arg,
         if negb (contains self arg) then
           Err (Graph ("call argument node does not exist: " +:+ pretty arg))
         else Ok tt) args.

Definition validate_node_children (nd : Node) (self : IRGraph) : CaapResult unit :=
  _ ← match nd with
      | NodeCall call => validate_unique_call_children (cn_callee call) (cn_args call)
      | _ => Ok tt
      end;
  for_each (λ child_id,
    _ ← require_node child_id "child node" self;
    if decide (parent_of self child_id = Some (node_id nd)) then Ok tt
    else Err (Graph ("IR graph child " +:+ pretty child_id +:+ " parent mismatch: expected "
                       +:+ pretty (node_id nd) +:+ ", got "
                       +:+ debug_option (parent_of self child_id)))) (children nd).

(** ** Node storage *)

Definition allocate_id : GM NodeId := λ self,
  let id := next_id self in
  match u32_checked_add (next_id self) 1 with
  | Some n => (Ok id, set_next_id n self)
  | None => (Err (Graph "IRGraph node id overflow"), self)
  end.

Definition set_node (nd : Node) (parent_id : option NodeId) : GM unit := λ self,
  let id := node_id nd in
  match (if (next_id self <=? id)%N then u32_checked_add id 1 else Some (next_id self)) with
  | None => (Err (Graph "IRGraph node id overflow"), self)
  | Some n =>
      (Ok tt,
       set_next_id n
         (set_parents (<[id := parent_id]> (parents self))
            (set_nodes (<[id := nd]> (nodes self)) self)))
  end.

Definition set_source_span (id : NodeId) (span : SourceSpan) : GM unit := λ self,
  if negb (contains self id) then
    (Err (Graph ("cannot attach source span to missing node: " +:+ pretty id)), self)
  else (Ok tt, set_source_spans (<[id := span]> (source_spans self)) self).

Definition mark_internal_node (id : NodeId) : GM unit := λ self,
  match nodes self !! id with
  | None => (Err (Graph ("cannot mark missing node internal: " +:+ pretty id)), self)
  | Some nd =>
      if negb (is_name_node nd) then
        (Err (Graph ("internal marker can only annotate name nodes: " +:+ pretty id)), self)
      else (Ok tt, set_internal_nodes ({[id]} ∪ internal_nodes self) self)
  end.

(** ** Top-level forms *)

Definition add_top_level_form (id : NodeId) : GM unit :=
  _ ← se_lift (require_detached_top_level_form id);
  se_modify (λ self,
    if decide (id ∈ top_level_set self) then self
    else
      let self' := match top_level_forms self with
                   | [] => set_root_id id self
                   | _ => self
                   end in
      set_top_level (top_level_forms self ++ [id]) ({[id]} ∪ top_level_set self) self').

Definition set_top_level_form_ids (form_ids : list NodeId) : GM unit :=
  _ ← se_lift (λ self,
        discard (try_fold (λ (seen : gset NodeId) id,
              _ ← require_detached_top_level_form id self;
              if decide (id ∈ seen) then
                Err (Graph ("duplicate top-level form id: " +:+ pretty id))
              else Ok ({[id]} ∪ seen)) ∅ form_ids));
  se_modify (set_top_level form_ids (list_to_set form_ids)).

Definition insert_top_level_before (anchor new_id : NodeId) : GM unit :=
  _ ← se_lift (require_new_top_level_form new_id);
  index ← se_lift (top_level_index anchor);
  se_modify (λ self,
    set_top_level (insert_at index new_id (top_level_forms self))
      ({[new_id]} ∪ top_level_set self) self).

Definition insert_top_level_after (anchor new_id : NodeId) : GM unit :=
  _ ← se_lift (require_new_top_level_form new_id);
  index ← se_lift (top_level_index anchor);
  se_modify (λ self,
    set_top_level (insert_at (index + 1) new_id (top_level_forms self))
      ({[new_id]} ∪ top_level_set self) self).

Definition replace_top_level_form (old_id new_id : NodeId) : GM unit :=
  index ← se_lift (top_level_index old_id);
  if decide (old_id = new_id) then mret tt
  else
    _ ← se_lift (require_new_top_level_form new_id);
    se_modify (λ self,
      set_top_level (<[index := new_id]> (top_level_forms self))
        ({[new_id]} ∪ (top_level_set self ∖ {[old_id]})) self).

(** Infallible; also tells whether the form was there. *)
Definition remove_top_level_form (id : NodeId) (self : IRGraph) : bool * IRGraph :=
  match position id (top_level_forms self) with
  | Some index =>
      (true, set_top_level (remove_at index (top_level_forms self))
               (top_level_set self ∖ {[id]}) self)
  | None => (false, self)
  end.

(** ** Removal *)

(** [nodes.keys().min()]. *)
Definition min_key (m : gmap NodeId Node) : option NodeId :=
  match (map_to_list m).*1 with
  | [] => None
  | k :: ks => Some (foldr N.min k ks)
  end.

Definition remove_node_storage (id : NodeId) (self : IRGraph) : bool * IRGraph :=
  let existed := contains self id in
  let self := set_nodes (delete id (nodes self)) self in
  let self := set_parents (delete id (parents self)) self in
  let self := set_source_spans (delete id (source_spans self)) self in
  let self := set_internal_nodes (internal_nodes self ∖ {[id]}) self in
  let self := (remove_top_level_form id self).2 in
  let self :=
    if (root_id self =? id)%N then
      set_root_id
        (default 0%N
           (match head (top_level_forms self) with
            | Some f => Some f
            | None => min_key (nodes self)
            end)) self
    else self in
  (existed, self).

(** The worklist loop of [remove_subtree_storage]: [stack] has its top first,
    so pushing the children in order puts the last child on top. The remaining
    stack is returned; it is empty once the loop has run to its end. *)
Fixpoint remove_subtree_loop (fuel : nat) (stack dropped : list NodeId) (self : IRGraph) :
    list NodeId * list NodeId * IRGraph :=
  match fuel, stack with
  | 0, _ => (stack, dropped, self)
  | _, [] => ([], dropped, self)
  | S fuel, current :: stack =>
      let stack := match nodes self !! current with
                   | Some nd => reverse (children nd) ++ stack
                   | None => stack
                   end in
      let '(existed, self) := remove_node_storage current self in
      let dropped := if existed then dropped ++ [current] else dropped in
      remove_subtree_loop fuel stack dropped self
  end.

(** Every iteration pops one id; ids are pushed once for the root and once per
    child of a removed node. *)
Definition subtree_fuel (self : IRGraph) : nat :=
  S (sum_list_with (λ p, length (children p.2)) (map_to_list (nodes self))).

Definition remove_subtree_storage (root : NodeId) (self : IRGraph) : list NodeId * IRGraph :=
  let '(_, dropped, self') := remove_subtree_loop (subtree_fuel self) [root] [] self in
  (dropped, self').

(** The same as a step of a [&mut self] method. *)
Definition remove_subtree_m (root : NodeId) : GM (list NodeId) := λ self,
  (Ok (remove_subtree_storage root self).1, (remove_subtree_storage root self).2).

Definition delete_node (id : NodeId) : GM bool := λ self,
  match nodes self !! id with
  | None => (Ok false, self)
  | Some nd =>
      match parent_of self id with
      | Some _ => (Err (Graph "cannot delete attached IR graph node directly"), self)
      | None =>
          if has_children nd then
            (Err (Graph "cannot delete IR graph node with children directly"), self)
          else (Ok true, (remove_node_storage id self).2)
      end
  end.

Definition erase_detached_subtree (root : NodeId) : GM (list NodeId) := λ self,
  match require_node root "subtree root" self with
  | Err e => (Err e, self)
  | Ok _ =>
      match parent_of self root with
      | Some _ => (Err (Graph "cannot erase attached subtree root directly"), self)
      | None => remove_subtree_m root self
      end
  end.

(** ** Replacement *)

Definition replace_node (id : NodeId) (nd : Node) : GM unit :=
  _ ← se_lift (require_node id "replacement target");
  if negb (node_id nd =? id)%N then
    se_throw (Graph "replacement node id must match replaced graph node id")
  else
    _ ← se_lift (validate_node_children nd);
    se_modify (λ self, set_nodes (<[id := nd]> (nodes self)) self).

Definition rewrite_parent_child (parent : Node) (old_id new_id : NodeId) : CaapResult Node :=
  match parent with
  | NodeCall call =>
      if (cn_callee call =? old_id)%N || list_mem old_id (cn_args call) then
        Ok (NodeCall {| cn_id := cn_id call;
                        cn_callee := if (cn_callee call =? old_id)%N then new_id
                                     else cn_callee call;
                        cn_args := (λ a, if (a =? old_id)%N then new_id else a)
                                     <$> cn_args call |})
      else Err (Graph ("subtree parent " +:+ pretty (cn_id call)
                         +:+ " does not reference child " +:+ pretty old_id))
  | NodeName _ | NodeLiteral _ => Err (Graph "only call nodes can own child subtrees")
  end.

Definition replace_subtree (old_id new_id : NodeId) : GM (list NodeId) :=
  _ ← se_lift (require_node old_id "subtree replacement target");
  if decide (old_id = new_id) then mret []
  else
    _ ← se_lift (require_new_subtree_root new_id);
    self ← se_get;
    if has_top_level_form self old_id then
      _ ← replace_top_level_form old_id new_id;
      _ ← se_modify (λ self, if (root_id self =? old_id)%N then set_root_id new_id self else self);
      remove_subtree_m old_id
    else
      parent_id ← se_lift (λ self, ok_or (parent_of self old_id)
                     (Graph "cannot replace detached non-top-level subtree root"));
      parent ← se_lift (λ self, ok_or (nodes self !! parent_id)
                  (Graph ("subtree parent does not exist: " +:+ pretty parent_id)));
      rewritten_parent ← se_lift (λ _, rewrite_parent_child parent old_id new_id);
      _ ← se_modify (λ self, set_parents (<[new_id := Some parent_id]> (parents self)) self);
      _ ← replace_node parent_id rewritten_parent;
      remove_subtree_m old_id.

(** ** Expressions in and out *)

Fixpoint insert_expr_spec_into (spec : ExprSpec) (parent_id : option NodeId) : GM NodeId :=
  id ← match spec with
       | SpecName name =>
           id ← allocate_id;
           nd ← se_lift (λ _, name_node_new id (ns_identifier name));
           _ ← set_node (NodeName nd) parent_id;
           mret id
       | SpecLiteral literal =>
           id ← allocate_id;
           _ ← set_node (NodeLiteral {| ln_id := id; ln_value := ls_value literal |}) parent_id;
           mret id
       | SpecCall callee args _ =>
           id ← allocate_id;
           callee ← insert_expr_spec_into callee (Some id);
           args ← (fix go (l : list ExprSpec) : GM (list NodeId) :=
                     match l with
                     | [] => mret []
                     | arg :: l =>
                         a ← insert_expr_spec_into arg (Some id);
                         l ← go l;
                         mret (a :: l)
                     end) args;
           _ ← se_lift (validate_call_children callee args);
           _ ← set_node (NodeCall {| cn_id := id; cn_callee := callee; cn_args := args |})
                 parent_id;
           mret id
       end;
  match spec_span spec with
  | Some span => _ ← set_source_span id span; mret id
  | None => mret id
  end.

Definition insert_expr_spec (spec : ExprSpec) : GM NodeId := insert_expr_spec_into spec None.

(** [iter().map(f).collect::<Result<Vec<_>, _>>()] where [f] may also run out
    of fuel: stops at the first failure. *)
Fixpoint collect_fueled {A B} (f : A → option (CaapResult B)) (l : list A) :
    option (CaapResult (list B)) :=
  match l with
  | [] => Some (Ok [])
  | a :: l =>
      match f a with
      | None => None
      | Some (Err e) => Some (Err e)
      | Some (Ok b) =>
          match collect_fueled f l with
          | None => None
          | Some (Err e) => Some (Err e)
          | Some (Ok bs) => Some (Ok (b :: bs))
          end
      end
  end.

(** Recursion through the node table; [None] is exhausted fuel. *)
Fixpoint expr_spec_for_subtree (fuel : nat) (self : IRGraph) (root : NodeId) :
    option (CaapResult ExprSpec) :=
  match fuel with
  | 0 => None
  | S fuel =>
      match node self root with
      | None => Some (Err (Graph ("subtree root does not exist: " +:+ pretty root)))
      | Some nd =>
          let span := source_span self root in
          match nd with
          | NodeName name => Some (name_with_span (nn_identifier name) span)
          | NodeLiteral literal => Some (Ok (literal_with_span (ln_value literal) span))
          | NodeCall call =>
              match expr_spec_for_subtree fuel self (cn_callee call) with
              | None => None
              | Some (Err e) => Some (Err e)
              | Some (Ok callee) =>
                  match collect_fueled (expr_spec_for_subtree fuel self) (cn_args call) with
                  | None => None
                  | Some (Err e) => Some (Err e)
                  | Some (Ok args) => Some (Ok (call_with_span callee args span))
                  end
              end
          end
      end
  end.

(** ** Builder *)

Definition try_name (identifier : string) : GM NodeId :=
  if decide (identifier = "") then se_throw (Graph "name node identifier must be non-empty")
  else
    id ← allocate_id;
    nd ← se_lift (λ _, name_node_new id identifier);
    _ ← set_node (NodeName nd) None;
    mret id.

Definition try_internal_name (identifier : string) : GM NodeId :=
  id ← try_name identifier;
  _ ← mark_internal_node id;
  mret id.

Definition try_literal (value : IrLiteralData) : GM NodeId :=
  id ← allocate_id;
  _ ← set_node (NodeLiteral {| ln_id := id; ln_value := value |}) None;
  mret id.

Definition try_call_with_id (id callee : NodeId) (args : list NodeId)
    (parent_id : option NodeId) : GM NodeId :=
  self ← se_get;
  if contains self id then
    se_throw (Graph ("call node id is already present: " +:+ pretty id))
  else
    _ ← se_lift (validate_call_children callee args);
    _ ← se_modify (λ self,
          set_parents (foldl (λ m arg, <[arg := Some id]> m)
                         (<[callee := Some id]> (parents self)) args) self);
    _ ← set_node (NodeCall {| cn_id := id; cn_callee := callee; cn_args := args |}) parent_id;
    mret id.

Definition try_call (callee : NodeId) (args : list NodeId) : GM NodeId :=
  id ← allocate_id;
  _ ← try_call_with_id id callee args None;
  mret id.

Definition lower_spec (spec : ExprSpec) : GM NodeId := insert_expr_spec_into spec None.
