(* ===== verification/GraphIntegrity.v ===== *)
(** Graph validation and templates: [IRGraph::validate_integrity],
    [IRGraphTemplate::validate], [to_template] and [from_template] of
    [caap/src/graph.rs].

    Each loop of the Rust validators is one definition; the validators compose
    them in the order of the code. [wf_graph] states declaratively what a valid
    graph is, and the theorems show the validators decide it. *)

From S2P Require Import Prelude Policy Source Ir Graph.

(** ** The three-colour walk along parent links *)

Inductive walk_result :=
  | WalkFuel
  | WalkCycle
  | WalkDone (color : gmap NodeId N).

Definition mark_done (path : list NodeId) (color : gmap NodeId N) : gmap NodeId N :=
  foldl (λ c id, <[id := 2%N]> c) color path.

(** One walk: [current] follows the parent links; colour 1 is on the active
    path, colour 2 is confirmed acyclic. *)
Fixpoint color_walk (fuel : nat) (par : NodeId → option NodeId) (color : gmap NodeId N)
    (path : list NodeId) (current : option NodeId) : walk_result :=
  match fuel with
  | 0 => WalkFuel
  | S fuel =>
      match current with
      | None => WalkDone (mark_done path color)
      | Some id =>
          match default 0%N (color !! id) with
          | 2%N => WalkDone (mark_done path color)
          | 1%N => WalkCycle
          | _ => color_walk fuel par (<[id := 1%N]> color) (path ++ [id]) (par id)
          end
      end
  end.

(** The loop over all start nodes. [WalkFuel], a walk that did not come to its
    end, is an outcome of its own; it stops the loop as a cycle does. *)
Fixpoint color_starts (fuel : nat) (par : NodeId → option NodeId) (color : gmap NodeId N)
    (starts : list NodeId) : walk_result :=
  match starts with
  | [] => WalkDone color
  | start :: starts =>
      if decide (color !! start = Some 2%N) then color_starts fuel par color starts
      else match color_walk fuel par color [] (Some start) with
           | WalkDone color => color_starts fuel par color starts
           | outcome => outcome
           end
  end.

(** Fuel: a walk visits every key of the parent map at most once, then stops at
    a coloured node or past a root. *)
Definition parent_walks (parent_map : gmap NodeId (option NodeId)) (starts : list NodeId) :
    walk_result :=
  color_starts (S (S (size parent_map))) (λ id, mjoin (parent_map !! id)) ∅ starts.

(** [WalkFuel] never occurs ([parent_walks_spec]). *)
Definition check_acyclic (message : string) (parent_map : gmap NodeId (option NodeId))
    (starts : list NodeId) : CaapResult unit :=
  match parent_walks parent_map starts with
  | WalkDone _ => Ok tt
  | WalkCycle => Err (Graph message)
  | WalkFuel => Err (Graph "parent walk did not terminate")
  end.

(** ** [IRGraph::validate_integrity] *)

Definition check_empty_graph (self : IRGraph) : CaapResult unit :=
  if decide (parents self ≠ ∅) then Err (Graph "empty IRGraph cannot have parent entries")
  else if decide (top_level_forms self ≠ [] ∨ top_level_set self ≠ ∅) then
    Err (Graph "empty IRGraph cannot have top-level forms")
  else if decide (source_spans self ≠ ∅) then
    Err (Graph "empty IRGraph cannot have source spans")
  else if decide (internal_nodes self ≠ ∅) then
    Err (Graph "empty IRGraph cannot have internal nodes")
  else Ok tt.

(** One node entry: key, children present and distinct. *)
Definition check_node_entry (self : IRGraph) (entry : NodeId * Node) : CaapResult unit :=
  let '(id, nd) := entry in
  if negb (node_id nd =? id)%N then
    Err (Graph ("IRGraph node key " +:+ pretty id +:+ " does not match node id "
                  +:+ pretty (node_id nd)))
  else match nd with
       | NodeCall call =>
           _ ← validate_unique_call_children (cn_callee call) (cn_args call);
           if negb (contains self (cn_callee call)) then
             Err (Graph ("call " +:+ pretty (cn_id call) +:+ " has missing callee "
                           +:+ pretty (cn_callee call)))
           else for_each (λ arg,
                  if negb (contains self arg) then
                    Err (Graph ("call " +:+ pretty (cn_id call) +:+ " has missing argument "
                                  +:+ pretty arg))
                  else Ok tt) (cn_args call)
       | _ => Ok tt
       end.

Definition check_parent_entry (self : IRGraph) (entry : NodeId * option NodeId) :
    CaapResult unit :=
  let '(id, parent) := entry in
  if negb (contains self id) then
    Err (Graph ("parent entry references missing node: " +:+ pretty id))
  else match parent with
       | Some parent_id =>
           if negb (contains self parent_id) then
             Err (Graph ("parent entry for " +:+ pretty id +:+ " references missing node: "
                           +:+ pretty parent_id))
           else Ok tt
       | None => Ok tt
       end.

Definition check_has_parent_entry (self : IRGraph) (id : NodeId) : CaapResult unit :=
  match parents self !! id with
  | Some _ => Ok tt
  | None => Err (Graph ("missing parent entry for node: " +:+ pretty id))
  end.

(** The top-level loop, returning the set it collected. *)
Definition check_top_level_forms (self : IRGraph) : CaapResult (gset NodeId) :=
  try_fold (λ (top_level : gset NodeId) id,
    if negb (contains self id) then
      Err (Graph ("top-level form references missing node: " +:+ pretty id))
    else if decide (id ∈ top_level) then
      Err (Graph ("duplicate top-level form id: " +:+ pretty id))
    else Ok ({[id]} ∪ top_level)) ∅ (top_level_forms self).

Definition parentless (m : gmap NodeId (option NodeId)) : gset NodeId :=
  dom (filter (λ p, p.2 = None) m).

Definition check_parentless (label : string) (forms : list NodeId) (root : NodeId)
    (top_level : gset NodeId) (m : gmap NodeId (option NodeId)) : CaapResult unit :=
  let expected_roots : gset NodeId := match forms with [] => {[root]} | _ => top_level end in
  if decide (parentless m = expected_roots) then Ok tt
  else Err (Graph (label +:+ " parentless nodes mismatch: expected="
                     +:+ debug_list (sort_ids (elements expected_roots)) +:+ ", got="
                     +:+ debug_list (sort_ids (elements (parentless m))))).

Definition check_parent_link (self : IRGraph) (entry : NodeId * option NodeId) :
    CaapResult unit :=
  let '(id, parent) := entry in
  match parent with
  | None => Ok tt
  | Some parent_id =>
      match nodes self !! parent_id with
      | None => Err (Graph ("parent entry for " +:+ pretty id +:+ " references missing node: "
                              +:+ pretty parent_id))
      | Some parent_node =>
          if negb (contains_child parent_node id) then
            Err (Graph ("IRGraph parent " +:+ pretty parent_id +:+ " does not reference child "
                          +:+ pretty id))
          else Ok tt
      end
  end.

Definition check_child_links (self : IRGraph) (entry : NodeId * Node) : CaapResult unit :=
  let '(id, nd) := entry in
  for_each (λ child_id,
    if decide (parent_of self child_id = Some id) then Ok tt
    else Err (Graph ("IRGraph child " +:+ pretty child_id +:+ " parent mismatch: expected "
                       +:+ pretty id +:+ ", got " +:+ debug_option (parent_of self child_id))))
    (children nd).

Definition check_span_key (self : IRGraph) (id : NodeId) : CaapResult unit :=
  if negb (contains self id) then
    Err (Graph ("source span references missing node: " +:+ pretty id))
  else Ok tt.

Definition check_internal_id (self : IRGraph) (id : NodeId) : CaapResult unit :=
  match nodes self !! id with
  | None => Err (Graph ("internal marker references missing node: " +:+ pretty id))
  | Some nd =>
      if negb (is_name_node nd) then
        Err (Graph ("internal marker can only annotate name nodes: " +:+ pretty id))
      else Ok tt
  end.

(** The running maximum of the node ids. *)
Definition max_node_id (ids : list NodeId) : option NodeId :=
  foldl (λ acc id, Some (match acc with None => id | Some m => N.max m id end)) None ids.

Definition check_next_id (label : string) (ids : list NodeId) (next : NodeId) : CaapResult unit :=
  match max_node_id ids with
  | Some max_id =>
      if (next <=? max_id)%N then
        Err (Graph (label +:+ " next_id " +:+ pretty next +:+ " must exceed max node id "
                      +:+ pretty max_id))
      else Ok tt
  | None => Ok tt
  end.

Definition validate_integrity (self : IRGraph) : CaapResult unit :=
  if decide (nodes self = ∅) then check_empty_graph self
  else if negb (contains self (root_id self)) then
    Err (Graph ("IRGraph root node is missing: " +:+ pretty (root_id self)))
  else
    _ ← for_each (check_node_entry self) (map_to_list (nodes self));
    _ ← for_each (check_parent_entry self) (map_to_list (parents self));
    _ ← for_each (check_has_parent_entry self) (map_to_list (nodes self)).*1;
    top_level ← check_top_level_forms self;
    if decide (top_level ≠ top_level_set self) then
      Err (Graph "IRGraph top-level form set does not match ordered top-level forms")
    else
      _ ← check_parentless "IRGraph" (top_level_forms self) (root_id self) top_level
            (parents self);
      _ ← for_each (check_parent_link self) (map_to_list (parents self));
      _ ← check_acyclic "IRGraph parent links must be acyclic" (parents self)
            (map_to_list (nodes self)).*1;
      _ ← for_each (check_child_links self) (map_to_list (nodes self));
      _ ← for_each (check_span_key self) (map_to_list (source_spans self)).*1;
      _ ← for_each (check_internal_id self) (elements (internal_nodes self));
      check_next_id "IRGraph" (map_to_list (nodes self)).*1 (next_id self).

(** ** What a valid graph is *)

(** [c] reaches a parentless node by following the links [par]. *)
Inductive rooted (par : NodeId → option NodeId) (c : NodeId) : Prop :=
  | rooted_root : par c = None → rooted par c
  | rooted_step p : par c = Some p → rooted par p → rooted par c.

(** The forest invariant: what holds of a graph under construction, whose
    detached roots are not yet all registered as top-level forms. *)
Record forest (g : IRGraph) : Prop := {
  fo_key : ∀ id nd, nodes g !! id = Some nd → node_id nd = id;
  fo_dom : dom (parents g) = dom (nodes g);
  fo_child : ∀ id nd c, nodes g !! id = Some nd → c ∈ children nd →
    parents g !! c = Some (Some id);
  fo_nodup : ∀ id nd, nodes g !! id = Some nd → NoDup (children nd);
  fo_parent : ∀ c p, parents g !! c = Some (Some p) →
    ∃ nd, nodes g !! p = Some nd ∧ c ∈ children nd;
  fo_rooted : ∀ c, c ∈ dom (nodes g) → rooted (parent_of g) c;
  fo_forms_nodup : NoDup (top_level_forms g);
  fo_forms_set : top_level_set g = list_to_set (top_level_forms g);
  fo_forms_root : ∀ c, c ∈ top_level_forms g → parents g !! c = Some None;
  fo_spans : dom (source_spans g) ⊆ dom (nodes g);
  fo_internal : ∀ id, id ∈ internal_nodes g →
    ∃ n, nodes g !! id = Some (NodeName n);
  fo_next : ∀ id, id ∈ dom (nodes g) → (id < next_id g)%N;
}.

(** A valid graph: a forest whose parentless nodes are exactly the top-level
    forms (or the root, when no form is registered). *)
Record wf_graph (g : IRGraph) : Prop := {
  wf_forest : forest g;
  wf_root : nodes g ≠ ∅ → root_id g ∈ dom (nodes g);
  wf_roots : nodes g ≠ ∅ → ∀ c, parents g !! c = Some None ↔
    (if decide (top_level_forms g = []) then c = root_id g else c ∈ top_level_forms g);
}.

(** ** Templates *)

Record IRGraphTemplate := {
  t_root_id : NodeId;
  t_nodes : list Node;
  t_parents : list (NodeId * option NodeId);
  t_source_spans : list (NodeId * SourceSpan);
  t_internal_nodes : list NodeId;
  t_top_level_forms : list NodeId;
  t_next_id : NodeId;
}.

(** Entries of a map in ascending key order. *)
Definition sorted_entries {A} (m : gmap NodeId A) : list (NodeId * A) :=
  omap (λ k, (λ a, (k, a)) <$> m !! k) (sort_ids (map_to_list m).*1).

Definition to_template (self : IRGraph) : IRGraphTemplate :=
  {| t_root_id := root_id self;
     t_nodes := (sorted_entries (nodes self)).*2;
     t_parents := sorted_entries (parents self);
     t_source_spans := sorted_entries (source_spans self);
     t_internal_nodes := sort_ids (elements (internal_nodes self));
     t_top_level_forms := top_level_forms self;
     t_next_id := next_id self |}.

(** [collect()] into a [HashMap]: a later entry for the same key wins. *)
Definition collect_map {A} (l : list (NodeId * A)) : gmap NodeId A :=
  foldl (λ m e, <[e.1 := e.2]> m) ∅ l.

(** The graph [from_template] assembles. *)
Definition graph_of_template (t : IRGraphTemplate) : IRGraph :=
  {| root_id := t_root_id t;
     nodes := collect_map ((λ nd, (node_id nd, nd)) <$> t_nodes t);
     parents := collect_map (t_parents t);
     source_spans := collect_map (t_source_spans t);
     internal_nodes := list_to_set (t_internal_nodes t);
     top_level_forms := t_top_level_forms t;
     top_level_set := list_to_set (t_top_level_forms t);
     next_id := t_next_id t |}.

(** Collect ids, refusing a duplicate ([if !set.insert(id) { return Err(..) }]). *)
Definition collect_unique (what : string) (ids : list NodeId) : CaapResult (gset NodeId) :=
  try_fold (λ (seen : gset NodeId) id,
    if decide (id ∈ seen) then Err (Graph (what +:+ pretty id)) else Ok ({[id]} ∪ seen)) ∅ ids.

Definition check_empty_template (self : IRGraphTemplate) : CaapResult unit :=
  if decide (t_parents self ≠ []) then
    Err (Graph "empty IRGraphTemplate cannot have parent entries")
  else if decide (t_top_level_forms self ≠ []) then
    Err (Graph "empty IRGraphTemplate cannot have top-level forms")
  else if decide (t_source_spans self ≠ []) then
    Err (Graph "empty IRGraphTemplate cannot have source spans")
  else if decide (t_internal_nodes self ≠ []) then
    Err (Graph "empty IRGraphTemplate cannot have internal nodes")
  else Ok tt.

Definition check_template_node (ids : gset NodeId) (nd : Node) : CaapResult unit :=
  match nd with
  | NodeCall call =>
      _ ← validate_unique_call_children (cn_callee call) (cn_args call);
      if decide (cn_callee call ∉ ids) then
        Err (Graph ("call " +:+ pretty (cn_id call) +:+ " has missing callee "
                      +:+ pretty (cn_callee call)))
      else for_each (λ arg,
             if decide (arg ∉ ids) then
               Err (Graph ("call " +:+ pretty (cn_id call) +:+ " has missing argument "
                             +:+ pretty arg))
             else Ok tt) (cn_args call)
  | _ => Ok tt
  end.

(** The parent loop, returning the ids it saw. *)
Definition check_template_parents (ids : gset NodeId)
    (entries : list (NodeId * option NodeId)) : CaapResult (gset NodeId) :=
  try_fold (λ (parent_ids : gset NodeId) entry,
    let '(id, parent) := entry in
    if decide (id ∉ ids) then
      Err (Graph ("parent entry references missing node: " +:+ pretty id))
    else if decide (id ∈ parent_ids) then
      Err (Graph ("duplicate parent entry for node: " +:+ pretty id))
    else match parent with
         | Some parent_id =>
             if decide (parent_id ∉ ids) then
               Err (Graph ("parent entry for " +:+ pretty id +:+ " references missing node: "
                             +:+ pretty parent_id))
             else Ok ({[id]} ∪ parent_ids)
         | None => Ok ({[id]} ∪ parent_ids)
         end) ∅ entries.

Definition check_template_top_level (ids : gset NodeId) (forms : list NodeId) :
    CaapResult (gset NodeId) :=
  try_fold (λ (top_level : gset NodeId) id,
    if decide (id ∉ ids) then
      Err (Graph ("top-level form references missing node: " +:+ pretty id))
    else if decide (id ∈ top_level) then
      Err (Graph ("duplicate top-level form id: " +:+ pretty id))
    else Ok ({[id]} ∪ top_level)) ∅ forms.

Definition check_template_parent_link (node_by_id : gmap NodeId Node)
    (entry : NodeId * option NodeId) : CaapResult unit :=
  let '(id, parent) := entry in
  match parent with
  | None => Ok tt
  | Some parent_id =>
      match node_by_id !! parent_id with
      | None => Err (Graph ("parent entry for " +:+ pretty id +:+ " references missing node: "
                              +:+ pretty parent_id))
      | Some parent_node =>
          if negb (contains_child parent_node id) then
            Err (Graph ("IRGraphTemplate parent " +:+ pretty parent_id
                          +:+ " does not reference child " +:+ pretty id))
          else Ok tt
      end
  end.

Definition check_template_child_links (parent_by_id : gmap NodeId (option NodeId)) (nd : Node) :
    CaapResult unit :=
  for_each (λ child_id,
    let actual_parent := mjoin (parent_by_id !! child_id) in
    if decide (actual_parent = Some (node_id nd)) then Ok tt
    else Err (Graph ("IRGraphTemplate child " +:+ pretty child_id
                       +:+ " parent mismatch: expected " +:+ pretty (node_id nd)
                       +:+ ", got " +:+ debug_option actual_parent))) (children nd).

Definition check_template_spans (ids : gset NodeId) (span_ids : list NodeId) : CaapResult unit :=
  discard (try_fold (λ (seen : gset NodeId) id,
        if decide (id ∉ ids) then
          Err (Graph ("source span references missing node: " +:+ pretty id))
        else if decide (id ∈ seen) then
          Err (Graph ("duplicate source span for node: " +:+ pretty id))
        else Ok ({[id]} ∪ seen)) (∅ : gset NodeId) span_ids).

Definition check_template_internal (node_by_id : gmap NodeId Node) (internal : list NodeId) :
    CaapResult unit :=
  discard (try_fold (λ (seen : gset NodeId) id,
        match node_by_id !! id with
        | None => Err (Graph ("internal marker references missing node: " +:+ pretty id))
        | Some nd =>
            if negb (is_name_node nd) then
              Err (Graph ("internal marker can only annotate name nodes: " +:+ pretty id))
            else if decide (id ∈ seen) then
              Err (Graph ("duplicate internal marker for node: " +:+ pretty id))
            else Ok ({[id]} ∪ seen)
        end) (∅ : gset NodeId) internal).

Definition template_validate (self : IRGraphTemplate) : CaapResult unit :=
  ids ← collect_unique "IRGraphTemplate has duplicate node id: " (node_id <$> t_nodes self);
  let node_by_id := collect_map ((λ nd, (node_id nd, nd)) <$> t_nodes self) in
  if decide (t_nodes self = []) then check_empty_template self
  else if decide (t_root_id self ∉ ids) then
    Err (Graph ("IRGraphTemplate root node is missing: " +:+ pretty (t_root_id self)))
  else
    _ ← for_each (check_template_node ids) (t_nodes self);
    parent_ids ← check_template_parents ids (t_parents self);
    _ ← for_each (λ id, if decide (id ∉ parent_ids) then
                          Err (Graph ("missing parent entry for node: " +:+ pretty id))
                        else Ok tt) (elements ids);
    let parent_by_id := collect_map (t_parents self) in
    top_level ← check_template_top_level ids (t_top_level_forms self);
    _ ← check_parentless "IRGraphTemplate" (t_top_level_forms self) (t_root_id self) top_level
          parent_by_id;
    _ ← for_each (check_template_parent_link node_by_id) (t_parents self);
    _ ← check_acyclic "IRGraphTemplate parent links must be acyclic" parent_by_id (elements ids);
    _ ← for_each (check_template_child_links parent_by_id) (t_nodes self);
    _ ← check_template_spans ids (t_source_spans self).*1;
    _ ← check_template_internal node_by_id (t_internal_nodes self);
    check_next_id "IRGraphTemplate" (node_id <$> t_nodes self) (t_next_id self).

Definition from_template (template : IRGraphTemplate) : CaapResult IRGraph :=
  _ ← template_validate template;
  Ok (graph_of_template template).

(** * Properties *)

(** ** Correctness of the three-colour walk *)

Section walk.
Context (par : NodeId → option NodeId).

Lemma rooted_ext (par' : NodeId → option NodeId) c :
  (∀ x, par x = par' x) → rooted par c → rooted par' c.
Proof.
  intros Heq. induction 1 as [c H|c p H _ IH].
  - apply rooted_root. by rewrite <-Heq.
  - eapply rooted_step; [|done]. by rewrite <-Heq.
Qed.

(** [path] follows [par] and its last element's link is [cur]. *)
Fixpoint chain (path : list NodeId) (cur : option NodeId) : Prop :=
  match path with
  | [] => True
  | x :: path' => par x = (match path' with [] => cur | y :: _ => Some y end) ∧ chain path' cur
  end.

Lemma chain_snoc path id : chain path (Some id) → chain (path ++ [id]) (par id).
Proof.
  induction path as [|x path IH]; cbn; [done|]. intros [Hx Hc]. split; [|by apply IH].
  by destruct path.
Qed.

Lemma chain_rooted path cur :
  chain path cur → (∀ c, cur = Some c → rooted par c) → ∀ x, x ∈ path → rooted par x.
Proof.
  intros Hc Hcur. induction path as [|y path IH]; intros x; [set_solver|].
  destruct Hc as [Hy Hc]. specialize (IH Hc). intros [->|Hx]%elem_of_cons; [|by apply IH].
  destruct path as [|z path].
  - destruct cur as [c|]; [by eapply rooted_step; [|apply Hcur]|by apply rooted_root].
  - eapply rooted_step; [done|]. apply IH. set_solver.
Qed.

Lemma chain_step path c x :
  chain path (Some c) → x ∈ path → ∃ y, par x = Some y ∧ (y = c ∨ y ∈ path).
Proof.
  induction path as [|z path IH]; [set_solver|]. cbn. intros [Hz Hc].
  intros [->|Hx]%elem_of_cons.
  - destruct path as [|w path]; [by eauto|]. exists w. set_solver.
  - destruct (IH Hc Hx) as (y & ? & [?|?]); exists y; set_solver.
Qed.

Lemma chain_cycle path c x :
  chain path (Some c) → c ∈ path → x ∈ path → ¬ rooted par x.
Proof.
  intros Hc Hin Hx Hr. revert Hx. induction Hr as [x Hroot|x p Hp _ IH]; intros Hx.
  - destruct (chain_step path c x Hc Hx) as (y & ? & _). congruence.
  - destruct (chain_step path c x Hc Hx) as (y & ? & [->|Hy]); simplify_eq; by apply IH.
Qed.

Lemma mark_done_lookup path color id :
  mark_done path color !! id = if decide (id ∈ path) then Some 2%N else color !! id.
Proof.
  unfold mark_done. revert color. induction path as [|x path IH]; intros color; cbn; [done|].
  rewrite IH. destruct (decide (id ∈ path)) as [Hin|Hin].
  - rewrite decide_True; [done|set_solver].
  - rewrite lookup_insert. case_decide as Hx; [subst|].
    + rewrite decide_True; [done|set_solver].
    + rewrite decide_False; [done|set_solver].
Qed.

(** Colours while a walk is under way. *)
Record walk_inv (color : gmap NodeId N) (path : list NodeId) : Prop := {
  wi_one : ∀ id, color !! id = Some 1%N ↔ id ∈ path;
  wi_two : ∀ id, color !! id = Some 2%N → rooted par id;
  wi_range : ∀ id k, color !! id = Some k → k = 1%N ∨ k = 2%N;
  wi_nodup : NoDup path;
}.

Lemma walk_inv_push color path id :
  walk_inv color path → default 0%N (color !! id) ≠ 1%N → default 0%N (color !! id) ≠ 2%N →
  walk_inv (<[id := 1%N]> color) (path ++ [id]).
Proof.
  intros [H1 H2 H3 H4] Hn1 Hn2.
  assert (color !! id = None) as Hnone.
  { destruct (color !! id) as [k|] eqn:E; [|done]. cbn in *.
    destruct (H3 id k E); subst; done. }
  assert (id ∉ path) as Hid. { rewrite <-H1. congruence. }
  split.
  - intros id'. rewrite lookup_insert, elem_of_app, list_elem_of_singleton.
    case_decide; [subst; naive_solver|]. rewrite H1. naive_solver.
  - intros id'. rewrite lookup_insert. case_decide; [done|apply H2].
  - intros id' k. rewrite lookup_insert. case_decide; [naive_solver|apply H3].
  - apply NoDup_app. split_and!; [done|set_solver|apply NoDup_singleton].
Qed.

(** All colours settled: 2 means rooted. *)
Definition settled (color : gmap NodeId N) : Prop :=
  ∀ id, color !! id = None ∨ (color !! id = Some 2%N ∧ rooted par id).

Lemma settled_walk_inv color : settled color → walk_inv color [].
Proof.
  intros Hs. split.
  - intros id. destruct (Hs id) as [->|[-> _]]; split; set_solver.
  - intros id Hid. destruct (Hs id) as [?|[_ ?]]; congruence.
  - intros id k Hk. destruct (Hs id) as [?|[? _]]; naive_solver.
  - constructor.
Qed.

Lemma mark_done_settled color path :
  walk_inv color path → (∀ x, x ∈ path → rooted par x) →
  settled (mark_done path color) ∧ (∀ x, x ∈ path → mark_done path color !! x = Some 2%N) ∧
  (∀ x, color !! x = Some 2%N → mark_done path color !! x = Some 2%N).
Proof.
  intros [H1 H2 H3 H4] Hp. split_and!.
  - intros id. rewrite mark_done_lookup. case_decide; [naive_solver|].
    destruct (color !! id) as [k|] eqn:E; [|by left]. right.
    destruct (H3 id k E) as [->| ->]; [by apply H1 in E|naive_solver].
  - intros x Hx. rewrite mark_done_lookup. by rewrite decide_True.
  - intros x Hx. rewrite mark_done_lookup. by case_decide.
Qed.

Context (D : gset NodeId).
Hypothesis par_dom : ∀ x p, par x = Some p → x ∈ D.

Lemma chain_in_dom path c : chain path (Some c) → ∀ x, x ∈ path → x ∈ D.
Proof. intros Hc x Hx. destruct (chain_step path c x Hc Hx) as (y & Hy & _). eauto. Qed.

Lemma chain_length path c : chain path (Some c) → NoDup path → length path ≤ size D.
Proof.
  intros Hc Hnd. rewrite <-(size_list_to_set (C := gset NodeId) path Hnd).
  apply subseteq_size. intros x. rewrite elem_of_list_to_set. by eapply chain_in_dom.
Qed.

Lemma color_walk_spec fuel color path cur :
  walk_inv color path → chain path cur →
  match cur with None => 1 ≤ fuel | Some _ => size D + 2 ≤ fuel + length path end →
  match color_walk fuel par color path cur with
  | WalkFuel => False
  | WalkCycle => ∀ x, x ∈ path ∨ cur = Some x → ¬ rooted par x
  | WalkDone color' =>
      settled color' ∧ (∀ x, x ∈ path ∨ cur = Some x → color' !! x = Some 2%N) ∧
      (∀ x, color !! x = Some 2%N → color' !! x = Some 2%N)
  end.
Proof.
  revert color path cur. induction fuel as [|fuel IH]; intros color path cur Hinv Hch Hfuel.
  { destruct cur as [c|]; [|lia].
    pose proof (chain_length path c Hch (wi_nodup _ _ Hinv)). lia. }
  destruct cur as [id|]; cbn [color_walk].
  2:{ destruct (mark_done_settled color path Hinv) as (? & ? & ?).
      { by apply (chain_rooted path None). }
      split_and!; [done| |done]. intros x [Hx|?]; [auto|done]. }
  pose proof (chain_length path id Hch (wi_nodup _ _ Hinv)) as Hlen.
  destruct (decide (default 0%N (color !! id) = 1%N)) as [E1|N1].
  { rewrite E1. intros x Hx.
    assert (color !! id = Some 1%N) as Hone. { by destruct (color !! id); cbn in *; subst. }
    apply (wi_one _ _ Hinv) in Hone. apply (chain_cycle path id); [done..|].
    destruct Hx as [?|[= <-]]; done. }
  destruct (decide (default 0%N (color !! id) = 2%N)) as [E2|N2].
  { rewrite E2. assert (color !! id = Some 2%N) as Htwo.
    { by destruct (color !! id); cbn in *; subst. }
    destruct (mark_done_settled color path Hinv) as (? & ? & H2).
    { apply (chain_rooted path (Some id)); [done|]. intros c [= <-].
      by apply (wi_two _ _ Hinv). }
    split_and!; [done| |done]. intros x [Hx|[= <-]]; [auto|by apply H2]. }
  specialize (IH (<[id := 1%N]> color) (path ++ [id]) (par id)
    (walk_inv_push _ _ _ Hinv N1 N2) (chain_snoc _ _ Hch)).
  ospecialize (IH _). { destruct (par id); [|lia]. rewrite length_app. cbn. lia. }
  assert (∀ T (a b c : T), match default 0%N (color !! id) with
    | 2%N => a | 1%N => b | _ => c end = c) as Hm.
  { intros T a b c. destruct (color !! id) as [[|[[]|[[]|[]|]|]]|]; cbn in *; congruence. }
  rewrite Hm. destruct (color_walk fuel par _ _ _) as [| |color']; [done| |].
  - intros x Hx. apply IH. rewrite elem_of_app, list_elem_of_singleton. naive_solver.
  - destruct IH as (Hs & Hp & Hmono). split_and!; [done| |].
    + intros x Hx. apply Hp. rewrite elem_of_app, list_elem_of_singleton. naive_solver.
    + intros x Hx. apply Hmono. rewrite lookup_insert. case_decide; [|done].
      subst. by rewrite Hx in N2.
Qed.
End walk.

Definition link (m : gmap NodeId (option NodeId)) (id : NodeId) : option NodeId :=
  mjoin (m !! id).

Lemma link_dom m x p : link m x = Some p → x ∈ dom m.
Proof. unfold link. intros H. apply elem_of_dom. destruct (m !! x); [eauto|done]. Qed.

Lemma color_starts_spec (m : gmap NodeId (option NodeId)) fuel color starts :
  size m + 2 ≤ fuel → settled (link m) color →
  match color_starts fuel (link m) color starts with
  | WalkFuel => False
  | WalkCycle => ∃ s, s ∈ starts ∧ ¬ rooted (link m) s
  | WalkDone _ => ∀ s, s ∈ starts → rooted (link m) s
  end.
Proof.
  intros Hfuel. revert color. induction starts as [|s starts IH]; intros color Hs;
    cbn [color_starts]; [set_solver|].
  assert (∀ c', settled (link m) c' → c' !! s = Some 2%N →
    match color_starts fuel (link m) c' starts with
    | WalkFuel => False
    | WalkCycle => ∃ x, x ∈ s :: starts ∧ ¬ rooted (link m) x
    | WalkDone _ => ∀ x, x ∈ s :: starts → rooted (link m) x
    end) as Hrest.
  { intros c' Hc' Hsc. specialize (IH c' Hc'). destruct (Hc' s) as [?|[_ Hr]]; [congruence|].
    destruct (color_starts _ _ c' _) as [| |c'']; [done| |].
    - destruct IH as (x & ? & ?). exists x. split; [by right|done].
    - intros x [->|Hx]%elem_of_cons; [done|by apply IH]. }
  case_decide as Hd; [by apply Hrest|].
  pose proof (color_walk_spec (link m) (dom m) (link_dom m) fuel color [] (Some s)
    (settled_walk_inv _ _ Hs) I) as Hw.
  ospecialize (Hw _). { rewrite size_dom. cbn. lia. }
  destruct (color_walk _ _ _ _ _) as [| |c']; [done| |].
  - exists s. split; [by left|]. apply Hw. by right.
  - destruct Hw as (? & Hp & _). apply Hrest; [done|]. apply Hp. by right.
Qed.

Lemma parent_walks_spec m starts :
  match parent_walks m starts with
  | WalkFuel => False
  | WalkCycle => ∃ s, s ∈ starts ∧ ¬ rooted (link m) s
  | WalkDone _ => ∀ s, s ∈ starts → rooted (link m) s
  end.
Proof. apply (color_starts_spec m); [lia|]. intros id. by left. Qed.

Lemma check_acyclic_ok message m starts :
  check_acyclic message m starts = Ok tt ↔ ∀ s, s ∈ starts → rooted (link m) s.
Proof.
  unfold check_acyclic. pose proof (parent_walks_spec m starts) as H.
  destruct (parent_walks m starts); [done| |done].
  destruct H as (s & Hs & Hn). split; [done|]. intros Hr. by destruct Hn; apply Hr.
Qed.

(** ** The integrity check decides validity *)

Lemma contains_dom g id : contains g id = true ↔ id ∈ dom (nodes g).
Proof. unfold contains. rewrite elem_of_dom. destruct (nodes g !! id); naive_solver. Qed.

Lemma validate_unique_ok callee args :
  validate_unique_call_children callee args = Ok tt ↔ NoDup (callee :: args).
Proof.
  unfold validate_unique_call_children. rewrite discard_ok, NoDup_cons.
  setoid_rewrite (unique_fold_ok _ id (λ _, True)).
  2:{ intros seen x s. rewrite if_decide_err_ok, ok_inj. naive_solver. }
  rewrite list_fmap_id. split.
  - intros (s & _ & ? & Hc & _). split; [|done]. intros Hin. specialize (Hc _ Hin). set_solver.
  - intros [Hc ?]. eexists. split_and!; [by apply Forall_true|done| |done].
    intros x Hx Heq%elem_of_singleton. cbn in Heq. by subst.
Qed.

Lemma for_each_map_ok {A} (f : NodeId * A → CaapResult unit) (m : gmap NodeId A) :
  for_each f (map_to_list m) = Ok tt ↔ ∀ k a, m !! k = Some a → f (k, a) = Ok tt.
Proof.
  rewrite for_each_ok, Forall_forall. split.
  - intros H k a Hk. apply H. by apply elem_of_map_to_list.
  - intros H [k a] Hk. apply H. by apply elem_of_map_to_list.
Qed.

Lemma for_each_keys_ok {A} (f : NodeId → CaapResult unit) (m : gmap NodeId A) :
  for_each f (map_to_list m).*1 = Ok tt ↔ ∀ k, k ∈ dom m → f k = Ok tt.
Proof.
  rewrite for_each_ok, Forall_forall. setoid_rewrite list_elem_of_fmap.
  setoid_rewrite elem_of_dom. split.
  - intros H k [a Ha]. apply H. exists (k, a). split; [done|]. by apply elem_of_map_to_list.
  - intros H k ([k' a] & -> & Hk). apply H. exists a. by apply elem_of_map_to_list.
Qed.

Lemma for_each_contains_ok g (e : NodeId → CaapError) l :
  for_each (λ a, if negb (contains g a) then Err (e a) else Ok tt) l = Ok tt ↔
    ∀ a, a ∈ l → a ∈ dom (nodes g).
Proof.
  rewrite for_each_ok, Forall_forall. setoid_rewrite <-contains_dom.
  split; intros H a Ha; specialize (H a Ha); [|by rewrite H].
  by apply if_err_ok in H as [?%negb_false_iff _].
Qed.

Lemma check_node_entry_ok g id nd :
  check_node_entry g (id, nd) = Ok tt ↔
    node_id nd = id ∧ NoDup (children nd) ∧ ∀ c, c ∈ children nd → c ∈ dom (nodes g).
Proof.
  unfold check_node_entry. rewrite if_err_ok, negb_false_iff, N.eqb_eq.
  destruct nd as [n|n|n]; cbn [children].
  1,2: split; [intros [? _]; split_and!; [done|constructor|set_solver]|naive_solver].
  rewrite bind_ok. split.
  - intros (? & [] & Hu%validate_unique_ok & H).
    rewrite if_err_ok, negb_false_iff, contains_dom, for_each_contains_ok in H.
    destruct H as [Hc Ha]. split_and!; [done..|]. intros c [->|?]%elem_of_cons; [done|auto].
  - intros (? & Hu & Hin). split; [done|]. exists tt. split; [by apply validate_unique_ok|].
    rewrite if_err_ok, negb_false_iff, contains_dom, for_each_contains_ok.
    split; [|intros a Ha]; apply Hin; set_solver.
Qed.

Lemma check_parent_entry_ok g id p :
  check_parent_entry g (id, p) = Ok tt ↔
    id ∈ dom (nodes g) ∧ ∀ q, p = Some q → q ∈ dom (nodes g).
Proof.
  unfold check_parent_entry. rewrite if_err_ok, negb_false_iff, contains_dom.
  destruct p as [q|]; [|naive_solver]. rewrite if_err_ok, negb_false_iff, contains_dom.
  naive_solver.
Qed.

Lemma check_top_level_forms_ok g s :
  check_top_level_forms g = Ok s ↔
    (∀ id, id ∈ top_level_forms g → id ∈ dom (nodes g)) ∧ NoDup (top_level_forms g) ∧
    s = list_to_set (top_level_forms g).
Proof.
  unfold check_top_level_forms.
  rewrite (unique_fold_ok _ id (λ x, x ∈ dom (nodes g))).
  2:{ intros seen x s'. rewrite if_err_ok, negb_false_iff, contains_dom, if_decide_err_ok, ok_inj.
      naive_solver. }
  rewrite list_fmap_id, Forall_forall, union_empty_r_L. set_solver.
Qed.

Lemma elem_of_parentless m c : c ∈ parentless m ↔ m !! c = Some None.
Proof.
  unfold parentless. rewrite elem_of_dom. split.
  - intros [p [Hp Hn]%map_lookup_filter_Some]. cbn in Hn. by subst.
  - intros H. exists None. by apply map_lookup_filter_Some.
Qed.

Lemma check_parentless_ok label forms root top m :
  check_parentless label forms root top m = Ok tt ↔
    ∀ c, m !! c = Some None ↔ (if decide (forms = []) then c = root else c ∈ top).
Proof.
  unfold check_parentless. setoid_rewrite <-elem_of_parentless.
  rewrite if_decide_ok, set_eq. destruct (decide (forms = [])) as [->|Hne].
  - setoid_rewrite elem_of_singleton. naive_solver.
  - destruct forms; [done|]. naive_solver.
Qed.

Lemma check_parent_link_ok g c p :
  check_parent_link g (c, p) = Ok tt ↔
    ∀ q, p = Some q → ∃ nd, nodes g !! q = Some nd ∧ c ∈ children nd.
Proof.
  unfold check_parent_link. destruct p as [q|]; [|naive_solver].
  destruct (nodes g !! q) as [nd|] eqn:E.
  - rewrite if_err_ok, negb_false_iff, contains_child_spec. naive_solver.
  - split; [done|]. intros H. destruct (H q eq_refl) as (? & ? & _). congruence.
Qed.

Lemma check_child_links_ok g id nd :
  check_child_links g (id, nd) = Ok tt ↔ ∀ c, c ∈ children nd → parents g !! c = Some (Some id).
Proof.
  unfold check_child_links. rewrite for_each_ok, Forall_forall.
  assert (∀ c, (if decide (parent_of g c = Some id) then Ok tt else
    Err (Graph ("IRGraph child " +:+ pretty c +:+ " parent mismatch: expected "
                       +:+ pretty id +:+ ", got " +:+ debug_option (parent_of g c)))) = Ok tt
    ↔ parents g !! c = Some (Some id)) as Hc; [|setoid_rewrite Hc; done].
  intros c. rewrite if_decide_ok. unfold parent_of.
  destruct (parents g !! c); naive_solver.
Qed.

Lemma check_internal_id_ok g id :
  check_internal_id g id = Ok tt ↔ ∃ n, nodes g !! id = Some (NodeName n).
Proof.
  unfold check_internal_id. destruct (nodes g !! id) as [[n|n|n]|]; cbn;
    (split; [try done; eauto|by intros [? [= <-]]]).
Qed.

Lemma max_node_id_ge l acc m :
  foldl (λ acc id, Some (match acc with None => id | Some m => N.max m id end)) acc l = m →
  (∀ a, acc = Some a → ∃ k, m = Some k ∧ (a ≤ k)%N) ∧ (∀ x, x ∈ l → ∃ k, m = Some k ∧ (x ≤ k)%N) ∧
  (∀ k, m = Some k → acc = Some k ∨ k ∈ l).
Proof.
  revert acc. induction l as [|x l IH]; intros acc; cbn.
  { intros <-. split_and!; [|set_solver|naive_solver]. intros a ->. eexists; split; [done|lia]. }
  intros Hm. destruct (IH _ Hm) as (H1 & H2 & H3).
  destruct (H1 _ eq_refl) as (k & -> & Hk). split_and!.
  - intros a ->. exists k. split; [done|]. lia.
  - intros y [->|Hy]%elem_of_cons; [|by apply H2]. exists k. split; [done|].
    destruct acc; lia.
  - intros k' [= <-]. destruct (H3 k eq_refl) as [[= E]|?]; [|set_solver].
    destruct acc as [a|]; [|set_solver].
    destruct (N.max_spec a x) as [[_ Ha]|[_ Ha]]; rewrite Ha in E; subst; [set_solver|by left].
Qed.

Lemma check_next_id_ok label ids next :
  check_next_id label ids next = Ok tt ↔ ∀ x, x ∈ ids → (x < next)%N.
Proof.
  unfold check_next_id. destruct (max_node_id ids) as [k|] eqn:E.
  - apply max_node_id_ge in E as (_ & H2 & H3). destruct (N.leb_spec next k).
    + split; [done|]. intros Hx. destruct (H3 k eq_refl) as [?|Hk]; [done|].
      specialize (Hx k Hk). lia.
    + split; [|done]. intros _ x Hx. destruct (H2 x Hx) as (? & [= <-] & ?). lia.
  - apply max_node_id_ge in E as (_ & H2 & _). split; [|done].
    intros _ x Hx. by destruct (H2 x Hx) as (? & ? & _).
Qed.

Lemma check_empty_graph_ok g :
  check_empty_graph g = Ok tt ↔
    parents g = ∅ ∧ top_level_forms g = [] ∧ top_level_set g = ∅ ∧ source_spans g = ∅ ∧
    internal_nodes g = ∅.
Proof.
  unfold check_empty_graph. rewrite !if_decide_err_ok.
  destruct (decide (parents g = ∅)), (decide (top_level_forms g = [])),
    (decide (top_level_set g = ∅)), (decide (source_spans g = ∅)),
    (decide (internal_nodes g = ∅)); naive_solver.
Qed.

Lemma forest_empty g : nodes g = ∅ →
  (check_empty_graph g = Ok tt ↔ forest g).
Proof.
  intros Hn. rewrite check_empty_graph_ok. split.
  - intros (Hp & Hf & Hs & Hsp & Hi). split; rewrite ?Hn, ?Hp, ?Hf, ?Hs, ?Hsp, ?Hi; try done.
    all: try (intros *; rewrite ?lookup_empty; done).
    all: try set_solver. constructor.
  - intros H. pose proof (fo_dom _ H) as Hd. rewrite Hn, dom_empty_L in Hd.
    apply dom_empty_inv_L in Hd.
    assert (top_level_forms g = []) as Hf.
    { destruct (top_level_forms g) as [|f l] eqn:E; [done|].
      pose proof (fo_forms_root _ H f) as Hr. rewrite E, Hd in Hr.
      rewrite lookup_empty in Hr. by specialize (Hr ltac:(set_solver)). }
    split_and!; [done|done|by rewrite (fo_forms_set _ H), Hf| |].
    + apply dom_empty_inv_L. pose proof (fo_spans _ H) as Hs. rewrite Hn in Hs. set_solver.
    + apply set_eq. intros x. split; [|set_solver]. intros Hx.
      destruct (fo_internal _ H x Hx) as [n Hn']. by rewrite Hn, lookup_empty in Hn'.
Qed.

(** The checks of [validate_integrity] on a non-empty graph, as one conjunction. *)
Lemma validate_integrity_steps g : nodes g ≠ ∅ →
  validate_integrity g = Ok tt ↔
    root_id g ∈ dom (nodes g) ∧
    for_each (check_node_entry g) (map_to_list (nodes g)) = Ok tt ∧
    for_each (check_parent_entry g) (map_to_list (parents g)) = Ok tt ∧
    for_each (check_has_parent_entry g) (map_to_list (nodes g)).*1 = Ok tt ∧
    check_top_level_forms g = Ok (top_level_set g) ∧
    check_parentless "IRGraph" (top_level_forms g) (root_id g) (top_level_set g)
      (parents g) = Ok tt ∧
    for_each (check_parent_link g) (map_to_list (parents g)) = Ok tt ∧
    check_acyclic "IRGraph parent links must be acyclic" (parents g)
      (map_to_list (nodes g)).*1 = Ok tt ∧
    for_each (check_child_links g) (map_to_list (nodes g)) = Ok tt ∧
    for_each (check_span_key g) (map_to_list (source_spans g)).*1 = Ok tt ∧
    for_each (check_internal_id g) (elements (internal_nodes g)) = Ok tt ∧
    check_next_id "IRGraph" (map_to_list (nodes g)).*1 (next_id g) = Ok tt.
Proof.
  intros Hn. unfold validate_integrity. rewrite decide_False by done.
  rewrite if_err_ok, negb_false_iff, contains_dom, !seq_ok, bind_ok. split.
  - intros (H1 & H2 & H3 & H4 & s & Hs & H). rewrite if_decide_err_ok, !seq_ok in H.
    destruct H as [<-%dec_stable H]. tauto.
  - intros (H1 & H2 & H3 & H4 & Hs & H). split_and!; [done..|]. exists (top_level_set g).
    split; [done|]. rewrite if_decide_err_ok, !seq_ok. tauto.
Qed.

Lemma map_keys_elem_of {A} (m : gmap NodeId A) x : x ∈ (map_to_list m).*1 ↔ x ∈ dom m.
Proof.
  rewrite elem_of_dom, list_elem_of_fmap. split.
  - intros ([k a] & -> & Hk). exists a. by apply elem_of_map_to_list.
  - intros [a Ha]. exists (x, a). split; [done|]. by apply elem_of_map_to_list.
Qed.

Lemma parentless_forms (m : gmap NodeId (option NodeId)) forms root :
  (∀ c, m !! c = Some None ↔ (if decide (forms = []) then c = root
               else c ∈ (list_to_set forms : gset NodeId))) ↔
  (∀ c, m !! c = Some None ↔ (if decide (forms = []) then c = root else c ∈ forms)).
Proof. case_decide; [done|]. by setoid_rewrite elem_of_list_to_set. Qed.

Lemma validate_integrity_sound g : nodes g ≠ ∅ → validate_integrity g = Ok tt → wf_graph g.
Proof.
  intros Hn. rewrite validate_integrity_steps by done.
  intros (Hroot & Hnodes & Hpar & Hhas & Hs & Hless & Hlink & Hac & Hch & Hsp & Hin & Hnext).
  rewrite for_each_map_ok in Hnodes, Hch. rewrite for_each_map_ok in Hlink, Hpar.
  rewrite for_each_keys_ok in Hhas. rewrite for_each_keys_ok in Hsp. rewrite for_each_ok, Forall_forall in Hin.
  apply check_top_level_forms_ok in Hs as (Hforms & Hnd & Hset).
  rewrite check_parentless_ok, Hset in Hless.
  pose proof (proj1 (parentless_forms _ _ _) Hless) as Hless'. clear Hless.
  rewrite check_acyclic_ok in Hac. rewrite check_next_id_ok in Hnext.
  setoid_rewrite map_keys_elem_of in Hac. setoid_rewrite map_keys_elem_of in Hnext.
  split; [split|done|done].
  - intros id nd H. by apply Hnodes, check_node_entry_ok in H as [? _].
  - apply set_eq. intros x. split.
    + intros [p Hp]%elem_of_dom. by apply Hpar, check_parent_entry_ok in Hp as [? _].
    + intros Hx. specialize (Hhas x Hx). unfold check_has_parent_entry in Hhas.
      apply elem_of_dom. by destruct (parents g !! x).
  - intros id nd c H. specialize (Hch id nd H). rewrite check_child_links_ok in Hch. by apply Hch.
  - intros id nd H. by apply Hnodes, check_node_entry_ok in H as (_ & ? & _).
  - intros c p H. apply Hlink in H. rewrite check_parent_link_ok in H. by apply H.
  - intros c Hc. by apply (Hac c).
  - done.
  - done.
  - intros c Hc. apply Hless'. case_decide as Hd; [rewrite Hd in Hc; set_solver|done].
  - intros x Hx. specialize (Hsp x Hx). unfold check_span_key in Hsp.
    rewrite if_err_ok, negb_false_iff, contains_dom in Hsp. by destruct Hsp.
  - intros id Hid. apply check_internal_id_ok, Hin. by apply elem_of_elements.
  - done.
Qed.

Lemma validate_integrity_complete g : nodes g ≠ ∅ → wf_graph g → validate_integrity g = Ok tt.
Proof.
  intros Hn [Hf Hroot Hroots]. rewrite validate_integrity_steps by done.
  assert (∀ c p, parents g !! c = Some p → c ∈ dom (nodes g)) as Hdom.
  { intros c p Hp. rewrite <-(fo_dom _ Hf). apply elem_of_dom. eauto. }
  rewrite !for_each_map_ok, !for_each_keys_ok, for_each_ok, Forall_forall, check_acyclic_ok,
    check_next_id_ok, check_parentless_ok, check_top_level_forms_ok, (fo_forms_set _ Hf).
  setoid_rewrite map_keys_elem_of. rewrite parentless_forms.
  split_and!; [by apply Hroot|..].
  - intros k a Ha. apply check_node_entry_ok. split_and!.
    + by apply (fo_key _ Hf).
    + by apply (fo_nodup _ Hf k).
    + intros c Hc. eapply Hdom. by apply (fo_child _ Hf k a).
  - intros k p Hp. apply check_parent_entry_ok. split; [by eapply Hdom|].
    intros q ->. destruct (fo_parent _ Hf k q Hp) as (nd & ? & _). apply elem_of_dom. eauto.
  - intros k Hk. unfold check_has_parent_entry.
    rewrite <-(fo_dom _ Hf) in Hk. by apply elem_of_dom in Hk as [p ->].
  - intros id Hid. eapply Hdom. by apply (fo_forms_root _ Hf).
  - apply (fo_forms_nodup _ Hf).
  - done.
  - by apply Hroots.
  - intros k p Hp. apply check_parent_link_ok. intros q ->. by apply (fo_parent _ Hf).
  - intros s Hs. by apply (fo_rooted _ Hf).
  - intros k a Ha. apply check_child_links_ok. intros c Hc. by apply (fo_child _ Hf k a).
  - intros k Hk. unfold check_span_key. rewrite if_err_ok, negb_false_iff, contains_dom.
    split; [by apply (fo_spans _ Hf)|done].
  - intros k Hk%elem_of_elements. apply check_internal_id_ok. by apply (fo_internal _ Hf).
  - intros x Hx. by apply (fo_next _ Hf).
Qed.

(** C1: [IRGraph::validate_integrity] accepts a graph exactly when it is well
    formed: keys match ids, children are distinct and present, parent links
    are the inverse of child links and acyclic, parentless nodes are exactly
    the top-level forms, markers and spans annotate existing nodes, and
    [next_id] is fresh. The three-colour walk along the parent links, on every
    parent map and every list of start nodes, comes to its end ([WalkFuel] does
    not occur); it reports a cycle only when some start node does not lead to a
    root, and comes back without one only when every start node does. *)
Theorem validate_integrity_iff_wf :
  (∀ g, validate_integrity g = Ok tt ↔ wf_graph g) ∧
  (∀ (parent_map : gmap NodeId (option NodeId)) (starts : list NodeId),
     match parent_walks parent_map starts with
     | WalkFuel => False
     | WalkCycle => ∃ s, s ∈ starts ∧ ¬ rooted (λ id, mjoin (parent_map !! id)) s
     | WalkDone _ => ∀ s, s ∈ starts → rooted (λ id, mjoin (parent_map !! id)) s
     end).
Proof.
  split; [intros g|by apply parent_walks_spec].
  destruct (decide (nodes g = ∅)) as [Hn|Hn].
  - unfold validate_integrity. rewrite decide_True, forest_empty by done.
    split; [by split|by intros []].
  - split; [by apply validate_integrity_sound|by apply validate_integrity_complete].
Qed.
