(* ===== verification/GraphTemplate.v ===== *)
(** Templates of [caap/src/graph.rs]: the serialised form of a graph.

    [IRGraphTemplate::validate] re-implements the integrity check on the flat
    lists of a template. The lemmas relate its steps, one by one, to the steps
    of [IRGraph::validate_integrity] on the graph that [from_template]
    assembles; the theorems conclude that a template is accepted exactly when
    it lists no entry twice and its graph is valid, and that exporting a valid
    graph and importing it again is the identity. *)

From S2P Require Import Prelude Policy Source Ir Graph GraphIntegrity.

(** ** [collect] into a map *)

Section collect_map.
Context {A : Type}.
Implicit Types l : list (NodeId * A).

Lemma collect_map_snoc l e : collect_map (l ++ [e]) = <[e.1 := e.2]> (collect_map l).
Proof. unfold collect_map. by rewrite foldl_app. Qed.

Lemma collect_map_dom l : dom (collect_map l) = list_to_set l.*1.
Proof.
  induction l as [|e l IH] using rev_ind; [done|].
  rewrite collect_map_snoc, dom_insert_L, IH, fmap_app, list_to_set_app_L. set_solver.
Qed.

Lemma collect_map_lookup l k a :
  NoDup l.*1 → collect_map l !! k = Some a ↔ (k, a) ∈ l.
Proof.
  induction l as [|[k' a'] l IH] using rev_ind.
  { intros _. cbn. rewrite lookup_empty. split; [done|set_solver]. }
  rewrite fmap_app, NoDup_app. intros (Hl & Hn & _).
  rewrite collect_map_snoc, lookup_insert, elem_of_app, list_elem_of_singleton. cbn.
  case_decide as Hk; [subst k'|rewrite IH by done; naive_solver].
  split; [intros [= ->]; by right|]. intros [Hin|[= ->]]; [|done]. exfalso.
  apply (Hn k); [|set_solver]. apply list_elem_of_fmap. by exists (k, a).
Qed.

Lemma collect_map_ext l (m : gmap NodeId A) :
  NoDup l.*1 → (∀ k a, (k, a) ∈ l ↔ m !! k = Some a) → collect_map l = m.
Proof.
  intros Hl H. apply map_eq. intros k. apply option_eq. intros a.
  by rewrite collect_map_lookup, H.
Qed.

Lemma elem_of_sorted_entries (m : gmap NodeId A) k a :
  (k, a) ∈ sorted_entries m ↔ m !! k = Some a.
Proof.
  unfold sorted_entries, sort_ids. rewrite list_elem_of_omap.
  setoid_rewrite merge_sort_Permutation. setoid_rewrite map_keys_elem_of.
  setoid_rewrite fmap_Some. split.
  - intros (k' & _ & a' & Ha & [= <- <-]). done.
  - intros Ha. exists k. split; [apply elem_of_dom; eauto|]. eauto.
Qed.

Lemma sorted_entries_keys (m : gmap NodeId A) :
  (sorted_entries m).*1 = sort_ids (map_to_list m).*1.
Proof.
  unfold sorted_entries.
  assert (Forall (λ k, is_Some (m !! k)) (sort_ids (map_to_list m).*1)) as H.
  { apply Forall_forall. intros k. unfold sort_ids. rewrite merge_sort_Permutation.
    by rewrite map_keys_elem_of, elem_of_dom. }
  induction H as [|k l [a Ha] _ IH]; [done|]. cbn. rewrite Ha. cbn. by rewrite IH.
Qed.

Lemma sorted_entries_nodup (m : gmap NodeId A) : NoDup (sorted_entries m).*1.
Proof.
  rewrite sorted_entries_keys. unfold sort_ids. rewrite merge_sort_Permutation.
  apply NoDup_fst_map_to_list.
Qed.

Lemma collect_sorted_entries (m : gmap NodeId A) : collect_map (sorted_entries m) = m.
Proof.
  apply collect_map_ext; [apply sorted_entries_nodup|apply elem_of_sorted_entries].
Qed.
End collect_map.

(** ** The template's checks, step by step *)

Lemma keyed_nodes_fst (l : list Node) : ((λ nd, (node_id nd, nd)) <$> l).*1 = node_id <$> l.
Proof. rewrite <-list_fmap_compose. done. Qed.

Lemma elem_of_keyed_nodes (l : list Node) k nd :
  (k, nd) ∈ ((λ nd, (node_id nd, nd)) <$> l) ↔ k = node_id nd ∧ nd ∈ l.
Proof. rewrite list_elem_of_fmap. naive_solver. Qed.

Lemma collect_unique_ok what ids s :
  collect_unique what ids = Ok s ↔ NoDup ids ∧ s = list_to_set ids.
Proof.
  unfold collect_unique. rewrite (unique_fold_ok _ id (λ _, True)).
  2:{ intros seen x s'. rewrite if_decide_err_ok, ok_inj. naive_solver. }
  rewrite list_fmap_id, union_empty_r_L. split; [naive_solver|].
  intros [? ->]. split_and!; [by apply Forall_true|done|set_solver|done].
Qed.

Section template_steps.
Context (t : IRGraphTemplate) (Hids : NoDup (node_id <$> t_nodes t)).
Local Abbreviation g := (graph_of_template t).

Lemma template_dom : dom (nodes g) = list_to_set (node_id <$> t_nodes t).
Proof. cbn [nodes graph_of_template]. by rewrite collect_map_dom, keyed_nodes_fst. Qed.

Lemma template_node_lookup k nd : nodes g !! k = Some nd ↔ k = node_id nd ∧ nd ∈ t_nodes t.
Proof.
  cbn [nodes graph_of_template]. rewrite collect_map_lookup by by rewrite keyed_nodes_fst.
  apply elem_of_keyed_nodes.
Qed.

Lemma template_nodes_empty : nodes g = ∅ ↔ t_nodes t = [].
Proof.
  rewrite <-dom_empty_iff_L, template_dom. destruct (t_nodes t); cbn; [done|].
  split; [set_solver|done].
Qed.

Lemma for_each_missing_ok (e : NodeId → CaapError) (l : list NodeId) (s : gset NodeId) :
  for_each (λ a, if decide (a ∉ s) then Err (e a) else Ok tt) l = Ok tt ↔
    ∀ a, a ∈ l → a ∈ s.
Proof.
  rewrite for_each_ok, Forall_forall. split; intros H a Ha; specialize (H a Ha).
  - by apply if_decide_err_ok in H as [?%dec_stable _].
  - by rewrite if_decide_err_ok, not_not_dec by apply _.
Qed.

Lemma check_template_node_ok nd :
  check_template_node (dom (nodes g)) nd = Ok tt ↔
    check_node_entry g (node_id nd, nd) = Ok tt.
Proof.
  rewrite check_node_entry_ok. destruct nd as [n|n|n]; cbn [check_template_node children].
  1,2: split; [intros _; split_and!; [done|constructor|set_solver]|done].
  rewrite seq_ok, validate_unique_ok, if_decide_err_ok, for_each_missing_ok.
  rewrite not_not_dec by apply _. split; [|naive_solver set_solver].
  intros (? & ? & ?). split_and!; [done..|]. intros c [->|?]%elem_of_cons; auto.
Qed.

Lemma check_template_nodes_ok :
  for_each (check_template_node (dom (nodes g))) (t_nodes t) = Ok tt ↔
    for_each (check_node_entry g) (map_to_list (nodes g)) = Ok tt.
Proof.
  rewrite for_each_map_ok, for_each_ok, Forall_forall. split.
  - intros H k nd [-> Hin]%template_node_lookup. by apply check_template_node_ok, H.
  - intros H nd Hin. apply check_template_node_ok, H. by apply template_node_lookup.
Qed.

Lemma check_template_parents_ok s :
  check_template_parents (dom (nodes g)) (t_parents t) = Ok s ↔
    NoDup (t_parents t).*1 ∧
    (∀ e, e ∈ t_parents t → check_parent_entry g e = Ok tt) ∧
    s = dom (parents g).
Proof.
  unfold check_template_parents.
  rewrite (unique_fold_ok _ fst (λ e, check_parent_entry g e = Ok tt)).
  2:{ intros seen [id p] s'. rewrite check_parent_entry_ok, !if_decide_err_ok.
      rewrite (not_not_dec (id ∈ _)). cbn [fst].
      destruct p as [q|]; rewrite ?if_decide_err_ok, ok_inj; [|naive_solver].
      rewrite (not_not_dec (q ∈ _)). naive_solver. }
  cbn [parents graph_of_template]. rewrite Forall_forall, collect_map_dom, union_empty_r_L.
  set_solver.
Qed.

Lemma template_parents_map :
  NoDup (t_parents t).*1 → ∀ f : NodeId * option NodeId → CaapResult unit,
  for_each f (map_to_list (parents g)) = Ok tt ↔ ∀ e, e ∈ t_parents t → f e = Ok tt.
Proof.
  intros Hnd f. rewrite for_each_map_ok. cbn [parents graph_of_template].
  setoid_rewrite collect_map_lookup; [|done]. split; [intros H [k a]; apply H|].
  intros H k a. apply H.
Qed.

Lemma check_template_has_parents_ok (e : NodeId → CaapError) :
  for_each (λ id, if decide (id ∉ dom (parents g)) then Err (e id) else Ok tt)
    (elements (dom (nodes g))) = Ok tt ↔
  for_each (check_has_parent_entry g) (map_to_list (nodes g)).*1 = Ok tt.
Proof.
  rewrite for_each_missing_ok, for_each_keys_ok. setoid_rewrite elem_of_elements.
  apply forall_proper. intros k. unfold check_has_parent_entry. rewrite elem_of_dom.
  rewrite (elem_of_dom (parents g)).
  destruct (parents g !! k); [naive_solver|].
  split; intros H Hk; specialize (H Hk); [by destruct H|done].
Qed.

Lemma check_template_top_level_ok s :
  check_template_top_level (dom (nodes g)) (t_top_level_forms t) = Ok s ↔
    check_top_level_forms g = Ok s.
Proof.
  rewrite check_top_level_forms_ok. unfold check_template_top_level.
  rewrite (unique_fold_ok _ id (λ x, x ∈ dom (nodes g))).
  2:{ intros seen x s'. rewrite !if_decide_err_ok, (not_not_dec (x ∈ _)), ok_inj.
      naive_solver. }
  rewrite list_fmap_id, Forall_forall, union_empty_r_L.
  cbn [top_level_forms graph_of_template]. set_solver.
Qed.

Lemma check_template_child_links_ok :
  for_each (check_template_child_links (parents g)) (t_nodes t) = Ok tt ↔
    for_each (check_child_links g) (map_to_list (nodes g)) = Ok tt.
Proof.
  rewrite for_each_map_ok, for_each_ok, Forall_forall.
  assert (∀ nd, check_template_child_links (parents g) nd = Ok tt ↔
                check_child_links g (node_id nd, nd) = Ok tt) as Heq.
  { intros nd. rewrite check_child_links_ok. unfold check_template_child_links.
    rewrite for_each_ok, Forall_forall. split; intros H c Hc; specialize (H c Hc).
    - apply if_decide_ok in H as [H _]. by destruct (parents g !! c); cbn in H; subst.
    - rewrite if_decide_ok. by rewrite H. }
  split.
  - intros H k nd [-> Hin]%template_node_lookup. by apply Heq, H.
  - intros H nd Hin. apply Heq, H. by apply template_node_lookup.
Qed.

Lemma check_template_spans_ok :
  check_template_spans (dom (nodes g)) (t_source_spans t).*1 = Ok tt ↔
    NoDup (t_source_spans t).*1 ∧
    for_each (check_span_key g) (map_to_list (source_spans g)).*1 = Ok tt.
Proof.
  unfold check_template_spans. rewrite discard_ok, for_each_keys_ok.
  setoid_rewrite (unique_fold_ok _ id (λ x, x ∈ dom (nodes g))).
  2:{ intros seen x s'. rewrite !if_decide_err_ok, (not_not_dec (x ∈ _)), ok_inj.
      naive_solver. }
  rewrite list_fmap_id. setoid_rewrite Forall_forall. cbn [source_spans graph_of_template].
  rewrite collect_map_dom. setoid_rewrite elem_of_list_to_set.
  assert (∀ k, check_span_key g k = Ok tt ↔ k ∈ dom (nodes g)) as Hk.
  { intros k. unfold check_span_key. rewrite if_err_ok, negb_false_iff, contains_dom.
    naive_solver. }
  setoid_rewrite Hk. split; [naive_solver|]. intros [? ?]. eexists.
  split_and!; [done|done|set_solver|done].
Qed.

Lemma check_template_internal_ok :
  check_template_internal (nodes g) (t_internal_nodes t) = Ok tt ↔
    NoDup (t_internal_nodes t) ∧
    for_each (check_internal_id g) (elements (internal_nodes g)) = Ok tt.
Proof.
  unfold check_template_internal. rewrite discard_ok, for_each_ok, Forall_forall.
  setoid_rewrite (unique_fold_ok _ id (λ x, check_internal_id g x = Ok tt)).
  2:{ intros seen x s'. unfold check_internal_id.
      destruct (nodes g !! x) as [nd|]; [|naive_solver].
      rewrite !if_err_ok, if_decide_err_ok, ok_inj. naive_solver. }
  rewrite list_fmap_id. setoid_rewrite Forall_forall. cbn [internal_nodes graph_of_template].
  setoid_rewrite elem_of_elements. setoid_rewrite elem_of_list_to_set.
  split; [naive_solver|]. intros [? ?]. eexists. split_and!; [done|done|set_solver|done].
Qed.

Lemma check_template_parent_links_ok :
  for_each (check_template_parent_link (nodes g)) (t_parents t) = Ok tt ↔
    ∀ e, e ∈ t_parents t → check_parent_link g e = Ok tt.
Proof.
  rewrite for_each_ok, Forall_forall. apply forall_proper. intros [c [q|]]; [|done].
  unfold check_template_parent_link, check_parent_link.
  destruct (nodes g !! q) as [nd|]; [|done]. by rewrite !if_err_ok.
Qed.

Lemma check_acyclic_keys message message' :
  check_acyclic message (parents g) (elements (dom (nodes g))) = Ok tt ↔
    check_acyclic message' (parents g) (map_to_list (nodes g)).*1 = Ok tt.
Proof.
  rewrite !check_acyclic_ok. setoid_rewrite elem_of_elements.
  by setoid_rewrite map_keys_elem_of.
Qed.

Lemma check_next_id_keys label label' :
  check_next_id label (node_id <$> t_nodes t) (t_next_id t) = Ok tt ↔
    check_next_id label' (map_to_list (nodes g)).*1 (next_id g) = Ok tt.
Proof.
  rewrite !check_next_id_ok. setoid_rewrite map_keys_elem_of. rewrite template_dom.
  by setoid_rewrite elem_of_list_to_set.
Qed.
End template_steps.

Lemma check_parentless_label label label' forms root top m :
  check_parentless label forms root top m = Ok tt ↔
    check_parentless label' forms root top m = Ok tt.
Proof. by rewrite !check_parentless_ok. Qed.

(** ** Validation of a template *)

(** No list of the template names a key twice. *)
Record template_unique (t : IRGraphTemplate) : Prop := {
  tu_nodes : NoDup (node_id <$> t_nodes t);
  tu_parents : NoDup (t_parents t).*1;
  tu_spans : NoDup (t_source_spans t).*1;
  tu_internal : NoDup (t_internal_nodes t);
}.

Lemma check_empty_template_ok t :
  check_empty_template t = Ok tt ↔
    t_parents t = [] ∧ t_top_level_forms t = [] ∧ t_source_spans t = [] ∧
    t_internal_nodes t = [].
Proof.
  unfold check_empty_template. rewrite !if_decide_err_ok.
  rewrite (not_not_dec (t_parents t = [])), (not_not_dec (t_top_level_forms t = [])),
    (not_not_dec (t_source_spans t = [])), (not_not_dec (t_internal_nodes t = [])). naive_solver.
Qed.

Lemma collect_map_empty {A} (l : list (NodeId * A)) : collect_map l = ∅ ↔ l = [].
Proof.
  rewrite <-dom_empty_iff_L, collect_map_dom. destruct l; cbn; [done|]. split; [set_solver|done].
Qed.

Lemma template_validate_empty t : t_nodes t = [] →
  template_validate t = Ok tt ↔
    template_unique t ∧ validate_integrity (graph_of_template t) = Ok tt.
Proof.
  intros Ht. unfold template_validate, validate_integrity. rewrite Ht. cbn [fmap list_fmap].
  unfold collect_unique. cbn [try_fold mbind result_bind]. rewrite decide_True by done.
  rewrite decide_True by (cbn [nodes graph_of_template]; by rewrite Ht).
  rewrite check_empty_template_ok, check_empty_graph_ok. cbn. rewrite !collect_map_empty.
  split.
  - intros (Hp & Hf & Hs & Hi). split; [|rewrite Hf, Hi; set_solver].
    split; rewrite ?Ht, ?Hp, ?Hs, ?Hi; constructor.
  - intros (_ & ? & ? & ? & ? & Hi). split_and!; [done..|]. destruct (t_internal_nodes t); [done|set_solver].
Qed.

(** The checks after the node ids were collected are those of
    [validate_integrity] on the assembled graph, and uniqueness. *)
Lemma template_validate_nonempty t : NoDup (node_id <$> t_nodes t) → t_nodes t ≠ [] →
  template_validate t = Ok tt ↔
    template_unique t ∧ validate_integrity (graph_of_template t) = Ok tt.
Proof.
  intros Hids Ht. unfold template_validate.
  rewrite (proj2 (collect_unique_ok _ (node_id <$> t_nodes t) _) (conj Hids eq_refl)).
  rewrite <-template_dom by done. cbn [mbind result_bind]. rewrite decide_False by done.
  change (collect_map (t_parents t)) with (parents (graph_of_template t)).
  change (collect_map ((λ nd, (node_id nd, nd)) <$> t_nodes t))
    with (nodes (graph_of_template t)).
  change (t_root_id t) with (root_id (graph_of_template t)).
  rewrite if_decide_err_ok, (not_not_dec (root_id _ ∈ _)), seq_ok.
  rewrite (bind_ok_det (dom (parents (graph_of_template t)))).
  2:{ intros s Hs. by apply check_template_parents_ok in Hs as (_ & _ & ->). }
  rewrite seq_ok. rewrite (bind_ok_det (top_level_set (graph_of_template t))).
  2:{ intros s Hs. by apply check_template_top_level_ok, check_top_level_forms_ok in Hs
        as (_ & _ & ->). }
  rewrite !seq_ok, check_template_nodes_ok, check_template_parents_ok,
    check_template_has_parents_ok, check_template_top_level_ok, check_template_parent_links_ok,
    check_template_child_links_ok, check_template_spans_ok, check_template_internal_ok,
    (check_acyclic_keys t _ "IRGraph parent links must be acyclic"),
    (check_next_id_keys t _ "IRGraph"), (check_parentless_label _ "IRGraph") by done.
  change (t_top_level_forms t) with (top_level_forms (graph_of_template t)).
  rewrite validate_integrity_steps by by rewrite template_nodes_empty.
  split.
  - intros (H1 & H2 & (Hp1 & Hp2 & _) & H3 & H4 & H5 & H6 & H7 & H8 & [Hs1 Hs2] & [Hi1 Hi2] & H9).
    split; [by split|]. rewrite !template_parents_map by done. tauto.
  - intros [[_ Hp Hs Hi] H]. rewrite !template_parents_map in H by done. tauto.
Qed.

Lemma template_validate_iff t :
  template_validate t = Ok tt ↔
    template_unique t ∧ validate_integrity (graph_of_template t) = Ok tt.
Proof.
  destruct (decide (t_nodes t = [])) as [Ht|Ht]; [by apply template_validate_empty|].
  destruct (decide (NoDup (node_id <$> t_nodes t))) as [Hids|Hids].
  - by apply template_validate_nonempty.
  - split; [|by intros [[] _]]. unfold template_validate.
    intros (s & [? _]%collect_unique_ok & _)%bind_ok. done.
Qed.

(** C17: [from_template] accepts a template exactly when no list of it names a
    key twice and the graph it assembles passes [validate_integrity]; the
    result is that graph. The two validators of the code, one on the flat lists
    and one on the maps, therefore agree: an imported graph is always valid, and
    no valid graph is refused. *)
Theorem from_template_ok_iff (t : IRGraphTemplate) (g : IRGraph) :
  from_template t = Ok g ↔
    template_unique t ∧ g = graph_of_template t ∧ validate_integrity g = Ok tt.
Proof.
  unfold from_template. rewrite seq_ok, template_validate_iff, ok_inj. naive_solver.
Qed.

Lemma validate_integrity_forest g : validate_integrity g = Ok tt → forest g.
Proof.
  destruct (decide (nodes g = ∅)) as [Hn|Hn].
  - unfold validate_integrity. rewrite decide_True by done. by apply forest_empty.
  - intros H. by apply validate_integrity_sound in H as [].
Qed.

Lemma to_template_unique g : forest g → template_unique (to_template g).
Proof.
  intros Hf. split; cbn; [|apply sorted_entries_nodup..|].
  - replace (node_id <$> (sorted_entries (nodes g)).*2) with (sorted_entries (nodes g)).*1.
    { apply sorted_entries_nodup. }
    rewrite <-list_fmap_compose. apply list_fmap_ext. intros i [k nd] Hi. cbn.
    symmetry. apply (fo_key _ Hf), elem_of_sorted_entries. by eapply list_elem_of_lookup_2.
  - unfold sort_ids. rewrite merge_sort_Permutation. apply NoDup_elements.
Qed.

Lemma graph_of_to_template g : forest g → graph_of_template (to_template g) = g.
Proof.
  intros Hf. pose proof (tu_nodes _ (to_template_unique g Hf)) as Hu.
  destruct g as [r n p s i f fs x] eqn:Hg. unfold graph_of_template. cbn in *. f_equal.
  - apply collect_map_ext; [by rewrite keyed_nodes_fst|]. intros k nd.
    rewrite elem_of_keyed_nodes, list_elem_of_fmap. split.
    + intros (-> & [k' nd'] & -> & Hin%elem_of_sorted_entries). cbn.
      by rewrite (fo_key _ Hf _ _ Hin).
    + intros Hk. split; [symmetry; by apply (fo_key _ Hf)|]. exists (k, nd).
      by rewrite elem_of_sorted_entries.
  - apply collect_sorted_entries.
  - apply collect_sorted_entries.
  - apply set_eq. intros y. unfold sort_ids.
    by rewrite merge_sort_Permutation, list_to_set_elements_L.
  - symmetry. apply (fo_forms_set _ Hf).
Qed.

(** C18: exporting a valid graph with [to_template] and importing the template
    with [from_template] gives back the same graph, every field included. *)
Theorem template_roundtrip (g : IRGraph) :
  validate_integrity g = Ok tt → from_template (to_template g) = Ok g.
Proof.
  intros Hg. pose proof (validate_integrity_forest g Hg) as Hf.
  unfold from_template. rewrite seq_ok, template_validate_iff, graph_of_to_template by done.
  split; [|done]. split; [by apply to_template_unique|done].
Qed.

(** The graph of [(f 1 x)], registered as the only form. *)
Definition sample_spec : ExprSpec :=
  SpecCall (SpecName {| ns_identifier := "f"; ns_span := None |})
    [SpecLiteral {| ls_value := LitInt 1; ls_span := None |};
     SpecName {| ns_identifier := "x"; ns_span := None |}] None.

Definition sample_graph : IRGraph :=
  ((id ← insert_expr_spec sample_spec; add_top_level_form id) graph_new).2.

Lemma template_roundtrip_witness :
  validate_integrity sample_graph = Ok tt ∧
  from_template (to_template sample_graph) = Ok sample_graph.
Proof.
  assert (validate_integrity sample_graph = Ok tt) as H by (vm_compute; reflexivity).
  split; [exact H|]. apply (template_roundtrip sample_graph). exact H.
Defined.
