(* ===== verification/GraphInsert.v ===== *)
(** Lowering of detached expressions into the graph and reading them back
    ([insert_expr_spec], [expr_spec_for_subtree] of [caap/src/graph.rs]).

    The children of a call are inserted before the call node exists, so the
    intermediate graphs are not forests; [inserted] describes what a run adds
    on top of an arbitrary graph whose ids from [next_id] on are unused. *)

From S2P Require Import Prelude Policy Source Ir Graph GraphIntegrity GraphTemplate.

(** Every name of the expression is non-empty, as [NameSpec::new] ensures. *)
Fixpoint spec_named (s : ExprSpec) : bool :=
  match s with
  | SpecName spec => bool_decide (ns_identifier spec ≠ "")
  | SpecLiteral _ => true
  | SpecCall callee args _ => spec_named callee && forallb spec_named args
  end.

(** Nothing is stored at or above [next_id]. *)
Definition fresh_ids (g : IRGraph) : Prop :=
  ∀ k, (next_id g ≤ k)%N →
    nodes g !! k = None ∧ parents g !! k = None ∧ source_spans g !! k = None.

Definition agree_on (lo hi : N) (g h : IRGraph) : Prop :=
  ∀ k, (lo ≤ k < hi)%N →
    nodes h !! k = nodes g !! k ∧ source_spans h !! k = source_spans g !! k.

Definition reads_back (h : IRGraph) (id : NodeId) (spec : ExprSpec) : Prop :=
  ∀ fuel, spec_height spec ≤ fuel → expr_spec_for_subtree fuel h id = Some (Ok spec).

(** [g'] is [g] with the trees [specs] added at [ids], below [parent]. *)
Record inserted (parent : option NodeId) (specs : list ExprSpec) (ids : list NodeId)
    (g g' : IRGraph) : Prop := {
  in_next : next_id g' = (next_id g + N.of_nat (sum_list (spec_size <$> specs)))%N;
  in_frame : ∀ k, (k < next_id g)%N → nodes g' !! k = nodes g !! k ∧
    parents g' !! k = parents g !! k ∧ source_spans g' !! k = source_spans g !! k;
  in_fresh : fresh_ids g';
  in_rest : internal_nodes g' = internal_nodes g ∧ top_level_forms g' = top_level_forms g ∧
    top_level_set g' = top_level_set g ∧ root_id g' = root_id g;
  in_range : ∀ i, i ∈ ids → (next_id g ≤ i < next_id g')%N;
  in_roots : ∀ i, i ∈ ids → parents g' !! i = Some parent;
  in_nodup : NoDup ids;
  in_node : ∀ k, (next_id g ≤ k < next_id g')%N →
    ∃ nd, nodes g' !! k = Some nd ∧ node_id nd = k ∧ NoDup (children nd) ∧
      ∀ c, c ∈ children nd → (k < c < next_id g')%N ∧ parents g' !! c = Some (Some k);
  in_parent : ∀ k, (next_id g ≤ k < next_id g')%N →
    (k ∈ ids ∧ parents g' !! k = Some parent) ∨
    (∃ q nd, parents g' !! k = Some (Some q) ∧ (next_id g ≤ q < k)%N ∧
       nodes g' !! q = Some nd ∧ k ∈ children nd);
  in_spec : ∀ h, agree_on (next_id g) (next_id g') g' h → Forall2 (reads_back h) ids specs;
}.

Lemma inserted_nil parent g : fresh_ids g → inserted parent [] [] g g.
Proof.
  intros Hf. split; cbn; try done; try lia; try set_solver; try constructor.
Qed.

Lemma inserted_app parent s1 s2 i1 i2 g g1 g2 :
  inserted parent s1 i1 g g1 → inserted parent s2 i2 g1 g2 →
  inserted parent (s1 ++ s2) (i1 ++ i2) g g2.
Proof.
  intros H1 H2. pose proof (in_next _ _ _ _ _ H1) as N1. pose proof (in_next _ _ _ _ _ H2) as N2.
  assert (∀ k, (k < next_id g1)%N → nodes g2 !! k = nodes g1 !! k ∧
    parents g2 !! k = parents g1 !! k ∧ source_spans g2 !! k = source_spans g1 !! k) as Hfr
    by apply (in_frame _ _ _ _ _ H2).
  split.
  - rewrite fmap_app, sum_list_with_app. lia.
  - intros k Hk. destruct (Hfr k ltac:(lia)) as (-> & -> & ->). by apply (in_frame _ _ _ _ _ H1).
  - apply (in_fresh _ _ _ _ _ H2).
  - destruct (in_rest _ _ _ _ _ H1) as (<- & <- & <- & <-). apply (in_rest _ _ _ _ _ H2).
  - intros i [Hi|Hi]%elem_of_app.
    + pose proof (in_range _ _ _ _ _ H1 i Hi). lia.
    + pose proof (in_range _ _ _ _ _ H2 i Hi). lia.
  - intros i [Hi|Hi]%elem_of_app; [|by apply (in_roots _ _ _ _ _ H2)].
    pose proof (in_range _ _ _ _ _ H1 i Hi). destruct (Hfr i ltac:(lia)) as (_ & -> & _).
    by apply (in_roots _ _ _ _ _ H1).
  - apply NoDup_app. split_and!; [apply (in_nodup _ _ _ _ _ H1)| |apply (in_nodup _ _ _ _ _ H2)].
    intros i Hi1 Hi2. pose proof (in_range _ _ _ _ _ H1 i Hi1).
    pose proof (in_range _ _ _ _ _ H2 i Hi2). lia.
  - intros k Hk. destruct (decide (k < next_id g1)%N) as [Hlt|Hge].
    + destruct (Hfr k Hlt) as (-> & _). 
      destruct (in_node _ _ _ _ _ H1 k ltac:(lia)) as (nd & ? & ? & ? & Hc). exists nd.
      split_and!; [done..|]. intros c Hcc. destruct (Hc c Hcc) as [? ?]. split; [lia|].
      by destruct (Hfr c ltac:(lia)) as (_ & -> & _).
    + apply (in_node _ _ _ _ _ H2). lia.
  - intros k Hk. destruct (decide (k < next_id g1)%N) as [Hlt|Hge].
    + destruct (Hfr k Hlt) as (_ & -> & _).
      destruct (in_parent _ _ _ _ _ H1 k ltac:(lia)) as [[? ?]|(q & nd & ? & ? & ? & ?)].
      * left. set_solver.
      * right. exists q, nd. split_and!; try done; try lia.
        by destruct (Hfr q ltac:(lia)) as (-> & _).
    + destruct (in_parent _ _ _ _ _ H2 k ltac:(lia)) as [[? ?]|(q & nd & ? & ? & ? & ?)].
      * left. set_solver.
      * right. exists q, nd. split_and!; try done; lia.
  - intros h Hh. apply Forall2_app.
    + apply (in_spec _ _ _ _ _ H1). intros k Hk. destruct (Hh k ltac:(lia)) as [-> ->].
      by destruct (Hfr k ltac:(lia)) as (-> & _ & ->).
    + apply (in_spec _ _ _ _ _ H2). intros k Hk. apply Hh. lia.
Qed.

(** Storing the node and, if there is one, its span. *)
Definition place (nd : Node) (parent : option NodeId) (span : option SourceSpan)
    (g : IRGraph) : IRGraph :=
  let g := set_parents (<[node_id nd := parent]> (parents g))
             (set_nodes (<[node_id nd := nd]> (nodes g)) g) in
  match span with
  | Some s => set_source_spans (<[node_id nd := s]> (source_spans g)) g
  | None => g
  end.

Section place.
Context (nd : Node) (parent : option NodeId) (span : option SourceSpan) (g : IRGraph).

Lemma place_fields :
  nodes (place nd parent span g) = <[node_id nd := nd]> (nodes g) ∧
  parents (place nd parent span g) = <[node_id nd := parent]> (parents g) ∧
  internal_nodes (place nd parent span g) = internal_nodes g ∧
  top_level_forms (place nd parent span g) = top_level_forms g ∧
  top_level_set (place nd parent span g) = top_level_set g ∧
  root_id (place nd parent span g) = root_id g ∧
  next_id (place nd parent span g) = next_id g.
Proof. by destruct span. Qed.

Lemma place_at :
  nodes (place nd parent span g) !! node_id nd = Some nd ∧
  parents (place nd parent span g) !! node_id nd = Some parent ∧
  (source_spans g !! node_id nd = None →
   source_spans (place nd parent span g) !! node_id nd = span).
Proof. destruct span; cbn; by rewrite !lookup_insert_eq. Qed.

Lemma place_ne k : k ≠ node_id nd →
  nodes (place nd parent span g) !! k = nodes g !! k ∧
  parents (place nd parent span g) !! k = parents g !! k ∧
  source_spans (place nd parent span g) !! k = source_spans g !! k.
Proof. intros Hk. destruct span; cbn; by rewrite !lookup_insert_ne. Qed.

(** What [set_node] and [set_source_span] do on a node just allocated. *)
Lemma set_node_stored :
  (node_id nd < next_id g)%N → set_node nd parent g = (Ok tt, place nd parent None g).
Proof.
  intros Hlt. unfold set_node.
  assert ((next_id g <=? node_id nd)%N = false) as -> by (apply N.leb_gt; lia).
  by destruct g.
Qed.

Lemma attach_span :
  match span with
  | Some s => _ ← set_source_span (node_id nd) s; mret (node_id nd)
  | None => mret (node_id nd)
  end (place nd parent None g) = (Ok (node_id nd), place nd parent span g).
Proof.
  destruct span as [s|]; [|done]. unfold set_source_span, mbind, se_bind.
  assert (contains (place nd parent None g) (node_id nd) = true) as ->; [|done].
  unfold contains. cbn. by rewrite lookup_insert_eq.
Qed.
End place.

Section inserted_node.
Context (g g1 : IRGraph) (parent : option NodeId) (spec : ExprSpec) (nd : Node)
  (specs : list ExprSpec) (ids : list NodeId).
Hypothesis Hfresh : fresh_ids g.
Hypothesis Hid : node_id nd = next_id g.
Hypothesis Hch : children nd = ids.
Hypothesis Hsize : spec_size spec = S (sum_list (spec_size <$> specs)).
Hypothesis Hread : ∀ h, nodes h !! node_id nd = Some nd →
  source_spans h !! node_id nd = spec_span spec → Forall2 (reads_back h) ids specs →
  reads_back h (node_id nd) spec.
Hypothesis Hins : inserted (Some (next_id g)) specs ids (set_next_id (next_id g + 1) g) g1.

Lemma inserted_place : inserted parent [spec] [next_id g] g (place nd parent (spec_span spec) g1).
Proof.
  destruct Hins as [Hnext Hframe Hfr1 Hrest Hrange Hroots Hnodup Hnode Hparent Hspec]. cbn in *.
  destruct (place_fields nd parent (spec_span spec) g1) as (_ & _ & Pi & Pf & Ps & Pr & Pn).
  destruct (place_at nd parent (spec_span spec) g1) as (An & Ap & As).
  pose proof (place_ne nd parent (spec_span spec) g1) as Hne. rewrite Hid in *.
  set (g2 := place nd parent (spec_span spec) g1) in *.
  assert (∀ k, (next_id g < k < next_id g1)%N → nodes g2 !! k = nodes g1 !! k ∧
    parents g2 !! k = parents g1 !! k) as Hin.
  { intros k Hk. destruct (Hne k ltac:(lia)) as (-> & -> & _). done. }
  split.
  - rewrite Pn, Hnext. cbn. rewrite Hsize. lia.
  - intros k Hk. destruct (Hne k ltac:(lia)) as (-> & -> & ->). apply Hframe. lia.
  - intros k Hk. rewrite Pn in Hk. destruct (Hne k ltac:(lia)) as (-> & -> & ->). by apply Hfr1.
  - by rewrite Pi, Pf, Ps, Pr.
  - intros i ->%list_elem_of_singleton. lia.
  - by intros i ->%list_elem_of_singleton.
  - apply NoDup_singleton.
  - intros k Hk. rewrite Pn in *. destruct (decide (k = next_id g)) as [->|Hkn].
    + exists nd. rewrite Hch. split_and!; [done..|]. intros c Hc.
      pose proof (Hrange c Hc). split; [lia|]. destruct (Hin c ltac:(lia)) as [_ ->].
      by apply Hroots.
    + destruct (Hin k ltac:(lia)) as [-> _].
      destruct (Hnode k ltac:(lia)) as (n & ? & ? & ? & Hc). exists n. split_and!; [done..|].
      intros c Hcc. destruct (Hc c Hcc) as [? ?]. split; [lia|].
      by destruct (Hin c ltac:(lia)) as [_ ->].
  - intros k Hk. rewrite Pn in *. destruct (decide (k = next_id g)) as [->|Hkn].
    + left. split; [set_solver|done].
    + right. destruct (Hin k ltac:(lia)) as [_ ->].
      destruct (Hparent k ltac:(lia)) as [[? ?]|(q & n & ? & ? & ? & ?)].
      * exists (next_id g), nd. split_and!; try done; try lia. by rewrite Hch.
      * exists q, n. split_and!; try done; try lia. by destruct (Hin q ltac:(lia)) as [-> _].
  - intros h Hh. rewrite Pn in Hh. constructor; [|constructor]. apply Hread.
    + by destruct (Hh (next_id g) ltac:(lia)) as [-> _].
    + destruct (Hh (next_id g) ltac:(lia)) as [_ ->]. apply As.
      destruct (Hframe (next_id g) ltac:(lia)) as (_ & _ & ->). by apply Hfresh.
    + apply Hspec. intros k Hk. destruct (Hh k ltac:(lia)) as [-> ->].
      by destruct (Hne k ltac:(lia)) as (-> & _ & ->).
Qed.
End inserted_node.

(** ** Running the insertion *)

Lemma allocate_id_ok g :
  (next_id g + 1 ≤ u32_max)%N → allocate_id g = (Ok (next_id g), set_next_id (next_id g + 1) g).
Proof.
  intros Hle. unfold allocate_id.
  by rewrite (proj2 (u32_checked_add_Some (next_id g) 1 _) (conj eq_refl Hle)).
Qed.

(** The loop over the arguments of a call. *)
Definition insert_args (id : NodeId) : list ExprSpec → GM (list NodeId) :=
  fix go (l : list ExprSpec) : GM (list NodeId) :=
    match l with
    | [] => mret []
    | arg :: l => a ← insert_expr_spec_into arg (Some id); l ← go l; mret (a :: l)
    end.

Lemma insert_call_unfold callee args span parent :
  insert_expr_spec_into (SpecCall callee args span) parent =
  (id ← (id ← allocate_id;
         callee ← insert_expr_spec_into callee (Some id);
         args ← insert_args id args;
         _ ← se_lift (validate_call_children callee args);
         _ ← set_node (NodeCall {| cn_id := id; cn_callee := callee; cn_args := args |}) parent;
         mret id);
   match span with Some s => _ ← set_source_span id s; mret id | None => mret id end).
Proof. done. Qed.

Lemma collect_fueled_ok {A B} (f : A → option (CaapResult B)) xs ys :
  Forall2 (λ x y, f x = Some (Ok y)) xs ys → collect_fueled f xs = Some (Ok ys).
Proof. induction 1 as [|x y xs ys Hx _ IH]; cbn; [done|]. by rewrite Hx, IH. Qed.

Lemma max_list_elem_le x l : x ∈ l → x ≤ max_list l.
Proof. induction l as [|y l IH]; cbn; [set_solver|]. intros [->|Hx%IH]%elem_of_cons; lia. Qed.

Lemma reads_back_call h id callee args span c a :
  nodes h !! id = Some (NodeCall {| cn_id := id; cn_callee := c; cn_args := a |}) →
  source_spans h !! id = span →
  Forall2 (reads_back h) (c :: a) (callee :: args) →
  reads_back h id (SpecCall callee args span).
Proof.
  intros Hn Hs [Hc Ha]%Forall2_cons_1 fuel Hfuel. destruct fuel as [|fuel]; [cbn in Hfuel; lia|].
  cbn [expr_spec_for_subtree]. unfold node, source_span. rewrite Hn, Hs. cbn [cn_callee cn_args].
  cbn [spec_height] in Hfuel. rewrite (Hc fuel) by lia. erewrite collect_fueled_ok; [done|].
  assert (∀ y, y ∈ args → spec_height y ≤ fuel) as Hh.
  { intros y Hy. enough (spec_height y ≤ max_list (spec_height <$> args)) by lia.
    apply max_list_elem_le. by apply list_elem_of_fmap_2. }
  clear -Ha Hh. induction Ha as [|x y xs ys Hr _ IH]; constructor.
  - apply Hr, Hh. set_solver.
  - apply IH. intros z Hz. apply Hh. set_solver.
Qed.

Lemma inserted_present parent specs ids g g' i :
  inserted parent specs ids g g' → i ∈ ids → i ∈ dom (nodes g').
Proof.
  intros H Hi. destruct (in_node _ _ _ _ _ H i (in_range _ _ _ _ _ H i Hi)) as (nd & Hn & _).
  apply elem_of_dom. eauto.
Qed.

Lemma validate_call_children_ok c a g :
  validate_call_children c a g = Ok tt ↔ NoDup (c :: a) ∧ ∀ i, i ∈ c :: a → i ∈ dom (nodes g).
Proof.
  unfold validate_call_children.
  rewrite seq_ok, validate_unique_ok, if_err_ok, negb_false_iff, contains_dom,
    for_each_contains_ok. set_solver.
Qed.

Definition insert_runs (spec : ExprSpec) : Prop :=
  ∀ parent g, spec_named spec = true → fresh_ids g →
    (next_id g + N.of_nat (spec_size spec) ≤ u32_max)%N →
    ∃ g', insert_expr_spec_into spec parent g = (Ok (next_id g), g') ∧
      inserted parent [spec] [next_id g] g g'.

Lemma insert_args_runs id args g :
  Forall insert_runs args → forallb spec_named args = true → fresh_ids g →
  (next_id g + N.of_nat (sum_list (spec_size <$> args)) ≤ u32_max)%N →
  ∃ ids g', insert_args id args g = (Ok ids, g') ∧ inserted (Some id) args ids g g'.
Proof.
  intros Hall. revert g. induction Hall as [|arg args Harg _ IH]; intros g Hn Hf Hle.
  { exists [], g. split; [done|]. by apply inserted_nil. }
  cbn in Hn, Hle. apply andb_true_iff in Hn as [Hn1 Hn2].
  destruct (Harg (Some id) g Hn1 Hf ltac:(lia)) as (g1 & Hr1 & Hi1).
  pose proof (in_next _ _ _ _ _ Hi1) as Hx. cbn in Hx.
  destruct (IH g1 Hn2 (in_fresh _ _ _ _ _ Hi1) ltac:(lia)) as (ids & g2 & Hr2 & Hi2).
  exists (next_id g :: ids), g2. split.
  - change (insert_args id (arg :: args)) with
      (a ← insert_expr_spec_into arg (Some id); l ← insert_args id args; mret (a :: l)).
    unfold mbind, se_bind. by rewrite Hr1, Hr2.
  - exact (inserted_app _ _ _ _ _ _ _ _ Hi1 Hi2).
Qed.

Lemma insert_leaf_runs spec nd parent g :
  fresh_ids g → (next_id g + 1 ≤ u32_max)%N → node_id nd = next_id g → children nd = [] →
  spec_size spec = 1 →
  (∀ h, nodes h !! node_id nd = Some nd → source_spans h !! node_id nd = spec_span spec →
    reads_back h (node_id nd) spec) →
  ∃ g', (_ ← set_node nd parent;
         match spec_span spec with
         | Some s => _ ← set_source_span (node_id nd) s; mret (node_id nd)
         | None => mret (node_id nd)
         end) (set_next_id (next_id g + 1) g) = (Ok (next_id g), g') ∧
    inserted parent [spec] [next_id g] g g'.
Proof.
  intros Hf Hle Hid Hch Hsz Hr. eexists. split.
  - unfold mbind at 1, se_bind at 1. rewrite set_node_stored by (cbn; lia).
    rewrite attach_span, Hid. done.
  - eapply (inserted_place _ _ _ _ nd [] []); [done..| |].
    + intros h Hn Hs _. by apply Hr.
    + apply inserted_nil. intros k Hk. cbn in *. apply Hf. lia.
Qed.

Lemma insert_name_runs spec : insert_runs (SpecName spec).
Proof.
  intros parent g Hn Hf Hle. cbn in Hn, Hle. apply bool_decide_eq_true in Hn.
  destruct (insert_leaf_runs (SpecName spec)
    (NodeName {| nn_id := next_id g; nn_identifier := ns_identifier spec |}) parent g)
    as (g' & Hrun & Hins); [done..| |].
  { intros h Hnode Hspan [|fuel] Hfuel; cbn in Hfuel; [lia|]. cbn in Hnode, Hspan. cbn.
    unfold node, source_span. rewrite Hnode, Hspan. cbn. unfold name_with_span, name_spec_with_span.
    rewrite decide_False by done. by destruct spec. }
  exists g'. split; [|done]. rewrite <-Hrun. cbn [insert_expr_spec_into]. unfold mbind, se_bind.
  rewrite allocate_id_ok by done. unfold se_lift, name_node_new. rewrite decide_False by done.
  by destruct (set_node _ _ _) as [[]].
Qed.

Lemma insert_literal_runs spec : insert_runs (SpecLiteral spec).
Proof.
  intros parent g _ Hf Hle. cbn in Hle.
  destruct (insert_leaf_runs (SpecLiteral spec)
    (NodeLiteral {| ln_id := next_id g; ln_value := ls_value spec |}) parent g)
    as (g' & Hrun & Hins); [done..| |].
  { intros h Hnode Hspan [|fuel] Hfuel; cbn in Hfuel; [lia|]. cbn in Hnode, Hspan. cbn.
    unfold node, source_span. rewrite Hnode, Hspan. by destruct spec. }
  exists g'. split; [|done]. rewrite <-Hrun. cbn [insert_expr_spec_into]. unfold mbind, se_bind.
  rewrite allocate_id_ok by done. by destruct (set_node _ _ _) as [[]].
Qed.

Lemma insert_call_runs callee args span :
  insert_runs callee → Forall insert_runs args → insert_runs (SpecCall callee args span).
Proof.
  intros Hc Ha parent g Hn Hf Hle. cbn in Hn, Hle. apply andb_true_iff in Hn as [Hn1 Hn2].
  set (g0 := set_next_id (next_id g + 1) g).
  assert (fresh_ids g0) as Hf0. { intros k Hk. cbn in *. apply Hf. lia. }
  destruct (Hc (Some (next_id g)) g0 Hn1 Hf0 ltac:(cbn; lia)) as (g1 & Hr1 & Hi1).
  pose proof (in_next _ _ _ _ _ Hi1) as Hx. cbn in Hx.
  destruct (insert_args_runs (next_id g) args g1 Ha Hn2 (in_fresh _ _ _ _ _ Hi1) ltac:(lia))
    as (ids & g2 & Hr2 & Hi2).
  pose proof (inserted_app _ _ _ _ _ _ _ _ Hi1 Hi2) as Hi. cbn [app] in Hi.
  set (nd := NodeCall {| cn_id := next_id g; cn_callee := next_id g0; cn_args := ids |}).
  exists (place nd parent span g2). split.
  - rewrite insert_call_unfold. unfold mbind, se_bind. rewrite allocate_id_ok by lia.
    fold g0. rewrite Hr1, Hr2. unfold se_lift.
    rewrite (proj2 (validate_call_children_ok _ _ _)).
    2:{ split; [apply (in_nodup _ _ _ _ _ Hi)|]. intros i Hin. by eapply inserted_present. }
    fold nd. pose proof (in_next _ _ _ _ _ Hi) as Hx'. cbn in Hx'.
    rewrite set_node_stored by (cbn; lia). apply (attach_span nd).
  - eapply (inserted_place _ _ _ (SpecCall callee args span) nd (callee :: args) _);
      [done|done|reflexivity|done| |exact Hi].
    intros h Hnode Hspan Hall. by eapply reads_back_call.
Qed.

Lemma insert_all_run spec : insert_runs spec.
Proof.
  induction spec as [spec|spec|callee args span IHc IHa] using expr_spec_ind.
  - apply insert_name_runs.
  - apply insert_literal_runs.
  - by apply insert_call_runs.
Qed.

(** ** The result is a forest *)

Lemma forest_fresh g : forest g → fresh_ids g.
Proof.
  intros Hf k Hk. assert (k ∉ dom (nodes g)) as Hn.
  { intros Hin. pose proof (fo_next _ Hf k Hin). lia. }
  split_and!; apply not_elem_of_dom; [done| |].
  - by rewrite (fo_dom _ Hf).
  - intros Hin. by apply Hn, (fo_spans _ Hf).
Qed.

Section inserted_forest.
Context (g g' : IRGraph) (specs : list ExprSpec) (ids : list NodeId).
Hypothesis Hf : forest g.
Hypothesis Hi : inserted None specs ids g g'.

Lemma inserted_old k : k ∈ dom (nodes g) → (k < next_id g)%N.
Proof. apply (fo_next _ Hf). Qed.

Lemma inserted_split k : k ∈ dom (nodes g') →
  (k < next_id g)%N ∧ k ∈ dom (nodes g) ∨ (next_id g ≤ k < next_id g')%N.
Proof.
  intros [nd Hnd]%elem_of_dom. destruct (decide (k < next_id g)%N) as [Hlt|Hge].
  - left. split; [done|]. apply elem_of_dom. exists nd.
    by destruct (in_frame _ _ _ _ _ Hi k Hlt) as (<- & _).
  - right. split; [lia|]. destruct (decide (k < next_id g')%N); [done|].
    destruct (in_fresh _ _ _ _ _ Hi k ltac:(lia)) as (? & _). congruence.
Qed.

Lemma inserted_rooted_new k : (next_id g ≤ k < next_id g')%N → rooted (parent_of g') k.
Proof.
  induction k as [k IH] using (well_founded_induction N.lt_wf_0). intros Hk.
  destruct (in_parent _ _ _ _ _ Hi k Hk) as [[_ Hp]|(q & nd & Hp & Hq & _)].
  - apply rooted_root. unfold parent_of. by rewrite Hp.
  - apply (rooted_step _ _ q); [unfold parent_of; by rewrite Hp|]. apply IH; lia.
Qed.

Lemma inserted_rooted_old k :
  (k < next_id g)%N → rooted (parent_of g) k → rooted (parent_of g') k.
Proof.
  intros Hk Hr. revert Hk. induction Hr as [k Hn|k p Hp _ IH]; intros Hk.
  - apply rooted_root. unfold parent_of in *. by destruct (in_frame _ _ _ _ _ Hi k Hk) as (_ & -> & _).
  - apply (rooted_step _ _ p).
    + unfold parent_of in *. by destruct (in_frame _ _ _ _ _ Hi k Hk) as (_ & -> & _).
    + apply IH, inserted_old. unfold parent_of in Hp.
      destruct (parents g !! k) as [q|] eqn:E; [|done]. subst q.
      destruct (fo_parent _ Hf k p E) as (nd & ? & _). apply elem_of_dom. eauto.
Qed.

Lemma inserted_node_cases k nd : nodes g' !! k = Some nd →
  ((k < next_id g)%N ∧ nodes g !! k = Some nd) ∨
  ((next_id g ≤ k < next_id g')%N ∧ node_id nd = k ∧ NoDup (children nd) ∧
    ∀ c, c ∈ children nd → (k < c < next_id g')%N ∧ parents g' !! c = Some (Some k)).
Proof.
  intros Hnd. destruct (inserted_split k) as [[Hlt _]|Hr]; [by apply elem_of_dom; eauto|left|right].
  - split; [done|]. by destruct (in_frame _ _ _ _ _ Hi k Hlt) as (<- & _).
  - split; [done|]. destruct (in_node _ _ _ _ _ Hi k Hr) as (? & ? & ? & ? & ?). by simplify_eq.
Qed.

Lemma inserted_kept_parent c p : parents g !! c = Some p → parents g' !! c = Some p.
Proof.
  intros Hc. destruct (in_frame _ _ _ _ _ Hi c) as (_ & -> & _); [|done].
  apply inserted_old. rewrite <-(fo_dom _ Hf). apply elem_of_dom. eauto.
Qed.

Lemma inserted_kept_node k nd : nodes g !! k = Some nd → nodes g' !! k = Some nd.
Proof.
  intros Hk. destruct (in_frame _ _ _ _ _ Hi k) as (-> & _); [|done].
  apply inserted_old. apply elem_of_dom. eauto.
Qed.

Lemma inserted_parents_dom : dom (parents g') = dom (nodes g').
Proof.
  apply set_eq. intros k. destruct (decide (k < next_id g)%N) as [Hlt|Hge].
  - destruct (in_frame _ _ _ _ _ Hi k Hlt) as (Hn & Hp & _).
    rewrite !elem_of_dom, Hn, Hp, <-!elem_of_dom. by rewrite (fo_dom _ Hf).
  - destruct (decide (k < next_id g')%N) as [Hlt'|Hge'].
    + destruct (in_node _ _ _ _ _ Hi k ltac:(lia)) as (nd & Hn & _).
      rewrite !elem_of_dom, Hn.
      destruct (in_parent _ _ _ _ _ Hi k ltac:(lia)) as [[_ ->]|(? & ? & -> & _)]; naive_solver.
    + destruct (in_fresh _ _ _ _ _ Hi k ltac:(lia)) as (Hn & Hp & _).
      by rewrite !elem_of_dom, Hn, Hp.
Qed.

Lemma inserted_spans : dom (source_spans g') ⊆ dom (nodes g').
Proof.
  intros k [s Hs]%elem_of_dom. destruct (decide (k < next_id g)%N) as [Hlt|Hge].
  - destruct (in_frame _ _ _ _ _ Hi k Hlt) as (Hn & _ & Hsp).
    rewrite elem_of_dom, Hn, <-elem_of_dom. apply (fo_spans _ Hf). apply elem_of_dom. exists s. congruence.
  - destruct (decide (k < next_id g')%N) as [Hlt'|Hge'].
    + destruct (in_node _ _ _ _ _ Hi k ltac:(lia)) as (nd & Hn & _). apply elem_of_dom. eauto.
    + destruct (in_fresh _ _ _ _ _ Hi k ltac:(lia)) as (_ & _ & ?). congruence.
Qed.

Lemma inserted_forest : forest g'.
Proof.
  destruct (in_rest _ _ _ _ _ Hi) as (Hint & Hforms & Hset & _). split.
  - intros k nd [[_ Hk]|(_ & ? & _)]%inserted_node_cases; [by apply (fo_key _ Hf)|done].
  - apply inserted_parents_dom.
  - intros k nd c [[_ Hk]|(_ & _ & _ & Hc)]%inserted_node_cases Hcc; [|by apply Hc].
    by apply inserted_kept_parent, (fo_child _ Hf k nd).
  - intros k nd [[_ Hk]|(_ & _ & ? & _)]%inserted_node_cases; [by apply (fo_nodup _ Hf k)|done].
  - intros c p Hp. destruct (decide (c < next_id g)%N) as [Hlt|Hge].
    + destruct (in_frame _ _ _ _ _ Hi c Hlt) as (_ & Hpp & _). rewrite Hpp in Hp.
      destruct (fo_parent _ Hf c p Hp) as (nd & ? & ?). exists nd.
      split; [by apply inserted_kept_node|done].
    + destruct (decide (c < next_id g')%N) as [Hlt'|Hge'].
      * destruct (in_parent _ _ _ _ _ Hi c ltac:(lia)) as [[_ ?]|(q & nd & ? & _ & ? & ?)];
          simplify_eq. eauto.
      * destruct (in_fresh _ _ _ _ _ Hi c ltac:(lia)) as (_ & ? & _). congruence.
  - intros c [[Hlt Hc]|Hr]%inserted_split.
    + apply inserted_rooted_old; [done|]. by apply (fo_rooted _ Hf).
    + by apply inserted_rooted_new.
  - rewrite Hforms. apply (fo_forms_nodup _ Hf).
  - rewrite Hforms, Hset. apply (fo_forms_set _ Hf).
  - intros c. rewrite Hforms. intros Hc. by apply inserted_kept_parent, (fo_forms_root _ Hf).
  - apply inserted_spans.
  - intros k. rewrite Hint. intros [n Hn]%(fo_internal _ Hf). exists n.
    by apply inserted_kept_node.
  - intros k [[Hlt _]|?]%inserted_split; [|lia]. rewrite (in_next _ _ _ _ _ Hi). lia.
Qed.
End inserted_forest.

Lemma insert_expr_spec_forest g spec :
  forest g → spec_named spec = true →
  (next_id g + N.of_nat (spec_size spec) ≤ u32_max)%N → forest (insert_expr_spec spec g).2.
Proof.
  intros Hf Hn Hle.
  destruct (insert_all_run spec None g Hn (forest_fresh g Hf) Hle) as (g' & Hrun & Hi).
  unfold insert_expr_spec. rewrite Hrun. by eapply inserted_forest.
Qed.

(** C10: on a forest with enough free ids, [insert_expr_spec] of an expression whose
    names are all non-empty succeeds and returns the next id as a new detached
    root; it uses exactly one id per node of the expression, leaves every existing
    node, parent entry and span, the forms, their set, the root id and the internal
    marks as they were, stores nothing beyond the ids it took, and the graph stays a
    forest; [expr_spec_for_subtree] reads the same expression back, spans included,
    with recursion depth at most the height of the expression. *)
Theorem insert_expr_spec_roundtrip (g : IRGraph) (spec : ExprSpec) :
  forest g → spec_named spec = true →
  (next_id g + N.of_nat (spec_size spec) ≤ u32_max)%N →
  ∃ g', insert_expr_spec spec g = (Ok (next_id g), g') ∧ forest g' ∧
    next_id g' = (next_id g + N.of_nat (spec_size spec))%N ∧
    parents g' !! next_id g = Some None ∧
    (∀ k, (k < next_id g)%N → nodes g' !! k = nodes g !! k ∧
       parents g' !! k = parents g !! k ∧ source_spans g' !! k = source_spans g !! k) ∧
    (∀ k, (next_id g' ≤ k)%N →
       nodes g' !! k = None ∧ parents g' !! k = None ∧ source_spans g' !! k = None) ∧
    internal_nodes g' = internal_nodes g ∧ top_level_forms g' = top_level_forms g ∧
    top_level_set g' = top_level_set g ∧ root_id g' = root_id g ∧
    ∀ fuel, spec_height spec ≤ fuel →
      expr_spec_for_subtree fuel g' (next_id g) = Some (Ok spec).
Proof.
  intros Hf Hn Hle.
  destruct (insert_all_run spec None g Hn (forest_fresh g Hf) Hle) as (g' & Hrun & Hi).
  destruct (in_rest _ _ _ _ _ Hi) as (? & ? & ? & ?).
  exists g'. split; [done|]. split; [by eapply inserted_forest|]. split_and!; try done.
  - rewrite (in_next _ _ _ _ _ Hi). cbn. lia.
  - apply (in_roots _ _ _ _ _ Hi). set_solver.
  - apply (in_frame _ _ _ _ _ Hi).
  - apply (in_fresh _ _ _ _ _ Hi).
  - assert (agree_on (next_id g) (next_id g') g' g') as Ha by done.
    apply (in_spec _ _ _ _ _ Hi) in Ha. by apply Forall2_cons_1 in Ha as [Hr _].
Qed.

Lemma insert_expr_spec_roundtrip_witness :
  forest sample_graph ∧ ∃ g', insert_expr_spec sample_spec sample_graph = (Ok 4%N, g') ∧
    forest g' ∧ top_level_forms g' = [0%N] ∧ expr_spec_for_subtree 2 g' 4%N = Some (Ok sample_spec).
Proof.
  assert (forest sample_graph) as Hf.
  { apply validate_integrity_forest. vm_compute. reflexivity. }
  split; [exact Hf|].
  destruct (insert_expr_spec_roundtrip sample_graph sample_spec Hf)
    as (g' & H1 & H2 & _ & _ & _ & _ & _ & H3 & _ & _ & H4);
    [reflexivity|vm_compute; discriminate|].
  exists g'. split; [exact H1|]. split; [exact H2|]. split; [exact H3|]. apply H4. vm_compute. lia.
Defined.

(** ** An insertion that fails halfway *)

(** Successful or not, a run of [m] leaves everything below [lo] alone, provided the
    ids below [lo] are taken; a result satisfies [Q]. *)
Definition framed {A} (lo : N) (m : GM A) (Q : A → Prop) : Prop :=
  ∀ g, (lo ≤ next_id g)%N →
    (lo ≤ next_id (m g).2)%N ∧
    (∀ k, (k < lo)%N → nodes (m g).2 !! k = nodes g !! k ∧ parents (m g).2 !! k = parents g !! k) ∧
    ∀ a, (m g).1 = Ok a → Q a.

Section framed.
Context (lo : N).

Lemma framed_bind {A B} (m : GM A) (f : A → GM B) Q R :
  framed lo m Q → (∀ a, Q a → framed lo (f a) R) → framed lo (m ≫= f) R.
Proof.
  intros Hm Hf g Hg. destruct (Hm g Hg) as (H1 & H2 & H3). unfold mbind, se_bind.
  destruct (m g) as [[a|e] g1]; cbn in *; [|by split].
  destruct (Hf a (H3 a eq_refl) g1 H1) as (H4 & H5 & H6).
  split; [done|]. split; [|done]. intros k Hk. destruct (H5 k Hk) as [-> ->]. by apply H2.
Qed.

Lemma framed_ret {A} (a : A) (Q : A → Prop) : Q a → framed lo (mret a) Q.
Proof. intros HQ g Hg. split; [done|]. split; [done|]. by intros b [= <-]. Qed.

Lemma framed_lift {A} (f : IRGraph → CaapResult A) (Q : A → Prop) :
  (∀ g a, f g = Ok a → Q a) → framed lo (se_lift f) Q.
Proof. intros HQ g Hg. split; [done|]. split; [done|]. apply HQ. Qed.

Lemma framed_allocate : framed lo allocate_id (λ id, (lo ≤ id)%N).
Proof.
  intros g Hg. unfold allocate_id. destruct (u32_checked_add _ _) as [n|] eqn:E; cbn; [|done].
  apply u32_checked_add_Some in E as [-> _]. split; [lia|]. split; [done|]. by intros a [= <-].
Qed.

Lemma framed_set_node nd parent :
  (lo ≤ node_id nd)%N → framed lo (set_node nd parent) (λ _, True).
Proof.
  intros Hlo g Hg. unfold set_node. destruct (if (_ <=? _)%N then _ else _) as [n|] eqn:E; [|done].
  cbn. split; [|split; [|done]].
  - destruct (N.leb_spec (next_id g) (node_id nd)); [|by simplify_eq].
    apply u32_checked_add_Some in E as [-> _]. lia.
  - intros k Hk. rewrite !lookup_insert_ne by lia. done.
Qed.

Lemma framed_set_span id span : framed lo (set_source_span id span) (λ _, True).
Proof. intros g Hg. unfold set_source_span. by destruct (negb _). Qed.

Lemma framed_span (id : NodeId) (span : option SourceSpan) :
  (lo ≤ id)%N →
  framed lo (match span with Some s => _ ← set_source_span id s; mret id | None => mret id end)
    (λ id, (lo ≤ id)%N).
Proof.
  intros Hid. destruct span; [|by apply framed_ret].
  eapply framed_bind; [apply framed_set_span|]. intros _ _. by apply framed_ret.
Qed.

Lemma framed_args id args :
  Forall (λ a, ∀ parent, framed lo (insert_expr_spec_into a parent) (λ i, (lo ≤ i)%N)) args →
  framed lo (insert_args id args) (λ _, True).
Proof.
  induction 1 as [|a args Ha _ IH]; [by apply framed_ret|].
  change (insert_args id (a :: args)) with
    (i ← insert_expr_spec_into a (Some id); l ← insert_args id args; mret (i :: l)).
  eapply framed_bind; [apply Ha|]. intros i _. eapply framed_bind; [apply IH|].
  intros l _. by apply framed_ret.
Qed.

Lemma framed_insert spec parent :
  framed lo (insert_expr_spec_into spec parent) (λ id, (lo ≤ id)%N).
Proof.
  revert parent. induction spec as [spec|spec|callee args span IHc IHa] using expr_spec_ind;
    intros parent.
  - eapply framed_bind; [|intros id Hid; by apply framed_span].
    eapply framed_bind; [apply framed_allocate|]. intros id Hid.
    eapply (framed_bind _ _ (λ nd, nn_id nd = id)).
    { apply framed_lift. intros _ nd. unfold name_node_new. by case_decide; [|intros [= <-]]. }
    intros nd Hnd. eapply framed_bind; [apply framed_set_node; cbn; by rewrite Hnd|].
    intros _ _. by apply framed_ret.
  - eapply framed_bind; [|intros id Hid; by apply framed_span].
    eapply framed_bind; [apply framed_allocate|]. intros id Hid.
    eapply framed_bind; [by apply framed_set_node|]. intros _ _. by apply framed_ret.
  - rewrite insert_call_unfold. eapply framed_bind; [|intros id Hid; by apply framed_span].
    eapply framed_bind; [apply framed_allocate|]. intros id Hid.
    eapply framed_bind; [apply IHc|]. intros c _.
    eapply framed_bind; [apply framed_args; by eapply Forall_impl|]. intros l _.
    eapply (framed_bind _ _ (λ _, True)); [by apply framed_lift|]. intros _ _.
    eapply framed_bind; [by apply framed_set_node|]. intros _ _. by apply framed_ret.
Qed.
End framed.

Definition unnamed_error : CaapError := Ir "name node identifier must be non-empty".

(** With enough ids left, an expression with an empty name fails for it. *)
Definition insert_fails (spec : ExprSpec) : Prop :=
  ∀ parent g, spec_named spec = false → fresh_ids g →
    (next_id g + N.of_nat (spec_size spec) ≤ u32_max)%N →
    (insert_expr_spec_into spec parent g).1 = Err unnamed_error.

Lemma insert_args_fail id args g :
  Forall insert_fails args → forallb spec_named args = false → fresh_ids g →
  (next_id g + N.of_nat (sum_list (spec_size <$> args)) ≤ u32_max)%N →
  (insert_args id args g).1 = Err unnamed_error.
Proof.
  intros Hall. revert g. induction Hall as [|arg args Harg _ IH]; intros g Hn Hf Hle; [done|].
  cbn in Hn, Hle.
  change (insert_args id (arg :: args)) with
    (a ← insert_expr_spec_into arg (Some id); l ← insert_args id args; mret (a :: l)).
  unfold mbind, se_bind. destruct (spec_named arg) eqn:E; cbn in Hn.
  - destruct (insert_all_run arg (Some id) g E Hf ltac:(lia)) as (g1 & Hr1 & Hi1).
    pose proof (in_next _ _ _ _ _ Hi1) as Hx. cbn in Hx. rewrite Hr1.
    specialize (IH g1 Hn (in_fresh _ _ _ _ _ Hi1) ltac:(lia)).
    destruct (insert_args id args g1) as [[]]; cbn in *; congruence.
  - specialize (Harg (Some id) g E Hf ltac:(lia)).
    destruct (insert_expr_spec_into arg (Some id) g) as [[]]; cbn in *; congruence.
Qed.

Lemma insert_all_fail spec : insert_fails spec.
Proof.
  induction spec as [spec|spec|callee args span IHc IHa] using expr_spec_ind;
    intros parent g Hn Hf Hle; cbn in Hn, Hle; [|done|].
  - apply bool_decide_eq_false, dec_stable in Hn. cbn [insert_expr_spec_into].
    unfold mbind, se_bind. rewrite allocate_id_ok by done.
    unfold se_lift, name_node_new. by rewrite decide_True.
  - rewrite insert_call_unfold. unfold mbind, se_bind. rewrite allocate_id_ok by lia.
    set (g0 := set_next_id (next_id g + 1) g).
    assert (fresh_ids g0) as Hf0. { intros k Hk. cbn in *. apply Hf. lia. }
    destruct (spec_named callee) eqn:E; cbn in Hn.
    + destruct (insert_all_run callee (Some (next_id g)) g0 E Hf0 ltac:(cbn; lia)) as (g1 & Hr1 & Hi1).
      pose proof (in_next _ _ _ _ _ Hi1) as Hx. cbn in Hx. rewrite Hr1.
      pose proof (insert_args_fail (next_id g) args g1 IHa Hn (in_fresh _ _ _ _ _ Hi1) ltac:(lia)) as H.
      destruct (insert_args (next_id g) args g1) as [[]]; cbn in *; congruence.
    + specialize (IHc (Some (next_id g)) g0 E Hf0 ltac:(cbn; lia)).
      destruct (insert_expr_spec_into callee _ g0) as [[]]; cbn in *; congruence.
Qed.

(** C35: [insert_expr_spec] is not atomic. On every forest with enough free ids, a call
    whose callee has non-empty names and one of whose arguments contains an empty
    name is refused, but the callee has been inserted by then: its root keeps a
    parent link to the call's id, at which no node is stored, so the graph left
    behind fails the integrity check. *)
Theorem insert_expr_spec_not_atomic (g : IRGraph) (callee : ExprSpec) (args : list ExprSpec)
    (span : option SourceSpan) :
  forest g → spec_named callee = true → forallb spec_named args = false →
  (next_id g + N.of_nat (spec_size (SpecCall callee args span)) ≤ u32_max)%N →
  ∃ g', insert_expr_spec (SpecCall callee args span) g = (Err unnamed_error, g') ∧
    nodes g' !! next_id g = None ∧ is_Some (nodes g' !! (next_id g + 1)%N) ∧
    parents g' !! (next_id g + 1)%N = Some (Some (next_id g)) ∧
    ∃ e, validate_integrity g' = Err e.
Proof.
  intros Hf Hc Ha Hle. cbn in Hle. unfold insert_expr_spec. rewrite insert_call_unfold.
  unfold mbind, se_bind. rewrite allocate_id_ok by lia.
  set (g0 := set_next_id (next_id g + 1) g). pose proof (forest_fresh g Hf) as Hfr.
  assert (fresh_ids g0) as Hf0. { intros k Hk. cbn in *. apply Hfr. lia. }
  destruct (insert_all_run callee (Some (next_id g)) g0 Hc Hf0 ltac:(cbn; lia)) as (g1 & Hr1 & Hi1).
  pose proof (in_next _ _ _ _ _ Hi1) as Hx. cbn in Hx. rewrite Hr1.
  assert (Forall insert_fails args) as Hall by (apply Forall_true; apply insert_all_fail).
  pose proof (insert_args_fail (next_id g) args g1 Hall Ha (in_fresh _ _ _ _ _ Hi1) ltac:(lia)) as He.
  destruct (framed_args (next_id g1) (next_id g) args
    ltac:(apply Forall_true; intros a p; apply framed_insert) g1 (N.le_refl _)) as (_ & Hkept & _).
  destruct (insert_args (next_id g) args g1) as [[ids|e] g']; [done|]. cbn in He, Hkept.
  injection He as ->. exists g'. split; [done|].
  destruct (Hkept (next_id g) ltac:(lia)) as [Hn _].
  destruct (in_frame _ _ _ _ _ Hi1 (next_id g) ltac:(cbn; lia)) as (Hn1 & _).
  assert (next_id g0 ∈ [next_id g0]) as Hr by set_solver.
  pose proof (in_roots _ _ _ _ _ Hi1 _ Hr) as Hp1. pose proof (in_range _ _ _ _ _ Hi1 _ Hr) as Hrange.
  destruct (in_node _ _ _ _ _ Hi1 _ Hrange) as (nd & Hnd & _). cbn in Hrange.
  cbn in Hn1, Hp1, Hnd. destruct (Hkept (next_id g + 1)%N ltac:(lia)) as [Hn2 Hp2].
  assert (nodes g' !! next_id g = None) as Hmiss. { rewrite Hn, Hn1. by apply Hfr. }
  rewrite Hn2, Hp2, Hp1, Hnd. split_and!; [done|by eexists|done|].
  destruct (validate_integrity g') as [[]|e] eqn:Hv; [|by eexists].
  apply validate_integrity_forest in Hv. rewrite Hp1 in Hp2.
  destruct (fo_parent _ Hv _ _ Hp2) as (? & ? & _). congruence.
Qed.

Lemma insert_expr_spec_not_atomic_witness :
  let spec := SpecCall (SpecName {| ns_identifier := "f"; ns_span := None |})
                [SpecName {| ns_identifier := ""; ns_span := None |}] None in
  ∃ g', insert_expr_spec spec graph_new = (Err unnamed_error, g') ∧
    nodes g' !! 0%N = None ∧ parents g' !! 1%N = Some (Some 0%N).
Proof.
  assert (forest graph_new) as Hf by (apply forest_empty; done).
  destruct (insert_expr_spec_not_atomic graph_new
    (SpecName {| ns_identifier := "f"; ns_span := None |})
    [SpecName {| ns_identifier := ""; ns_span := None |}] None Hf) as (g' & H1 & H2 & _ & H3 & _);
    [reflexivity|reflexivity|vm_compute; discriminate|].
  exists g'. split; [exact H1|]. split; [exact H2|exact H3].
Defined.
