(* ===== verification/GraphRemove.v ===== *)
(** Removal and replacement of subtrees ([remove_subtree_storage],
    [erase_detached_subtree], [delete_node], [replace_subtree] of
    [caap/src/graph.rs]).

    The worklist loop is shown to terminate on every graph, cyclic ones
    included; on a forest it removes exactly the nodes below its root, and what
    remains is a forest. *)

From S2P Require Import Prelude Policy Source Ir Graph GraphIntegrity GraphTemplate GraphInsert.

(** [c] is [r] or reaches [r] along parent links. *)
Inductive below (g : IRGraph) (r : NodeId) : NodeId → Prop :=
  | below_refl : below g r r
  | below_step c p : parent_of g c = Some p → below g r p → below g r c.
#[export] Hint Constructors below : caap.

(** ** One removal *)

(** The root id [remove_node_storage] falls back to: the first form, else the least
    id, else 0. *)
Definition fallback_root (g : IRGraph) : NodeId :=
  default 0%N (match head (top_level_forms g) with
               | Some f => Some f
               | None => min_key (nodes g)
               end).

Lemma foldr_min_spec (l : list N) k :
  foldr N.min k l ∈ k :: l ∧ ∀ j, j ∈ k :: l → (foldr N.min k l ≤ j)%N.
Proof.
  induction l as [|x l [IH1 IH2]]; cbn; [set_solver by lia|]. split.
  - destruct (N.min_spec x (foldr N.min k l)) as [[_ ->]|[_ ->]]; set_solver.
  - intros j Hj. assert (j = x ∨ j ∈ k :: l) as [->|Hj'] by set_solver; [lia|].
    specialize (IH2 j Hj'). lia.
Qed.

Lemma min_key_Some m k :
  min_key m = Some k ↔ k ∈ dom m ∧ ∀ j, j ∈ dom m → (k ≤ j)%N.
Proof.
  unfold min_key. setoid_rewrite <-map_keys_elem_of.
  destruct ((map_to_list m).*1) as [|x l]; [set_solver|].
  destruct (foldr_min_spec l x) as [H1 H2]. split.
  - intros [= <-]. done.
  - intros [Hk Hle]. f_equal. apply (anti_symm N.le); [by apply H2|by apply Hle].
Qed.

Lemma min_key_None m : min_key m = None ↔ m = ∅.
Proof.
  unfold min_key. split; [|intros ->; by rewrite map_to_list_empty].
  destruct (map_to_list m) as [|] eqn:E; [|done]. intros _. by apply map_to_list_empty_iff.
Qed.

(** [g'] is [g] without the ids in [D]. *)
Record removed (D : gset NodeId) (g g' : IRGraph) : Prop := {
  rm_nodes : ∀ k, nodes g' !! k = if decide (k ∈ D) then None else nodes g !! k;
  rm_parents : ∀ k, parents g' !! k = if decide (k ∈ D) then None else parents g !! k;
  rm_spans : ∀ k, source_spans g' !! k = if decide (k ∈ D) then None else source_spans g !! k;
  rm_internal : internal_nodes g' = internal_nodes g ∖ D;
  rm_forms : top_level_forms g' = filter (λ k, k ∉ D) (top_level_forms g);
  rm_set : top_level_set g' = top_level_set g ∖ D;
  rm_next : next_id g' = next_id g;
  rm_root : root_id g ∉ D → root_id g' = root_id g;
  rm_root_gone : root_id g ∈ D → root_id g' = fallback_root g';
}.

(** The fallback only moves when the id it names is removed too. *)
Lemma fallback_root_kept (D : gset NodeId) g g' :
  (∀ k, nodes g' !! k = if decide (k ∈ D) then None else nodes g !! k) →
  top_level_forms g' = filter (λ k, k ∉ D) (top_level_forms g) →
  fallback_root g ∉ D → fallback_root g' = fallback_root g.
Proof.
  intros Hn Hf. unfold fallback_root. rewrite Hf.
  assert (∀ k, k ∈ dom (nodes g') ↔ k ∉ D ∧ k ∈ dom (nodes g)) as Hd.
  { intros k. rewrite !elem_of_dom, Hn. case_decide; [|naive_solver].
    split; [by intros [? ?]|by intros [? _]]. }
  destruct (top_level_forms g) as [|f l]; cbn [head].
  - rewrite filter_nil. cbn [head]. destruct (min_key (nodes g)) as [k|] eqn:E; cbn; intros HD.
    + apply min_key_Some in E as [Hk Hle].
      rewrite (proj2 (min_key_Some (nodes g') k)); [done|]. split; [by apply Hd|].
      intros j [_ Hj]%Hd. by apply Hle.
    + apply min_key_None in E. rewrite (proj2 (min_key_None (nodes g'))); [done|].
      apply map_empty. intros k. rewrite Hn, E. by case_decide.
  - cbn. intros HD. by rewrite decide_True.
Qed.

Lemma removed_refl g : removed ∅ g g.
Proof.
  split; intros; try rewrite decide_False by set_solver; try done; try set_solver.
  symmetry. apply list_filter_all. set_solver.
Qed.

Lemma decide_union {A} (D1 D2 : gset NodeId) k (o : option A) :
  (if decide (k ∈ D2) then None else if decide (k ∈ D1) then None else o) =
  if decide (k ∈ D1 ∪ D2) then None else o.
Proof. repeat case_decide; set_solver. Qed.

Lemma removed_trans D1 D2 g1 g2 g3 :
  removed D1 g1 g2 → removed D2 g2 g3 → removed (D1 ∪ D2) g1 g3.
Proof.
  intros [n1 p1 s1 i1 f1 t1 x1 r1 q1] [n2 p2 s2 i2 f2 t2 x2 r2 q2].
  split.
  - intros k. by rewrite n2, n1, decide_union.
  - intros k. by rewrite p2, p1, decide_union.
  - intros k. by rewrite s2, s1, decide_union.
  - rewrite i2, i1. clear. set_solver.
  - rewrite f2, f1, list_filter_filter. apply list_filter_iff. clear. set_solver.
  - rewrite t2, t1. clear. set_solver.
  - congruence.
  - intros [Hr1 Hr2]%not_elem_of_union. rewrite r2, r1; [done|done|]. by rewrite r1.
  - intros Hr. destruct (decide (root_id g2 ∈ D2)) as [H2|H2]; [by apply q2|].
    rewrite r2 by done. destruct (decide (root_id g1 ∈ D1)) as [H1|H1].
    + rewrite (q1 H1) in H2 |- *. symmetry. by apply (fallback_root_kept D2).
    + rewrite (r1 H1) in H2. set_solver.
Qed.

Lemma filter_remove_at (l : list NodeId) id i :
  NoDup l → position id l = Some i → remove_at i l = filter (λ k, k ≠ id) l.
Proof.
  intros Hnd [Hi Hn]%position_Some. pose proof (lookup_split_at l i id Hi) as Hl.
  unfold remove_at. transitivity (filter (λ k, k ≠ id) (take i l ++ id :: drop (S i) l)).
  2:{ by rewrite <-Hl. }
  rewrite Hl in Hnd. apply NoDup_app in Hnd as (_ & _ & [Hd _]%NoDup_cons).
  rewrite filter_app, filter_cons_False by auto.
  f_equal; symmetry; apply list_filter_all; intros x Hx ->; done.
Qed.

Lemma remove_top_level_form_removed g id :
  NoDup (top_level_forms g) → top_level_set g = list_to_set (top_level_forms g) →
  (remove_top_level_form id g).2 =
    set_top_level (filter (λ k, k ≠ id) (top_level_forms g)) (top_level_set g ∖ {[id]}) g.
Proof.
  intros Hnd Hset. unfold remove_top_level_form.
  destruct (position id (top_level_forms g)) as [i|] eqn:E; cbn.
  - by rewrite (filter_remove_at _ id i).
  - apply position_None in E. rewrite list_filter_all by congruence.
    rewrite difference_disjoint_L by set_solver. by destruct g.
Qed.

Lemma delete_decide {A} (m : gmap NodeId A) id k :
  delete id m !! k = if decide (k ∈ ({[id]} : gset NodeId)) then None else m !! k.
Proof.
  case_decide as Hk.
  - apply elem_of_singleton in Hk as ->. apply lookup_delete_eq.
  - apply lookup_delete_ne. set_solver.
Qed.

Lemma remove_node_storage_removed g id :
  NoDup (top_level_forms g) → top_level_set g = list_to_set (top_level_forms g) →
  removed {[id]} g (remove_node_storage id g).2.
Proof.
  intros Hnd Hset. unfold remove_node_storage. rewrite remove_top_level_form_removed by done.
  cbn. set (g' := set_top_level _ _ _).
  destruct (N.eqb_spec (root_id g) id) as [Hr|Hr].
  all: split; cbn; intros; rewrite ?delete_decide; try done; try set_solver.
  all: apply list_filter_iff; set_solver.
Qed.

(** ** Termination of the worklist loop *)

Definition total_children (g : IRGraph) : nat :=
  sum_list_with (λ p, length (children p.2)) (map_to_list (nodes g)).

Lemma remove_node_storage_nodes id g : nodes (remove_node_storage id g).2 = delete id (nodes g).
Proof.
  unfold remove_node_storage, remove_top_level_form. cbn.
  destruct (position id (top_level_forms g)), (root_id g =? id)%N eqn:E; cbn; rewrite ?E; done.
Qed.

Lemma remove_node_storage_existed id g : (remove_node_storage id g).1 = contains g id.
Proof. done. Qed.

Lemma total_children_delete id g :
  total_children g =
    match nodes g !! id with Some nd => length (children nd) | None => 0 end
    + total_children (remove_node_storage id g).2.
Proof.
  unfold total_children. rewrite remove_node_storage_nodes.
  destruct (nodes g !! id) as [nd|] eqn:E; cbn.
  - by rewrite <-(map_to_list_delete _ _ _ E).
  - by rewrite delete_id.
Qed.

Lemma remove_subtree_loop_cons fuel current stack dropped g :
  remove_subtree_loop (S fuel) (current :: stack) dropped g =
  remove_subtree_loop fuel
    (match nodes g !! current with Some nd => reverse (children nd) | None => [] end ++ stack)
    (if contains g current then dropped ++ [current] else dropped)
    (remove_node_storage current g).2.
Proof.
  cbn [remove_subtree_loop]. rewrite <-remove_node_storage_existed.
  destruct (remove_node_storage current g) as [e g']. by destruct (nodes g !! current).
Qed.

Lemma remove_subtree_loop_ends fuel stack dropped g :
  length stack + total_children g ≤ fuel →
  (remove_subtree_loop fuel stack dropped g).1.1 = [].
Proof.
  revert stack dropped g. induction fuel as [|fuel IH]; intros [|x stack] dropped g Hf;
    [done|cbn in Hf; lia|done|].
  rewrite remove_subtree_loop_cons. apply IH. rewrite (total_children_delete x g) in Hf.
  rewrite length_app. cbn in Hf. destruct (nodes g !! x); rewrite ?length_reverse; cbn; lia.
Qed.

(** C28: the worklist loop of [remove_subtree_storage] ends on every graph, even
    one whose child links are shared or cyclic: the number of iterations is
    bounded by one plus the number of child links. *)
Theorem remove_subtree_terminates (g : IRGraph) (root : NodeId) :
  (remove_subtree_loop (subtree_fuel g) [root] [] g).1.1 = [].
Proof. by apply remove_subtree_loop_ends. Qed.

(** ** What the loop removes *)

(** A forest up to [r]: [r] is nobody's child but may still have a parent entry. *)
Record forest_but (r : NodeId) (g : IRGraph) : Prop := {
  fb_key : ∀ id nd, nodes g !! id = Some nd → node_id nd = id;
  fb_dom : dom (parents g) = dom (nodes g);
  fb_child : ∀ id nd c, nodes g !! id = Some nd → c ∈ children nd →
    c ≠ r ∧ parents g !! c = Some (Some id);
  fb_nodup : ∀ id nd, nodes g !! id = Some nd → NoDup (children nd);
  fb_parent : ∀ c p, c ≠ r → parents g !! c = Some (Some p) →
    ∃ nd, nodes g !! p = Some nd ∧ c ∈ children nd;
  fb_rooted : ∀ c, c ∈ dom (nodes g) → rooted (parent_of g) c;
  fb_forms_nodup : NoDup (top_level_forms g);
  fb_forms_set : top_level_set g = list_to_set (top_level_forms g);
  fb_forms_root : ∀ c, c ∈ top_level_forms g → c ≠ r → parents g !! c = Some None;
  fb_spans : dom (source_spans g) ⊆ dom (nodes g);
  fb_internal : ∀ id, id ∈ internal_nodes g → ∃ n, nodes g !! id = Some (NodeName n);
  fb_next : ∀ id, id ∈ dom (nodes g) → (id < next_id g)%N;
  fb_present : r ∈ dom (nodes g);
}.

Lemma forest_detached r g : forest g → parents g !! r = Some None → forest_but r g.
Proof.
  intros [] Hr. split; try done; auto.
  - intros id nd c Hid Hc. split; [|by eapply fo_child]. intros ->.
    by rewrite (fo_child id nd r Hid Hc) in Hr.
  - rewrite <-fo_dom. apply elem_of_dom. eauto.
Qed.

Lemma below_trans g a b c : below g a b → below g b c → below g a c.
Proof. intros Ha. induction 1; [done|]. by eapply below_step. Qed.

Lemma rooted_no_loop g x p :
  rooted (parent_of g) x → parent_of g x = Some p → ¬ below g x p.
Proof.
  intros Hr. revert p. induction Hr as [x Hx|x q Hq _ IH]; intros p Hp Hb; [congruence|].
  rewrite Hq in Hp. injection Hp as <-. destruct Hb as [|q q' Hq' Hb].
  { by apply (IH x Hq), below_refl. }
  apply (IH q' Hq'). apply (below_trans _ _ x); [|done]. eapply below_step; [done|constructor].
Qed.

Lemma below_or_not g r c : rooted (parent_of g) c → below g r c ∨ ¬ below g r c.
Proof.
  destruct (decide (c = r)) as [->|Hne]; [intros _; left; constructor|].
  induction 1 as [c Hc|c p Hp _ IH].
  - right. by destruct 1; simplify_eq.
  - destruct (decide (p = r)) as [->|Hpr]; [left; eapply below_step; [done|constructor]|].
    destruct (IH Hpr) as [Hb|Hb]; [left; by eapply below_step|right].
    destruct 1; simplify_eq; done.
Qed.

(** The ancestors of [c], from [c] on. *)
Fixpoint ancestors (fuel : nat) (g : IRGraph) (c : NodeId) : option (list NodeId) :=
  match fuel with
  | 0 => None
  | S fuel => match parent_of g c with
              | None => Some [c]
              | Some p => (c ::.) <$> ancestors fuel g p
              end
  end.

Lemma ancestors_not_below fuel g r c l :
  ancestors fuel g c = Some l → r ∉ l → ¬ below g r c.
Proof.
  revert c l. induction fuel as [|fuel IH]; intros c l; cbn; [done|].
  destruct (parent_of g c) as [p|] eqn:Hp.
  - intros (l' & Hl & ->)%fmap_Some [Hr Hl']%not_elem_of_cons Hb.
    destruct Hb as [|c q Hq Hb]; [done|]. simplify_eq. by eapply IH.
  - intros [= <-] Hr%not_elem_of_cons. destruct 1; [tauto|congruence].
Qed.

Section loop.
Context (g0 : IRGraph) (r : NodeId) (Hf : forest_but r g0).

Record loop_inv (stack dropped : list NodeId) (g : IRGraph) : Prop := {
  li_removed : removed (list_to_set dropped) g0 g;
  li_nodup : NoDup (stack ++ dropped);
  li_below : ∀ x, x ∈ stack ++ dropped → x ∈ dom (nodes g0) ∧ below g0 r x;
  li_link : ∀ x, x ∈ stack ++ dropped → x ≠ r →
    ∃ p, parents g0 !! x = Some (Some p) ∧ p ∈ dropped;
  li_root : r ∈ stack ++ dropped;
  li_closed : ∀ d nd c, d ∈ dropped → nodes g0 !! d = Some nd → c ∈ children nd →
    c ∈ stack ++ dropped;
}.

Lemma loop_inv_start : loop_inv [r] [] g0.
Proof.
  split; cbn; [apply removed_refl|apply NoDup_singleton| |set_solver..].
  intros x ->%list_elem_of_singleton. split; [apply (fb_present _ _ Hf)|constructor].
Qed.

Lemma loop_inv_step x nd stack dropped g :
  loop_inv (x :: stack) dropped g → nodes g0 !! x = Some nd →
  loop_inv (reverse (children nd) ++ stack) (dropped ++ [x]) (remove_node_storage x g).2.
Proof.
  intros [Hrm Hnd Hb Hl Hr Hc] Hx.
  assert ((x :: stack) ++ dropped ≡ₚ stack ++ dropped ++ [x]) as Hp by solve_Permutation.
  assert (∀ c, c ∈ children nd → c ∉ stack ++ dropped ++ [x]) as Hnew.
  { intros c Hcc. rewrite <-Hp. intros Hin.
    destruct (fb_child _ _ Hf x nd c Hx Hcc) as [Hcr Hcp].
    destruct (Hl c Hin Hcr) as (p & Hpp & Hpd). simplify_eq.
    apply NoDup_cons in Hnd as [Hn _]. apply Hn. set_solver. }
  split.
  - rewrite list_to_set_app_L. cbn. rewrite union_empty_r_L.
    eapply removed_trans; [exact Hrm|]. apply remove_node_storage_removed.
    + rewrite (rm_forms _ _ _ Hrm). apply NoDup_filter, (fb_forms_nodup _ _ Hf).
    + rewrite (rm_set _ _ _ Hrm), (rm_forms _ _ _ Hrm), (fb_forms_set _ _ Hf).
      apply set_eq. intros k. rewrite elem_of_difference, !elem_of_list_to_set,
        list_elem_of_filter. set_solver.
  - rewrite <-(assoc_L (++)). apply NoDup_app. split_and!.
    + rewrite reverse_Permutation. apply (fb_nodup _ _ Hf x nd Hx).
    + intros c Hcc. rewrite elem_of_reverse in Hcc. by apply Hnew.
    + by rewrite <-Hp.
  - intros y. rewrite <-(assoc_L (++)), elem_of_app, elem_of_reverse, <-Hp.
    intros [Hy|Hy]; [|by apply Hb]. destruct (fb_child _ _ Hf x nd y Hx Hy) as [_ Hyp]. split.
    + rewrite <-(fb_dom _ _ Hf). apply elem_of_dom. eauto.
    + eapply below_step; [unfold parent_of; by rewrite Hyp|]. apply Hb. set_solver.
  - intros y. rewrite <-(assoc_L (++)), elem_of_app, elem_of_reverse, <-Hp.
    intros [Hy|Hy] Hyr.
    + exists x. split; [by apply (fb_child _ _ Hf x nd)|set_solver].
    + destruct (Hl y Hy Hyr) as (p & ? & ?). exists p. set_solver.
  - rewrite <-(assoc_L (++)), elem_of_app, <-Hp. by right.
  - intros d nd' c [Hd| ->%list_elem_of_singleton]%elem_of_app Hd' Hcc.
    all: rewrite <-(assoc_L (++)), elem_of_app, elem_of_reverse, <-Hp.
    2:{ left. by simplify_eq. }
    right. by eapply Hc.
Qed.

Lemma loop_inv_run fuel stack dropped g :
  loop_inv stack dropped g → length stack + total_children g ≤ fuel →
  let '(_, dropped', g') := remove_subtree_loop fuel stack dropped g in
  loop_inv [] dropped' g'.
Proof.
  revert stack dropped g. induction fuel as [|fuel IH]; intros [|x stack] dropped g Hi Hfu;
    [done|cbn in Hfu; lia|done|].
  rewrite remove_subtree_loop_cons.
  destruct (li_below _ _ _ Hi x ltac:(set_solver)) as [[nd Hx]%elem_of_dom _].
  assert (nodes g !! x = Some nd) as Hx'.
  { rewrite (rm_nodes _ _ _ (li_removed _ _ _ Hi)), decide_False; [done|].
    rewrite elem_of_list_to_set. pose proof (li_nodup _ _ _ Hi) as [Hn _]%NoDup_cons.
    set_solver. }
  unfold contains. rewrite Hx'. apply IH; [by apply loop_inv_step|].
  rewrite (total_children_delete x g), Hx' in Hfu. rewrite length_app, length_reverse.
  cbn [length] in Hfu. lia.
Qed.

Lemma loop_inv_final dropped g :
  loop_inv [] dropped g →
  NoDup dropped ∧ removed (list_to_set dropped) g0 g ∧
  ∀ x, x ∈ dropped ↔ x ∈ dom (nodes g0) ∧ below g0 r x.
Proof.
  intros [Hrm Hnd Hb Hl Hr Hc]. cbn in *. split_and!; [done..|]. intros x. split; [apply Hb|].
  intros [Hx Hbx]. induction Hbx as [|c p Hp _ IH]; [done|].
  destruct (decide (c = r)) as [->|Hcr]; [done|].
  unfold parent_of in Hp. destruct (parents g0 !! c) as [[q|]|] eqn:E; simplify_eq.
  destruct (fb_parent _ _ Hf c p Hcr E) as (nd & Hnd' & Hin).
  apply (Hc p nd c); [|done..]. apply IH. apply elem_of_dom. eauto.
Qed.
End loop.

Lemma remove_subtree_storage_spec g r :
  forest_but r g →
  let '(dropped, g') := remove_subtree_storage r g in
  NoDup dropped ∧ removed (list_to_set dropped) g g' ∧
  ∀ x, x ∈ dropped ↔ x ∈ dom (nodes g) ∧ below g r x.
Proof.
  intros Hf. pose proof (loop_inv_run g r Hf (subtree_fuel g) [r] [] g) as H.
  unfold remove_subtree_storage.
  destruct (remove_subtree_loop (subtree_fuel g) [r] [] g) as [[st dropped] g'].
  apply loop_inv_final; [done|]. apply H; [by apply loop_inv_start|done].
Qed.

(** ** What remains is a forest *)

Section remaining.
Context (g g' : IRGraph) (r : NodeId) (D : gset NodeId).
Hypothesis Hf : forest_but r g.
Hypothesis Hrm : removed D g g'.
Hypothesis HD : ∀ x, x ∈ D ↔ x ∈ dom (nodes g) ∧ below g r x.

Lemma remaining_node k nd : nodes g' !! k = Some nd ↔ k ∉ D ∧ nodes g !! k = Some nd.
Proof. rewrite (rm_nodes _ _ _ Hrm). case_decide; naive_solver. Qed.

Lemma remaining_parent k p : parents g' !! k = Some p ↔ k ∉ D ∧ parents g !! k = Some p.
Proof. rewrite (rm_parents _ _ _ Hrm). case_decide; naive_solver. Qed.

Lemma remaining_dom k : k ∈ dom (nodes g') ↔ k ∉ D ∧ k ∈ dom (nodes g).
Proof.
  rewrite !elem_of_dom. unfold is_Some. setoid_rewrite remaining_node. naive_solver.
Qed.

Lemma not_below_kept k : k ∈ dom (nodes g) → k ∉ D ↔ ¬ below g r k.
Proof. intros Hk. rewrite HD. tauto. Qed.

Lemma child_kept k nd c :
  k ∉ D → nodes g !! k = Some nd → c ∈ children nd → c ∉ D.
Proof.
  intros Hk Hnd Hc. destruct (fb_child _ _ Hf k nd c Hnd Hc) as [Hcr Hcp]. rewrite HD.
  intros [_ Hb]. destruct Hb as [|c p Hp Hb]; [done|]. apply Hk, HD.
  unfold parent_of in Hp. rewrite Hcp in Hp. simplify_eq. split; [|done].
  apply elem_of_dom. eauto.
Qed.

Lemma root_removed : r ∈ D.
Proof. apply HD. split; [apply (fb_present _ _ Hf)|constructor]. Qed.

Lemma parent_kept c p : c ∉ D → parents g !! c = Some (Some p) → p ∉ D.
Proof.
  intros Hc Hp HpD. apply Hc, HD. split.
  - rewrite <-(fb_dom _ _ Hf). apply elem_of_dom. eauto.
  - eapply below_step; [unfold parent_of; by rewrite Hp|]. by apply HD in HpD as [_ ?].
Qed.

Lemma remaining_rooted c : c ∉ D → rooted (parent_of g) c → rooted (parent_of g') c.
Proof.
  intros Hc Hr. induction Hr as [c Hn|c p Hp _ IH].
  - apply rooted_root. unfold parent_of in *. by rewrite (rm_parents _ _ _ Hrm), decide_False.
  - apply (rooted_step _ _ p).
    + unfold parent_of in *. by rewrite (rm_parents _ _ _ Hrm), decide_False.
    + apply IH. unfold parent_of in Hp. destruct (parents g !! c) eqn:E; [|done]. subst.
      by apply (parent_kept c p).
Qed.

Lemma removed_forest : forest g'.
Proof.
  split.
  - intros id nd [_ Hid]%remaining_node. by apply (fb_key _ _ Hf).
  - apply set_eq. intros k. rewrite remaining_dom, <-(fb_dom _ _ Hf), !elem_of_dom.
    unfold is_Some. setoid_rewrite remaining_parent. naive_solver.
  - intros id nd c [Hk Hid]%remaining_node Hc. apply remaining_parent.
    split; [by apply (child_kept id nd)|by apply (fb_child _ _ Hf id nd)].
  - intros id nd [_ Hid]%remaining_node. by apply (fb_nodup _ _ Hf id).
  - intros c p [Hc Hp]%remaining_parent.
    destruct (fb_parent _ _ Hf c p) as (nd & Hnd & Hin); [|done|].
    { intros ->. apply Hc, root_removed. }
    exists nd. rewrite remaining_node. split; [|done]. split; [|done]. by apply (parent_kept c).
  - intros c [Hc Hd]%remaining_dom. apply remaining_rooted; [done|]. by apply (fb_rooted _ _ Hf).
  - rewrite (rm_forms _ _ _ Hrm). apply NoDup_filter, (fb_forms_nodup _ _ Hf).
  - rewrite (rm_set _ _ _ Hrm), (rm_forms _ _ _ Hrm), (fb_forms_set _ _ Hf).
    apply set_eq. intros k. rewrite elem_of_difference, !elem_of_list_to_set,
        list_elem_of_filter. tauto.
  - intros c. rewrite (rm_forms _ _ _ Hrm), list_elem_of_filter. intros [Hc Hin].
    apply remaining_parent. split; [done|]. apply (fb_forms_root _ _ Hf); [done|].
    intros ->. apply Hc, root_removed.
  - intros k. rewrite elem_of_dom, (rm_spans _ _ _ Hrm), remaining_dom. case_decide as Hk.
    + by intros [? ?].
    + intros [s Hs]. split; [done|]. apply (fb_spans _ _ Hf). apply elem_of_dom. eauto.
  - intros id. rewrite (rm_internal _ _ _ Hrm). intros [Hid HidD]%elem_of_difference.
    destruct (fb_internal _ _ Hf id Hid) as [n Hn]. exists n. by apply remaining_node.
  - intros id [_ Hid]%remaining_dom. rewrite (rm_next _ _ _ Hrm). by apply (fb_next _ _ Hf).
Qed.
End remaining.

Lemma remove_subtree_m_spec g r :
  forest_but r g →
  ∃ dropped g', remove_subtree_m r g = (Ok dropped, g') ∧ forest g' ∧ NoDup dropped ∧
    removed (list_to_set dropped) g g' ∧
    ∀ x, x ∈ dropped ↔ x ∈ dom (nodes g) ∧ below g r x.
Proof.
  intros Hf. pose proof (remove_subtree_storage_spec g r Hf) as H. unfold remove_subtree_m.
  destruct (remove_subtree_storage r g) as [dropped g']. destruct H as (Hnd & Hrm & HD).
  exists dropped, g'. split_and!; [done| |done..].
  eapply removed_forest; [exact Hf|exact Hrm|]. intros x. by rewrite elem_of_list_to_set.
Qed.

Lemma forest_parent_entry g r : forest g → r ∈ dom (nodes g) →
  parent_of g r = None → parents g !! r = Some None.
Proof.
  intros Hf Hr. rewrite <-(fo_dom _ Hf) in Hr. apply elem_of_dom in Hr as [p Hp].
  unfold parent_of. rewrite Hp. by intros ->.
Qed.

(** C9: [erase_detached_subtree] on a forest: it fails, changing nothing, exactly
    when the root is missing or attached; otherwise it succeeds, reports each
    removed id once, removes exactly the root and the nodes below it from every
    table, keeps all other entries, and leaves a forest. *)
Theorem erase_detached_subtree_exact (g : IRGraph) (root : NodeId) :
  forest g →
  match erase_detached_subtree root g with
  | (Err _, g') => g' = g ∧ (root ∉ dom (nodes g) ∨ parent_of g root ≠ None)
  | (Ok dropped, g') =>
      root ∈ dom (nodes g) ∧ parent_of g root = None ∧ forest g' ∧ NoDup dropped ∧
      removed (list_to_set dropped) g g' ∧
      ∀ x, x ∈ dropped ↔ x ∈ dom (nodes g) ∧ below g root x
  end.
Proof.
  intros Hf. unfold erase_detached_subtree, require_node.
  destruct (contains g root) eqn:Hc.
  2:{ split; [done|]. left. rewrite <-contains_dom. congruence. }
  rewrite contains_dom in Hc. destruct (parent_of g root) as [p|] eqn:Hp.
  { split; [done|]. by right. }
  destruct (remove_subtree_m_spec g root) as (dropped & g' & -> & ? & ? & ? & ?); [|done].
  apply forest_detached; [done|]. by apply forest_parent_entry.
Qed.

Lemma erase_detached_subtree_exact_witness :
  forest sample_graph ∧
  ∃ dropped g', erase_detached_subtree 0%N sample_graph = (Ok dropped, g') ∧ forest g' ∧
    ∀ x, x ∈ dropped ↔ x ∈ dom (nodes sample_graph) ∧ below sample_graph 0%N x.
Proof.
  assert (forest sample_graph) as Hf.
  { apply validate_integrity_forest. vm_compute. reflexivity. }
  split; [exact Hf|].
  pose proof (erase_detached_subtree_exact sample_graph 0%N Hf) as H.
  destruct (erase_detached_subtree 0%N sample_graph) as [[dropped|e] g'] eqn:E.
  - exists dropped, g'. split; [done|]. tauto.
  - exfalso. vm_compute in E. discriminate E.
Defined.

(** ** Replacement of a subtree *)

Definition subst_id (old new k : NodeId) : NodeId := if (k =? old)%N then new else k.

Lemma rewrite_parent_child_spec nd old new :
  old ∈ children nd →
  ∃ nd', rewrite_parent_child nd old new = Ok nd' ∧ node_id nd' = node_id nd ∧
    children nd' = subst_id old new <$> children nd ∧ is_name_node nd' = is_name_node nd.
Proof.
  destruct nd as [n|n|n]; cbn [children]; [set_solver..|]. intros Hin.
  unfold rewrite_parent_child. assert (((cn_callee n =? old)%N || list_mem old (cn_args n)) = true)
    as ->. { by rewrite <-(contains_child_spec (NodeCall n)) in Hin. }
  eexists. split; [done|]. done.
Qed.

Lemma NoDup_subst (l : list NodeId) old new :
  NoDup l → new ∉ l → NoDup (subst_id old new <$> l).
Proof.
  intros Hl Hn. apply NoDup_fmap_2_strong; [|done]. intros x y Hx Hy. unfold subst_id.
  destruct (N.eqb_spec x old), (N.eqb_spec y old); set_solver.
Qed.

Lemma elem_of_subst (l : list NodeId) old new c :
  c ∈ subst_id old new <$> l → (c = new ∧ old ∈ l) ∨ (c ∈ l ∧ c ≠ old).
Proof.
  intros (k & -> & Hk)%list_elem_of_fmap. unfold subst_id. destruct (N.eqb_spec k old); naive_solver.
Qed.

Lemma elem_of_subst_2 (l : list NodeId) old new c :
  c ∈ l → c ≠ old → c ∈ subst_id old new <$> l.
Proof.
  intros Hc Hn. apply list_elem_of_fmap. exists c. split; [|done]. unfold subst_id.
  by destruct (N.eqb_spec c old).
Qed.

(** The graph after the child link of [p] was moved from [old] to [new]. *)
Section attach.
Context (g : IRGraph) (old new p : NodeId) (nd nd' : Node).
Hypothesis Hf : forest g.
Hypothesis Hne : old ≠ new.
Hypothesis Hold : parents g !! old = Some (Some p).
Hypothesis Hnew : parents g !! new = Some None.
Hypothesis Hform : new ∉ top_level_forms g.
Hypothesis Hnd : nodes g !! p = Some nd.
Hypothesis Hrw : rewrite_parent_child nd old new = Ok nd'.

Let g2 := set_nodes (<[p := nd']> (nodes g))
            (set_parents (<[new := Some p]> (parents g)) g).

Lemma attach_old_child : old ∈ children nd.
Proof. destruct (fo_parent _ Hf old p Hold) as (? & ? & ?). by simplify_eq. Qed.

Lemma attach_new_child k n : nodes g !! k = Some n → new ∉ children n.
Proof. intros Hk Hin. rewrite (fo_child _ Hf k n new Hk Hin) in Hnew. done. Qed.

Lemma attach_node : node_id nd' = p ∧ children nd' = subst_id old new <$> children nd ∧
  is_name_node nd' = is_name_node nd.
Proof.
  destruct (rewrite_parent_child_spec nd old new attach_old_child) as (n & Hn & Hid & ? & ?).
  rewrite Hrw in Hn. simplify_eq. split; [|done]. rewrite Hid. by apply (fo_key _ Hf).
Qed.

Lemma attach_parent_of k : parent_of g2 k = if decide (k = new) then Some p else parent_of g k.
Proof.
  unfold parent_of, g2. cbn. rewrite lookup_insert.
  destruct (decide (new = k)), (decide (k = new)); by subst.
Qed.

Lemma old_not_above_p : ¬ below g old p.
Proof.
  apply rooted_no_loop; [|unfold parent_of; by rewrite Hold]. apply (fo_rooted _ Hf).
  rewrite <-(fo_dom _ Hf). apply elem_of_dom. eauto.
Qed.

Lemma attach_below x : below g2 old x ↔ below g old x.
Proof.
  split.
  - induction 1 as [|c q Hq _ IH]; [constructor|]. rewrite attach_parent_of in Hq.
    case_decide; [|by eapply below_step]. injection Hq as <-. by apply old_not_above_p in IH.
  - induction 1 as [|c q Hq _ IH]; [constructor|]. eapply below_step; [|done].
    rewrite attach_parent_of. case_decide; [|done]. subst. unfold parent_of in Hq.
    by rewrite Hnew in Hq.
Qed.

Lemma attach_rooted c : rooted (parent_of g) c → ¬ below g new c → rooted (parent_of g2) c.
Proof.
  induction 1 as [c Hc|c q Hq _ IH]; intros Hb.
  - apply rooted_root. rewrite attach_parent_of. case_decide; [|done]. subst.
    by destruct Hb; constructor.
  - apply (rooted_step _ _ q).
    + rewrite attach_parent_of. case_decide; [|done]. subst. by destruct Hb; constructor.
    + apply IH. intros Hb'. apply Hb. by eapply below_step.
Qed.

Lemma attach_dom : dom (nodes g2) = dom (nodes g).
Proof. unfold g2. cbn. apply dom_insert_lookup_L. eauto. Qed.

Lemma attach_parents c : parents g2 !! c = if decide (c = new) then Some (Some p)
                                           else parents g !! c.
Proof.
  unfold g2. cbn. rewrite lookup_insert. clear -g.
  destruct (decide (new = c)), (decide (c = new)); by subst.
Qed.

Lemma attach_nodes k : nodes g2 !! k = if decide (k = p) then Some nd' else nodes g !! k.
Proof.
  unfold g2. cbn. rewrite lookup_insert. clear -g.
  destruct (decide (p = k)), (decide (k = p)); by subst.
Qed.

Lemma attach_child k n c : nodes g2 !! k = Some n → c ∈ children n →
  c ≠ old ∧ parents g2 !! c = Some (Some k).
Proof.
  destruct attach_node as (_ & Hch & _). rewrite attach_nodes, attach_parents.
  case_decide as Hk; intros Hn Hc.
  - subst k. injection Hn as <-. rewrite Hch in Hc.
    apply elem_of_subst in Hc as [[-> _]|[Hc Hco]]; [by rewrite decide_True|].
    split; [done|]. rewrite decide_False; [by apply (fo_child _ Hf p nd)|].
    intros ->. by apply (attach_new_child p nd).
  - pose proof (fo_child _ Hf k n c Hn Hc) as Hcp. split; [congruence|].
    rewrite decide_False; [done|]. congruence.
Qed.

Lemma attach_parents_dom : dom (parents g2) = dom (nodes g2).
Proof.
  rewrite attach_dom, <-(fo_dom _ Hf). unfold g2. cbn. apply dom_insert_lookup_L. eauto.
Qed.

Lemma attach_nodup k n : nodes g2 !! k = Some n → NoDup (children n).
Proof.
  destruct attach_node as (_ & Hch & _). rewrite attach_nodes.
  case_decide; [|apply (fo_nodup _ Hf)].
  intros [= <-]. rewrite Hch. apply NoDup_subst; [by apply (fo_nodup _ Hf p)|].
  by apply (attach_new_child p).
Qed.

Lemma attach_validate :
  validate_node_children nd' (set_parents (<[new := Some p]> (parents g)) g) = Ok tt.
Proof.
  destruct attach_node as (Hid & Hch & _).
  assert (nodes g2 !! p = Some nd') as Hp by by rewrite attach_nodes, decide_True.
  unfold validate_node_children. apply seq_ok. split.
  - pose proof (attach_nodup p nd' Hp) as Hu. clear -Hu.
    destruct nd'; [done..|]. by apply validate_unique_ok.
  - rewrite for_each_ok, Forall_forall. intros c Hc. apply seq_ok.
    destruct (attach_child p nd' c Hp Hc) as [_ Hcp]. split.
    + unfold require_node. rewrite (proj2 (contains_dom _ c)); [done|]. cbn.
      rewrite <-attach_dom, <-attach_parents_dom. apply elem_of_dom. eauto.
    + apply if_decide_ok. split; [|done]. rewrite Hid. unfold parent_of.
      unfold g2 in Hcp. cbn in Hcp. cbn. by rewrite Hcp.
Qed.

Lemma replace_subtree_attached :
  old ∉ top_level_forms g → replace_subtree old new g = remove_subtree_m old g2.
Proof.
  intros Hof. unfold replace_subtree, se_lift, mbind, se_bind, require_node.
  assert (∀ k q, parents g !! k = Some q → contains g k = true) as Hin.
  { intros k q Hk. apply contains_dom. rewrite <-(fo_dom _ Hf). apply elem_of_dom. eauto. }
  rewrite (Hin old _ Hold), decide_False by done.
  unfold require_new_subtree_root, require_node, parent_of, has_top_level_form.
  rewrite (Hin new _ Hnew), Hnew. cbn [mbind result_bind].
  rewrite (fo_forms_set _ Hf). rewrite bool_decide_eq_false_2 by set_solver.
  cbn [se_get]. rewrite (fo_forms_set _ Hf), bool_decide_eq_false_2 by set_solver.
  rewrite Hold. cbn [ok_or]. rewrite Hnd. cbn [ok_or]. rewrite Hrw. cbn [se_modify].
  unfold replace_node, se_lift, mbind, se_bind, require_node.
  assert (contains (set_parents (<[new:=Some p]> (parents g)) g) p = true) as ->.
  { apply contains_dom. cbn. apply elem_of_dom. eauto. }
  destruct attach_node as (-> & _ & _). rewrite N.eqb_refl. cbn [negb].
  by rewrite attach_validate.
Qed.
(** The moved subtree does not contain its new parent. *)
Hypothesis Hacyc : ¬ below g new old.

Lemma attach_rooted_below c : below g new c → rooted (parent_of g2) c.
Proof.
  induction 1 as [|c q Hq _ IH].
  - apply (rooted_step _ _ p). { rewrite attach_parent_of. by rewrite decide_True. }
    apply attach_rooted.
    + apply (fo_rooted _ Hf). apply elem_of_dom. eauto.
    + intros Hb. apply Hacyc. eapply below_step; [unfold parent_of; by rewrite Hold|done].
  - apply (rooted_step _ _ q); [|done]. rewrite attach_parent_of. case_decide; [|done]. subst.
    unfold parent_of in Hq. by rewrite Hnew in Hq.
Qed.

Lemma attach_forest_but : forest_but old g2.
Proof.
  destruct attach_node as (Hid & Hch & Hname). split.
  - intros k n. rewrite attach_nodes. case_decide; [congruence|apply (fo_key _ Hf)].
  - apply attach_parents_dom.
  - intros k n c. apply attach_child.
  - apply attach_nodup.
  - intros c q Hc. rewrite attach_parents. setoid_rewrite attach_nodes. case_decide as Hcn.
    + intros [= <-]. rewrite decide_True by done. exists nd'. split; [done|]. subst c.
      rewrite Hch. apply list_elem_of_fmap. exists old. split; [|apply attach_old_child].
      unfold subst_id. by rewrite N.eqb_refl.
    + intros Hq. destruct (fo_parent _ Hf c q Hq) as (n & Hn & Hin). case_decide; [|by eauto].
      subst q. simplify_eq. exists nd'. split; [done|]. rewrite Hch. by apply elem_of_subst_2.
  - intros c. rewrite attach_dom. intros Hc. pose proof (fo_rooted _ Hf c Hc) as Hr.
    destruct (below_or_not g new c Hr); [by apply attach_rooted_below|by apply attach_rooted].
  - apply (fo_forms_nodup _ Hf).
  - apply (fo_forms_set _ Hf).
  - intros c Hc _. rewrite attach_parents, decide_False; [by apply (fo_forms_root _ Hf)|].
    intros ->. done.
  - rewrite attach_dom. apply (fo_spans _ Hf).
  - intros k Hk. destruct (fo_internal _ Hf k Hk) as [n Hn]. exists n. rewrite attach_nodes.
    case_decide; [|done]. subst k. simplify_eq.
  - intros k. rewrite attach_dom. apply (fo_next _ Hf).
  - rewrite attach_dom, <-(fo_dom _ Hf). apply elem_of_dom. eauto.
Qed.
End attach.

Lemma subst_insert (l : list NodeId) old new i :
  NoDup l → position old l = Some i → <[i := new]> l = subst_id old new <$> l.
Proof.
  intros Hnd [Hi _]%position_Some. apply list_eq. intros j. rewrite list_lookup_fmap.
  destruct (decide (i = j)) as [<-|Hij].
  - rewrite list_lookup_insert_eq by by eapply lookup_lt_Some. rewrite Hi. cbn.
    unfold subst_id. by rewrite N.eqb_refl.
  - rewrite list_lookup_insert_ne by done. destruct (l !! j) as [x|] eqn:Hj; [|done]. cbn.
    unfold subst_id. destruct (N.eqb_spec x old) as [->|]; [|done].
    destruct Hij. by eapply NoDup_lookup.
Qed.

Lemma subst_set (l : list NodeId) (s : gset NodeId) old new :
  old ∈ l → s = list_to_set l →
  {[new]} ∪ (s ∖ {[old]}) = list_to_set (subst_id old new <$> l).
Proof.
  intros Hold ->. apply set_eq. intros k.
  rewrite elem_of_union, elem_of_difference, !elem_of_list_to_set, !elem_of_singleton. split.
  - intros [->|[Hk Hko]]; [|by apply elem_of_subst_2]. apply list_elem_of_fmap. exists old.
    unfold subst_id. by rewrite N.eqb_refl.
  - intros Hk%elem_of_subst. tauto.
Qed.

(** The graph after form [old] was replaced by [new] in the list of forms. *)
Section promote.
Context (g : IRGraph) (old new : NodeId).
Hypothesis Hf : forest g.
Hypothesis Hne : old ≠ new.
Hypothesis Hold : old ∈ top_level_forms g.
Hypothesis Hnew : parents g !! new = Some None.
Hypothesis Hform : new ∉ top_level_forms g.

Let g1 :=
  let g1 := set_top_level (subst_id old new <$> top_level_forms g)
              ({[new]} ∪ (top_level_set g ∖ {[old]})) g in
  if (root_id g =? old)%N then set_root_id new g1 else g1.

Lemma promote_fields :
  nodes g1 = nodes g ∧ parents g1 = parents g ∧ source_spans g1 = source_spans g ∧
  internal_nodes g1 = internal_nodes g ∧ next_id g1 = next_id g ∧
  top_level_forms g1 = subst_id old new <$> top_level_forms g ∧
  top_level_set g1 = {[new]} ∪ (top_level_set g ∖ {[old]}) ∧
  root_id g1 = subst_id old new (root_id g).
Proof. unfold g1, subst_id. by destruct (root_id g =? old)%N. Qed.

Lemma promote_forest_but : forest_but old g1.
Proof.
  destruct promote_fields as (Hn & Hp & Hs & Hi & Hx & Hfs & Hset & _).
  pose proof (fo_forms_root _ Hf old Hold) as Hroot.
  destruct (forest_detached old g Hf Hroot) as [].
  assert (∀ k, parent_of g1 k = parent_of g k) as Hpo by (intros; unfold parent_of; by rewrite Hp).
  split; rewrite ?Hn, ?Hp, ?Hs, ?Hi, ?Hx; try done.
  - intros c Hc. eapply rooted_ext; [|by apply fb_rooted0]. done.
  - rewrite Hfs. by apply NoDup_subst.
  - rewrite Hfs, Hset. by apply subst_set.
  - intros c. rewrite Hfs. intros [[-> _]|[Hc _]]%elem_of_subst _; [done|].
    by apply (fo_forms_root _ Hf).
Qed.

Lemma replace_subtree_promoted : replace_subtree old new g = remove_subtree_m old g1.
Proof.
  assert (∀ k q, parents g !! k = Some q → contains g k = true) as Hin.
  { intros k q Hk. apply contains_dom. rewrite <-(fo_dom _ Hf). apply elem_of_dom. eauto. }
  pose proof (Hin _ _ (fo_forms_root _ Hf old Hold)) as Hco. pose proof (Hin _ _ Hnew) as Hcn.
  unfold replace_subtree, replace_top_level_form, require_new_top_level_form,
    require_detached_top_level_form, require_new_subtree_root, top_level_index, require_node,
    has_top_level_form, parent_of, se_lift, se_get, se_modify, mbind, se_bind.
  assert (bool_decide (new ∈ top_level_set g) = false) as Hbn.
  { rewrite (fo_forms_set _ Hf). apply bool_decide_eq_false_2. set_solver. }
  assert (bool_decide (old ∈ top_level_set g) = true) as Hbo.
  { rewrite (fo_forms_set _ Hf). apply bool_decide_eq_true_2. set_solver. }
  destruct (position_elem_of old _ Hold) as [i Hi].
  rewrite Hco, decide_False, Hcn, Hnew by done. cbn [result_bind]. rewrite Hbn, Hbo, Hi.
  cbn [ok_or]. rewrite decide_False, Hcn, Hnew by done. cbn [result_bind]. rewrite Hbn.
  unfold g1. rewrite (subst_insert _ old new i (fo_forms_nodup _ Hf) Hi).
  reflexivity.
Qed.
End promote.

(** When [replace_subtree] refuses a distinct [new]. *)
Definition replace_refused (g : IRGraph) (old new : NodeId) : Prop :=
  old ∉ dom (nodes g) ∨ new ∉ dom (nodes g) ∨ parent_of g new ≠ None ∨
  new ∈ top_level_forms g ∨ (old ∉ top_level_forms g ∧ parent_of g old = None).

(** What an accepted replacement does: [new] takes the place of [old] in the
    list of forms, or in the children of its parent; the nodes below [old] are
    gone from every table; everything else is unchanged. The root id moves from
    a replaced form to [new], and away from any other removed id. *)
Record replaced (g g' : IRGraph) (old new : NodeId) : Prop := {
  rp_forms : top_level_forms g' = subst_id old new <$> top_level_forms g;
  rp_parent : ∀ p, parent_of g old = Some p →
    ∃ nd nd', nodes g !! p = Some nd ∧ nodes g' !! p = Some nd' ∧
      node_id nd' = node_id nd ∧ children nd' = subst_id old new <$> children nd;
  rp_gone : ∀ k, below g old k → nodes g' !! k = None ∧ parents g' !! k = None ∧
    source_spans g' !! k = None ∧ k ∉ internal_nodes g';
  rp_other : ∀ k, ¬ below g old k → parent_of g old ≠ Some k → nodes g' !! k = nodes g !! k;
  rp_links : ∀ k, ¬ below g old k →
    parents g' !! k = if decide (k = new) then Some (parent_of g old) else parents g !! k;
  rp_notes : ∀ k, ¬ below g old k → source_spans g' !! k = source_spans g !! k ∧
    (k ∈ internal_nodes g' ↔ k ∈ internal_nodes g);
  rp_next : next_id g' = next_id g;
  rp_root_form : old ∈ top_level_forms g → root_id g = old → root_id g' = new;
  rp_root_kept : ¬ below g old (root_id g) → root_id g' = root_id g;
  rp_root_gone : below g old (root_id g) → (old ∈ top_level_forms g → root_id g ≠ old) →
    root_id g' = fallback_root g';
}.

Lemma filter_not_old (l : list NodeId) (old new : NodeId) (D : gset NodeId) :
  old ≠ new → (∀ x, x ∈ l → x ∈ D → x = old) → new ∉ D →
  filter (λ k, k ∉ D) (subst_id old new <$> l) = subst_id old new <$> l.
Proof.
  intros Hne HD Hn. apply list_filter_all. intros x [[-> _]|[Hx Hxo]]%elem_of_subst; [done|].
  intros HxD. by apply Hxo, HD.
Qed.

Lemma detached_not_below g old x :
  old ≠ x → parents g !! x = Some None → ¬ below g old x.
Proof. intros Hne Hx. destruct 1 as [|c p Hp _]; [done|]. unfold parent_of in Hp. by rewrite Hx in Hp. Qed.

Section replace_cases.
Context (g : IRGraph) (old new : NodeId).
Hypothesis Hf : forest g.
Hypothesis Hne : old ≠ new.
Hypothesis Hnew : parents g !! new = Some None.
Hypothesis Hform : new ∉ top_level_forms g.

Definition replace_ok (out : CaapResult (list NodeId) * IRGraph) : Prop :=
  ∃ dropped g', out = (Ok dropped, g') ∧ forest g' ∧ NoDup dropped ∧
    (∀ x, x ∈ dropped ↔ x ∈ dom (nodes g) ∧ below g old x) ∧ replaced g g' old new.

(** What a removal below [old] adds to the graph [g1] that already has [new] in
    place. *)
Lemma replaced_removed g1 g' (dropped : list NodeId) :
  removed (list_to_set dropped) g1 g' →
  (∀ x, x ∈ dropped ↔ x ∈ dom (nodes g) ∧ below g old x) → old ∈ dom (nodes g) →
  top_level_forms g1 = subst_id old new <$> top_level_forms g →
  (∀ k, ¬ below g old k → parent_of g old ≠ Some k → nodes g1 !! k = nodes g !! k) →
  (∀ p, parent_of g old = Some p → ¬ below g old p ∧
    ∃ nd nd', nodes g !! p = Some nd ∧ nodes g1 !! p = Some nd' ∧
      node_id nd' = node_id nd ∧ children nd' = subst_id old new <$> children nd) →
  (∀ k, parents g1 !! k = if decide (k = new) then Some (parent_of g old) else parents g !! k) →
  source_spans g1 = source_spans g → internal_nodes g1 = internal_nodes g →
  next_id g1 = next_id g →
  root_id g1 = (if decide (old ∈ top_level_forms g) then subst_id old new (root_id g)
                else root_id g) →
  replaced g g' old new.
Proof.
  intros Hrm HD Ho Hfs Hns Hpn Hps Hss Hi Hx Hr.
  assert (∀ k, below g old k → k ∈ dom (nodes g)) as Hin.
  { intros k Hk. destruct Hk as [|c p Hp _]; [done|]. rewrite <-(fo_dom _ Hf).
    apply elem_of_dom. unfold parent_of in Hp. destruct (parents g !! c); [eauto|done]. }
  assert (∀ k, k ∈ (list_to_set dropped : gset NodeId) ↔ below g old k) as HD'.
  { intros k. rewrite elem_of_list_to_set, HD. naive_solver. }
  assert (¬ below g old new) as Hnb by by apply detached_not_below.
  split.
  - rewrite (rm_forms _ _ _ Hrm), Hfs. apply filter_not_old; [done| |by rewrite HD'].
    intros x Hxf. rewrite HD'. intros Hb. destruct (decide (old = x)) as [|Hox]; [done|].
    by destruct (detached_not_below g old x Hox (fo_forms_root _ Hf x Hxf)).
  - intros p Hp. destruct (Hpn p Hp) as (Hpb & nd & nd' & ? & ? & ? & ?). exists nd, nd'.
    split_and!; try done. by rewrite (rm_nodes _ _ _ Hrm), decide_False by by rewrite HD'.
  - intros k Hk. rewrite (rm_nodes _ _ _ Hrm), (rm_parents _ _ _ Hrm), (rm_spans _ _ _ Hrm),
      (rm_internal _ _ _ Hrm), !decide_True by by rewrite HD'.
    split_and!; try done. apply HD' in Hk. set_solver.
  - intros k Hk Hkp. rewrite (rm_nodes _ _ _ Hrm), decide_False by by rewrite HD'. by apply Hns.
  - intros k Hk. by rewrite (rm_parents _ _ _ Hrm), decide_False by by rewrite HD'.
  - intros k Hk. rewrite (rm_spans _ _ _ Hrm), decide_False by by rewrite HD'.
    rewrite (rm_internal _ _ _ Hrm), Hss, Hi, elem_of_difference, HD'. tauto.
  - by rewrite (rm_next _ _ _ Hrm).
  - intros Hof Hro. rewrite decide_True in Hr by done. unfold subst_id in Hr.
    rewrite Hro, N.eqb_refl in Hr. rewrite (rm_root _ _ _ Hrm); [done|].
    by rewrite HD', Hr.
  - intros Hro. assert (root_id g1 = root_id g) as Hr1.
    { rewrite Hr. case_decide; [|done]. unfold subst_id.
      destruct (N.eqb_spec (root_id g) old) as [E|]; [|done]. destruct Hro. rewrite E. constructor. }
    rewrite (rm_root _ _ _ Hrm); [done|]. by rewrite HD', Hr1.
  - intros Hro Hne'. assert (root_id g1 = root_id g) as Hr1.
    { rewrite Hr. case_decide as Hof; [|done]. unfold subst_id.
      destruct (N.eqb_spec (root_id g) old) as [E|]; [|done]. by destruct (Hne' Hof). }
    apply (rm_root_gone _ _ _ Hrm). by rewrite HD', Hr1.
Qed.

Lemma replace_promoted_ok : old ∈ top_level_forms g → replace_ok (replace_subtree old new g).
Proof.
  intros Hold. rewrite replace_subtree_promoted by done.
  pose proof (promote_forest_but g old new Hf Hold Hnew Hform) as Hb.
  destruct (promote_fields g old new) as (Hn & Hp & Hs & Hi & Hx & Hfs & _ & Hr).
  set (g1 := if (root_id g =? old)%N then _ else _) in *.
  destruct (remove_subtree_m_spec g1 old Hb) as (dropped & g' & -> & Hf' & Hnd & Hrm & HD).
  pose proof (fo_forms_root _ Hf old Hold) as Hroot.
  assert (∀ k, parent_of g1 k = parent_of g k) as Hpo
    by (intros; unfold parent_of; by rewrite Hp).
  assert (∀ x, below g1 old x ↔ below g old x) as Hbe.
  { intros x. split; induction 1 as [|c p Hc _ IH]; try constructor;
      (eapply below_step; [|done]); [rewrite <-Hpo|rewrite Hpo]; done. }
  setoid_rewrite Hbe in HD. rewrite Hn in HD.
  assert (parent_of g old = None) as Hpr by (unfold parent_of; by rewrite Hroot).
  exists dropped, g'. split_and!; [done..|].
  apply (replaced_removed g1 g' dropped); try done.
  - rewrite <-(fo_dom _ Hf). apply elem_of_dom. eauto.
  - by rewrite Hn.
  - by rewrite Hpr.
  - intros k. rewrite Hp. case_decide; [|done]. by rewrite Hpr; subst.
  - by rewrite decide_True.
Qed.

Lemma replace_attached_ok p :
  old ∉ top_level_forms g → parents g !! old = Some (Some p) → ¬ below g new old →
  replace_ok (replace_subtree old new g).
Proof.
  intros Hof Hold Hacyc. destruct (fo_parent _ Hf old p Hold) as (nd & Hnd & Hin).
  destruct (rewrite_parent_child_spec nd old new Hin) as (nd' & Hrw & Hid & _).
  rewrite (replace_subtree_attached g old new p nd nd') by done.
  pose proof (attach_forest_but g old new p nd nd' Hf Hne Hold Hnew Hform Hnd Hrw Hacyc) as Hb.
  pose proof (attach_dom g new p nd nd' Hnd) as Hdom.
  pose proof (attach_nodes g new p nd') as Hns.
  pose proof (attach_parents g new p nd') as Hps.
  destruct (attach_node g old new p nd nd' Hf Hold Hnd Hrw) as (_ & Hch & _).
  set (g2 := set_nodes _ _) in *.
  assert (∀ x, below g2 old x ↔ below g old x) as Hbe by (intros x; by eapply attach_below).
  destruct (remove_subtree_m_spec g2 old Hb) as (dropped & g' & -> & Hf' & Hnd' & Hrm & HD).
  setoid_rewrite Hbe in HD. rewrite Hdom in HD.
  assert (¬ below g old p) as Hpb by by eapply old_not_above_p.
  assert (parent_of g old = Some p) as Hpo by (unfold parent_of; by rewrite Hold).
  exists dropped, g'. split_and!; [done..|].
  apply (replaced_removed g2 g' dropped); try done; rewrite ?Hpo; try done.
  - rewrite <-(fo_dom _ Hf). apply elem_of_dom. eauto.
  - unfold g2. cbn. symmetry. rewrite <-(list_fmap_id (top_level_forms g)) at 2.
    apply list_fmap_ext. intros i x Hx%list_elem_of_lookup_2. unfold subst_id.
    by destruct (N.eqb_spec x old) as [->|].
  - intros k _ Hk. rewrite Hns, decide_False; [done|congruence].
  - intros q [= <-]. split; [done|]. exists nd, nd'. split_and!; try done.
    by rewrite Hns, decide_True.
  - by rewrite decide_False.
Qed.
End replace_cases.

Lemma replace_subtree_refused g old new :
  old ≠ new → forest g → replace_refused g old new → ∃ e, replace_subtree old new g = (Err e, g).
Proof.
  intros Hne Hf Href. unfold replace_subtree, se_lift, mbind, se_bind, require_node.
  destruct (contains g old) eqn:Ho; [|eauto]. rewrite contains_dom in Ho.
  rewrite decide_False by done. unfold require_new_subtree_root, require_node.
  destruct (contains g new) eqn:Hn; [|cbn; eauto]. rewrite contains_dom in Hn.
  cbn [mbind result_bind]. destruct (parent_of g new) eqn:Hp; [eauto|].
  unfold has_top_level_form. rewrite (fo_forms_set _ Hf). case_bool_decide as Hb; [eauto|].
  cbn. rewrite (fo_forms_set _ Hf). rewrite elem_of_list_to_set in Hb.
  destruct Href as [?|[?|[?|[?|[Hof Hop]]]]]; try done.
  rewrite bool_decide_eq_false_2 by set_solver. rewrite Hop. cbn. eauto.
Qed.

Lemma replace_subtree_accepted g old new :
  old ≠ new → forest g → ¬ below g new old → ¬ replace_refused g old new →
  replace_ok g old new (replace_subtree old new g).
Proof.
  intros Hne Hf Hacyc Href. unfold replace_refused in Href.
  destruct (decide (old ∈ dom (nodes g))) as [Ho|]; [|tauto].
  destruct (decide (new ∈ dom (nodes g))) as [Hn|]; [|tauto].
  destruct (decide (parent_of g new = None)) as [Hnp|]; [|tauto].
  apply (forest_parent_entry _ _ Hf Hn) in Hnp.
  destruct (decide (new ∈ top_level_forms g)) as [|Hnf]; [tauto|].
  destruct (decide (old ∈ top_level_forms g)) as [Hof|Hof]; [by apply replace_promoted_ok|].
  destruct (parent_of g old) as [p|] eqn:Hp; [|tauto].
  apply (replace_attached_ok g old new Hf Hne Hnp Hnf p); [done| |done].
  unfold parent_of in Hp. destruct (parents g !! old); by subst.
Qed.

(** C8: [replace_subtree old new] on a forest where [old] does not lie inside
    the new subtree: it refuses, leaving the graph as it was, exactly in the cases
    its guards name; otherwise it succeeds, the graph stays a forest, [new] takes
    the position of [old] among the forms or its parent's children, the reported
    ids are exactly the old subtree, each reported once, and those ids are gone
    from every table. No other node, parent link, span or internal mark changes,
    nor does [next_id]; the root id changes only when it was removed: to [new] when
    it was the replaced form, else to the first form (the least id without forms). *)
Theorem replace_subtree_exact (g : IRGraph) (old new : NodeId) :
  forest g → ¬ below g new old → old ≠ new →
  (replace_refused g old new ∧ ∃ e, replace_subtree old new g = (Err e, g)) ∨
  (¬ replace_refused g old new ∧
   ∃ dropped g', replace_subtree old new g = (Ok dropped, g') ∧ forest g' ∧
     NoDup dropped ∧ (∀ x, x ∈ dropped ↔ x ∈ dom (nodes g) ∧ below g old x) ∧
     replaced g g' old new).
Proof.
  intros Hf Hacyc Hne.
  assert (Decision (replace_refused g old new)) as [Hr|Hr] by apply _.
  - left. split; [done|]. by apply replace_subtree_refused.
  - right. split; [done|]. by apply replace_subtree_accepted.
Qed.

(** The sample graph with a detached literal to put in place of an argument. *)
Definition sample_replace : IRGraph :=
  (insert_expr_spec (SpecLiteral {| ls_value := LitInt 7; ls_span := None |}) sample_graph).2.

Lemma sample_replace_forest : forest sample_replace.
Proof.
  apply insert_expr_spec_forest; [|done|by vm_compute].
  apply validate_integrity_forest. by vm_compute.
Qed.

Lemma replace_subtree_exact_witness :
  ∃ dropped g', replace_subtree 2%N 4%N sample_replace = (Ok dropped, g') ∧ forest g' ∧
    replaced sample_replace g' 2%N 4%N.
Proof.
  assert (¬ below sample_replace 4%N 2%N) as Hb.
  { apply (ancestors_not_below 3 _ _ _ [2%N; 0%N]); [vm_compute; reflexivity|set_solver]. }
  destruct (replace_subtree_exact sample_replace 2%N 4%N sample_replace_forest Hb)
    as [[_ [e He]]|[_ (dropped & g' & ? & ? & _ & _ & ?)]]; [discriminate| |].
  - exfalso. vm_compute in He. discriminate He.
  - exists dropped, g'. split; [done|]. split; done.
Defined.

(** ** A replacement that closes a cycle *)

Lemma remove_node_storage_parents id g :
  parents (remove_node_storage id g).2 = delete id (parents g).
Proof.
  unfold remove_node_storage, remove_top_level_form. cbn.
  destruct (position id (top_level_forms g)), (root_id g =? id)%N eqn:E; cbn; rewrite ?E; done.
Qed.

(** On any graph, the loop leaves alone what a set closed under children does not
    contain. *)
Lemma remove_subtree_loop_frame (P : NodeId → Prop) fuel stack dropped g :
  (∀ x, x ∈ stack → P x) →
  (∀ k nd c, P k → nodes g !! k = Some nd → c ∈ children nd → P c) →
  ∀ k, ¬ P k →
    nodes (remove_subtree_loop fuel stack dropped g).2 !! k = nodes g !! k ∧
    parents (remove_subtree_loop fuel stack dropped g).2 !! k = parents g !! k.
Proof.
  revert stack dropped g. induction fuel as [|fuel IH]; intros [|x stack] dropped g Hs Hc k Hk;
    [done..|].
  rewrite remove_subtree_loop_cons. assert (P x) as Hx by (apply Hs; by left).
  assert (x ≠ k) as Hxk by (intros ->; done).
  destruct (IH (match nodes g !! x with Some nd => reverse (children nd) | None => [] end ++ stack)
    (if contains g x then dropped ++ [x] else dropped) (remove_node_storage x g).2)
    with (k := k) as [-> ->]; [| |done|].
  - intros y [Hy|Hy]%elem_of_app; [|apply Hs; by right].
    destruct (nodes g !! x) as [nd|] eqn:E; [|set_solver]. rewrite elem_of_reverse in Hy.
    by apply (Hc x nd).
  - intros j nd c Hj. rewrite remove_node_storage_nodes. intros [_ ?]%lookup_delete_Some.
    by apply (Hc j nd).
  - by rewrite remove_node_storage_nodes, remove_node_storage_parents, !lookup_delete_ne.
Qed.

Section cycle.
Context (g : IRGraph) (old new p : NodeId) (nd nd' : Node).
Hypothesis Hf : forest g.
Hypothesis Hne : old ≠ new.
Hypothesis Hold : parents g !! old = Some (Some p).
Hypothesis Hnew : parents g !! new = Some None.
Hypothesis Hform : new ∉ top_level_forms g.
Hypothesis Hnd : nodes g !! p = Some nd.
Hypothesis Hrw : rewrite_parent_child nd old new = Ok nd'.
Hypothesis Hcyc : below g new old.

Let g2 := set_nodes (<[p := nd']> (nodes g))
            (set_parents (<[new := Some p]> (parents g)) g).
Let g' := (remove_subtree_storage old g2).2.

(** Outside the old subtree the removal changes nothing. *)
Lemma cycle_frame k : ¬ below g old k →
  nodes g' !! k = nodes g2 !! k ∧ parents g' !! k = parents g2 !! k.
Proof.
  intros Hk. unfold g', remove_subtree_storage.
  pose proof (remove_subtree_loop_frame (below g old) (subtree_fuel g2) [old] [] g2) as H.
  destruct (remove_subtree_loop _ _ _ _) as [[? ?] g3]. apply H; [| |done].
  - intros x ->%list_elem_of_singleton. constructor.
  - intros j n c Hj. unfold g2. rewrite (attach_nodes g new p nd').
    rewrite decide_False. 2:{ intros ->. by apply (old_not_above_p g old p) in Hj. }
    intros Hn Hc. eapply below_step; [|done]. unfold parent_of.
    by rewrite (fo_child _ Hf j n c Hn Hc).
Qed.

Lemma cycle_parent_of k : ¬ below g old k →
  parent_of g' k = if decide (k = new) then Some p else parent_of g k.
Proof.
  intros Hk. unfold parent_of. destruct (cycle_frame k Hk) as [_ ->]. unfold g2.
  rewrite (attach_parents g new p nd'). by case_decide.
Qed.

Lemma cycle_below c : below g new c → ¬ below g old c → below g' new c.
Proof.
  induction 1 as [|c q Hq _ IH]; intros Hc; [constructor|].
  apply (below_step _ _ _ q).
  - rewrite cycle_parent_of, decide_False; [done| |done]. intros ->.
    unfold parent_of in Hq. by rewrite Hnew in Hq.
  - apply IH. intros Hb. apply Hc. by eapply below_step.
Qed.

Lemma cycle_spec : ∃ dropped, replace_subtree old new g = (Ok dropped, g') ∧
  new ∈ dom (nodes g') ∧ parent_of g' new = Some p ∧ below g' new p.
Proof.
  assert (¬ below g old new) as Hnb by by apply detached_not_below.
  assert (parent_of g old = Some p) as Hpo by (unfold parent_of; by rewrite Hold).
  assert (¬ below g old p) as Hpb by by eapply old_not_above_p.
  exists (remove_subtree_storage old g2).1. split_and!.
  - rewrite (replace_subtree_attached g old new p nd nd'); try done.
    intros Hin. pose proof (fo_forms_root _ Hf old Hin). congruence.
  - destruct (cycle_frame new Hnb) as [Hn _]. rewrite elem_of_dom, Hn, <-elem_of_dom.
    unfold g2. rewrite (attach_dom g new p nd nd' Hnd), <-(fo_dom _ Hf). apply elem_of_dom. eauto.
  - by rewrite cycle_parent_of, decide_True.
  - apply cycle_below; [|done]. destruct Hcyc as [|c q Hq Hb]; [done|]. congruence.
Qed.
End cycle.

(** C29: the missing guard. On every forest, [replace_subtree] with [old] strictly
    inside the detached subtree of [new] passes all its guards unless one of the
    named ones refuses, returns [Ok], and links [new] below the parent of [old],
    which itself lies below [new]: in the resulting graph [new] is its own
    descendant, does not lead to a root, and the graph fails the integrity check. *)
Theorem replace_subtree_cycle (g : IRGraph) (old new : NodeId) :
  forest g → old ≠ new → below g new old → ¬ replace_refused g old new →
  ∃ dropped g' p, replace_subtree old new g = (Ok dropped, g') ∧
    new ∈ dom (nodes g') ∧ parent_of g' new = Some p ∧ below g' new p ∧
    ¬ rooted (parent_of g') new ∧ ∃ e, validate_integrity g' = Err e.
Proof.
  intros Hf Hne Hb Hr. unfold replace_refused in Hr.
  destruct (decide (new ∈ dom (nodes g))) as [Hn|]; [|tauto].
  destruct (decide (parent_of g new = None)) as [Hnp|]; [|tauto].
  apply (forest_parent_entry _ _ Hf Hn) in Hnp.
  destruct (decide (new ∈ top_level_forms g)) as [|Hnf]; [tauto|].
  destruct (parents g !! old) as [[p|]|] eqn:Hold.
  2,3: exfalso; destruct Hb as [|c q Hq _]; [done|]; unfold parent_of in Hq; by rewrite Hold in Hq.
  destruct (fo_parent _ Hf old p Hold) as (nd & Hnd & Hin).
  destruct (rewrite_parent_child_spec nd old new Hin) as (nd' & Hrw & _).
  destruct (cycle_spec g old new p nd nd') as (dropped & Hrun & Hdom & Hp & Hbp); try done.
  set (g' := (remove_subtree_storage _ _).2) in *. exists dropped, g', p.
  assert (¬ rooted (parent_of g') new) as Hnr by (intros Hro; by eapply rooted_no_loop).
  split_and!; try done. destruct (validate_integrity g') as [[]|e] eqn:E; [|by eauto].
  destruct Hnr. apply (fo_rooted g'); [|done]. by apply validate_integrity_forest.
Qed.

(** The sample expression as a detached tree, and its argument 2 as [old]. *)
Lemma replace_subtree_cycle_witness :
  let g := (insert_expr_spec sample_spec graph_new).2 in
  forest g ∧ below g 0%N 2%N ∧ ∃ dropped g' p, replace_subtree 2%N 0%N g = (Ok dropped, g') ∧
    parent_of g' 0%N = Some p ∧ below g' 0%N p ∧ ¬ rooted (parent_of g') 0%N.
Proof.
  intros g. assert (forest g) as Hf.
  { apply validate_integrity_forest. vm_compute. reflexivity. }
  assert (below g 0%N 2%N) as Hb.
  { eapply below_step; [vm_compute; reflexivity|constructor]. }
  split; [exact Hf|]. split; [exact Hb|].
  destruct (replace_subtree_cycle g 2%N 0%N Hf) as (dropped & g' & p & H1 & _ & H2 & H3 & H4 & _);
    [discriminate|exact Hb| |].
  - apply (bool_decide_eq_false (replace_refused g 2%N 0%N)). vm_compute. reflexivity.
  - exists dropped, g', p. split; [exact H1|]. split; [exact H2|]. split; [exact H3|exact H4].
Defined.
