(* ===== verification/GraphOps.v ===== *)
(** The public operations of [IRGraph] and [GraphBuilder] as steps of a state
    machine, and the forest invariant over every sequence of them whose calls meet
    the conditions [op_allowed] ([caap/src/graph.rs]). *)

From S2P Require Import Prelude Policy Source Ir Graph GraphIntegrity GraphTemplate GraphInsert GraphRemove.

Inductive GraphOp :=
  | OpAllocate
  | OpSetRoot (id : NodeId)
  | OpSetNode (nd : Node) (parent_id : option NodeId)
  | OpReplaceNode (id : NodeId) (nd : Node)
  | OpSetSpan (id : NodeId) (span : SourceSpan)
  | OpMarkInternal (id : NodeId)
  | OpAddForm (id : NodeId)
  | OpSetForms (ids : list NodeId)
  | OpInsertBefore (anchor new : NodeId)
  | OpInsertAfter (anchor new : NodeId)
  | OpReplaceForm (old new : NodeId)
  | OpRemoveForm (id : NodeId)
  | OpDelete (id : NodeId)
  | OpErase (root : NodeId)
  | OpInsertExpr (spec : ExprSpec)
  | OpReplaceSubtree (old new : NodeId)
  | OpName (identifier : string)
  | OpInternalName (identifier : string)
  | OpLiteral (value : IrLiteralData)
  | OpCall (callee : NodeId) (args : list NodeId)
  | OpCallWithId (id callee : NodeId) (args : list NodeId) (parent_id : option NodeId)
  | OpLowerSpec (spec : ExprSpec).

(** The graph an operation leaves behind, whether it succeeded or failed. *)
Definition run_op (op : GraphOp) (g : IRGraph) : IRGraph :=
  match op with
  | OpAllocate => (allocate_id g).2
  | OpSetRoot id => set_root_id id g
  | OpSetNode nd p => (set_node nd p g).2
  | OpReplaceNode id nd => (replace_node id nd g).2
  | OpSetSpan id span => (set_source_span id span g).2
  | OpMarkInternal id => (mark_internal_node id g).2
  | OpAddForm id => (add_top_level_form id g).2
  | OpSetForms ids => (set_top_level_form_ids ids g).2
  | OpInsertBefore a n => (insert_top_level_before a n g).2
  | OpInsertAfter a n => (insert_top_level_after a n g).2
  | OpReplaceForm o n => (replace_top_level_form o n g).2
  | OpRemoveForm id => (remove_top_level_form id g).2
  | OpDelete id => (delete_node id g).2
  | OpErase r => (erase_detached_subtree r g).2
  | OpInsertExpr spec => (insert_expr_spec spec g).2
  | OpReplaceSubtree o n => (replace_subtree o n g).2
  | OpName identifier => (try_name identifier g).2
  | OpInternalName identifier => (try_internal_name identifier g).2
  | OpLiteral value => (try_literal value g).2
  | OpCall callee args => (try_call callee args g).2
  | OpCallWithId id callee args p => (try_call_with_id id callee args p g).2
  | OpLowerSpec spec => (lower_spec spec g).2
  end.

(** The new children of a call are detached roots that are not forms. *)
Definition free_roots (g : IRGraph) (ids : list NodeId) : Prop :=
  ∀ c, c ∈ ids → parent_of g c = None ∧ c ∉ top_level_forms g.

(** What the caller has to ensure, because the code does not check it: an expression
    has no empty name and enough ids are left (a failing insertion leaves its
    children behind, [insert_expr_spec_not_atomic]); a subtree is not replaced by
    one that contains it ([replace_subtree_cycle]); [set_node] stores a new
    childless root; [replace_node] keeps the children and gives an internal name a
    name; the children of a new call are free roots, and an explicit id for it is
    not the last one. The other operations are unrestricted. *)
Definition op_allowed (g : IRGraph) (op : GraphOp) : Prop :=
  match op with
  | OpInsertExpr spec | OpLowerSpec spec =>
      spec_named spec = true ∧ (next_id g + N.of_nat (spec_size spec) ≤ u32_max)%N
  | OpReplaceSubtree o n => o = n ∨ ¬ below g n o
  | OpSetNode nd p => nodes g !! node_id nd = None ∧ children nd = [] ∧ p = None
  | OpReplaceNode id nd => ∀ old, nodes g !! id = Some old →
      (∀ c, c ∈ children old → c ∈ children nd) ∧
      (id ∈ internal_nodes g → is_name_node nd = true)
  | OpCall callee args => free_roots g (callee :: args)
  | OpCallWithId id callee args p =>
      free_roots g (callee :: args) ∧ p = None ∧ (id < u32_max)%N
  | _ => True
  end.

(** Graphs reachable from the empty graph or from an imported template. *)
Inductive graph_reachable : IRGraph → Prop :=
  | reach_new : graph_reachable graph_new
  | reach_template t g : from_template t = Ok g → graph_reachable g
  | reach_op g op : graph_reachable g → op_allowed g op → graph_reachable (run_op op g).

(** ** Changes of the form list only *)

Lemma forest_set_forms g forms set root :
  forest g → NoDup forms → set = list_to_set forms →
  (∀ c, c ∈ forms → parents g !! c = Some None) →
  forest (set_root_id root (set_top_level forms set g)).
Proof. intros [] ? ? ?. by split. Qed.

Lemma set_root_same g forms set :
  set_top_level forms set g = set_root_id (root_id g) (set_top_level forms set g).
Proof. done. Qed.

Lemma require_detached_ok g id :
  forest g → require_detached_top_level_form id g = Ok tt → parents g !! id = Some None.
Proof.
  intros Hf. unfold require_detached_top_level_form, require_node. rewrite seq_ok.
  destruct (contains g id) eqn:Hc; [|by intros [? _]]. rewrite contains_dom in Hc.
  destruct (parent_of g id) eqn:Hp; [by intros [_ ?]|]. intros _. by apply forest_parent_entry.
Qed.

Lemma require_new_form_ok g id :
  forest g → require_new_top_level_form id g = Ok tt →
  parents g !! id = Some None ∧ id ∉ top_level_forms g.
Proof.
  intros Hf. unfold require_new_top_level_form. rewrite seq_ok, if_err_ok.
  intros (Hd & Hn & _). split; [by apply require_detached_ok|].
  unfold has_top_level_form in Hn. apply bool_decide_eq_false in Hn.
  by rewrite (fo_forms_set _ Hf), elem_of_list_to_set in Hn.
Qed.

Section form_ops.
Context (g : IRGraph) (Hf : forest g).

Lemma add_top_level_form_forest id : forest (add_top_level_form id g).2.
Proof.
  unfold add_top_level_form, se_lift, mbind, se_bind.
  destruct (require_detached_top_level_form id g) as [[]|] eqn:E; [|done].
  apply require_detached_ok in E; [|done]. cbn. case_decide as Hin; [done|].
  rewrite (fo_forms_set _ Hf), elem_of_list_to_set in Hin.
  assert (∀ r, forest (set_root_id r
    (set_top_level (top_level_forms g ++ [id]) ({[id]} ∪ top_level_set g) g))) as H.
  { intros r. apply forest_set_forms; [done|..].
    - apply NoDup_app. split_and!; [apply (fo_forms_nodup _ Hf)|set_solver|apply NoDup_singleton].
    - rewrite (fo_forms_set _ Hf), list_to_set_app_L. set_solver.
    - intros c [Hc| ->%list_elem_of_singleton]%elem_of_app; [|done].
      by apply (fo_forms_root _ Hf). }
  destruct (top_level_forms g) eqn:Ef; [apply (H id)|apply (H (root_id g))].
Qed.

Lemma set_top_level_form_ids_forest ids : forest (set_top_level_form_ids ids g).2.
Proof.
  unfold set_top_level_form_ids, se_lift, mbind, se_bind.
  destruct (discard _) as [[]|] eqn:E; [|done]. apply discard_ok in E as [s Hs].
  rewrite (unique_fold_ok _ id (λ x, require_detached_top_level_form x g = Ok tt)) in Hs.
  2:{ intros seen x s'. destruct (require_detached_top_level_form x g) as [[]|]; cbn.
      - rewrite if_decide_err_ok, ok_inj. naive_solver.
      - split; [done|]. by intros [? _]. }
  rewrite list_fmap_id, Forall_forall in Hs. destruct Hs as (Hd & Hnd & _).
  cbn. rewrite set_root_same. apply forest_set_forms; [done..|].
  intros c Hc. apply require_detached_ok; [done|]. by apply Hd.
Qed.

Lemma insert_at_forest i new :
  parents g !! new = Some None → new ∉ top_level_forms g →
  forest (set_top_level (insert_at i new (top_level_forms g)) ({[new]} ∪ top_level_set g) g).
Proof.
  intros Hp Hn. rewrite set_root_same. apply forest_set_forms; [done|..].
  - apply NoDup_insert_at; [done|apply (fo_forms_nodup _ Hf)].
  - rewrite (fo_forms_set _ Hf). apply set_eq. intros k.
    rewrite elem_of_union, elem_of_singleton, !elem_of_list_to_set, elem_of_insert_at. done.
  - intros c [->|Hc]%elem_of_insert_at; [done|]. by apply (fo_forms_root _ Hf).
Qed.

Lemma insert_top_level_forest anchor new :
  forest (insert_top_level_before anchor new g).2 ∧ forest (insert_top_level_after anchor new g).2.
Proof.
  unfold insert_top_level_before, insert_top_level_after, se_lift, mbind, se_bind.
  destruct (require_new_top_level_form new g) as [[]|] eqn:E; [|done].
  apply require_new_form_ok in E as [Hp Hn]; [|done].
  destruct (top_level_index anchor g); [|done]. split; by apply insert_at_forest.
Qed.

Lemma replace_top_level_form_forest old new : forest (replace_top_level_form old new g).2.
Proof.
  unfold replace_top_level_form, se_lift, mbind, se_bind, top_level_index.
  destruct (position old (top_level_forms g)) as [i|] eqn:Hi; cbn [ok_or]; [|done].
  case_decide; [done|]. destruct (require_new_top_level_form new g) as [[]|] eqn:E; [|done].
  apply require_new_form_ok in E as [Hp Hn]; [|done]. cbn.
  rewrite (subst_insert _ old new i (fo_forms_nodup _ Hf) Hi), set_root_same.
  assert (old ∈ top_level_forms g) as Hold.
  { apply position_Some in Hi as [Hi _]. by eapply list_elem_of_lookup_2. }
  apply forest_set_forms; [done|..].
  - apply NoDup_subst; [apply (fo_forms_nodup _ Hf)|done].
  - apply subst_set; [done|]. apply (fo_forms_set _ Hf).
  - intros c [[-> _]|[Hc _]]%elem_of_subst; [done|]. by apply (fo_forms_root _ Hf).
Qed.

Lemma remove_top_level_form_forest id : forest (remove_top_level_form id g).2.
Proof.
  rewrite remove_top_level_form_removed, set_root_same
    by (apply (fo_forms_nodup _ Hf) || apply (fo_forms_set _ Hf)).
  apply forest_set_forms; [done|..].
  - apply NoDup_filter, (fo_forms_nodup _ Hf).
  - rewrite (fo_forms_set _ Hf). apply set_eq. intros k. rewrite elem_of_difference,
      elem_of_singleton, !elem_of_list_to_set, list_elem_of_filter. tauto.
  - intros c [_ Hc]%list_elem_of_filter. by apply (fo_forms_root _ Hf).
Qed.
End form_ops.

(** ** Annotations and removals *)

Section other_ops.
Context (g : IRGraph) (Hf : forest g).

Lemma allocate_id_forest : forest (allocate_id g).2.
Proof.
  unfold allocate_id. destruct (u32_checked_add _ _) as [n|] eqn:E; [|done].
  apply u32_checked_add_Some in E as [-> _]. destruct Hf. split; try done.
  intros k Hk. cbn. specialize (fo_next k Hk). lia.
Qed.

Lemma set_source_span_forest id span : forest (set_source_span id span g).2.
Proof.
  unfold set_source_span. destruct (contains g id) eqn:Hc; [|done]. rewrite contains_dom in Hc.
  destruct Hf. split; try done. cbn. rewrite dom_insert_L. set_solver.
Qed.

Lemma mark_internal_forest id : forest (mark_internal_node id g).2.
Proof.
  unfold mark_internal_node. destruct (nodes g !! id) as [nd|] eqn:Hn; [|done].
  destruct nd; cbn; [|done..]. destruct Hf. split; try done. cbn.
  intros k [->%elem_of_singleton|Hk]%elem_of_union; [eauto|by apply fo_internal].
Qed.

Lemma delete_node_forest id : forest (delete_node id g).2.
Proof.
  unfold delete_node. destruct (nodes g !! id) as [nd|] eqn:Hn; [|done].
  destruct (parent_of g id) eqn:Hp; [done|]. destruct (has_children nd) eqn:Hch; [done|].
  assert (id ∈ dom (nodes g)) as Hin by (apply elem_of_dom; eauto).
  apply (removed_forest g _ id {[id]}).
  - apply forest_detached; [done|]. by apply forest_parent_entry.
  - apply remove_node_storage_removed; [apply (fo_forms_nodup _ Hf)|apply (fo_forms_set _ Hf)].
  - intros x. rewrite elem_of_singleton. split; [intros ->; split; [done|constructor]|].
    intros [_ Hb]. induction Hb as [|c p Hc _ IH]; [done|]. subst p. exfalso.
    unfold parent_of in Hc. destruct (parents g !! c) as [q|] eqn:E; [|done]. subst q.
    destruct (fo_parent _ Hf c id E) as (nd' & Hnd' & Hcc). simplify_eq.
    destruct nd; cbn in *; [set_solver..|done].
Qed.

Lemma erase_detached_forest root : forest (erase_detached_subtree root g).2.
Proof.
  unfold erase_detached_subtree, require_node. destruct (contains g root) eqn:Hc; [|done].
  rewrite contains_dom in Hc. destruct (parent_of g root) eqn:Hp; [done|].
  destruct (remove_subtree_m_spec g root) as (? & g' & -> & ? & _); [|done].
  apply forest_detached; [done|]. by apply forest_parent_entry.
Qed.

Lemma replace_subtree_forest old new :
  old = new ∨ ¬ below g new old → forest (replace_subtree old new g).2.
Proof.
  intros Hor. destruct (decide (old = new)) as [->|Hne].
  { unfold replace_subtree, se_lift, mbind, se_bind.
    destruct (require_node _ _ _); [by rewrite decide_True|done]. }
  destruct Hor as [?|Hb]; [done|].
  assert (Decision (replace_refused g old new)) as [Hr|Hr] by apply _.
  - destruct (replace_subtree_refused g old new Hne Hf Hr) as [e ->]. done.
  - destruct (replace_subtree_accepted g old new Hne Hf Hb Hr) as (? & ? & -> & ? & _). done.
Qed.
End other_ops.

(** ** New nodes *)

Lemma graph_new_forest : forest graph_new.
Proof. apply forest_empty; done. Qed.

Lemma from_template_forest t g : from_template t = Ok g → forest g.
Proof.
  unfold from_template. rewrite seq_ok, template_validate_iff. intros [[_ Hv] [= <-]].
  by apply validate_integrity_forest.
Qed.

(** Only the counter moved. *)
Lemma forest_next g n : forest g → (next_id g ≤ n)%N → forest (set_next_id n g).
Proof.
  intros [] Hn. split; try done. intros k Hk. cbn. specialize (fo_next k Hk). lia.
Qed.

(** A root [nd] stored under a fresh id, with the free roots [children nd] as its
    children. *)
Section new_root.
Context (g : IRGraph) (nd : Node) (n : NodeId).
Hypothesis Hf : forest g.
Hypothesis Hfresh : nodes g !! node_id nd = None.
Hypothesis Hnodup : NoDup (children nd).
Hypothesis Hin : ∀ c, c ∈ children nd → c ∈ dom (nodes g).
Hypothesis Hfree : free_roots g (children nd).
Hypothesis Hn : (next_id g ≤ n ∧ node_id nd < n)%N.

Let id := node_id nd.
Let linked := foldl (λ m c, <[c := Some id]> m) (parents g) (children nd).

Lemma linked_lookup k :
  linked !! k = if decide (k ∈ children nd) then Some (Some id) else parents g !! k.
Proof.
  unfold linked. generalize (parents g). clear -k. induction (children nd) as [|c l IH]; intros m; [done|].
  cbn [foldl]. rewrite IH. destruct (decide (k ∈ l)) as [Hl|Hl].
  - by rewrite decide_True by by right.
  - destruct (decide (k = c)) as [->|Hc].
    + rewrite decide_True by by left. by rewrite lookup_insert_eq.
    + rewrite decide_False; [by rewrite lookup_insert_ne|]. by intros [?|?]%elem_of_cons.
Qed.

Let g' := set_next_id n (set_parents (<[id := None]> linked)
            (set_nodes (<[id := nd]> (nodes g)) g)).

Lemma new_root_not_child : id ∉ children nd.
Proof. intros H%Hin. by apply elem_of_dom in H as [? H']; unfold id in H'; rewrite Hfresh in H'. Qed.

Lemma new_root_old k : k ∈ dom (nodes g) → k ≠ id.
Proof. intros [? H]%elem_of_dom ->. unfold id in H. by rewrite Hfresh in H. Qed.

Lemma new_root_parents k : parents g' !! k =
  if decide (k = id) then Some None
  else if decide (k ∈ children nd) then Some (Some id) else parents g !! k.
Proof.
  cbn. rewrite <-linked_lookup. destruct (decide (k = id)) as [->|Hk].
  - apply lookup_insert_eq.
  - by apply lookup_insert_ne.
Qed.

Lemma new_root_parent_of k : parent_of g' k =
  if decide (k = id) then None
  else if decide (k ∈ children nd) then Some id else parent_of g k.
Proof. unfold parent_of. rewrite new_root_parents. by repeat case_decide. Qed.

Lemma new_root_rooted k : rooted (parent_of g) k → k ∈ dom (nodes g) → rooted (parent_of g') k.
Proof.
  assert (rooted (parent_of g') id) as Hid.
  { apply rooted_root. by rewrite new_root_parent_of, decide_True. }
  induction 1 as [k Hk|k p Hp _ IH]; intros Hd; pose proof (new_root_old k Hd) as Hne;
    (destruct (decide (k ∈ children nd)) as [Hc|Hc];
      [apply (rooted_step _ _ id); [by rewrite new_root_parent_of, decide_False, decide_True|done]|]).
  - apply rooted_root. by rewrite new_root_parent_of, !decide_False.
  - apply (rooted_step _ _ p); [by rewrite new_root_parent_of, !decide_False|]. apply IH.
    unfold parent_of in Hp. destruct (parents g !! k) as [q|] eqn:E; [|done]. subst q.
    destruct (fo_parent _ Hf k p E) as (? & ? & _). apply elem_of_dom. eauto.
Qed.

Lemma new_root_forest : forest g'.
Proof.
  assert (dom (nodes g') = {[id]} ∪ dom (nodes g)) as Hd by by cbn; rewrite dom_insert_L.
  assert (∀ k p, parents g !! k = Some p → k ∈ dom (nodes g)) as Hpd.
  { intros k p Hk. rewrite <-(fo_dom _ Hf). apply elem_of_dom. eauto. }
  assert (∀ c, c ∈ children nd → parents g !! c = Some None) as Hroot.
  { intros c Hc. apply forest_parent_entry; [done|by apply Hin|]. by apply Hfree. }
  split.
  - intros k m. cbn. intros [[<- <-]|[_ Hk]]%lookup_insert_Some; [done|by apply (fo_key _ Hf)].
  - rewrite Hd. apply set_eq. intros k.
    rewrite elem_of_dom, new_root_parents, elem_of_union, elem_of_singleton.
    repeat case_decide; [naive_solver| |].
    + split; [|by intros; eexists]. intros _. right. by apply Hin.
    + rewrite <-(fo_dom _ Hf), elem_of_dom. naive_solver.
  - intros k m c. cbn [g' nodes set_next_id set_parents set_nodes]. rewrite new_root_parents.
    intros [[<- <-]|[Hne Hk]]%lookup_insert_Some Hc.
    + rewrite decide_False by (intros ->; by apply new_root_not_child). by rewrite decide_True.
    + pose proof (fo_child _ Hf k m c Hk Hc) as Hp.
      rewrite decide_False by by eapply new_root_old, Hpd. rewrite decide_False; [done|].
      intros Hcc. rewrite (Hroot c Hcc) in Hp. done.
  - intros k m. cbn. intros [[<- <-]|[_ Hk]]%lookup_insert_Some; [done|by apply (fo_nodup _ Hf k)].
  - intros c p. rewrite new_root_parents.
    change (nodes g') with (<[id := nd]> (nodes g)). setoid_rewrite lookup_insert_Some.
    repeat case_decide; [done|intros [= <-]; by eauto|]. intros Hp.
    destruct (fo_parent _ Hf c p Hp) as (m & Hm & ?). exists m. split; [right|done].
    split; [|done]. intros Hid. symmetry in Hid. revert Hid. apply new_root_old. apply elem_of_dom. eauto.
  - intros c. rewrite Hd, elem_of_union, elem_of_singleton. intros [->|Hc].
    + apply rooted_root. by rewrite new_root_parent_of, decide_True.
    + apply new_root_rooted; [by apply (fo_rooted _ Hf)|done].
  - apply (fo_forms_nodup _ Hf).
  - apply (fo_forms_set _ Hf).
  - intros c Hc. rewrite new_root_parents. pose proof (fo_forms_root _ Hf c Hc).
    case_decide; [done|]. rewrite decide_False; [done|]. intros Hcc. by apply (Hfree c Hcc).
  - rewrite Hd. pose proof (fo_spans _ Hf). cbn. set_solver.
  - intros k Hk. destruct (fo_internal _ Hf k Hk) as [m Hm]. exists m. cbn.
    rewrite lookup_insert_ne; [done|]. intros Hid. symmetry in Hid. revert Hid.
    apply new_root_old. apply elem_of_dom. eauto.
  - intros k. rewrite Hd, elem_of_union, elem_of_singleton. cbn. intros [->|Hk]; [unfold id; lia|].
    pose proof (fo_next _ Hf k Hk). lia.
Qed.
End new_root.

Section node_ops.
Context (g : IRGraph) (Hf : forest g).

Lemma set_node_run nd p :
  set_node nd p g = (Err (Graph "IRGraph node id overflow"), g) ∨
  ∃ n, (next_id g ≤ n ∧ node_id nd < n)%N ∧
    set_node nd p g = (Ok tt, set_next_id n (set_parents (<[node_id nd := p]> (parents g))
                                (set_nodes (<[node_id nd := nd]> (nodes g)) g))).
Proof.
  unfold set_node. destruct (N.leb_spec (next_id g) (node_id nd)) as [Hle|Hlt].
  - destruct (u32_checked_add (node_id nd) 1) as [n|] eqn:E; [|by left]. right.
    apply u32_checked_add_Some in E as [-> _]. eexists. split; [|done]. lia.
  - right. eexists. split; [|done]. lia.
Qed.

Lemma set_leaf_forest nd :
  nodes g !! node_id nd = None → children nd = [] → forest (set_node nd None g).2.
Proof.
  intros Hn Hc. destruct (set_node_run nd None) as [->|(n & Hr & ->)]; [done|]. cbn [snd].
  pose proof (new_root_forest g nd n Hf Hn) as H. unfold free_roots in H. rewrite Hc in H. cbn in H.
  apply H; [constructor|set_solver..|done].
Qed.

Lemma replace_node_forest id nd :
  op_allowed g (OpReplaceNode id nd) → forest (replace_node id nd g).2.
Proof.
  intros Hop. unfold replace_node, se_lift, mbind, se_bind, require_node.
  destruct (contains g id) eqn:Hc; [|done]. rewrite contains_dom in Hc.
  apply elem_of_dom in Hc as [old Hold]. destruct (Hop old Hold) as [Hch Hint].
  destruct (N.eqb_spec (node_id nd) id) as [Hid|]; [|done]. cbn [negb].
  destruct (validate_node_children nd g) as [[]|] eqn:Hv; [|done]. cbn.
  unfold validate_node_children in Hv. apply seq_ok in Hv as [Hu Hall].
  rewrite for_each_ok, Forall_forall in Hall.
  assert (NoDup (children nd)) as Hnd.
  { destruct nd; [constructor..|by apply validate_unique_ok in Hu]. }
  assert (∀ c, c ∈ children nd → parents g !! c = Some (Some id)) as Hpar.
  { intros c Hcc. specialize (Hall c Hcc). apply seq_ok in Hall as [_ Hp].
    apply if_decide_ok in Hp as [Hp _]. rewrite Hid in Hp. unfold parent_of in Hp.
    destruct (parents g !! c); by subst. }
  assert (dom (<[id := nd]> (nodes g)) = dom (nodes g)) as Hd by (apply dom_insert_lookup_L; eauto).
  destruct Hf. split; cbn; rewrite ?Hd; try done.
  - intros k m [[<- <-]|[_ Hk]]%lookup_insert_Some; [done|by apply fo_key].
  - intros k m c [[<- <-]|[_ Hk]]%lookup_insert_Some Hcc; [by apply Hpar|by eapply fo_child].
  - intros k m [[<- <-]|[_ Hk]]%lookup_insert_Some; [done|by eapply fo_nodup].
  - intros c p Hp. destruct (fo_parent c p Hp) as (m & Hm & Hcm).
    destruct (decide (p = id)) as [->|Hne].
    + simplify_eq. exists nd. rewrite lookup_insert_eq. split; [done|by apply Hch].
    + exists m. by rewrite lookup_insert_ne.
  - intros k Hk. destruct (fo_internal k Hk) as [m Hm]. destruct (decide (k = id)) as [->|Hne].
    + specialize (Hint Hk). rewrite lookup_insert_eq. destruct nd; [eauto|done..].
    + exists m. by rewrite lookup_insert_ne.
Qed.

Lemma allocate_fresh :
  allocate_id g = (Err (Graph "IRGraph node id overflow"), g) ∨
  allocate_id g = (Ok (next_id g), set_next_id (next_id g + 1) g) ∧ (next_id g < u32_max)%N ∧
    nodes g !! next_id g = None.
Proof.
  unfold allocate_id. destruct (u32_checked_add _ _) as [n|] eqn:E; [|by left]. right.
  apply u32_checked_add_Some in E as [-> Hle]. split; [done|]. split; [lia|].
  apply not_elem_of_dom. intros Hin%(fo_next _ Hf). lia.
Qed.
End node_ops.

Section builder.
Context (g : IRGraph) (Hf : forest g).

Lemma leaf_forest nd :
  node_id nd = next_id g → children nd = [] →
  nodes g !! next_id g = None → forest (set_node nd None (set_next_id (next_id g + 1) g)).2.
Proof.
  intros Hid Hc Hn. apply set_leaf_forest; [apply forest_next; [done|lia]| |done].
  by rewrite Hid.
Qed.

Lemma try_name_forest identifier : forest (try_name identifier g).2.
Proof.
  unfold try_name. case_decide as Hi; [done|]. unfold mbind, se_bind, se_lift.
  destruct (allocate_fresh g Hf) as [->|(-> & _ & Hn)]; [done|].
  unfold name_node_new. rewrite decide_False by done.
  pose proof (leaf_forest (NodeName {| nn_id := next_id g; nn_identifier := identifier |})
    eq_refl eq_refl Hn) as H.
  by destruct (set_node _ _ _) as [[[]|] g'].
Qed.

Lemma try_literal_forest value : forest (try_literal value g).2.
Proof.
  unfold try_literal, mbind, se_bind.
  destruct (allocate_fresh g Hf) as [->|(-> & _ & Hn)]; [done|].
  pose proof (leaf_forest (NodeLiteral {| ln_id := next_id g; ln_value := value |})
    eq_refl eq_refl Hn) as H.
  by destruct (set_node _ _ _) as [[[]|] g'].
Qed.

Lemma try_call_with_id_forest id callee args :
  free_roots g (callee :: args) → (id < u32_max)%N →
  forest (try_call_with_id id callee args None g).2.
Proof.
  intros Hfree Hid. unfold try_call_with_id, mbind, se_bind, se_get.
  destruct (contains g id) eqn:Hc; [done|]. unfold se_lift.
  destruct (validate_call_children callee args g) as [[]|] eqn:Hv; [|done].
  apply validate_call_children_ok in Hv as [Hnd Hin]. cbn [se_modify].
  set (nd := NodeCall {| cn_id := id; cn_callee := callee; cn_args := args |}).
  assert (nodes g !! node_id nd = None) as Hn.
  { apply not_elem_of_dom. cbn. by rewrite <-contains_dom, Hc. }
  unfold set_node. cbn [node_id next_id set_parents nd cn_id].
  destruct (if (next_id g <=? id)%N then u32_checked_add id 1 else Some (next_id g)) as [n|] eqn:E.
  - apply (new_root_forest g nd n Hf Hn Hnd Hin Hfree). cbn.
    destruct (N.leb_spec (next_id g) id); [|simplify_eq; lia].
    apply u32_checked_add_Some in E as [-> _]. lia.
  - destruct (N.leb_spec (next_id g) id); [|done].
    unfold u32_checked_add in E. destruct (N.leb_spec (id + 1) u32_max); [done|lia].
Qed.
End builder.

Lemma try_internal_name_forest g identifier : forest g → forest (try_internal_name identifier g).2.
Proof.
  intros Hf. unfold try_internal_name. pose proof (try_name_forest g Hf identifier) as H.
  unfold mbind, se_bind. destruct (try_name identifier g) as [[id|] g1]; [|done]. cbn in H.
  pose proof (mark_internal_forest g1 H id) as H2.
  by destruct (mark_internal_node id g1) as [[]].
Qed.

Lemma try_call_forest g callee args :
  forest g → free_roots g (callee :: args) → forest (try_call callee args g).2.
Proof.
  intros Hf Hfree. unfold try_call, mbind, se_bind.
  destruct (allocate_fresh g Hf) as [->|(-> & Hlt & _)]; [done|].
  pose proof (try_call_with_id_forest (set_next_id (next_id g + 1) g)
    (forest_next g (next_id g + 1)%N Hf ltac:(lia)) (next_id g) callee args Hfree Hlt) as H.
  by destruct (try_call_with_id _ _ _ _ _) as [[]].
Qed.

Lemma run_op_forest g op : forest g → op_allowed g op → forest (run_op op g).
Proof.
  intros Hf Hop. destruct op; cbn in *.
  - by apply allocate_id_forest.
  - by destruct Hf; split.
  - destruct Hop as (? & ? & ->). by apply set_leaf_forest.
  - by apply replace_node_forest.
  - by apply set_source_span_forest.
  - by apply mark_internal_forest.
  - by apply add_top_level_form_forest.
  - by apply set_top_level_form_ids_forest.
  - by apply insert_top_level_forest.
  - by apply insert_top_level_forest.
  - by apply replace_top_level_form_forest.
  - by apply remove_top_level_form_forest.
  - by apply delete_node_forest.
  - by apply erase_detached_forest.
  - destruct Hop. by apply insert_expr_spec_forest.
  - by apply replace_subtree_forest.
  - by apply try_name_forest.
  - by apply try_internal_name_forest.
  - by apply try_literal_forest.
  - by apply try_call_forest.
  - destruct Hop as (? & -> & ?). by apply try_call_with_id_forest.
  - destruct Hop. by apply insert_expr_spec_forest.
Qed.

(** ** Why the conditions are needed *)

(** A child that already has a parent is taken over without a check, and the first
    call keeps listing it. *)
Example try_call_takes_over :
  let g := run_op (OpCall 0%N []) (run_op (OpCall 0%N []) (run_op (OpName "f") graph_new)) in
  (children <$> nodes g !! 1%N) = Some [0%N] ∧ (children <$> nodes g !! 2%N) = Some [0%N] ∧
  parents g !! 0%N = Some (Some 2%N).
Proof. by vm_compute. Qed.

(** The internal mark stays on a name replaced by a literal. *)
Example replace_node_keeps_mark :
  let g := run_op (OpReplaceNode 0%N (NodeLiteral {| ln_id := 0; ln_value := LitInt 1 |}))
             (run_op (OpInternalName "x") graph_new) in
  is_internal_node g 0%N = true ∧ (is_name_node <$> nodes g !! 0%N) = Some false.
Proof. by vm_compute. Qed.


