(* ===== verification/ArtifactDefs.v ===== *)
(** Artifact keys, fingerprints and source artifacts:
    [caap/src/artifacts/defs.rs].

    SHA-256 comes from a third-party crate and is a parameter ([sha256], from
    the bytes of a text to its hexadecimal digest). *)

From S2P Require Import Prelude Order Policy Source.

(** A key is its vector of parts; [kind] indexes the first. *)
Abbreviation ArtifactKey := (list string) (only parsing).

Definition key_cmp : list string → list string → comparison := list_cmp str_cmp.

Definition key_new (parts : list string) : CaapResult ArtifactKey :=
  if decide (parts = []) then Err (Artifacts "artifact key must contain at least one part")
  else if existsb (λ p, bool_decide (p = "")) parts then
    Err (Artifacts "artifact key parts must be non-empty")
  else Ok parts.

Definition key_single (part : string) : CaapResult ArtifactKey := key_new [part].
Definition key_pair (left right : string) : CaapResult ArtifactKey := key_new [left; right].

Definition key_part (self : ArtifactKey) (index : nat) : option string := self !! index.

(** [&self.0[0]]; a key is never empty. *)
Definition key_kind (self : ArtifactKey) : string := default "" (self !! 0).

Definition key_display (self : ArtifactKey) : string := join_strings ":" self.

Abbreviation ArtifactFingerprint := string (only parsing).

Definition fingerprint_new (value : string) : CaapResult ArtifactFingerprint :=
  if decide (value = "") then Err (Artifacts "artifact fingerprint must be non-empty") else Ok value.

Inductive SourceOrigin :=
  | OriginInline (label : string)
  | OriginPath (path source_token : string).

Definition origin_inline (label : string) : CaapResult SourceOrigin :=
  if decide (label = "") then Err (Artifacts "inline source label must be non-empty")
  else Ok (OriginInline label).

Definition origin_path (path source_token : string) : CaapResult SourceOrigin :=
  if decide (path = "") then Err (Artifacts "source artifact path must be non-empty")
  else if decide (source_token = "") then
    Err (Artifacts "source artifact path token must be non-empty")
  else Ok (OriginPath path source_token).

Record SourceArtifact := {
  sa_origin : SourceOrigin;
  sa_text : string;
  sa_fingerprint : ArtifactFingerprint;
}.

Definition parse_surface_inline_key (stage : string) (phase : PhasePolicy)
    (fingerprint : ArtifactFingerprint) : CaapResult ArtifactKey :=
  key_new ["parse_surface_inline"; stage; phase_as_str phase; fingerprint].

Definition parse_surface_path_key (stage : string) (phase : PhasePolicy)
    (path source_token : string) : CaapResult ArtifactKey :=
  key_new ["parse_surface"; stage; phase_as_str phase; path; source_token].

Section source_artifacts.
Context (sha256 : string → ArtifactFingerprint).

Definition source_inline_with_label (text label : string) : CaapResult SourceArtifact :=
  origin ← origin_inline label;
  Ok {| sa_origin := origin; sa_text := text; sa_fingerprint := sha256 text |}.

Definition source_inline (text : string) : CaapResult SourceArtifact :=
  source_inline_with_label text "<inline.caap>".

Definition source_path (path source_token text : string) : CaapResult SourceArtifact :=
  origin ← origin_path path source_token;
  Ok {| sa_origin := origin; sa_text := text; sa_fingerprint := sha256 text |}.

(** The checked part of [Deserialize]. *)
Definition source_artifact_check (data : SourceArtifact) : CaapResult SourceArtifact :=
  if decide (sa_fingerprint data = sha256 (sa_text data)) then Ok data
  else Err (Artifacts "source artifact fingerprint must match text").
End source_artifacts.

Definition parse_surface_key (self : SourceArtifact) (stage : string) (phase : PhasePolicy) :
    CaapResult ArtifactKey :=
  match sa_origin self with
  | OriginInline _ => parse_surface_inline_key stage phase (sa_fingerprint self)
  | OriginPath path source_token => parse_surface_path_key stage phase path source_token
  end.

Definition parse_surface_lineage_id (self : SourceArtifact) (phase : PhasePolicy) :
    CaapResult ArtifactKey :=
  match sa_origin self with
  | OriginInline _ => key_new ["parse_surface_inline"; phase_as_str phase; sa_fingerprint self]
  | OriginPath path _ => key_new ["parse_surface_source"; phase_as_str phase; path]
  end.

Record ArtifactCacheStats := { hits : N; misses : N; generation : N }.

Definition record_hit (self : ArtifactCacheStats) : ArtifactCacheStats :=
  {| hits := u64_saturating_add (hits self) 1; misses := misses self;
     generation := generation self |}.

Definition record_miss (self : ArtifactCacheStats) : ArtifactCacheStats :=
  {| hits := hits self; misses := u64_saturating_add (misses self) 1;
     generation := generation self |}.

(** The label table; every label covers one position. *)
Definition lineage_labels (lineage_id previous_key replacement_key : ArtifactKey) :
    list (string * nat) :=
  if decide (key_kind lineage_id = "parse_surface_source") then
    [("stage", 1); ("phase", 2); ("source_path", 3); ("source_token", 4)]
  else if decide (key_kind lineage_id = "parse_surface_inline") then
    [("stage", 1); ("phase", 2); ("source_digest", 3)]
  else if decide (key_kind lineage_id = "unit_input") then
    [("stage", 1); ("unit_fingerprint", 2); ("phase", 3); ("names_version", 4)]
  else if decide (key_kind lineage_id = "stage_unit") then
    [("stage", 1); ("phase", 2); ("dependency_key", 3); ("builtin_version", 4);
     ("names_version", 5); ("session_version", 6); ("initial_bindings", 7)]
  else if (length previous_key =? 7)%nat && (length replacement_key =? 7)%nat then
    [("stage", 0); ("phase", 1); ("dependency_key", 2); ("builtin_version", 3);
     ("names_version", 4); ("session_version", 5); ("initial_bindings", 6)]
  else [].

Definition changed_inputs_for_lineage (lineage_id previous_key replacement_key : ArtifactKey) :
    list string :=
  (filter (λ e, key_part previous_key e.2 ≠ key_part replacement_key e.2)
     (lineage_labels lineage_id previous_key replacement_key)).*1.

(** ** Properties *)

Global Instance key_total : TotalCmp key_cmp.
Proof. apply _. Qed.

Lemma lineage_labels_named l p r : Forall (λ e, e.1 ≠ "") (lineage_labels l p r).
Proof. unfold lineage_labels. repeat case_decide; [..|destruct (_ && _)]; repeat constructor; done. Qed.

Lemma changed_inputs_named l p r : Forall (λ s, s ≠ "") (changed_inputs_for_lineage l p r).
Proof.
  unfold changed_inputs_for_lineage. apply Forall_fmap.
  apply Forall_forall. intros e [_ He]%list_elem_of_filter.
  pose proof (lineage_labels_named l p r) as H. rewrite Forall_forall in H. by apply H.
Qed.
