(* ===== verification/Artifacts.v ===== *)
(** The artifact cache: [caap/src/artifacts/cache.rs].

    Artifacts are stored under keys with the keys they depend on; a lineage
    names the successive keys of one artifact. Marking a key dirty spreads to
    every artifact that depends on it. The cache never looks into a value, so
    values are a parameter [V]. [BTreeMap] is [gmap] iterated in key order
    ([map_in_order]). A [&mut self] method is a computation of [CM]. *)

From S2P Require Import Prelude Order Policy Source ArtifactDefs.

Record ArtifactInvalidationRecord := {
  reason_kind : string;
  lineage_id : option ArtifactKey;
  lineage_kind : option string;
  invalidated_key : ArtifactKey;
  replacement_key : option ArtifactKey;
  upstream_key : option ArtifactKey;
  changed_inputs : list string;
}.

Definition invalidation_new (reason : string) (key : ArtifactKey) :
    CaapResult ArtifactInvalidationRecord :=
  if decide (reason = "") then
    Err (Artifacts "artifact invalidation reason kind must be non-empty")
  else Ok {| reason_kind := reason; lineage_id := None; lineage_kind := None;
             invalidated_key := key; replacement_key := None; upstream_key := None;
             changed_inputs := [] |}.

Definition with_replacement_key (self : ArtifactInvalidationRecord) (key : ArtifactKey) :
    ArtifactInvalidationRecord :=
  {| reason_kind := reason_kind self; lineage_id := lineage_id self;
     lineage_kind := lineage_kind self; invalidated_key := invalidated_key self;
     replacement_key := Some key; upstream_key := upstream_key self;
     changed_inputs := changed_inputs self |}.

Definition with_lineage (self : ArtifactInvalidationRecord) (id : ArtifactKey) (kind : string) :
    CaapResult ArtifactInvalidationRecord :=
  if decide (kind = "") then
    Err (Artifacts "artifact invalidation lineage kind must be non-empty")
  else Ok {| reason_kind := reason_kind self; lineage_id := Some id; lineage_kind := Some kind;
             invalidated_key := invalidated_key self; replacement_key := replacement_key self;
             upstream_key := upstream_key self; changed_inputs := changed_inputs self |}.

Definition with_upstream_key (self : ArtifactInvalidationRecord) (key : ArtifactKey) :
    ArtifactInvalidationRecord :=
  {| reason_kind := reason_kind self; lineage_id := lineage_id self;
     lineage_kind := lineage_kind self; invalidated_key := invalidated_key self;
     replacement_key := replacement_key self; upstream_key := Some key;
     changed_inputs := changed_inputs self |}.

Definition with_changed_inputs (self : ArtifactInvalidationRecord) (inputs : list string) :
    CaapResult ArtifactInvalidationRecord :=
  if existsb (λ s, bool_decide (s = "")) inputs then
    Err (Artifacts "artifact invalidation changed inputs must be non-empty")
  else Ok {| reason_kind := reason_kind self; lineage_id := lineage_id self;
             lineage_kind := lineage_kind self; invalidated_key := invalidated_key self;
             replacement_key := replacement_key self; upstream_key := upstream_key self;
             changed_inputs := dedup str_cmp (isort str_cmp inputs) |}.

(** [ArtifactInvalidationRecord::dependency]. *)
Definition dependency_record (key upstream : ArtifactKey) (lineage : option ArtifactKey)
    (inputs : list string) : ArtifactInvalidationRecord :=
  {| reason_kind := "dependency_invalidated"; lineage_id := lineage;
     lineage_kind := key_kind <$> lineage; invalidated_key := key; replacement_key := None;
     upstream_key := Some upstream; changed_inputs := inputs |}.

Definition validate_invalidation_record (record : ArtifactInvalidationRecord) : CaapResult unit :=
  if decide (reason_kind record = "") then
    Err (Artifacts "artifact invalidation reason kind must be non-empty")
  else if existsb (λ s, bool_decide (s = "")) (changed_inputs record) then
    Err (Artifacts "artifact invalidation changed inputs must be non-empty")
  else if windows_any (λ x y, match str_cmp x y with Lt => false | _ => true end)
            (changed_inputs record) then
    Err (Artifacts "artifact invalidation changed inputs must be sorted and unique")
  else match lineage_id record, lineage_kind record with
       | Some id, Some kind =>
           if decide (kind = "") then
             Err (Artifacts "artifact invalidation lineage kind must be non-empty")
           else if decide (kind ≠ key_kind id) then
             Err (Artifacts "artifact invalidation lineage kind must match lineage id kind")
           else Ok tt
       | None, None => Ok tt
       | _, _ =>
           Err (Artifacts "artifact invalidation lineage id and kind must be present together")
       end.

Record ArtifactCache (V : Type) := {
  entries : gmap ArtifactKey V;
  dependencies : gmap ArtifactKey (list ArtifactKey);
  dependents : gmap ArtifactKey (gset ArtifactKey);
  lineage_heads : gmap ArtifactKey ArtifactKey;
  lineages : gmap ArtifactKey ArtifactKey;
  invalidation_by_key : gmap ArtifactKey ArtifactInvalidationRecord;
  invalidation_by_lineage : gmap ArtifactKey ArtifactInvalidationRecord;
  dirty : gmap ArtifactKey ArtifactInvalidationRecord;
  dirty_lineages : gmap ArtifactKey ArtifactInvalidationRecord;
  stats : ArtifactCacheStats;
}.
Arguments entries {V}. Arguments dependencies {V}. Arguments dependents {V}.
Arguments lineage_heads {V}. Arguments lineages {V}. Arguments invalidation_by_key {V}.
Arguments invalidation_by_lineage {V}. Arguments dirty {V}. Arguments dirty_lineages {V}.
Arguments stats {V}.

(** The serialised form. *)
Record ArtifactCacheSnapshot (V : Type) := {
  s_entries : list (ArtifactKey * V);
  s_dependencies : list (ArtifactKey * list ArtifactKey);
  s_lineage_heads : list (ArtifactKey * ArtifactKey);
  s_lineages : list (ArtifactKey * ArtifactKey);
  s_invalidation_by_key : list (ArtifactKey * ArtifactInvalidationRecord);
  s_invalidation_by_lineage : list (ArtifactKey * ArtifactInvalidationRecord);
  s_dirty : list (ArtifactKey * ArtifactInvalidationRecord);
  s_dirty_lineages : list (ArtifactKey * ArtifactInvalidationRecord);
  s_stats : ArtifactCacheStats;
}.
Arguments s_entries {V}. Arguments s_dependencies {V}. Arguments s_lineage_heads {V}.
Arguments s_lineages {V}. Arguments s_invalidation_by_key {V}.
Arguments s_invalidation_by_lineage {V}. Arguments s_dirty {V}. Arguments s_dirty_lineages {V}.
Arguments s_stats {V}.

Section cache.
Context {V : Type}.
Implicit Types self : ArtifactCache V.

Abbreviation CM := (SE (ArtifactCache V) CaapError).

Definition cache_new : ArtifactCache V :=
  {| entries := ∅; dependencies := ∅; dependents := ∅; lineage_heads := ∅; lineages := ∅;
     invalidation_by_key := ∅; invalidation_by_lineage := ∅; dirty := ∅; dirty_lineages := ∅;
     stats := {| hits := 0; misses := 0; generation := 0 |} |}.

(** Field updates. *)
Definition set_stats (v : ArtifactCacheStats) self : ArtifactCache V :=
  {| entries := entries self; dependencies := dependencies self; dependents := dependents self;
     lineage_heads := lineage_heads self; lineages := lineages self;
     invalidation_by_key := invalidation_by_key self;
     invalidation_by_lineage := invalidation_by_lineage self; dirty := dirty self;
     dirty_lineages := dirty_lineages self; stats := v |}.

Definition set_generation (v : N) self : ArtifactCache V :=
  set_stats {| hits := hits (stats self); misses := misses (stats self); generation := v |} self.

Definition set_dirty (v : gmap ArtifactKey ArtifactInvalidationRecord) self : ArtifactCache V :=
  {| entries := entries self; dependencies := dependencies self; dependents := dependents self;
     lineage_heads := lineage_heads self; lineages := lineages self;
     invalidation_by_key := invalidation_by_key self;
     invalidation_by_lineage := invalidation_by_lineage self; dirty := v;
     dirty_lineages := dirty_lineages self; stats := stats self |}.

(** ** Reads *)

Definition is_dirty self (key : ArtifactKey) : bool :=
  bool_decide (is_Some (dirty self !! key))
  || match lineages self !! key with
     | Some lineage => bool_decide (is_Some (dirty_lineages self !! lineage))
     | None => false
     end.

Definition peek self (key : ArtifactKey) : option V :=
  if is_dirty self key then None else entries self !! key.

(** [get] also counts the hit or the miss. *)
Definition get (key : ArtifactKey) self : option V * ArtifactCache V :=
  if is_dirty self key then (None, set_stats (record_miss (stats self)) self)
  else match entries self !! key with
       | Some v => (Some v, set_stats (record_hit (stats self)) self)
       | None => (None, set_stats (record_miss (stats self)) self)
       end.

Definition dirty_record self (key : ArtifactKey) : option ArtifactInvalidationRecord :=
  match dirty self !! key with
  | Some r => Some r
  | None => lineages self !! key ≫= λ lineage, dirty_lineages self !! lineage
  end.

Definition is_lineage_dirty self (lineage : ArtifactKey) : bool :=
  bool_decide (is_Some (dirty_lineages self !! lineage)).

Definition dependencies_for self (key : ArtifactKey) : option (list ArtifactKey) :=
  dependencies self !! key.

Definition dependents_for self (key : ArtifactKey) : list ArtifactKey :=
  match dependents self !! key with Some s => set_in_order key_cmp s | None => [] end.

(** ** Generations *)

Definition generation_after self (increments : N) : CaapResult N :=
  ok_or (u64_checked_add (generation (stats self)) increments)
    (Artifacts "artifact cache generation overflow").

Definition next_generation self : CaapResult N := generation_after self 1.

(** ** Invalidation *)

Definition record_invalidation (record : ArtifactInvalidationRecord) self : ArtifactCache V :=
  {| entries := entries self; dependencies := dependencies self; dependents := dependents self;
     lineage_heads := lineage_heads self; lineages := lineages self;
     invalidation_by_key := <[invalidated_key record := record]> (invalidation_by_key self);
     invalidation_by_lineage :=
       match lineage_id record with
       | Some l => <[l := record]> (invalidation_by_lineage self)
       | None => invalidation_by_lineage self
       end;
     dirty := dirty self;
     dirty_lineages :=
       match lineage_id record with
       | Some l => <[l := record]> (dirty_lineages self)
       | None => dirty_lineages self
       end;
     stats := stats self |}.

(** One iteration of the loop body for a key seen for the first time. *)
Definition mark_dependent (key upstream : ArtifactKey) self : ArtifactCache V :=
  let record := dependency_record key upstream (lineages self !! key)
                  (match dirty self !! upstream with
                   | Some r => changed_inputs r
                   | None => []
                   end) in
  record_invalidation record (set_dirty (<[key := record]> (dirty self)) self).

(** The worklist; its top is the head of the list. [None]: out of fuel. *)
Fixpoint mark_loop (fuel : nat) (stack : list (ArtifactKey * ArtifactKey))
    (seen : gset ArtifactKey) self : option (ArtifactCache V) :=
  match stack with
  | [] => Some self
  | (key, upstream) :: stack =>
      match fuel with
      | 0 => None
      | S fuel =>
          if decide (key ∈ seen) then mark_loop fuel stack seen self
          else
            let self := mark_dependent key upstream self in
            mark_loop fuel
              (reverse ((λ d, (d, key)) <$> dependents_for self key) ++ stack)
              ({[key]} ∪ seen) self
      end
  end.

(** Every edge of the dependents map is pushed at most once per end, and the
    edges of the root once more. *)
Definition mark_fuel self : nat :=
  2 * sum_list_with (λ p, size p.2) (map_to_list (dependents self)).

Definition mark_dependents_dirty (root : ArtifactKey) self : option (ArtifactCache V) :=
  mark_loop (mark_fuel self) (reverse ((λ d, (d, root)) <$> dependents_for self root)) ∅ self.

(** [mark_dirty_validated]; also the middle of [mark_dirty]. *)
Definition mark_dirty_validated (record : ArtifactInvalidationRecord) self : ArtifactCache V :=
  let root := invalidated_key record in
  let self := record_invalidation record self in
  let self := set_dirty (<[root := record]> (dirty self)) self in
  default self (mark_dependents_dirty root self).

Definition mark_dirty (record : ArtifactInvalidationRecord) : CM unit :=
  _ ← se_lift (λ _, validate_invalidation_record record);
  gen ← se_lift next_generation;
  _ ← se_modify (mark_dirty_validated record);
  se_modify (set_generation gen).

Definition mark_dirty_batch (records : list ArtifactInvalidationRecord) : CM unit :=
  _ ← se_lift (λ _, for_each validate_invalidation_record records);
  gen ← se_lift (λ self, generation_after self (N.of_nat (length records)));
  _ ← se_modify (λ self, foldl (λ c r, mark_dirty_validated r c) self records);
  se_modify (set_generation gen).

Definition invalidate_all (reason : string) : CM unit := λ self,
  if decide (reason = "") then
    (Err (Artifacts "artifact invalidation reason kind must be non-empty"), self)
  else match mapM (λ e, invalidation_new reason e.1) (map_in_order key_cmp (entries self)) with
       | Err e => (Err e, self)
       | Ok records => mark_dirty_batch records self
       end.

(** ** Stores *)

(** [dependents.get_mut(d)]: drop [key], and the set when it became empty. *)
Definition drop_dependent (key : ArtifactKey) (m : gmap ArtifactKey (gset ArtifactKey))
    (d : ArtifactKey) : gmap ArtifactKey (gset ArtifactKey) :=
  match m !! d with
  | Some s => if decide (s ∖ {[key]} = ∅) then delete d m else <[d := s ∖ {[key]}]> m
  | None => m
  end.

(** [dependents.entry(d).or_default().insert(key)]. *)
Definition add_dependent (key : ArtifactKey) (m : gmap ArtifactKey (gset ArtifactKey))
    (d : ArtifactKey) : gmap ArtifactKey (gset ArtifactKey) :=
  <[d := {[key]} ∪ default ∅ (m !! d)]> m.

Definition store_entry (key : ArtifactKey) (value : V) (deps : list ArtifactKey) (gen : N) self :
    ArtifactCache V :=
  let unlinked := match dependencies self !! key with
                  | Some old => foldl (drop_dependent key) (dependents self) old
                  | None => dependents self
                  end in
  {| entries := <[key := value]> (entries self);
     dependencies := <[key := deps]> (delete key (dependencies self));
     dependents := foldl (add_dependent key) unlinked deps;
     lineage_heads := lineage_heads self; lineages := lineages self;
     invalidation_by_key := invalidation_by_key self;
     invalidation_by_lineage := invalidation_by_lineage self;
     dirty := delete key (dirty self); dirty_lineages := dirty_lineages self;
     stats := {| hits := hits (stats self); misses := misses (stats self); generation := gen |} |}.

Definition store_internal (key : ArtifactKey) (value : V) (deps : list ArtifactKey) : CM unit :=
  let deps := dedup key_cmp (isort key_cmp deps) in
  if existsb (λ d, bool_decide (d = key)) deps then
    se_throw (Artifacts "artifact cannot depend on itself")
  else
    gen ← se_lift next_generation;
    se_modify (store_entry key value deps gen).

Definition store (key : ArtifactKey) (value : V) (deps : list ArtifactKey) : CM unit :=
  store_internal key value deps.

(** The record of a replaced lineage head. *)
Definition lineage_replaced_record (lineage previous key : ArtifactKey) :
    CaapResult ArtifactInvalidationRecord :=
  record ← invalidation_new "lineage_replaced" previous;
  record ← with_lineage (with_replacement_key record key) lineage (key_kind lineage);
  with_changed_inputs record (changed_inputs_for_lineage lineage previous key).

Definition set_lineage_head (lineage key : ArtifactKey) self : ArtifactCache V :=
  {| entries := entries self; dependencies := dependencies self; dependents := dependents self;
     lineage_heads := <[lineage := key]> (lineage_heads self);
     lineages := <[key := lineage]> (lineages self);
     invalidation_by_key := invalidation_by_key self;
     invalidation_by_lineage := invalidation_by_lineage self; dirty := dirty self;
     dirty_lineages := delete lineage (dirty_lineages self); stats := stats self |}.

Definition store_with_lineage (key : ArtifactKey) (value : V) (deps : list ArtifactKey)
    (lineage : ArtifactKey) : CM unit :=
  self ← se_get;
  _ ← match lineage_heads self !! lineage with
      | Some previous =>
          if decide (previous ≠ key) then
            record ← se_lift (λ _, lineage_replaced_record lineage previous key);
            _ ← se_lift (λ self, generation_after self 2);
            mark_dirty record
          else mret tt
      | None => mret tt
      end;
  _ ← se_lift next_generation;
  _ ← se_modify (set_lineage_head lineage key);
  store_internal key value deps.

Definition record_cache_hit self : ArtifactCache V := set_stats (record_hit (stats self)) self.
Definition record_cache_miss self : ArtifactCache V := set_stats (record_miss (stats self)) self.

(** ** Snapshots *)

Definition snapshot self : ArtifactCacheSnapshot V :=
  {| s_entries := map_in_order key_cmp (entries self);
     s_dependencies := map_in_order key_cmp (dependencies self);
     s_lineage_heads := map_in_order key_cmp (lineage_heads self);
     s_lineages := map_in_order key_cmp (lineages self);
     s_invalidation_by_key := map_in_order key_cmp (invalidation_by_key self);
     s_invalidation_by_lineage := map_in_order key_cmp (invalidation_by_lineage self);
     s_dirty := map_in_order key_cmp (dirty self);
     s_dirty_lineages := map_in_order key_cmp (dirty_lineages self);
     s_stats := stats self |}.

(** The part of the cache whose keys have the given kind. *)
Definition project_snapshot_by_kind self (kind : string) : CaapResult (ArtifactCacheSnapshot V) :=
  if decide (kind = "") then Err (Artifacts "artifact projection kind must be non-empty")
  else
    let projected_keys : gset ArtifactKey :=
      filter (λ key, key_kind key = kind) (dom (entries self)) in
    let projected_lineages : gset ArtifactKey :=
      list_to_set (filter (λ e, e.1 ∈ projected_keys) (map_to_list (lineages self))).*2 in
    Ok {| s_entries := filter (λ e, e.1 ∈ projected_keys) (map_in_order key_cmp (entries self));
          s_dependencies :=
            (λ e, (e.1, filter (λ d, d ∈ projected_keys) e.2)) <$>
              filter (λ e, e.1 ∈ projected_keys) (map_in_order key_cmp (dependencies self));
          s_lineage_heads :=
            filter (λ e, e.1 ∈ projected_lineages ∧ e.2 ∈ projected_keys)
              (map_in_order key_cmp (lineage_heads self));
          s_lineages :=
            filter (λ e, e.1 ∈ projected_keys ∧ e.2 ∈ projected_lineages)
              (map_in_order key_cmp (lineages self));
          s_invalidation_by_key :=
            filter (λ e, e.1 ∈ projected_keys) (map_in_order key_cmp (invalidation_by_key self));
          s_invalidation_by_lineage :=
            filter (λ e, e.1 ∈ projected_lineages)
              (map_in_order key_cmp (invalidation_by_lineage self));
          s_dirty := filter (λ e, e.1 ∈ projected_keys) (map_in_order key_cmp (dirty self));
          s_dirty_lineages :=
            filter (λ e, e.1 ∈ projected_lineages) (map_in_order key_cmp (dirty_lineages self));
          s_stats := stats self |}.

(** [restore_unique_artifact_map]. *)
Definition restore_unique_artifact_map {A} (l : list (ArtifactKey * A)) (label : string) :
    CaapResult (gmap ArtifactKey A) :=
  try_fold (λ (m : gmap ArtifactKey A) e,
    if decide (is_Some (m !! e.1)) then
      Err (Artifacts ("artifact snapshot " +:+ label +:+ " key is duplicated: "
                        +:+ key_display e.1))
    else Ok (<[e.1 := e.2]> m)) ∅ l.

Definition restore_invalidation_map (l : list (ArtifactKey * ArtifactInvalidationRecord))
    (label : string) (require_lineage : bool) :
    CaapResult (gmap ArtifactKey ArtifactInvalidationRecord) :=
  try_fold (λ (m : gmap ArtifactKey ArtifactInvalidationRecord) e,
    _ ← validate_invalidation_record e.2;
    if require_lineage && bool_decide (lineage_id e.2 = None) then
      Err (Artifacts ("artifact snapshot " +:+ label +:+ " records must include lineage id"))
    else if decide (is_Some (m !! e.1)) then
      Err (Artifacts ("artifact snapshot " +:+ label +:+ " key is duplicated: "
                        +:+ key_display e.1))
    else Ok (<[e.1 := e.2]> m)) ∅ l.

(** One dependency list of a snapshot. *)
Definition restore_dependency (entries : gmap ArtifactKey V)
    (acc : gmap ArtifactKey (list ArtifactKey) * gmap ArtifactKey (gset ArtifactKey))
    (e : ArtifactKey * list ArtifactKey) :
    CaapResult (gmap ArtifactKey (list ArtifactKey) * gmap ArtifactKey (gset ArtifactKey)) :=
  let '(deps, dependents) := acc in
  let '(key, key_deps) := e in
  if decide (entries !! key = None) then
    Err (Artifacts "artifact snapshot dependency owner is missing from entries")
  else if decide (is_Some (deps !! key)) then
    Err (Artifacts ("artifact snapshot dependencies key is duplicated: " +:+ key_display key))
  else if existsb (λ d, bool_decide (d = key)) key_deps then
    Err (Artifacts "artifact snapshot cannot contain self dependency")
  else
    let key_deps := isort key_cmp key_deps in
    if windows_any (λ x y, bool_decide (x = y)) key_deps then
      Err (Artifacts ("artifact snapshot dependencies for " +:+ key_display key
                        +:+ " contain duplicate dependency"))
    else
      dependents ← try_fold (λ m d,
                     if decide (entries !! d = None) then
                       Err (Artifacts "artifact snapshot dependency is missing from entries")
                     else Ok (add_dependent key m d)) dependents key_deps;
      Ok (<[key := key_deps]> deps, dependents).

Definition restore_dirty (l : list (ArtifactKey * ArtifactInvalidationRecord)) :
    CaapResult (gmap ArtifactKey ArtifactInvalidationRecord) :=
  try_fold (λ (m : gmap ArtifactKey ArtifactInvalidationRecord) e,
    if decide (invalidated_key e.2 ≠ e.1) then
      Err (Artifacts "artifact dirty snapshot key must match record key")
    else
      _ ← validate_invalidation_record e.2;
      if decide (is_Some (m !! e.1)) then
        Err (Artifacts ("artifact dirty snapshot key is duplicated: " +:+ key_display e.1))
      else Ok (<[e.1 := e.2]> m)) ∅ l.

(** The walk along lineages from one key. [None]: out of fuel. *)
Fixpoint lineage_walk (fuel : nat) (m : gmap ArtifactKey ArtifactKey) (seen : gset ArtifactKey)
    (current : ArtifactKey) : option (CaapResult unit) :=
  match m !! current with
  | None => Some (Ok tt)
  | Some next =>
      if decide (current ∈ seen) then
        Some (Err (Artifacts "artifact snapshot lineage graph contains a cycle"))
      else match fuel with
           | 0 => None
           | S fuel => lineage_walk fuel m ({[current]} ∪ seen) next
           end
  end.

Definition check_lineage_head (entries : gmap ArtifactKey V) (lineages : gmap ArtifactKey ArtifactKey)
    (e : ArtifactKey * ArtifactKey) : CaapResult unit :=
  let '(lineage, head) := e in
  if decide (entries !! head = None) then
    Err (Artifacts "artifact snapshot lineage head is missing from entries")
  else match lineages !! head with
       | Some recorded =>
           if decide (recorded = lineage) then Ok tt
           else Err (Artifacts "artifact snapshot lineage head does not match lineages back-reference")
       | None => Err (Artifacts "artifact snapshot lineage head is missing lineages back-reference")
       end.

Definition check_lineage_entry (entries : gmap ArtifactKey V)
    (lineage_heads : gmap ArtifactKey ArtifactKey) (e : ArtifactKey * ArtifactKey) :
    CaapResult unit :=
  let '(key, lineage) := e in
  if decide (entries !! key = None) then
    Err (Artifacts "artifact snapshot lineage entry is missing from entries")
  else if decide (lineage_heads !! lineage = None) then
    Err (Artifacts "artifact snapshot lineage entry references missing lineage head")
  else Ok tt.

Definition validate_snapshot_lineage_graph (entries : gmap ArtifactKey V)
    (lineage_heads lineages : gmap ArtifactKey ArtifactKey) : CaapResult unit :=
  _ ← for_each (check_lineage_head entries lineages) (map_in_order key_cmp lineage_heads);
  _ ← for_each (check_lineage_entry entries lineage_heads) (map_in_order key_cmp lineages);
  for_each (λ e, default (Err (Artifacts "lineage walk did not terminate"))
                   (lineage_walk (size lineages) lineages ∅ e.1)) (map_in_order key_cmp lineages).

Definition check_record_keys (message : string)
    (test : ArtifactKey → ArtifactInvalidationRecord → bool)
    (m : gmap ArtifactKey ArtifactInvalidationRecord) : CaapResult unit :=
  for_each (λ e, if negb (test e.1 e.2) then Err (Artifacts message) else Ok tt)
    (map_in_order key_cmp m).

(** Everything is checked before a field is assigned. *)
Definition restored (s : ArtifactCacheSnapshot V) : CaapResult (ArtifactCache V) :=
  entries ← restore_unique_artifact_map (s_entries s) "entries";
  deps ← try_fold (restore_dependency entries) (∅, ∅) (s_dependencies s);
  dirty ← restore_dirty (s_dirty s);
  heads ← restore_unique_artifact_map (s_lineage_heads s) "lineage heads";
  lins ← restore_unique_artifact_map (s_lineages s) "lineages";
  _ ← validate_snapshot_lineage_graph entries heads lins;
  by_key ← restore_invalidation_map (s_invalidation_by_key s) "invalidation by key" false;
  by_lineage ← restore_invalidation_map (s_invalidation_by_lineage s) "invalidation by lineage" true;
  dirty_lins ← restore_invalidation_map (s_dirty_lineages s) "dirty lineages" true;
  _ ← check_record_keys "artifact invalidation snapshot key must match record key"
        (λ k r, bool_decide (invalidated_key r = k)) by_key;
  _ ← check_record_keys
        "artifact lineage invalidation snapshot key must match record lineage id"
        (λ k r, bool_decide (lineage_id r = Some k)) by_lineage;
  _ ← check_record_keys "artifact dirty lineage snapshot key must match record lineage id"
        (λ k r, bool_decide (lineage_id r = Some k)) dirty_lins;
  Ok {| entries := entries; dependencies := deps.1; dependents := deps.2; lineage_heads := heads;
        lineages := lins; invalidation_by_key := by_key; invalidation_by_lineage := by_lineage;
        dirty := dirty; dirty_lineages := dirty_lins; stats := s_stats s |}.

Definition restore_snapshot (s : ArtifactCacheSnapshot V) : CM unit := λ self,
  match restored s with
  | Ok c => (Ok tt, c)
  | Err e => (Err e, self)
  end.

(** [ReusableArtifactCacheSnapshot] has the fields of the cache itself; restoring
    one goes through the ordered lists and recomputes the dependents. *)
Definition reusable_snapshot self : ArtifactCache V := self.

Definition restore_reusable_snapshot (s : ArtifactCache V) : CM unit :=
  restore_snapshot (snapshot s).

(** ** Cache files (the JSON encoding itself is third-party code) *)

Record ArtifactCacheFile := {
  format_name : string;
  format_version : N;
  file_snapshot : ArtifactCacheSnapshot V;
}.

Definition cache_file_new (s : ArtifactCacheSnapshot V) : ArtifactCacheFile :=
  {| format_name := "caap_artifact_cache"; format_version := 1; file_snapshot := s |}.

Definition cache_file_validate (self : ArtifactCacheFile) : CaapResult unit :=
  if decide (format_name self ≠ "caap_artifact_cache") then
    Err (Artifacts "artifact cache file format name is unsupported")
  else if decide (format_version self ≠ 1%N) then
    Err (Artifacts "artifact cache file format version is unsupported")
  else (restore_snapshot (file_snapshot self) cache_new).1.

Definition cache_file self : ArtifactCacheFile := cache_file_new (snapshot self).

Definition restore_cache_file (file : ArtifactCacheFile) : CM unit :=
  _ ← se_lift (λ _, cache_file_validate file);
  restore_snapshot (file_snapshot file).
End cache.
