(* ===== verification/ArtifactInvalidation.v ===== *)
(** Invalidation spreads to exactly the transitive dependents
    ([mark_dirty], [mark_dirty_batch], [invalidate_all] of
    [caap/src/artifacts/cache.rs]). *)

From S2P Require Import Prelude Order Policy Source ArtifactDefs Artifacts.

Section invalidation.
Context {V : Type}.
Implicit Types c : ArtifactCache V.

(** [b] depends directly on [a], as the [dependents] index says. *)
Definition dep_edge c (a b : ArtifactKey) : Prop := b ∈ default ∅ (dependents c !! a).

Lemma elem_of_dependents_for c a b : b ∈ dependents_for c a ↔ dep_edge c a b.
Proof.
  unfold dependents_for, dep_edge. destruct (dependents c !! a); cbn.
  - by apply elem_of_set_in_order.
  - set_solver.
Qed.

Lemma dependents_for_length c a :
  length (dependents_for c a) = size (default ∅ (dependents c !! a)).
Proof.
  unfold dependents_for. destruct (dependents c !! a); cbn; [|by rewrite size_empty].
  by rewrite set_in_order_length.
Qed.

(** Everything but the invalidation state is the same. *)
Record same_store c c' : Prop := {
  ss_entries : entries c' = entries c;
  ss_dependencies : dependencies c' = dependencies c;
  ss_dependents : dependents c' = dependents c;
  ss_heads : lineage_heads c' = lineage_heads c;
  ss_lineages : lineages c' = lineages c;
}.

Global Instance same_store_equiv : PreOrder same_store.
Proof.
  split; [by intros c|]. intros c1 c2 c3 [] []. split; congruence.
Qed.

Lemma mark_dependent_same key up c : same_store c (mark_dependent key up c).
Proof. by split. Qed.

Lemma dep_edge_same c c' : same_store c c' → dep_edge c' = dep_edge c.
Proof. intros [_ _ H _ _]. unfold dep_edge. by rewrite H. Qed.

Lemma dependents_for_same c c' k : same_store c c' → dependents_for c' k = dependents_for c k.
Proof. intros [_ _ H _ _]. unfold dependents_for. by rewrite H. Qed.

(** ** Fuel *)

(** Edges whose source was not processed yet. *)
Definition pending c (seen : gset ArtifactKey) : nat :=
  sum_list_with (λ p, if decide (p.1 ∈ seen) then 0 else size p.2) (map_to_list (dependents c)).

Lemma sum_list_with_ext {A} (f g : A → nat) (l : list A) :
  (∀ x, x ∈ l → f x = g x) → sum_list_with f l = sum_list_with g l.
Proof.
  induction l as [|x l IH]; intros H; [done|]. cbn. rewrite (H x), IH; [done| |set_solver].
  intros y Hy. apply H. set_solver.
Qed.

Lemma pending_add c seen k :
  k ∉ seen →
  pending c seen = size (default ∅ (dependents c !! k)) + pending c ({[k]} ∪ seen).
Proof.
  intros Hk. unfold pending. destruct (dependents c !! k) as [s|] eqn:E; cbn.
  - rewrite <-(map_to_list_delete _ _ _ E). cbn.
    rewrite (decide_False (P := k ∈ seen)), (decide_True (P := k ∈ _)) by set_solver. cbn.
    f_equal. apply sum_list_with_ext. intros [k' s'] Hk'%elem_of_map_to_list. cbn.
    apply lookup_delete_Some in Hk' as [Hne _]. repeat case_decide; set_solver.
  - rewrite size_empty. cbn. apply sum_list_with_ext. intros [k' s'] Hk'%elem_of_map_to_list.
    cbn. assert (k ≠ k') by congruence. repeat case_decide; set_solver.
Qed.

Lemma pending_empty c :
  pending c ∅ = sum_list_with (λ p, size p.2) (map_to_list (dependents c)).
Proof. apply sum_list_with_ext. intros p _. by rewrite decide_False by set_solver. Qed.

Lemma pending_same c c' seen : same_store c c' → pending c' seen = pending c seen.
Proof. intros [_ _ H _ _]. unfold pending. by rewrite H. Qed.

(** ** The loop *)

Section loop.
Context (c0 : ArtifactCache V) (root : ArtifactKey).

Record mark_inv (stack : list (ArtifactKey * ArtifactKey)) (seen : gset ArtifactKey) c : Prop := {
  mi_same : same_store c0 c;
  mi_stats : stats c = stats c0;
  mi_dirty : ∀ k, is_Some (dirty c !! k) ↔ is_Some (dirty c0 !! k) ∨ k ∈ seen;
  mi_lineages : ∀ l, is_Some (dirty_lineages c !! l) ↔
    is_Some (dirty_lineages c0 !! l) ∨ ∃ k, k ∈ seen ∧ lineages c0 !! k = Some l;
  mi_sound : ∀ k, k ∈ seen ∨ k ∈ stack.*1 → tc (dep_edge c0) root k;
  mi_root : ∀ b, dep_edge c0 root b → b ∈ seen ∨ b ∈ stack.*1;
  mi_closed : ∀ a b, a ∈ seen → dep_edge c0 a b → b ∈ seen ∨ b ∈ stack.*1;
}.

Lemma mark_inv_start :
  mark_inv (reverse ((λ d, (d, root)) <$> dependents_for c0 root)) ∅ c0.
Proof.
  assert (∀ k, k ∈ (reverse ((λ d, (d, root)) <$> dependents_for c0 root)).*1 ↔
    dep_edge c0 root k) as Hst.
  { intros k. rewrite fmap_reverse, elem_of_reverse, <-list_fmap_compose. cbn.
    rewrite list_fmap_id. apply elem_of_dependents_for. }
  split; [done|done|set_solver|set_solver| | |set_solver].
  - intros k [?|?%Hst]; [set_solver|by apply tc_once].
  - intros b ?. right. by apply Hst.
Qed.

Lemma mark_inv_skip k up stack seen c :
  mark_inv ((k, up) :: stack) seen c → k ∈ seen → mark_inv stack seen c.
Proof.
  intros [Hs Ht Hd Hl Hso Hr Hc] Hk. split; try done.
  - intros j Hj. apply Hso. set_solver.
  - intros b Hb. destruct (Hr b Hb) as [?|?]; set_solver.
  - intros a b Ha Hb. destruct (Hc a b Ha Hb) as [?|?]; set_solver.
Qed.

Lemma is_Some_insert {A} (m : gmap ArtifactKey A) i x k :
  is_Some (<[i := x]> m !! k) ↔ k = i ∨ is_Some (m !! k).
Proof. rewrite lookup_insert. case_decide; naive_solver. Qed.

Lemma mark_inv_step k up stack seen c :
  mark_inv ((k, up) :: stack) seen c → k ∉ seen →
  mark_inv (reverse ((λ d, (d, k)) <$> dependents_for (mark_dependent k up c) k) ++ stack)
    ({[k]} ∪ seen) (mark_dependent k up c).
Proof.
  intros [Hs Ht Hd Hl Hso Hr Hc] Hk. pose proof (mark_dependent_same k up c) as Hsm.
  assert (∀ b, b ∈ (reverse ((λ d, (d, k)) <$> dependents_for (mark_dependent k up c) k)
      ++ stack).*1 ↔ dep_edge c0 k b ∨ b ∈ stack.*1) as Hst.
  { intros b. rewrite fmap_app, elem_of_app, fmap_reverse, elem_of_reverse,
      <-list_fmap_compose. cbn. rewrite list_fmap_id, elem_of_dependents_for.
    rewrite (dep_edge_same _ _ Hsm), (dep_edge_same _ _ Hs). done. }
  split.
  - by transitivity c.
  - done.
  - intros j. cbn. rewrite is_Some_insert, Hd. set_solver.
  - intros l. cbn. rewrite (ss_lineages _ _ Hs).
    destruct (lineages c0 !! k) as [l'|] eqn:El.
    + rewrite is_Some_insert, Hl. split.
      * intros [->|[?|(j & ? & ?)]]; [right; exists k; set_solver|by left|].
        right. exists j. set_solver.
      * intros [?|(j & [->%elem_of_singleton|?]%elem_of_union & ?)]; [auto|left; congruence|].
        right. right. eauto.
    + rewrite Hl. split; [intros [?|(j & ? & ?)]; [by left|right; exists j; set_solver]|].
      intros [?|(j & [->%elem_of_singleton|?]%elem_of_union & ?)]; [auto|congruence|eauto].
  - intros j. rewrite Hst. assert (tc (dep_edge c0) root k) as Hrk by (apply Hso; set_solver).
    intros [[->%elem_of_singleton|?]%elem_of_union|[?|?]]; [done|apply Hso; by left| |].
    + by eapply tc_r.
    + apply Hso. right. set_solver.
  - intros b Hb. rewrite Hst. destruct (Hr b Hb) as [?|Hin]; [set_solver|].
    cbn in Hin. apply elem_of_cons in Hin as [->|?]; set_solver.
  - intros a b Ha Hb. rewrite Hst. apply elem_of_union in Ha as [->%elem_of_singleton|Ha].
    + right. by left.
    + destruct (Hc a b Ha Hb) as [?|Hin]; [set_solver|].
      cbn in Hin. apply elem_of_cons in Hin as [->|?]; set_solver.
Qed.

Lemma mark_loop_inv fuel stack seen c :
  mark_inv stack seen c → length stack + pending c0 seen ≤ fuel →
  ∃ c' seen', mark_loop fuel stack seen c = Some c' ∧ mark_inv [] seen' c'.
Proof.
  revert stack seen c. induction fuel as [|fuel IH]; intros [|[k up] stack] seen c Hi Hf;
    cbn [mark_loop]; [by eauto|cbn in Hf; lia|by eauto|].
  case_decide as Hk.
  - apply IH; [by eapply mark_inv_skip|cbn in Hf; lia].
  - apply IH; [by apply mark_inv_step|].
    rewrite length_app, length_reverse, length_fmap.
    rewrite (dependents_for_same _ _ _ (mark_dependent_same k up c)).
    rewrite (dependents_for_same _ _ _ (mi_same _ _ _ Hi)), dependents_for_length.
    rewrite (pending_add c0 seen k Hk) in Hf. cbn in Hf. lia.
Qed.

Lemma mark_inv_done seen c : mark_inv [] seen c → ∀ k, k ∈ seen ↔ tc (dep_edge c0) root k.
Proof.
  intros [_ _ _ _ Hso Hr Hc] k. split; [intros; apply Hso; by left|].
  revert k. apply tc_ind_r.
  - intros b Hab. destruct (Hr _ Hab); set_solver.
  - intros a b _ Hab IH. destruct (Hc _ _ IH Hab); set_solver.
Qed.
End loop.

(** What one validated invalidation leaves. *)
Record marked (record : ArtifactInvalidationRecord) c c' : Prop := {
  mk_same : same_store c c';
  mk_stats : stats c' = stats c;
  mk_dirty : ∀ k, is_Some (dirty c' !! k) ↔
    is_Some (dirty c !! k) ∨ rtc (dep_edge c) (invalidated_key record) k;
  mk_lineages : ∀ l, is_Some (dirty_lineages c' !! l) ↔
    is_Some (dirty_lineages c !! l) ∨ lineage_id record = Some l ∨
    ∃ k, tc (dep_edge c) (invalidated_key record) k ∧ lineages c !! k = Some l;
}.

Lemma mark_dependents_dirty_total root c :
  ∃ c' seen, mark_dependents_dirty root c = Some c' ∧ mark_inv c root [] seen c'.
Proof.
  apply mark_loop_inv; [apply mark_inv_start|]. unfold mark_fuel. rewrite <-pending_empty.
  rewrite length_reverse, length_fmap, dependents_for_length.
  rewrite (pending_add c ∅ root) by set_solver. lia.
Qed.

Lemma mark_dirty_validated_marked record c : marked record c (mark_dirty_validated record c).
Proof.
  unfold mark_dirty_validated. set (root := invalidated_key record).
  set (c1 := set_dirty _ _).
  destruct (mark_dependents_dirty_total root c1) as (c' & seen & -> & Hi). cbn.
  assert (same_store c c1) as Hs1 by by split.
  pose proof (mark_inv_done _ _ _ _ Hi) as Hseen. rewrite (dep_edge_same _ _ Hs1) in Hseen.
  destruct Hi as [Hs Ht Hd Hl _ _ _]. split.
  - by transitivity c1.
  - by rewrite Ht.
  - intros k. rewrite Hd, Hseen. unfold c1. cbn. rewrite is_Some_insert. fold root.
    rewrite rtc_tc. naive_solver.
  - intros l. rewrite Hl. setoid_rewrite Hseen. unfold c1. cbn.
    destruct (lineage_id record) as [l'|]; [rewrite is_Some_insert|]; naive_solver.
Qed.
End invalidation.

(** C5: [mark_dirty] either fails and changes nothing, exactly when the record is
    malformed or the generation counter is exhausted, or it marks the named key
    and precisely its transitive dependents, dirties their lineages, advances the
    generation by one and leaves the stored artifacts and all indexes alone. The
    worklist always finishes, cyclic dependencies included. *)
Theorem mark_dirty_exact {V} (c : ArtifactCache V) (record : ArtifactInvalidationRecord) :
  match mark_dirty record c with
  | (Err _, c') =>
      c' = c ∧ (validate_invalidation_record record ≠ Ok tt ∨
                (u64_max < generation (stats c) + 1)%N)
  | (Ok _, c') =>
      validate_invalidation_record record = Ok tt ∧
      (generation (stats c) + 1 ≤ u64_max)%N ∧
      stats c' = {| hits := hits (stats c); misses := misses (stats c);
                    generation := generation (stats c) + 1 |} ∧
      same_store c c' ∧
      (∀ k, is_Some (dirty c' !! k) ↔
         is_Some (dirty c !! k) ∨ rtc (dep_edge c) (invalidated_key record) k) ∧
      (∀ l, is_Some (dirty_lineages c' !! l) ↔
         is_Some (dirty_lineages c !! l) ∨ lineage_id record = Some l ∨
         ∃ k, tc (dep_edge c) (invalidated_key record) k ∧ lineages c !! k = Some l)
  end.
Proof.
  unfold mark_dirty, se_lift, mbind, se_bind.
  destruct (validate_invalidation_record record) as [[]|e] eqn:Hv; [|naive_solver].
  unfold next_generation, generation_after, u64_checked_add.
  destruct (N.leb_spec (generation (stats c) + 1) u64_max); cbn [ok_or]; [|by auto].
  unfold se_modify. destruct (mark_dirty_validated_marked record c) as [Hs Ht Hd Hl].
  generalize dependent (mark_dirty_validated record c). intros c' Hs Ht Hd Hl.
  split; [done|]. split; [done|]. cbn. rewrite Ht. split; [done|]. split; [|done].
  by destruct Hs; split.
Qed.
