(* ===== verification/ArtifactStore.v ===== *)
(** Stores: the dependents index stays the inverse of the dependency lists, and
    what is stored can be read back ([store], [store_with_lineage] of
    [caap/src/artifacts/cache.rs]). *)

From S2P Require Import Prelude Order Policy Source ArtifactDefs Artifacts ArtifactInvalidation.

Section stores.
Context {V : Type}.
Implicit Types c : ArtifactCache V.
Implicit Types m : gmap ArtifactKey (gset ArtifactKey).

(** The consistency of the cache. *)
Record cache_ok c : Prop := {
  co_inverse : ∀ d k, dep_edge c d k ↔ ∃ ds, dependencies c !! k = Some ds ∧ d ∈ ds;
  co_nonempty : ∀ d s, dependents c !! d = Some s → s ≠ ∅;
  co_ascending : ∀ k ds, dependencies c !! k = Some ds → StronglySorted (cmp_lt key_cmp) ds;
  co_self : ∀ k ds, dependencies c !! k = Some ds → k ∉ ds;
  co_dom : dom (dependencies c) ⊆ dom (entries c);
}.

(** ** The two index updates *)

Definition edges m (d : ArtifactKey) : gset ArtifactKey := default ∅ (m !! d).

Lemma drop_dependent_edges key m d d' :
  edges (drop_dependent key m d) d' = if decide (d' = d) then edges m d' ∖ {[key]} else edges m d'.
Proof.
  unfold drop_dependent, edges. destruct (m !! d) as [s|] eqn:E.
  - case_decide as Hs.
    + case_decide as Hd; [subst; by rewrite lookup_delete_eq, E|by rewrite lookup_delete_ne].
    + case_decide as Hd; [subst; by rewrite lookup_insert_eq, E|by rewrite lookup_insert_ne].
  - case_decide as Hd; [subst; rewrite E; cbn; set_solver|done].
Qed.

Lemma drop_all_edges key m ds d :
  edges (foldl (drop_dependent key) m ds) d =
    if decide (d ∈ ds) then edges m d ∖ {[key]} else edges m d.
Proof.
  revert m. induction ds as [|d' ds IH]; intros m; cbn; [by rewrite decide_False by set_solver|].
  rewrite IH, drop_dependent_edges. repeat case_decide; set_solver.
Qed.

Lemma add_dependent_edges key m d d' :
  edges (add_dependent key m d) d' = if decide (d' = d) then {[key]} ∪ edges m d' else edges m d'.
Proof.
  unfold add_dependent, edges.
  case_decide as Hd; [subst; by rewrite lookup_insert_eq|by rewrite lookup_insert_ne].
Qed.

Lemma add_all_edges key m ds d :
  edges (foldl (add_dependent key) m ds) d =
    if decide (d ∈ ds) then {[key]} ∪ edges m d else edges m d.
Proof.
  revert m. induction ds as [|d' ds IH]; intros m; cbn; [by rewrite decide_False by set_solver|].
  rewrite IH, add_dependent_edges. repeat case_decide; set_solver.
Qed.

Definition no_empty m : Prop := ∀ d s, m !! d = Some s → s ≠ ∅.

Lemma drop_all_no_empty key m ds : no_empty m → no_empty (foldl (drop_dependent key) m ds).
Proof.
  revert m. induction ds as [|d ds IH]; intros m Hm; cbn; [done|]. apply IH.
  unfold drop_dependent. destruct (m !! d) as [s|] eqn:E; [|done]. case_decide as Hs.
  - intros d' s' [_ ?]%lookup_delete_Some. by eapply Hm.
  - intros d' s' [[_ <-]|[_ ?]]%lookup_insert_Some; [done|by eapply Hm].
Qed.

Lemma add_all_no_empty key m ds : no_empty m → no_empty (foldl (add_dependent key) m ds).
Proof.
  revert m. induction ds as [|d ds IH]; intros m Hm; cbn; [done|]. apply IH.
  unfold add_dependent.
  intros d' s' [[_ <-]|[_ ?]]%lookup_insert_Some; [set_solver|by eapply Hm].
Qed.

(** ** Stores keep the cache consistent *)

Lemma store_entry_edge key v deps gen c d k :
  cache_ok c →
  dep_edge (store_entry key v deps gen c) d k ↔
    (k = key ∧ d ∈ deps) ∨ (k ≠ key ∧ dep_edge c d k).
Proof.
  intros Hok. pose proof (co_inverse _ Hok d) as Hinv.
  change (dep_edge (store_entry key v deps gen c) d k) with
    (k ∈ edges (dependents (store_entry key v deps gen c)) d).
  cbn [store_entry dependents]. rewrite add_all_edges.
  assert (∀ m, m = match dependencies c !! key with
                   | Some old => foldl (drop_dependent key) (dependents c) old
                   | None => dependents c end →
    k ∈ edges m d ↔ k ≠ key ∧ dep_edge c d k) as Hm.
  { intros m ->. unfold dep_edge in *. destruct (dependencies c !! key) as [old|] eqn:Eo.
    - rewrite drop_all_edges. change (default ∅ (dependents c !! d)) with (edges (dependents c) d).
      case_decide as Hd; [set_solver|]. split; [|tauto]. intros Hk. split; [|done]. intros ->.
      apply Hinv in Hk as (ds & Hds & ?). by simplify_eq.
    - change (default ∅ (dependents c !! d)) with (edges (dependents c) d). split; [|tauto].
      intros Hk. split; [|done]. intros ->. apply Hinv in Hk as (ds & Hds & _). by simplify_eq. }
  specialize (Hm _ eq_refl). case_decide; rewrite ?elem_of_union, ?elem_of_singleton, Hm;
    destruct (decide (k = key)); naive_solver.
Qed.

Lemma store_entry_ok key v deps gen c :
  cache_ok c → StronglySorted (cmp_lt key_cmp) deps → key ∉ deps →
  cache_ok (store_entry key v deps gen c).
Proof.
  intros Hok Hasc Hself. split.
  - intros d k. rewrite store_entry_edge by done. rewrite (co_inverse _ Hok). cbn.
    rewrite insert_delete_eq. setoid_rewrite lookup_insert_Some. naive_solver.
  - cbn. apply add_all_no_empty. destruct (dependencies c !! key).
    + apply drop_all_no_empty. exact (co_nonempty _ Hok).
    + exact (co_nonempty _ Hok).
  - cbn. intros k ds. rewrite insert_delete_eq. intros [[_ <-]|[_ Hk]]%lookup_insert_Some;
      [done|by eapply co_ascending].
  - cbn. intros k ds. rewrite insert_delete_eq. intros [[<- <-]|[_ Hk]]%lookup_insert_Some;
      [done|by eapply co_self].
  - cbn. rewrite insert_delete_eq, !dom_insert_L. pose proof (co_dom _ Hok). set_solver.
Qed.

Lemma existsb_self key (deps : list ArtifactKey) :
  existsb (λ d, bool_decide (d = key)) deps = false ↔ key ∉ deps.
Proof.
  rewrite <-not_true_iff_false, existsb_exists. setoid_rewrite bool_decide_eq_true. split.
  - intros H Hin. apply H. exists key. split; [by apply list_elem_of_In|done].
  - intros H (x & Hx & ->). apply H. by apply list_elem_of_In.
Qed.

(** A successful [store_internal], and when it fails. *)
Lemma store_internal_spec key v deps c :
  (key ∉ deps ∧ (generation (stats c) + 1 ≤ u64_max)%N ∧
   store_internal key v deps c =
     (Ok tt, store_entry key v (dedup key_cmp (isort key_cmp deps)) (generation (stats c) + 1) c)) ∨
  ((key ∈ deps ∨ (u64_max < generation (stats c) + 1)%N) ∧
   ∃ e, store_internal key v deps c = (Err e, c)).
Proof.
  unfold store_internal.
  assert (∀ x, x ∈ dedup key_cmp (isort key_cmp deps) ↔ x ∈ deps) as Hin.
  { intros x. by rewrite dedup_elem_of, isort_perm by apply _. }
  destruct (existsb _ _) eqn:E.
  - right. split; [|by eexists]. left. apply dec_stable. intros Hn. rewrite <-Hin in Hn.
    apply existsb_self in Hn. congruence.
  - apply existsb_self in E. rewrite Hin in E.
    unfold se_lift, se_modify, mbind, se_bind, next_generation, generation_after, u64_checked_add.
    destruct (N.leb_spec (generation (stats c) + 1) u64_max); cbn [ok_or].
    + left. done.
    + right. split; [by right|by eexists].
Qed.

Lemma sort_dedup_ascending (deps : list ArtifactKey) :
  StronglySorted (cmp_lt key_cmp) (dedup key_cmp (isort key_cmp deps)).
Proof. apply dedup_ascending; [apply _|]. apply isort_sorted. apply _. Qed.

Lemma store_internal_ok key v deps c : cache_ok c → cache_ok (store_internal key v deps c).2.
Proof.
  intros Hok. destruct (store_internal_spec key v deps c) as [(Hn & _ & ->)|[_ [e ->]]]; [|done].
  apply store_entry_ok; [done|apply sort_dedup_ascending|].
  by rewrite dedup_elem_of, isort_perm by apply _.
Qed.

Lemma same_store_ok c c' : same_store c c' → cache_ok c → cache_ok c'.
Proof.
  intros [He Hd Hs _ _] []. split; unfold dep_edge; rewrite ?He, ?Hd, ?Hs; done.
Qed.

Lemma mark_dirty_same record c : same_store c (mark_dirty record c).2.
Proof.
  unfold mark_dirty, se_lift, se_modify, mbind, se_bind.
  destruct (validate_invalidation_record record); [|done].
  destruct (next_generation c); [|done]. cbn [snd].
  destruct (mk_same _ _ _ (mark_dirty_validated_marked record c)). by split.
Qed.

Lemma mark_all_same records c :
  same_store c (foldl (λ c r, mark_dirty_validated r c) c records).
Proof.
  revert c. induction records as [|r records IH]; intros c; [done|].
  cbn [foldl]. transitivity (mark_dirty_validated r c); [|apply IH].
  apply (mk_same _ _ _ (mark_dirty_validated_marked r c)).
Qed.

Lemma mark_dirty_batch_same records c : same_store c (mark_dirty_batch records c).2.
Proof.
  unfold mark_dirty_batch, se_lift, se_modify, mbind, se_bind.
  destruct (for_each _ records); [|done]. destruct (generation_after _ _); [|done]. cbn [snd].
  destruct (mark_all_same records c). by split.
Qed.

Lemma invalidate_all_same reason c : same_store c (invalidate_all reason c).2.
Proof.
  unfold invalidate_all. case_decide; [done|]. destruct (mapM _ _); [|done].
  apply mark_dirty_batch_same.
Qed.

(** ** Lineages *)

Lemma lineage_replaced_record_ok lineage previous key :
  key_kind lineage ≠ "" →
  ∃ r, lineage_replaced_record lineage previous key = Ok r ∧ invalidated_key r = previous ∧
    lineage_id r = Some lineage ∧ validate_invalidation_record r = Ok tt.
Proof.
  intros Hk. unfold lineage_replaced_record, invalidation_new. rewrite decide_False by done.
  cbn [mbind result_bind]. unfold with_lineage. rewrite decide_False by done.
  cbn [mbind result_bind]. unfold with_changed_inputs.
  set (inputs := changed_inputs_for_lineage lineage previous key).
  assert (∀ l : list string, Forall (λ s, s ≠ "") l →
    existsb (λ s, bool_decide (s = "")) l = false) as Hex.
  { intros l Hl. apply not_true_iff_false. rewrite existsb_exists. intros (x & Hx & Hb).
    apply bool_decide_eq_true in Hb. rewrite Forall_forall in Hl. apply (Hl x); [|done].
    by apply list_elem_of_In. }
  pose proof (changed_inputs_named lineage previous key) as Hn.
  rewrite Hex by done. eexists. split; [done|]. split; [done|]. split; [done|].
  unfold validate_invalidation_record. cbn. rewrite decide_False by done. rewrite Hex.
  2:{ apply Forall_forall. intros x. rewrite dedup_elem_of, isort_perm by apply _.
      intros Hx. rewrite Forall_forall in Hn. by apply Hn. }
  rewrite (proj2 (windows_ascending str_cmp _)).
  2:{ apply dedup_ascending; [apply _|]. apply isort_sorted. apply _. }
  rewrite decide_False by done. rewrite decide_False by tauto. done.
Qed.

(** The first half of [store_with_lineage]. *)
Definition supersede (key lineage : ArtifactKey) c : ArtifactCache V :=
  match lineage_heads c !! lineage with
  | Some previous =>
      if decide (previous ≠ key) then
        match lineage_replaced_record lineage previous key with
        | Ok r => (mark_dirty r c).2
        | Err _ => c
        end
      else c
  | None => c
  end.

Lemma supersede_spec key lineage c :
  key_kind lineage ≠ "" → (generation (stats c) + 2 ≤ u64_max)%N →
  (generation (stats (supersede key lineage c)) ≤ generation (stats c) + 1)%N ∧
  same_store c (supersede key lineage c) ∧
  (∀ previous k, lineage_heads c !! lineage = Some previous → previous ≠ key →
    rtc (dep_edge c) previous k → is_Some (dirty (supersede key lineage c) !! k)) ∧
  ∀ v deps, store_with_lineage key v deps lineage c =
    store_internal key v deps (set_lineage_head lineage key (supersede key lineage c)).
Proof.
  intros Hk Hg. unfold supersede, store_with_lineage, se_get, se_lift, se_modify, mbind, se_bind.
  assert (∀ x, (x ≤ generation (stats c) + 1)%N → u64_checked_add x 1 = Some (x + 1)%N) as Hnext.
  { intros x Hx. apply u64_checked_add_Some. split; [done|]. lia. }
  assert (next_generation c = Ok (generation (stats c) + 1)%N) as Hng.
  { unfold next_generation, generation_after. rewrite Hnext by lia. done. }
  destruct (lineage_heads c !! lineage) as [previous|] eqn:El.
  2:{ split_and!; [lia|done|done|]. intros v deps. cbn [mret se_ret]. by rewrite Hng. }
  case_decide as Hp.
  2:{ split_and!; [lia|done|naive_solver|]. intros v deps. cbn [mret se_ret]. by rewrite Hng. }
  destruct (lineage_replaced_record_ok lineage previous key Hk) as (r & -> & Hir & _ & Hv).
  unfold generation_after at 1. rewrite (proj2 (u64_checked_add_Some _ 2 _) (conj eq_refl Hg)).
  cbn [ok_or]. unfold mark_dirty, se_lift, se_modify, mbind, se_bind. rewrite Hv, Hng. cbn [snd].
  destruct (mark_dirty_validated_marked r c) as [Hs Ht Hd _]. split_and!.
  - cbn. lia.
  - by destruct Hs; split.
  - intros p k [= <-] _ Hr. cbn [set_generation set_stats dirty]. apply Hd. right. by rewrite Hir.
  - intros v deps. unfold next_generation, generation_after. cbn [set_generation set_stats stats
      generation]. by rewrite Hnext by lia.
Qed.

Lemma is_dirty_head lineage key v deps gen c :
  is_dirty (store_entry key v deps gen (set_lineage_head lineage key c)) key = false.
Proof.
  unfold is_dirty. cbn. rewrite lookup_delete_eq, lookup_insert_eq, lookup_delete_eq. done.
Qed.
End stores.

(** C13: [store_with_lineage] of an artifact that does not depend on itself, with
    generations left, succeeds: the artifact is the head of its lineage and is
    served; and when it replaces another head, neither that head nor anything
    that depends on it, directly or through others, is served any more (the
    stored key itself excepted, which was rebuilt). *)
Theorem store_with_lineage_visible {V} (c : ArtifactCache V) (key : ArtifactKey) (v : V)
    (deps : list ArtifactKey) (lineage : ArtifactKey) :
  key_kind lineage ≠ "" → key ∉ deps → (generation (stats c) + 2 ≤ u64_max)%N →
  ∃ c', store_with_lineage key v deps lineage c = (Ok tt, c') ∧
    peek c' key = Some v ∧ lineage_heads c' !! lineage = Some key ∧
    (∀ k, k ≠ key → entries c' !! k = entries c !! k) ∧
    ∀ previous k, lineage_heads c !! lineage = Some previous → previous ≠ key →
      rtc (dep_edge c) previous k → k ≠ key → peek c' k = None.
Proof.
  intros Hk Hd Hg. destruct (supersede_spec key lineage c Hk Hg) as (Hgen & Hs & Hdirty & Hrun).
  rewrite Hrun. set (c1 := set_lineage_head lineage key (supersede key lineage c)).
  destruct (store_internal_spec key v deps c1) as [(_ & _ & ->)|[[?|Hov] _]]; [|done|].
  2:{ exfalso. cbn in Hov. lia. }
  eexists. split; [done|]. split_and!.
  - unfold peek. unfold c1. rewrite is_dirty_head. cbn. by rewrite lookup_insert_eq.
  - cbn. by rewrite lookup_insert_eq.
  - intros k Hne. cbn. rewrite lookup_insert_ne by done. by rewrite (ss_entries _ _ Hs).
  - intros previous k Hp Hne Hr Hkk. unfold peek, is_dirty. cbn [dirty store_entry].
    rewrite lookup_delete_ne by done. unfold c1. cbn [dirty set_lineage_head].
    by rewrite bool_decide_eq_true_2 by by eapply Hdirty.
Qed.

Lemma store_with_lineage_visible_witness :
  ∃ c', store_with_lineage ["s"; "2"] 2%N [] ["lin"]
          (store_with_lineage ["s"; "1"] 1%N [] ["lin"] (cache_new (V := N))).2 = (Ok tt, c') ∧
    peek c' ["s"; "2"] = Some 2%N ∧ peek c' ["s"; "1"] = None.
Proof.
  set (c := (store_with_lineage ["s"; "1"] 1%N [] ["lin"] (cache_new (V := N))).2).
  destruct (store_with_lineage_visible c ["s"; "2"] 2%N [] ["lin"]) as (c' & H1 & H2 & _ & _ & H3).
  - discriminate.
  - apply not_elem_of_nil.
  - vm_compute. discriminate.
  - exists c'. split; [exact H1|]. split; [exact H2|].
    apply (H3 ["s"; "1"] ["s"; "1"]); [vm_compute; reflexivity|discriminate|apply rtc_refl|discriminate].
Defined.
