(* ===== verification/ArtifactRestore.v ===== *)
(** Snapshots of the cache: restoring rebuilds a consistent cache, and a cache
    survives the round trip through its snapshot exactly when it is
    [restorable] ([snapshot], [restore_snapshot], cache files of
    [caap/src/artifacts/cache.rs]). *)

From S2P Require Import Prelude Order Policy Source ArtifactDefs Artifacts ArtifactInvalidation ArtifactStore.

(** ** Loops that build a map and refuse a repeated key *)

Lemma unique_map_fold_ok {E A} (f : gmap ArtifactKey A → ArtifactKey * A → Result E (gmap ArtifactKey A))
    (ok : ArtifactKey * A → Prop) :
  (∀ m e m', f m e = Ok m' ↔ ok e ∧ m !! e.1 = None ∧ m' = <[e.1 := e.2]> m) →
  ∀ l m m', try_fold f m l = Ok m' ↔
    Forall ok l ∧ NoDup l.*1 ∧ (∀ e, e ∈ l → m !! e.1 = None) ∧ m' = list_to_map l ∪ m.
Proof.
  intros Hf l. induction l as [|e l IH]; intros m m'; cbn.
  - rewrite (left_id_L ∅ (∪)). split; [intros [= ->]|naive_solver].
    split_and!; [constructor|constructor|set_solver|done].
  - rewrite Forall_cons, NoDup_cons. destruct (f m e) as [m1|err] eqn:E1.
    + apply Hf in E1 as (Hok & Hn & ->). rewrite IH. split.
      * intros (H1 & H2 & H3 & ->). split_and!; [done..| |done| |].
        { intros (e' & He & Hin)%list_elem_of_fmap. specialize (H3 e' Hin). rewrite He in H3.
          by rewrite lookup_insert_eq in H3. }
        { intros e' [->|Hin]%elem_of_cons; [done|]. specialize (H3 e' Hin).
          by apply lookup_insert_None in H3 as [? _]. }
        apply map_eq. intros k. rewrite !lookup_union, !lookup_insert.
        case_decide as Hk; [|done]. subst. rewrite (not_elem_of_list_to_map_1 l).
        { by destruct (m !! e.1). }
        intros (e' & He & Hin)%list_elem_of_fmap. specialize (H3 e' Hin). rewrite <-He in H3.
        by rewrite lookup_insert_eq in H3.
      * intros ([_ H1] & [H2 H2'] & H3 & ->). split_and!; [done..| |].
        { intros e' Hin. rewrite lookup_insert_None. split; [apply H3; set_solver|].
          intros He. apply H2. rewrite He. by apply list_elem_of_fmap_2. }
        apply map_eq. intros k. rewrite !lookup_union, !lookup_insert.
        case_decide as Hk; [|done]. subst. rewrite (not_elem_of_list_to_map_1 l) by done.
        by destruct (m !! e.1).
    + split; [done|]. intros ([Hok _] & _ & H3 & _). exfalso.
      assert (f m e = Ok (<[e.1 := e.2]> m)) as H; [|congruence].
      apply Hf. split_and!; [done| |done]. apply H3. set_solver.
Qed.

Lemma list_to_map_in_order {A} (m : gmap ArtifactKey A) :
  list_to_map (map_in_order key_cmp m) = m.
Proof.
  apply map_eq. intros k. apply option_eq. intros a.
  rewrite <-elem_of_list_to_map by (apply map_in_order_NoDup; apply _).
  by rewrite elem_of_map_in_order by apply _.
Qed.

Section restore.
Context {V : Type}.
Implicit Types c : ArtifactCache V.

(** On the ordered entries of a map, such a loop returns that map if every
    entry passes. *)
Lemma unique_map_fold_in_order {E A}
    (f : gmap ArtifactKey A → ArtifactKey * A → Result E (gmap ArtifactKey A))
    (ok : ArtifactKey * A → Prop) (m m' : gmap ArtifactKey A) :
  (∀ m e m', f m e = Ok m' ↔ ok e ∧ m !! e.1 = None ∧ m' = <[e.1 := e.2]> m) →
  try_fold f ∅ (map_in_order key_cmp m) = Ok m' ↔
    (∀ k a, m !! k = Some a → ok (k, a)) ∧ m' = m.
Proof.
  intros Hf. rewrite (unique_map_fold_ok f ok Hf), Forall_forall.
  rewrite (right_id_L ∅ (∪)), list_to_map_in_order. split.
  - intros (H & _ & _ & ->). split; [|done]. intros k a Hk. apply H.
    by apply elem_of_map_in_order.
  - intros [H ->]. split_and!; [|apply map_in_order_NoDup; apply _|done|done].
    intros [k a] Hin. apply H. by apply elem_of_map_in_order in Hin.
Qed.

Lemma not_is_Some {A} (o : option A) : ¬ is_Some o ↔ o = None.
Proof. destruct o; split; [intros []; eauto|done|done|by intros _ [? ?]]. Qed.

Lemma restore_unique_in_order {A} (m m' : gmap ArtifactKey A) label :
  restore_unique_artifact_map (map_in_order key_cmp m) label = Ok m' ↔ m' = m.
Proof.
  unfold restore_unique_artifact_map. rewrite (unique_map_fold_in_order _ (λ _, True)).
  { naive_solver. }
  intros m1 e m2. rewrite if_decide_err_ok, ok_inj, not_is_Some. naive_solver.
Qed.

Definition record_valid (r : ArtifactInvalidationRecord) : Prop :=
  validate_invalidation_record r = Ok tt.

Lemma restore_invalidation_in_order (m m' : gmap ArtifactKey ArtifactInvalidationRecord) label req :
  restore_invalidation_map (map_in_order key_cmp m) label req = Ok m' ↔
    (∀ k r, m !! k = Some r → record_valid r ∧ (req = true → lineage_id r ≠ None)) ∧ m' = m.
Proof.
  unfold restore_invalidation_map.
  rewrite (unique_map_fold_in_order _
    (λ e, record_valid e.2 ∧ (req = true → lineage_id e.2 ≠ None))); [done|].
  intros m1 e m2. rewrite seq_ok, if_err_ok, if_decide_err_ok, ok_inj, not_is_Some.
  rewrite andb_false_iff, bool_decide_eq_false. unfold record_valid. destruct req; naive_solver.
Qed.

Lemma restore_dirty_in_order (m m' : gmap ArtifactKey ArtifactInvalidationRecord) :
  restore_dirty (map_in_order key_cmp m) = Ok m' ↔
    (∀ k r, m !! k = Some r → invalidated_key r = k ∧ record_valid r) ∧ m' = m.
Proof.
  unfold restore_dirty.
  rewrite (unique_map_fold_in_order _ (λ e, invalidated_key e.2 = e.1 ∧ record_valid e.2)); [done|].
  intros m1 e m2. rewrite if_decide_err_ok, seq_ok, if_decide_err_ok, ok_inj, not_is_Some.
  rewrite (not_not_dec (invalidated_key e.2 = e.1)). unfold record_valid. naive_solver.
Qed.

Lemma for_each_in_order {A} (f : ArtifactKey * A → CaapResult unit) (m : gmap ArtifactKey A) :
  for_each f (map_in_order key_cmp m) = Ok tt ↔ ∀ k a, m !! k = Some a → f (k, a) = Ok tt.
Proof.
  rewrite for_each_ok, Forall_forall. split.
  - intros H k a Hk. apply H. by apply elem_of_map_in_order.
  - intros H [k a] Hin. apply H. by apply elem_of_map_in_order in Hin.
Qed.

Lemma check_record_keys_ok (msg : string) (test : ArtifactKey → ArtifactInvalidationRecord → bool)
    (m : gmap ArtifactKey ArtifactInvalidationRecord) :
  check_record_keys msg test m = Ok tt ↔ ∀ k r, m !! k = Some r → test k r = true.
Proof.
  unfold check_record_keys. rewrite for_each_in_order.
  apply forall_proper. intros k. apply forall_proper. intros r. apply forall_proper. intros _.
  cbn. rewrite if_err_ok, negb_false_iff. naive_solver.
Qed.

(** ** The lineage walk *)

(** Following lineages from [k] ends. *)
Inductive lineage_ends (m : gmap ArtifactKey ArtifactKey) (k : ArtifactKey) : Prop :=
  | ends_here : m !! k = None → lineage_ends m k
  | ends_step n : m !! k = Some n → lineage_ends m n → lineage_ends m k.

(** While walking, [seen] is closed under lineages up to the current key. *)
Lemma lineage_walk_spec (m : gmap ArtifactKey ArtifactKey) (fuel : nat) (seen : gset ArtifactKey)
    (cur : ArtifactKey) :
  (∀ k, k ∈ seen → ∃ n, m !! k = Some n ∧ (n ∈ seen ∨ n = cur)) →
  size (dom m) ≤ fuel + size seen →
  (lineage_walk fuel m seen cur = Some (Ok tt) ∧ lineage_ends m cur) ∨
  ((∃ e, lineage_walk fuel m seen cur = Some (Err e)) ∧
   ∃ S : gset ArtifactKey, cur ∈ S ∧ ∀ k, k ∈ S → ∃ n, m !! k = Some n ∧ n ∈ S).
Proof.
  revert seen cur. induction fuel as [|fuel IH]; intros seen cur Hs Hf.
  all: cbn [lineage_walk]; destruct (m !! cur) as [n|] eqn:En; [|left; split; [done|by constructor]].
  all: case_decide as Hin; [right; split; [by eauto|]; exists seen; split; [done|];
    intros k Hk; destruct (Hs k Hk) as (n' & ? & [?| ->]); eauto|].
  - exfalso. assert ({[cur]} ∪ seen ⊆ dom m) as Hsub.
    { intros k [->%elem_of_singleton|Hk]%elem_of_union; apply elem_of_dom; [by eauto|].
      destruct (Hs k Hk) as (n' & ? & _). by eauto. }
    apply subseteq_size in Hsub. rewrite size_union, size_singleton in Hsub by set_solver. lia.
  - destruct (IH ({[cur]} ∪ seen) n) as [[-> He]|[(e & ->) (S & HS & Hcl)]].
    + intros k [->%elem_of_singleton|Hk]%elem_of_union; [by eauto|].
      destruct (Hs k Hk) as (n' & ? & Hn'). exists n'. set_solver.
    + rewrite size_union, size_singleton by set_solver. lia.
    + left. split; [done|]. by eapply ends_step.
    + right. split; [by eauto|]. exists ({[cur]} ∪ S). split; [set_solver|].
      intros k [->%elem_of_singleton|Hk]%elem_of_union; [exists n; set_solver|].
      destruct (Hcl k Hk) as (n' & ? & ?). exists n'. set_solver.
Qed.

Lemma lineage_walk_ok (m : gmap ArtifactKey ArtifactKey) (k : ArtifactKey) (e : CaapError) :
  default (Err e) (lineage_walk (size m) m ∅ k) = Ok tt ↔ lineage_ends m k.
Proof.
  destruct (lineage_walk_spec m (size m) ∅ k) as [[-> He]|[(err & ->) (S & HS & Hcl)]].
  - set_solver.
  - rewrite size_dom. lia.
  - done.
  - cbn. split; [done|]. intros Hends. exfalso. revert HS.
    induction Hends as [k Hn|k n Hn _ IH]; intros HS; destruct (Hcl k HS) as (n' & ? & ?).
    + congruence.
    + apply IH. congruence.
Qed.

(** ** Dependency lists *)

Implicit Types m : gmap ArtifactKey (gset ArtifactKey).

Definition deps_entry_ok (E : gmap ArtifactKey V) (e : ArtifactKey * list ArtifactKey) : Prop :=
  is_Some (E !! e.1) ∧ e.1 ∉ e.2 ∧ NoDup e.2 ∧ ∀ d, d ∈ e.2 → is_Some (E !! d).

Definition deps_step
    (acc : gmap ArtifactKey (list ArtifactKey) * gmap ArtifactKey (gset ArtifactKey))
    (e : ArtifactKey * list ArtifactKey) :
    gmap ArtifactKey (list ArtifactKey) * gmap ArtifactKey (gset ArtifactKey) :=
  (<[e.1 := isort key_cmp e.2]> acc.1, foldl (add_dependent e.1) acc.2 (isort key_cmp e.2)).

Lemma add_dependents_fold (E : gmap ArtifactKey V) (err : CaapError) (key : ArtifactKey) ds m m' :
  try_fold (λ m d, if decide (E !! d = None) then Err err else Ok (add_dependent key m d)) m ds
    = Ok m' ↔
  (∀ d, d ∈ ds → is_Some (E !! d)) ∧ m' = foldl (add_dependent key) m ds.
Proof.
  revert m. induction ds as [|d ds IH]; intros m; cbn.
  - rewrite ok_inj. split; [intros ->; split; [set_solver|done]|naive_solver].
  - case_decide as Hd.
    + split; [done|]. intros [H _]. destruct (H d) as [x Hx]; [set_solver|congruence].
    + rewrite IH. apply not_eq_None_Some in Hd. setoid_rewrite elem_of_cons. naive_solver.
Qed.

Lemma restore_dependency_ok (E : gmap ArtifactKey V) acc e acc' :
  restore_dependency E acc e = Ok acc' ↔
    deps_entry_ok E e ∧ acc.1 !! e.1 = None ∧ acc' = deps_step acc e.
Proof.
  destruct acc as [deps dependents], e as [key ds]. unfold restore_dependency, deps_entry_ok,
    deps_step. cbn [fst snd].
  rewrite !if_decide_err_ok, !if_err_ok, bind_ok, not_is_Some, existsb_self.
  rewrite (windows_distinct key_cmp _ (isort_sorted key_cmp ds)).
  setoid_rewrite add_dependents_fold. setoid_rewrite ok_inj. rewrite not_eq_None_Some.
  rewrite (isort_perm key_cmp ds) at 1.
  assert (∀ d, d ∈ isort key_cmp ds ↔ d ∈ ds) as Hin by (intros d; by rewrite isort_perm).
  setoid_rewrite Hin. split.
  - intros (? & ? & ? & ? & m & [? ->] & <-). done.
  - intros ((? & ? & ? & ?) & ? & ->). split_and!; [done..|]. by eexists.
Qed.

Lemma restore_dependencies_ok (E : gmap ArtifactKey V) l acc acc' :
  try_fold (restore_dependency E) acc l = Ok acc' ↔
    Forall (deps_entry_ok E) l ∧ NoDup l.*1 ∧ (∀ e, e ∈ l → acc.1 !! e.1 = None) ∧
    acc' = foldl deps_step acc l.
Proof.
  revert acc. induction l as [|e l IH]; intros acc; cbn.
  - rewrite ok_inj. split; [intros ->|naive_solver].
    split_and!; [constructor|constructor|set_solver|done].
  - rewrite Forall_cons, NoDup_cons. destruct (restore_dependency E acc e) as [acc1|err] eqn:E1.
    + apply restore_dependency_ok in E1 as (Hok & Hn & ->). rewrite IH. split.
      * intros (H1 & H2 & H3 & ->). split_and!; [done..| |done| |done].
        { intros (e' & He & Hin)%list_elem_of_fmap. specialize (H3 e' Hin). rewrite <-He in H3.
          unfold deps_step in H3. cbn in H3. by rewrite lookup_insert_eq in H3. }
        intros e' [->|Hin]%elem_of_cons; [done|]. specialize (H3 e' Hin). cbn in H3.
        by apply lookup_insert_None in H3 as [? _].
      * intros ([_ H1] & [H2 H2'] & H3 & ->). split_and!; [done..| |done].
        intros e' Hin. cbn. rewrite lookup_insert_None. split; [apply H3; set_solver|].
        intros He. apply H2. rewrite He. by apply list_elem_of_fmap_2.
    + split; [done|]. intros ([Hok _] & _ & H3 & _). exfalso.
      assert (restore_dependency E acc e = Ok (deps_step acc e)) as H; [|congruence].
      apply restore_dependency_ok. split_and!; [done| |done]. apply H3. set_solver.
Qed.

Lemma deps_fold_edges l acc d k :
  k ∈ edges (foldl deps_step acc l).2 d ↔
    k ∈ edges acc.2 d ∨ ∃ ds, (k, ds) ∈ l ∧ d ∈ ds.
Proof.
  revert acc. induction l as [|[key ds] l IH]; intros acc; cbn.
  - split; [by left|]. intros [?|(ds & ? & _)]; [done|set_solver].
  - rewrite IH. unfold deps_step at 1. cbn [snd fst]. rewrite add_all_edges.
    assert (d ∈ isort key_cmp ds ↔ d ∈ ds) as Hin by by rewrite isort_perm.
    case_decide as Hd; rewrite ?elem_of_union, ?elem_of_singleton; rewrite Hin in Hd; split.
    + intros [[->|?]|(ds' & ? & ?)]; [right|by left|right]; eexists; split; set_solver.
    + intros [?|(ds' & [[= -> ->]|?]%elem_of_cons & ?)]; [tauto|tauto|]. right. eauto.
    + intros [?|(ds' & ? & ?)]; [by left|right]. exists ds'. set_solver.
    + intros [?|(ds' & [[= -> ->]|?]%elem_of_cons & ?)]; [tauto|tauto|]. right. eauto.
Qed.

Lemma deps_fold_no_empty l acc : no_empty acc.2 → no_empty (foldl deps_step acc l).2.
Proof.
  revert acc. induction l as [|e l IH]; intros acc H; [done|]. apply IH. cbn.
  by apply add_all_no_empty.
Qed.

Lemma deps_fold_lookup l acc k x :
  NoDup l.*1 →
  (foldl deps_step acc l).1 !! k = Some x ↔
    (∃ ds, (k, ds) ∈ l ∧ x = isort key_cmp ds) ∨ (k ∉ l.*1 ∧ acc.1 !! k = Some x).
Proof.
  revert acc. induction l as [|[key ds] l IH]; intros acc Hnd; cbn.
  - split; [intros ?; right; split; [set_solver|done]|]. by intros [(ds & ? & _)|[_ ?]]; [set_solver|].
  - apply NoDup_cons in Hnd as [Hn Hnd]. rewrite IH by done. cbn. rewrite lookup_insert_Some.
    split.
    + intros [(ds' & ? & ->)|[Hk [[<- <-]|[? ?]]]].
      * left. exists ds'. set_solver.
      * left. exists ds. set_solver.
      * right. set_solver.
    + intros [(ds' & [[= -> ->]|Hin]%elem_of_cons & ->)|[Hk ?]].
      * right. split; [done|]. by left.
      * left. eauto.
      * right. set_solver.
Qed.

Lemma edges_ext m1 m2 :
  no_empty m1 → no_empty m2 → (∀ d, edges m1 d = edges m2 d) → m1 = m2.
Proof.
  intros H1 H2 He. apply map_eq. intros d. specialize (He d). unfold edges in He.
  destruct (m1 !! d) as [s1|] eqn:E1, (m2 !! d) as [s2|] eqn:E2; cbn in He; subst; try done.
  - by destruct (H1 d ∅ E1).
  - by destruct (H2 d ∅ E2).
Qed.

(** ** What restoring yields *)

Lemma restored_deps_ok (E : gmap ArtifactKey V) l deps dependents c :
  try_fold (restore_dependency E) (∅, ∅) l = Ok (deps, dependents) →
  entries c = E → Artifacts.dependencies c = deps → Artifacts.dependents c = dependents →
  cache_ok c ∧ ∀ k ds d, deps !! k = Some ds → d ∈ ds → is_Some (E !! d).
Proof.
  intros (Hall & Hnd & _ & Heq)%restore_dependencies_ok HE Hd Hs. rewrite Forall_forall in Hall.
  assert (∀ k x, deps !! k = Some x ↔ ∃ ds, (k, ds) ∈ l ∧ x = isort key_cmp ds) as Hlk.
  { intros k x. change deps with ((deps, dependents).1). rewrite Heq, deps_fold_lookup by done.
    cbn. rewrite lookup_empty. naive_solver. }
  assert (∀ ds d, d ∈ isort key_cmp ds ↔ d ∈ ds) as Hin by (intros; by rewrite isort_perm).
  split; [split|].
  - intros d k. unfold dep_edge. rewrite Hs, Hd.
    change (default ∅ (dependents !! d)) with (edges ((deps, dependents).2) d).
    rewrite Heq, deps_fold_edges. cbn. setoid_rewrite Hlk. split.
    + intros [?|(ds & ? & ?)]; [set_solver|]. exists (isort key_cmp ds). rewrite Hin. eauto.
    + intros (x & (ds & ? & ->) & Hx). rewrite Hin in Hx. eauto.
  - rewrite Hs. change dependents with ((deps, dependents).2). rewrite Heq.
    by apply deps_fold_no_empty.
  - rewrite Hd. intros k x (ds & Hkl & ->)%Hlk. apply sorted_ascending; [apply _|..].
    + apply isort_sorted; apply _.
    + rewrite isort_perm. by apply (Hall _ Hkl).
  - rewrite Hd. intros k x (ds & Hkl & ->)%Hlk. rewrite Hin. by apply (Hall _ Hkl).
  - rewrite Hd, HE. intros k [x (ds & Hkl & ->)%Hlk]%elem_of_dom. apply elem_of_dom.
    by destruct (Hall _ Hkl).
  - intros k x d (ds & Hkl & ->)%Hlk Hx. rewrite Hin in Hx. by apply (Hall _ Hkl).
Qed.

Lemma restored_cache_ok (s : ArtifactCacheSnapshot V) c : restored s = Ok c → cache_ok c.
Proof.
  unfold restored. intros (E & HE & H)%bind_ok.
  apply bind_ok in H as ([deps dependents] & Hdeps & H).
  do 3 apply bind_ok in H as (? & _ & H). apply seq_ok in H as [_ H].
  do 3 apply bind_ok in H as (? & _ & H). do 3 apply seq_ok in H as [_ H].
  apply ok_inj in H as <-. eapply restored_deps_ok; [exact Hdeps|done..].
Qed.

Lemma restore_deps_in_order c acc :
  cache_ok c →
  try_fold (restore_dependency (entries c)) (∅, ∅) (map_in_order key_cmp (dependencies c)) = Ok acc ↔
    (∀ k ds d, dependencies c !! k = Some ds → d ∈ ds → is_Some (entries c !! d)) ∧
    acc = (dependencies c, dependents c).
Proof.
  intros Hok. rewrite restore_dependencies_ok, Forall_forall.
  assert (foldl deps_step (∅, ∅) (map_in_order key_cmp (dependencies c)) =
    (dependencies c, dependents c)) as Hfold.
  { apply injective_projections; cbn [fst snd].
    - apply map_eq. intros k. apply option_eq. intros x.
      rewrite deps_fold_lookup by (apply map_in_order_NoDup; apply _).
      setoid_rewrite elem_of_map_in_order. cbn. rewrite lookup_empty. split.
      + intros [(ds & Hds & ->)|[_ ?]]; [|done].
        by rewrite ascending_isort by (by eapply co_ascending).
      + intros Hx. left. exists x. split; [done|]. symmetry. apply ascending_isort.
        by eapply co_ascending.
    - apply edges_ext.
      + by apply deps_fold_no_empty.
      + exact (co_nonempty _ Hok).
      + intros d. apply set_eq. intros k. rewrite deps_fold_edges. cbn.
        setoid_rewrite elem_of_map_in_order.
        change (k ∈ edges (dependents c) d) with (dep_edge c d k). rewrite (co_inverse _ Hok).
        set_solver. }
  rewrite Hfold. split.
  - intros (Hall & _ & _ & ->). split; [|done]. intros k ds d Hk Hd.
    apply (Hall (k, ds)); [by apply elem_of_map_in_order|done].
  - intros [Hin ->]. split_and!; [|apply map_in_order_NoDup; apply _|done|done].
    intros [k ds] Hk. apply elem_of_map_in_order in Hk. split; cbn.
    + apply elem_of_dom, (co_dom _ Hok), elem_of_dom. eauto.
    + split; [by eapply co_self|]. split; [|intros d; by apply (Hin k ds d)].
      eapply ascending_cmp_NoDup; [apply _|]. by eapply co_ascending.
Qed.

(** What a cache has to satisfy beyond consistency for its own snapshot to be
    accepted. *)
Record restorable c : Prop := {
  rs_deps : ∀ k ds d, dependencies c !! k = Some ds → d ∈ ds → is_Some (entries c !! d);
  rs_dirty : ∀ k r, dirty c !! k = Some r → invalidated_key r = k ∧ record_valid r;
  rs_heads : ∀ l k, lineage_heads c !! l = Some k →
    is_Some (entries c !! k) ∧ lineages c !! k = Some l;
  rs_lineages : ∀ k l, lineages c !! k = Some l →
    is_Some (entries c !! k) ∧ is_Some (lineage_heads c !! l);
  rs_ends : ∀ k, is_Some (lineages c !! k) → lineage_ends (lineages c) k;
  rs_by_key : ∀ k r, invalidation_by_key c !! k = Some r → record_valid r ∧ invalidated_key r = k;
  rs_by_lineage : ∀ l r, invalidation_by_lineage c !! l = Some r →
    record_valid r ∧ lineage_id r = Some l;
  rs_dirty_lineages : ∀ l r, dirty_lineages c !! l = Some r → record_valid r ∧ lineage_id r = Some l;
}.

Lemma check_lineage_head_ok (E : gmap ArtifactKey V) (lins : gmap ArtifactKey ArtifactKey) l k :
  check_lineage_head E lins (l, k) = Ok tt ↔ is_Some (E !! k) ∧ lins !! k = Some l.
Proof.
  unfold check_lineage_head. rewrite if_decide_err_ok, not_eq_None_Some.
  destruct (lins !! k) as [l'|]; [rewrite if_decide_ok|]; naive_solver.
Qed.

Lemma check_lineage_entry_ok (E : gmap ArtifactKey V) (heads : gmap ArtifactKey ArtifactKey) k l :
  check_lineage_entry E heads (k, l) = Ok tt ↔ is_Some (E !! k) ∧ is_Some (heads !! l).
Proof.
  unfold check_lineage_entry. rewrite !if_decide_err_ok, !not_eq_None_Some. naive_solver.
Qed.

Lemma validate_lineage_graph_ok (E : gmap ArtifactKey V) (heads lins : gmap ArtifactKey ArtifactKey) :
  validate_snapshot_lineage_graph E heads lins = Ok tt ↔
    (∀ l k, heads !! l = Some k → is_Some (E !! k) ∧ lins !! k = Some l) ∧
    (∀ k l, lins !! k = Some l → is_Some (E !! k) ∧ is_Some (heads !! l)) ∧
    (∀ k, is_Some (lins !! k) → lineage_ends lins k).
Proof.
  unfold validate_snapshot_lineage_graph. rewrite !seq_ok, !for_each_in_order. cbn [fst].
  setoid_rewrite check_lineage_head_ok. setoid_rewrite check_lineage_entry_ok.
  setoid_rewrite lineage_walk_ok. unfold is_Some. naive_solver.
Qed.

Lemma restored_snapshot c c' :
  cache_ok c → restored (snapshot c) = Ok c' ↔ restorable c ∧ c' = c.
Proof.
  intros Hok. unfold restored, snapshot.
  cbn [s_entries s_dependencies s_dirty s_lineage_heads s_lineages s_invalidation_by_key
    s_invalidation_by_lineage s_dirty_lineages s_stats].
  rewrite (bind_ok_det (entries c)) by by intros ? ?%restore_unique_in_order.
  rewrite (bind_ok_det (dependencies c, dependents c))
    by by intros ? [_ ?]%restore_deps_in_order.
  rewrite (bind_ok_det (dirty c)) by by intros ? [_ ?]%restore_dirty_in_order.
  rewrite (bind_ok_det (lineage_heads c)) by by intros ? ?%restore_unique_in_order.
  rewrite (bind_ok_det (lineages c)) by by intros ? ?%restore_unique_in_order.
  rewrite seq_ok.
  rewrite (bind_ok_det (invalidation_by_key c)) by by intros ? [_ ?]%restore_invalidation_in_order.
  rewrite (bind_ok_det (invalidation_by_lineage c))
    by by intros ? [_ ?]%restore_invalidation_in_order.
  rewrite (bind_ok_det (dirty_lineages c)) by by intros ? [_ ?]%restore_invalidation_in_order.
  rewrite !seq_ok, ok_inj, !restore_unique_in_order, restore_deps_in_order,
    restore_dirty_in_order, validate_lineage_graph_ok, !restore_invalidation_in_order,
    !check_record_keys_ok by done.
  setoid_rewrite bool_decide_eq_true. cbn [fst snd]. split.
  - intros (_ & [? _] & [? _] & _ & _ & (? & ? & ?) & [Hk _] & [Hl _] & [Hdl _] & Hk' & Hl' & Hdl' & <-).
    split; [|by destruct c]. split; try done.
    + intros k r Hr. split; [by apply (Hk k)|by apply Hk'].
    + intros k r Hr. split; [by apply (Hl k)|by apply Hl'].
    + intros k r Hr. split; [by apply (Hdl k)|by apply Hdl'].
  - intros [[] ->]. split_and!; try done; try (by destruct c).
    all: try (split; [|done]).
    all: try (intros k r Hr; split; [|intros ?]).
    all: naive_solver.
Qed.
End restore.

(** C7: the snapshot of a consistent cache can be restored, into any cache,
    exactly when the cache is [restorable], and then the restored cache is the
    original one: entries, dependency lists, the recomputed dependents index,
    lineages, invalidation records and statistics. A refused snapshot leaves the
    target cache unchanged. *)
Theorem snapshot_roundtrip {V} (c target : ArtifactCache V) :
  cache_ok c →
  (restorable c → restore_snapshot (snapshot c) target = (Ok tt, c)) ∧
  (¬ restorable c → ∃ e, restore_snapshot (snapshot c) target = (Err e, target)).
Proof.
  intros Hok. unfold restore_snapshot. destruct (restored (snapshot c)) as [c'|e] eqn:E.
  - apply restored_snapshot in E as [Hr ->]; [|done]. split; [done|tauto].
  - split; [|by eauto]. intros Hr. exfalso.
    assert (restored (snapshot c) = Ok c) as H by by apply restored_snapshot. congruence.
Qed.
