(* ===== verification/ArtifactOps.v ===== *)
(** The artifact cache as a state machine: every reachable cache is consistent,
    what a plain [store] does, and two behaviours of failing or partial calls
    ([caap/src/artifacts/cache.rs]). *)

From S2P Require Import Prelude Order Policy Source ArtifactDefs Artifacts ArtifactInvalidation ArtifactStore ArtifactRestore.

Inductive CacheOp (V : Type) :=
  | OpStore (key : ArtifactKey) (v : V) (deps : list ArtifactKey)
  | OpStoreLineage (key : ArtifactKey) (v : V) (deps : list ArtifactKey) (lineage : ArtifactKey)
  | OpGet (key : ArtifactKey)
  | OpHit
  | OpMiss
  | OpMarkDirty (record : ArtifactInvalidationRecord)
  | OpMarkBatch (records : list ArtifactInvalidationRecord)
  | OpInvalidateAll (reason : string)
  | OpRestore (s : ArtifactCacheSnapshot V)
  | OpRestoreFile (file : ArtifactCacheFile (V := V)).
Arguments OpStore {V}. Arguments OpStoreLineage {V}. Arguments OpGet {V}. Arguments OpHit {V}.
Arguments OpMiss {V}. Arguments OpMarkDirty {V}. Arguments OpMarkBatch {V}.
Arguments OpInvalidateAll {V}. Arguments OpRestore {V}. Arguments OpRestoreFile {V}.

(** The cache after a call, whether it succeeded or failed. *)
Definition run_cache_op {V} (op : CacheOp V) (c : ArtifactCache V) : ArtifactCache V :=
  match op with
  | OpStore key v deps => (store key v deps c).2
  | OpStoreLineage key v deps lineage => (store_with_lineage key v deps lineage c).2
  | OpGet key => (get key c).2
  | OpHit => record_cache_hit c
  | OpMiss => record_cache_miss c
  | OpMarkDirty record => (mark_dirty record c).2
  | OpMarkBatch records => (mark_dirty_batch records c).2
  | OpInvalidateAll reason => (invalidate_all reason c).2
  | OpRestore s => (restore_snapshot s c).2
  | OpRestoreFile file => (restore_cache_file file c).2
  end.

Inductive cache_reachable {V} : ArtifactCache V → Prop :=
  | cache_reach_new : cache_reachable cache_new
  | cache_reach_op c op : cache_reachable c → cache_reachable (run_cache_op op c).

Section ops.
Context {V : Type}.
Implicit Types c : ArtifactCache V.

Lemma cache_new_ok : cache_ok (cache_new (V := V)).
Proof.
  split; unfold dep_edge; cbn; intros *; rewrite ?lookup_empty; try done.
  split; [set_solver|]. by intros (ds & Hds & _).
Qed.

Lemma get_same key c : same_store c (get key c).2.
Proof. unfold get. destruct (is_dirty c key); [done|]. by destruct (entries c !! key). Qed.

Lemma restore_snapshot_ok (s : ArtifactCacheSnapshot V) c :
  cache_ok c → cache_ok (restore_snapshot s c).2.
Proof.
  unfold restore_snapshot. destruct (restored s) as [c'|e] eqn:E; [|done].
  intros _. by eapply restored_cache_ok.
Qed.

Lemma set_lineage_head_ok lineage key c : cache_ok c → cache_ok (set_lineage_head lineage key c).
Proof. intros []. by split. Qed.

Lemma store_with_lineage_ok key v deps lineage c :
  cache_ok c → cache_ok (store_with_lineage key v deps lineage c).2.
Proof.
  intros Hok. unfold store_with_lineage, se_get, se_lift, se_modify, mbind, se_bind.
  set (first := match lineage_heads c !! lineage with Some _ => _ | None => _ end).
  assert (same_store c (first c).2) as Hfirst.
  { unfold first. destruct (lineage_heads c !! lineage) as [previous|]; [|done].
    case_decide; [|done]. destruct (lineage_replaced_record _ _ _) as [r|]; [|done].
    destruct (generation_after c 2); [|done]. apply mark_dirty_same. }
  destruct (first c) as [[[]|e] c1]; [|by eapply same_store_ok]. cbn [snd] in Hfirst.
  pose proof (same_store_ok _ _ Hfirst Hok) as Hok1.
  destruct (next_generation c1); [|done]. by apply store_internal_ok, set_lineage_head_ok.
Qed.

Lemma run_cache_op_ok op c : cache_ok c → cache_ok (run_cache_op op c).
Proof.
  intros Hok. destruct op; cbn [run_cache_op].
  - by apply store_internal_ok.
  - by apply store_with_lineage_ok.
  - by eapply same_store_ok, Hok; apply get_same.
  - by destruct Hok; split.
  - by destruct Hok; split.
  - by eapply same_store_ok, Hok; apply mark_dirty_same.
  - by eapply same_store_ok, Hok; apply mark_dirty_batch_same.
  - by eapply same_store_ok, Hok; apply invalidate_all_same.
  - by apply restore_snapshot_ok.
  - unfold restore_cache_file, se_lift, mbind, se_bind.
    destruct (cache_file_validate file); [by apply restore_snapshot_ok|done].
Qed.
End ops.

(** C12: in every cache reachable from the empty one, failed calls and restored
    snapshots included, the [dependents] index is exactly the inverse of the
    dependency lists and holds no empty set, each list is strictly ascending
    without the key itself, and only stored artifacts have one. *)
Theorem reachable_cache_ok {V} (c : ArtifactCache V) : cache_reachable c → cache_ok c.
Proof.
  induction 1 as [|c op _ IH]; [apply cache_new_ok|by apply run_cache_op_ok].
Qed.

(** Two artifacts, the second built from the first. *)
Definition sample_cache : ArtifactCache N :=
  run_cache_op (OpStore ["b"] 2%N [["a"]]) (run_cache_op (OpStore ["a"] 1%N []) cache_new).

Lemma reachable_cache_ok_witness : cache_reachable sample_cache ∧ cache_ok sample_cache.
Proof.
  assert (cache_reachable sample_cache) as H by (apply cache_reach_op, cache_reach_op; constructor).
  split; [exact H|]. apply (reachable_cache_ok sample_cache H).
Defined.

Lemma sample_cache_ok : cache_ok sample_cache.
Proof. apply run_cache_op_ok, run_cache_op_ok, cache_new_ok. Qed.

Lemma sample_cache_restorable : restorable sample_cache.
Proof.
  assert (restored (snapshot sample_cache) = Ok sample_cache) as H by by vm_compute.
  apply restored_snapshot in H as [? _]; [done|apply sample_cache_ok].
Qed.

Lemma snapshot_roundtrip_witness :
  restore_snapshot (snapshot sample_cache) cache_new = (Ok tt, sample_cache).
Proof. apply (snapshot_roundtrip sample_cache cache_new sample_cache_ok), sample_cache_restorable. Defined.

(** What storing does to the index, whether or not the cache is consistent: the
    edges of the previous dependency list of [key] go, those of the new list come. *)
Lemma store_entry_edges {V} key (v : V) deps gen c d k :
  dep_edge (store_entry key v deps gen c) d k ↔
    (k = key ∧ d ∈ deps) ∨
    (dep_edge c d k ∧ ¬ (k = key ∧ d ∈ default [] (dependencies c !! key))).
Proof.
  change (dep_edge (store_entry key v deps gen c) d k) with
    (k ∈ edges (dependents (store_entry key v deps gen c)) d).
  change (dep_edge c d k) with (k ∈ edges (dependents c) d).
  cbn [store_entry dependents]. rewrite add_all_edges.
  assert (∀ m, m = match dependencies c !! key with
                   | Some old => foldl (drop_dependent key) (dependents c) old
                   | None => dependents c end →
    k ∈ edges m d ↔ k ∈ edges (dependents c) d ∧
      ¬ (k = key ∧ d ∈ default [] (dependencies c !! key))) as Hm.
  { intros m ->. destruct (dependencies c !! key) as [old|]; cbn; [|set_solver].
    rewrite drop_all_edges. case_decide; set_solver. }
  specialize (Hm _ eq_refl). case_decide; rewrite ?elem_of_union, ?elem_of_singleton, Hm;
    destruct (decide (k = key)); naive_solver.
Qed.

(** C23: a plain [store] fails without effect exactly for a self dependency or an
    exhausted generation counter. Otherwise it advances the generation by one, the
    value is stored with its dependencies sorted and without repetition, and the
    artifact is served unless its lineage is marked dirty. In the index of
    dependents the edges of the key's previous dependency list are dropped and those
    of the new list added, and no others; entries, dependency lists and dirty marks
    of other keys, lineages, lineage heads and invalidation records stay, so every
    other artifact is served as before. *)
Theorem store_exact {V} (c : ArtifactCache V) (key : ArtifactKey) (v : V)
    (deps : list ArtifactKey) :
  match store key v deps c with
  | (Err _, c') => c' = c ∧ (key ∈ deps ∨ (u64_max < generation (stats c) + 1)%N)
  | (Ok _, c') =>
      key ∉ deps ∧ (generation (stats c) + 1 ≤ u64_max)%N ∧
      stats c' = {| hits := hits (stats c); misses := misses (stats c);
                    generation := generation (stats c) + 1 |} ∧
      entries c' = <[key := v]> (entries c) ∧
      dependencies c' = <[key := dedup key_cmp (isort key_cmp deps)]> (dependencies c) ∧
      (∀ d k, dep_edge c' d k ↔ (k = key ∧ d ∈ deps) ∨
         (dep_edge c d k ∧ ¬ (k = key ∧ d ∈ default [] (dependencies c !! key)))) ∧
      dirty c' = delete key (dirty c) ∧ dirty_lineages c' = dirty_lineages c ∧
      lineages c' = lineages c ∧ lineage_heads c' = lineage_heads c ∧
      invalidation_by_key c' = invalidation_by_key c ∧
      invalidation_by_lineage c' = invalidation_by_lineage c ∧
      peek c' key = (if from_option (is_lineage_dirty c) false (lineages c !! key) then None
                     else Some v) ∧
      (∀ k, k ≠ key → peek c' k = peek c k)
  end.
Proof.
  unfold store. destruct (store_internal_spec key v deps c) as [(Hn & Hg & ->)|[Hor [e ->]]]; [|done].
  split_and!; try done.
  - cbn. by rewrite insert_delete_eq.
  - intros d k. rewrite store_entry_edges.
    assert (d ∈ dedup key_cmp (isort key_cmp deps) ↔ d ∈ deps) as ->; [|done].
    by rewrite dedup_elem_of, isort_perm by apply _.
  - unfold peek, is_dirty. cbn. rewrite lookup_delete_eq, lookup_insert_eq.
    rewrite bool_decide_eq_false_2 by by intros [? ?]. cbn.
    by destruct (lineages c !! key).
  - intros k Hk. unfold peek, is_dirty. cbn. by rewrite lookup_delete_ne, lookup_insert_ne.
Qed.


(** The snapshot of a consistent cache passes the validation of the cache's own file
    exactly when it can be restored. *)
Lemma cache_file_validate_ok {V} (c : ArtifactCache V) :
  cache_ok c → cache_file_validate (cache_file c) = Ok tt ↔ restorable c.
Proof.
  intros Hok. unfold cache_file_validate, cache_file, cache_file_new. cbn.
  unfold restore_snapshot. destruct (restored (snapshot c)) as [c'|e] eqn:E; cbn.
  - apply restored_snapshot in E as [? _]; [done|done].
  - split; [done|]. intros Hr. assert (restored (snapshot c) = Ok c); [|congruence].
    by apply restored_snapshot.
Qed.

(** C31: [store] does not ask whether the dependencies it is given are stored. On a
    consistent cache, with no self dependency and a generation left, it succeeds;
    but if any of the dependencies has no entry, the validation of the cache's own
    file (and with it saving the cache) refuses the result. If all are stored and
    the cache could be saved before, it still can. *)
Theorem dangling_dependency_not_saved {V} (c : ArtifactCache V) (key : ArtifactKey) (v : V)
    (deps : list ArtifactKey) :
  cache_ok c → key ∉ deps → (generation (stats c) + 1 ≤ u64_max)%N →
  ∃ c', store key v deps c = (Ok tt, c') ∧
    (∀ d, d ∈ deps → entries c !! d = None → ∃ e, cache_file_validate (cache_file c') = Err e) ∧
    (restorable c → (∀ d, d ∈ deps → is_Some (entries c !! d)) →
       cache_file_validate (cache_file c') = Ok tt).
Proof.
  intros Hok Hself Hgen. unfold store.
  destruct (store_internal_spec key v deps c) as [(_ & _ & E)|[[?|?] _]]; [|done|lia].
  pose proof (store_internal_ok key v deps c Hok) as Hok'. rewrite E in *. cbn [snd] in Hok'.
  set (ds := dedup key_cmp (isort key_cmp deps)) in *.
  assert (∀ d, d ∈ ds ↔ d ∈ deps) as Hds.
  { intros d. unfold ds. by rewrite dedup_elem_of, isort_perm by apply _. }
  eexists. split; [done|]. set (c' := store_entry _ _ _ _ _) in *. split.
  - intros d Hd Hn. destruct (cache_file_validate (cache_file c')) as [[]|e] eqn:Hv; [|by eauto].
    apply cache_file_validate_ok in Hv; [|done].
    destruct (rs_deps _ Hv key ds d) as [x Hx]; [cbn; by rewrite lookup_insert_eq|by apply Hds|].
    cbn in Hx. rewrite lookup_insert_ne in Hx by congruence. congruence.
  - intros Hr Hall. apply cache_file_validate_ok; [done|].
    assert (∀ k, is_Some (entries c !! k) → is_Some (entries c' !! k)) as Hgrow.
    { intros k Hk. cbn. rewrite is_Some_insert. by right. }
    split; try apply Hr.
    + intros k ds' d. cbn. rewrite insert_delete_eq.
      intros [[<- <-]|[_ Hk]]%lookup_insert_Some Hd; apply Hgrow;
        [by apply Hall, Hds|by eapply (rs_deps _ Hr)].
    + intros k r Hk. cbn in Hk. apply lookup_delete_Some in Hk as [_ Hk]. by apply (rs_dirty _ Hr).
    + intros l k Hk. destruct (rs_heads _ Hr l k Hk). split; [by apply Hgrow|done].
    + intros k l Hk. destruct (rs_lineages _ Hr k l Hk). split; [by apply Hgrow|done].
Qed.

Lemma dangling_dependency_not_saved_witness :
  ∃ c', store ["c"] 3%N [["z"]] sample_cache = (Ok tt, c') ∧
    ∃ e, cache_file_validate (cache_file c') = Err e.
Proof.
  destruct (dangling_dependency_not_saved sample_cache ["c"] 3%N [["z"]] sample_cache_ok)
    as (c' & H1 & H2 & _); [set_solver|vm_compute; discriminate|].
  exists c'. split; [exact H1|]. apply (H2 ["z"]); [set_solver|]. vm_compute. reflexivity.
Defined.
