(* ===== verification/Values.v ===== *)
(** Runtime values and the store they live in: [caap/src/values.rs].

    Values that the evaluator shares by reference ([Rc<RefCell<..>>] lists,
    maps, reference cells and environments; closures, macros, builtins and host
    objects) are locations; the store maps the mutable ones to their contents.
    Two values alias exactly when they carry the same location, so pointer
    equality is equality of locations. Tuples are immutable and compared by
    content. An [IndexMap] is its list of entries in insertion order. *)

From S2P Require Import Prelude Order Policy Source Ir.

(** Allocation addresses. *)
Abbreviation Loc := N (only parsing).

(** ** Floats *)

(** Exponent and fraction of the bit pattern. *)
Definition f64_is_nan (f : F64) : bool :=
  let magnitude := (f64_bits f mod 2 ^ 63)%N in (2 ^ 52 * 2047 <? magnitude)%N.

Definition f64_is_zero (f : F64) : bool := (f64_bits f mod 2 ^ 63 =? 0)%N.

(** [f64::total_cmp]: the order of the bit patterns as sign and magnitude. *)
Definition f64_key (f : F64) : Z :=
  let bits := Z.of_N (f64_bits f) in
  if (bits <? 2 ^ 63)%Z then bits else (2 ^ 63 - 1 - bits)%Z.

Definition f64_total_cmp (x y : F64) : comparison := Z.compare (f64_key x) (f64_key y).

(** IEEE [==] and [<]. *)
Definition f64_eqb (x y : F64) : bool :=
  negb (f64_is_nan x) && negb (f64_is_nan y)
  && ((f64_bits x =? f64_bits y)%N || (f64_is_zero x && f64_is_zero y)).

Definition f64_ltb (x y : F64) : bool :=
  negb (f64_is_nan x) && negb (f64_is_nan y)
  && negb (f64_is_zero x && f64_is_zero y) && (f64_key x <? f64_key y)%Z.

(** [i as f64], rounding to nearest, ties to even. *)
Definition f64_of_i64 (z : Z) : F64 :=
  if (z =? 0)%Z then {| f64_bits := 0 |}
  else
    let m := Z.abs z in
    let e := Z.log2 m in
    let mantissa :=
      if (e <=? 52)%Z then Z.shiftl m (52 - e)
      else
        let s := (e - 52)%Z in
        let q := Z.shiftr m s in
        let r := (m - Z.shiftl q s)%Z in
        let half := Z.shiftl 1 (s - 1) in
        if (half <? r)%Z || ((r =? half)%Z && Z.odd q) then (q + 1)%Z else q in
    let sign := if (z <? 0)%Z then (2 ^ 63)%Z else 0%Z in
    {| f64_bits := Z.to_N (sign + Z.shiftl (e + 1022) 52 + mantissa) |}.

(** ** Values *)

Inductive MapKey :=
  | KeyNull
  | KeyBool (b : bool)
  | KeyInt (i : Z)
  | KeyStr (s : string).

Global Instance MapKey_eq_dec : EqDecision MapKey.
Proof. solve_decision. Defined.

Inductive RuntimeValue :=
  | VNull
  | VBool (b : bool)
  | VInt (i : Z)
  | VFloat (f : F64)
  | VStr (s : string)
  | VBytes (bytes : list N)
  | VTuple (items : list RuntimeValue)
  | VClosure (l : Loc)
  | VMacro (l : Loc)
  | VBuiltin (l : Loc)
  | VHostFunction (l : Loc)
  | VHostObject (l : Loc)
  | VList (l : Loc)
  | VMap (l : Loc)
  | VRef (l : Loc)
  | VUninitializedTopLevel.

(** Induction through tuples. *)
Section value_ind.
Variable P : RuntimeValue → Prop.
Hypothesis Htuple : ∀ items, Forall P items → P (VTuple items).
Hypothesis Hother : ∀ v, (∀ items, v ≠ VTuple items) → P v.

Fixpoint value_ind (v : RuntimeValue) : P v :=
  match v as v return P v with
  | VTuple items =>
      Htuple items
        ((fix go (l : list RuntimeValue) : Forall P l :=
            match l with
            | [] => List.Forall_nil P
            | x :: l => List.Forall_cons P x l (value_ind x) (go l)
            end) items)
  | v => Hother v (ltac:(discriminate))
  end.
End value_ind.

Definition value_of_map_key (k : MapKey) : RuntimeValue :=
  match k with
  | KeyNull => VNull
  | KeyBool b => VBool b
  | KeyInt i => VInt i
  | KeyStr s => VStr s
  end.

Definition canonical_type_tag (value : RuntimeValue) : string :=
  match value with
  | VNull => "null"
  | VBool _ => "bool"
  | VInt _ => "int"
  | VFloat _ => "float"
  | VStr _ => "string"
  | VBytes _ => "bytes"
  | VList _ => "list"
  | VTuple _ => "tuple"
  | VMap _ => "map"
  | VClosure _ | VMacro _ | VBuiltin _ | VHostFunction _ => "callable"
  | VHostObject _ => "object"
  | VRef _ => "ref"
  | VUninitializedTopLevel => "null"
  end.

(** [PartialEq for RuntimeValue]: content for scalars and tuples, identity for
    everything shared. *)
Fixpoint value_eqb (a b : RuntimeValue) : bool :=
  match a, b with
  | VNull, VNull => true
  | VBool x, VBool y => Bool.eqb x y
  | VInt x, VInt y => (x =? y)%Z
  | VFloat x, VFloat y => f64_eqb x y
  | VStr x, VStr y => bool_decide (x = y)
  | VBytes x, VBytes y => bool_decide (x = y)
  | VTuple x, VTuple y =>
      (fix go (x y : list RuntimeValue) : bool :=
         match x, y with
         | [], [] => true
         | v :: x, w :: y => value_eqb v w && go x y
         | _, _ => false
         end) x y
  | VClosure x, VClosure y | VMacro x, VMacro y | VBuiltin x, VBuiltin y
  | VHostFunction x, VHostFunction y | VHostObject x, VHostObject y
  | VList x, VList y | VMap x, VMap y | VRef x, VRef y => (x =? y)%N
  | VUninitializedTopLevel, VUninitializedTopLevel => true
  | _, _ => false
  end.

(** ** The store *)

Record Environment := {
  env_parent : option Loc;
  bindings : gmap string nat;
  slots : list RuntimeValue;
}.

Record Store := {
  st_lists : gmap Loc (list RuntimeValue);
  st_maps : gmap Loc (list (MapKey * RuntimeValue));
  st_refs : gmap Loc RuntimeValue;
  st_envs : gmap Loc Environment;
  st_next : Loc;
}.

Definition set_envs (v : gmap Loc Environment) (st : Store) : Store :=
  {| st_lists := st_lists st; st_maps := st_maps st; st_refs := st_refs st; st_envs := v;
     st_next := st_next st |}.

(** [IndexMap::get]. *)
Definition index_map_get {A} (k : MapKey) (m : list (MapKey * A)) : option A :=
  (list_find (λ e, e.1 = k) m) ≫= λ '(_, e), Some e.2.

Definition list_items (st : Store) (l : Loc) : list RuntimeValue := default [] (st_lists st !! l).
Definition map_entries (st : Store) (l : Loc) : list (MapKey * RuntimeValue) :=
  default [] (st_maps st !! l).

Definition is_truthy (st : Store) (v : RuntimeValue) : bool :=
  match v with
  | VNull => false
  | VBool b => b
  | VInt i => negb (i =? 0)%Z
  | VFloat f => negb (f64_eqb f {| f64_bits := 0 |})
  | VStr s => negb (bool_decide (s = ""))
  | VBytes b => negb (bool_decide (b = []))
  | VTuple items => negb (match items with [] => true | _ => false end)
  | VClosure _ | VMacro _ | VBuiltin _ | VHostFunction _ | VHostObject _ => true
  | VList l => negb (match list_items st l with [] => true | _ => false end)
  | VMap l => negb (match map_entries st l with [] => true | _ => false end)
  | VRef _ => true
  | VUninitializedTopLevel => false
  end.

(** ** Signals *)

Inductive EvalSignal :=
  | SigLeave (target_block_id : NodeId) (value : RuntimeValue)
  | SigError (error : EvaluationError)
  | SigException (value : RuntimeValue)
  | SigTailCall (token : Loc) (args : list RuntimeValue).

Definition eval_err (msg : string) : EvalSignal := SigError (evaluation_error_new msg).

(** ** Properties of the floats *)

Global Instance F64_inhabited : Inhabited F64 := populate {| f64_bits := 0 |}.

Lemma f64_key_inj x y : f64_key x = f64_key y → x = y.
Proof.
  destruct x as [x], y as [y]. unfold f64_key. cbn [f64_bits].
  destruct (Z.ltb_spec (Z.of_N x) (2 ^ 63)), (Z.ltb_spec (Z.of_N y) (2 ^ 63)); intros H'; f_equal; lia.
Qed.

Global Instance f64_total : TotalCmp f64_total_cmp.
Proof.
  split; unfold f64_total_cmp.
  - intros x y. rewrite Z.compare_eq_iff. split; [apply f64_key_inj|by intros ->].
  - intros x y. apply Z.compare_antisym.
  - intros x y z. rewrite !Z.compare_lt_iff. lia.
Qed.
