(* ===== verification/Env.v ===== *)
(** Lexical environments: [Environment] of [caap/src/values.rs].

    An environment is a location of the store; its parent is fixed when it is
    created. The loops along the parent chain run on fuel [S e] for the
    environment at location [e]: a parent is allocated before its children, so
    locations strictly decrease along the chain (see [env_wf]). *)

From S2P Require Import Prelude Order Policy Source Ir Values.

Record LexicalAddress := { depth : nat; slot : nat }.

Definition env_new (parent : option Loc) (st : Store) : Loc * Store :=
  (st_next st,
   {| st_lists := st_lists st; st_maps := st_maps st; st_refs := st_refs st;
      st_envs := <[st_next st := {| env_parent := parent; bindings := ∅; slots := [] |}]> (st_envs st);
      st_next := st_next st + 1 |}).

Definition define_local (self : Environment) (name : string) (value : RuntimeValue) : Environment :=
  let fresh := {| env_parent := env_parent self;
                  bindings := <[name := length (slots self)]> (bindings self);
                  slots := slots self ++ [value] |} in
  match bindings self !! name with
  | Some slot =>
      match slots self !! slot with
      | Some _ => {| env_parent := env_parent self; bindings := bindings self;
                     slots := <[slot := value]> (slots self) |}
      | None => fresh
      end
  | None => fresh
  end.

(** Update of one environment in place. *)
Definition alter_env (f : Environment → Environment) (e : Loc) (st : Store) : Store :=
  set_envs (alter f e (st_envs st)) st.

Definition define (e : Loc) (name : string) (value : RuntimeValue) (st : Store) : Store :=
  alter_env (λ env, define_local env name value) e st.

Definition define_uninitialized (e : Loc) (name : string) (st : Store) : Store :=
  define e name VUninitializedTopLevel st.

Definition env_clear (e : Loc) (st : Store) : Store :=
  alter_env (λ env, {| env_parent := env_parent env; bindings := ∅; slots := [] |}) e st.

Abbreviation EnvResult := (Result EvaluationError).

Definition checked_slot_value (env : Environment) (name : string) (slot : nat) :
    EnvResult RuntimeValue :=
  match slots env !! slot with
  | None => Err (evaluation_error_new ("environment slot for " +:+ debug_str name +:+ " is missing"))
  | Some VUninitializedTopLevel =>
      Err (evaluation_error_new
             ("name " +:+ debug_str name +:+ " was accessed before initialization"))
  | Some value => Ok value
  end.

(** ** Resolution *)

Fixpoint resolve_loop (fuel : nat) (st : Store) (current : option Loc) (name : string) (d : nat) :
    EnvResult (option (LexicalAddress * RuntimeValue)) :=
  match fuel, current with
  | S fuel, Some e =>
      match st_envs st !! e with
      | None => Ok None
      | Some env =>
          match bindings env !! name with
          | Some slot =>
              value ← checked_slot_value env name slot;
              Ok (Some ({| depth := d; slot := slot |}, value))
          | None => resolve_loop fuel st (env_parent env) name (S d)
          end
      end
  | _, _ => Ok None
  end.

Definition chain_fuel (e : Loc) : nat := S (N.to_nat e).

Definition resolve_exact (st : Store) (e : Loc) (name : string) :
    EnvResult (option (LexicalAddress * RuntimeValue)) :=
  resolve_loop (chain_fuel e) st (Some e) name 0.

(** [address.depth] steps outwards; [None] when a nearer frame binds [name] or the
    chain ends. *)
Fixpoint walk_to (d : nat) (st : Store) (e : Loc) (name : string) : option Environment :=
  match st_envs st !! e with
  | None => None
  | Some env =>
      match d with
      | 0 => Some env
      | S d =>
          match bindings env !! name with
          | Some _ => None
          | None => match env_parent env with
                    | None => None
                    | Some p => walk_to d st p name
                    end
          end
      end
  end.

Definition lookup_address (st : Store) (e : Loc) (name : string) (address : LexicalAddress) :
    EnvResult (option RuntimeValue) :=
  match walk_to (depth address) st e name with
  | None => Ok None
  | Some env =>
      if decide (bindings env !! name = Some (slot address)) then
        value ← checked_slot_value env name (slot address);
        Ok (Some value)
      else Ok None
  end.

(** ** Qualified names *)

(** Proper dots of a name, last first: prefix and suffix around each. *)
Fixpoint dot_splits (before : string) (s : string) : list (string * string) :=
  match s with
  | EmptyString => []
  | String c s =>
      let rest := dot_splits (before +:+ String c EmptyString) s in
      if (char_code c =? 46)%nat then
        if decide (before ≠ "" ∧ s ≠ "") then rest ++ [(before, s)] else rest
      else rest
  end.

Definition resolve_qualified_suffix (st : Store) (value : RuntimeValue) (suffix : string) :
    option RuntimeValue :=
  let segments := filter (λ s, s ≠ "") (split_dots suffix) in
  match segments with
  | [] => None
  | _ =>
      foldl (λ acc segment,
        match acc with
        | Some (VMap l) => index_map_get (KeyStr segment) (map_entries st l)
        | _ => None
        end) (Some value) segments
  end.

(** The loop over the dots in one frame: an answer, or whether a prefix matched. *)
Fixpoint qualified_in_frame (st : Store) (env : Environment) (splits : list (string * string))
    (matched : bool) : EnvResult (RuntimeValue + bool) :=
  match splits with
  | [] => Ok (inr matched)
  | (prefix, suffix) :: splits =>
      match bindings env !! prefix with
      | None => qualified_in_frame st env splits matched
      | Some value_slot =>
          value ← checked_slot_value env prefix value_slot;
          match resolve_qualified_suffix st value suffix with
          | Some v => Ok (inl v)
          | None => qualified_in_frame st env splits true
          end
      end
  end.

Fixpoint qualified_loop (fuel : nat) (st : Store) (current : option Loc)
    (splits : list (string * string)) : EnvResult (option RuntimeValue) :=
  match fuel, current with
  | S fuel, Some e =>
      match st_envs st !! e with
      | None => Ok None
      | Some env =>
          r ← qualified_in_frame st env splits false;
          match r with
          | inl v => Ok (Some v)
          | inr true => Ok None
          | inr false => qualified_loop fuel st (env_parent env) splits
          end
      end
  | _, _ => Ok None
  end.

Definition lookup_qualified (st : Store) (e : Loc) (name : string) :
    EnvResult (option RuntimeValue) :=
  match dot_splits "" name with
  | [] => Ok None
  | splits => qualified_loop (chain_fuel e) st (Some e) splits
  end.

Definition try_lookup (st : Store) (e : Loc) (name : string) : EnvResult (option RuntimeValue) :=
  r ← resolve_exact st e name;
  match r with
  | Some (_, value) => Ok (Some value)
  | None => if str_contains "." name then lookup_qualified st e name else Ok None
  end.

Definition lookup (st : Store) (e : Loc) (name : string) : EnvResult RuntimeValue :=
  r ← try_lookup st e name;
  ok_or r (evaluation_error_new ("unknown name: " +:+ name)).

(** The bindings of one scope; the source lists them in hash order. *)
Definition snapshot_bindings (st : Store) (e : Loc) : gmap string RuntimeValue :=
  match st_envs st !! e with
  | Some env => omap (λ slot, slots env !! slot) (bindings env)
  | None => ∅
  end.

Definition parent_env (st : Store) (e : Loc) : option Loc := st_envs st !! e ≫= env_parent.

(** ** Assignment *)

Definition set_slot (e : Loc) (s : nat) (value : RuntimeValue) (st : Store) : Store :=
  alter_env (λ env, {| env_parent := env_parent env; bindings := bindings env;
                       slots := <[s := value]> (slots env) |}) e st.

Fixpoint assign_loop (fuel : nat) (current : option Loc) (name : string) (value : RuntimeValue)
    (d : nat) (st : Store) : EnvResult LexicalAddress * Store :=
  match fuel, current with
  | S fuel, Some e =>
      match st_envs st !! e with
      | None => (Err (evaluation_error_new ("undefined variable: " +:+ name)), st)
      | Some env =>
          match bindings env !! name with
          | Some slot =>
              if (length (slots env) <=? slot)%nat then
                (Err (evaluation_error_new ("binding slot for " +:+ name +:+ " is out of range")), st)
              else (Ok {| depth := d; slot := slot |}, set_slot e slot value st)
          | None => assign_loop fuel (env_parent env) name value (S d) st
          end
      end
  | _, _ => (Err (evaluation_error_new ("undefined variable: " +:+ name)), st)
  end.

Definition assign_resolved (e : Loc) (name : string) (value : RuntimeValue) (st : Store) :
    EnvResult LexicalAddress * Store :=
  assign_loop (chain_fuel e) (Some e) name value 0 st.

Definition assign (e : Loc) (name : string) (value : RuntimeValue) (st : Store) :
    EnvResult unit * Store :=
  match assign_resolved e name value st with
  | (Ok _, st) => (Ok tt, st)
  | (Err err, st) => (Err err, st)
  end.

(** The location [address.depth] steps outwards, as in [lookup_address]. *)
Fixpoint walk_loc (d : nat) (st : Store) (e : Loc) (name : string) : option Loc :=
  match st_envs st !! e with
  | None => None
  | Some env =>
      match d with
      | 0 => Some e
      | S d =>
          match bindings env !! name with
          | Some _ => None
          | None => match env_parent env with
                    | None => None
                    | Some p => walk_loc d st p name
                    end
          end
      end
  end.

(** [Ok (Some value)] hands the value back: the address is stale. *)
Definition try_assign_address (e : Loc) (name : string) (address : LexicalAddress)
    (value : RuntimeValue) (st : Store) : EnvResult (option RuntimeValue) * Store :=
  match walk_loc (depth address) st e name with
  | None => (Ok (Some value), st)
  | Some target =>
      match st_envs st !! target with
      | None => (Ok (Some value), st)
      | Some env =>
          if decide (bindings env !! name = Some (slot address)) then
            if (length (slots env) <=? slot address)%nat then
              (Err (evaluation_error_new ("binding slot for " +:+ name +:+ " is out of range")), st)
            else (Ok None, set_slot target (slot address) value st)
          else (Ok (Some value), st)
      end
  end.
