(* ===== verification/EnvProps.v ===== *)
(** Properties of lexical environments ([Environment] of [caap/src/values.rs]):
    a cached address answers exactly as name resolution does, and assignment
    changes exactly one variable. *)

From S2P Require Import Prelude Order Policy Source Ir Values Env.

(** Every binding points to a slot of its own. *)
Record env_ok (env : Environment) : Prop := {
  eo_range : ∀ n s, bindings env !! n = Some s → s < length (slots env);
  eo_inj : ∀ n m s, bindings env !! n = Some s → bindings env !! m = Some s → n = m;
}.

(** Environments are consistent and a parent is older than its children. *)
Record store_wf (st : Store) : Prop := {
  sw_env : ∀ e env, st_envs st !! e = Some env → env_ok env;
  sw_next : ∀ e, is_Some (st_envs st !! e) → (e < st_next st)%N;
  sw_parent : ∀ e env p, st_envs st !! e = Some env → env_parent env = Some p →
    (p < e)%N ∧ is_Some (st_envs st !! p);
}.

(** [name], seen from [e], is slot [s] of the environment [t], [d] frames out. *)
Inductive resolves (st : Store) (name : string) : Loc → nat → Loc → nat → Prop :=
  | res_here e env s :
      st_envs st !! e = Some env → bindings env !! name = Some s → resolves st name e 0 e s
  | res_outer e env p d t s :
      st_envs st !! e = Some env → bindings env !! name = None → env_parent env = Some p →
      resolves st name p d t s → resolves st name e (S d) t s.

Lemma resolves_det st name e d1 t1 s1 d2 t2 s2 :
  resolves st name e d1 t1 s1 → resolves st name e d2 t2 s2 → d1 = d2 ∧ t1 = t2 ∧ s1 = s2.
Proof.
  intros H1. revert d2 t2 s2.
  induction H1 as [e env s He Hb|e env p d t s He Hb Hp _ IH]; intros d2 t2 s2 H2;
    inversion H2; simplify_eq; [done|]. naive_solver.
Qed.

Lemma resolves_target st name e d t s :
  resolves st name e d t s → ∃ env, st_envs st !! t = Some env ∧ bindings env !! name = Some s.
Proof. induction 1; eauto. Qed.

(** ** Resolution *)

Section resolution.
Context (st : Store) (Hwf : store_wf st).

Lemma resolve_loop_spec name fuel e d0 :
  N.to_nat e < fuel →
  match resolve_loop fuel st (Some e) name d0 with
  | Ok None => ∀ d t s, ¬ resolves st name e d t s
  | Ok (Some (a, v)) => ∃ d t env, resolves st name e d t (slot a) ∧ depth a = d0 + d ∧
      st_envs st !! t = Some env ∧ checked_slot_value env name (slot a) = Ok v
  | Err err => ∃ d t s env, resolves st name e d t s ∧ st_envs st !! t = Some env ∧
      checked_slot_value env name s = Err err
  end.
Proof.
  revert e d0. induction fuel as [|fuel IH]; intros e d0 Hf; [lia|]. cbn [resolve_loop].
  destruct (st_envs st !! e) as [env|] eqn:He.
  2:{ intros d t s Hr. inversion Hr; congruence. }
  destruct (bindings env !! name) as [s|] eqn:Hb.
  { destruct (checked_slot_value env name s) as [v|err] eqn:Hv; cbn.
    - exists 0, e, env. split; [by eapply res_here|]. split; [lia|done].
    - exists 0, e, s, env. split; [by eapply res_here|done]. }
  destruct (env_parent env) as [p|] eqn:Hp.
  2:{ assert (resolve_loop fuel st None name (S d0) = Ok None) as -> by by destruct fuel.
      intros d t s Hr. inversion Hr; congruence. }
  destruct (sw_parent _ Hwf e env p He Hp) as [Hlt _].
  specialize (IH p (S d0) ltac:(lia)).
  destruct (resolve_loop fuel st (Some p) name (S d0)) as [[[a v]|]|err].
  - destruct IH as (d & t & env' & Hr & Hd & ? & ?). exists (S d), t, env'.
    split; [by eapply res_outer|]. split; [lia|done].
  - intros d t s Hr. inversion Hr; simplify_eq. by eapply IH.
  - destruct IH as (d & t & s & env' & Hr & ? & ?). exists (S d), t, s, env'.
    split; [by eapply res_outer|done].
Qed.

Lemma resolve_exact_some name e a v :
  resolve_exact st e name = Ok (Some (a, v)) ↔
    ∃ t env, resolves st name e (depth a) t (slot a) ∧ st_envs st !! t = Some env ∧
      checked_slot_value env name (slot a) = Ok v.
Proof.
  pose proof (resolve_loop_spec name (chain_fuel e) e 0) as H. unfold chain_fuel in *.
  specialize (H ltac:(lia)). unfold resolve_exact, chain_fuel.
  destruct (resolve_loop _ _ _ _ _) as [[[a' v']|]|err].
  - destruct H as (d & t & env & Hr & Hd & Ht & Hv). cbn in Hd. subst d. split.
    + intros [= <- <-]. eauto.
    + intros (t' & env' & Hr' & Ht' & Hv').
      destruct (resolves_det _ _ _ _ _ _ _ _ _ Hr Hr') as (Hd & <- & Hs).
      assert (env' = env) as -> by congruence.
      destruct a as [da sa], a' as [da' sa']. cbn [depth slot] in *. subst.
      rewrite Hv in Hv'. by injection Hv' as ->.
  - split; [done|]. intros (t & env & Hr & _). by destruct (H _ _ _ Hr).
  - split; [done|]. intros (t & env & Hr & Ht & Hv).
    destruct H as (d & t' & s & env' & Hr' & Ht' & Hv').
    destruct (resolves_det _ _ _ _ _ _ _ _ _ Hr Hr') as (_ & <- & <-). congruence.
Qed.

Lemma walk_to_spec name d e s env :
  walk_to d st e name = Some env ∧ bindings env !! name = Some s ↔
    ∃ t, resolves st name e d t s ∧ st_envs st !! t = Some env.
Proof.
  revert e. induction d as [|d IH]; intros e; cbn [walk_to];
    destruct (st_envs st !! e) as [env'|] eqn:He.
  - split.
    + intros [[= ->] Hb]. exists e. split; [by eapply res_here|done].
    + intros (t & Hr & Ht). inversion Hr; simplify_eq. by split.
  - split; [by intros [? _]|]. intros (t & Hr & Ht). inversion Hr; congruence.
  - destruct (bindings env' !! name) as [s'|] eqn:Hb.
    { split; [by intros [? _]|]. intros (t & Hr & Ht). inversion Hr; congruence. }
    destruct (env_parent env') as [p|] eqn:Hp.
    + rewrite IH. split.
      * intros (t & Hr & Ht). exists t. split; [by eapply res_outer|done].
      * intros (t & Hr & Ht). inversion Hr; simplify_eq. eauto.
    + split; [by intros [? _]|]. intros (t & Hr & Ht). inversion Hr; congruence.
  - split; [by intros [? _]|]. intros (t & Hr & Ht). inversion Hr; congruence.
Qed.

Lemma lookup_address_some name e a v :
  lookup_address st e name a = Ok (Some v) ↔
    ∃ t env, resolves st name e (depth a) t (slot a) ∧ st_envs st !! t = Some env ∧
      checked_slot_value env name (slot a) = Ok v.
Proof.
  unfold lookup_address. split.
  - destruct (walk_to _ _ _ _) as [env|] eqn:Hw; [|done]. case_decide as Hb; [|done].
    intros (v' & Hv & [= <-])%bind_ok.
    destruct (proj1 (walk_to_spec name _ e (slot a) env) (conj Hw Hb)) as (t & ? & ?). eauto.
  - intros (t & env & Hr & Ht & Hv).
    destruct (proj2 (walk_to_spec name (depth a) e (slot a) env)) as [-> Hb]; [by eauto|].
    rewrite decide_True by done. by rewrite Hv.
Qed.
End resolution.

(** C6: a cached lexical address is as good as resolving the name: in a
    consistent store [lookup_address] at [a] returns a value exactly when the
    name currently resolves to that address with that value. A frame inserted in
    between, a shadowing definition or a moved slot makes the address miss, never
    answer for another variable. *)
Theorem lookup_address_exact (st : Store) (e : Loc) (name : string) (a : LexicalAddress)
    (v : RuntimeValue) :
  store_wf st →
  lookup_address st e name a = Ok (Some v) ↔ resolve_exact st e name = Ok (Some (a, v)).
Proof. intros Hwf. by rewrite lookup_address_some, resolve_exact_some. Qed.

(** ** Consistency of the operations *)

Lemma envs_alter_env f e st t :
  st_envs (alter_env f e st) !! t = if decide (e = t) then f <$> st_envs st !! t else st_envs st !! t.
Proof. cbn. case_decide; subst; [by rewrite lookup_alter_eq|by apply lookup_alter_ne]. Qed.

Lemma alter_env_wf f e st :
  (∀ env, env_ok env → env_ok (f env)) → (∀ env, env_parent (f env) = env_parent env) →
  store_wf st → store_wf (alter_env f e st).
Proof.
  intros Hok Hpar [We Wn Wp].
  assert (∀ t, is_Some (st_envs (alter_env f e st) !! t) ↔ is_Some (st_envs st !! t)) as Hdom.
  { intros t. rewrite envs_alter_env. case_decide; [by rewrite fmap_is_Some|done]. }
  split.
  - intros t env. rewrite envs_alter_env. case_decide; [|by apply We].
    intros (env0 & H0 & ->)%fmap_Some. eauto.
  - intros t. rewrite Hdom. apply Wn.
  - intros t env p. rewrite envs_alter_env, Hdom. case_decide; [|by apply Wp].
    intros (env0 & H0 & ->)%fmap_Some. rewrite Hpar. by apply Wp.
Qed.

Lemma env_ok_fresh (env : Environment) name v :
  env_ok env →
  env_ok {| env_parent := env_parent env; bindings := <[name := length (slots env)]> (bindings env);
            slots := slots env ++ [v] |}.
Proof.
  intros [Hr Hi]. split; cbn.
  - intros n s. rewrite length_app, lookup_insert_Some. cbn.
    intros [[_ <-]|[_ H%Hr]]; lia.
  - intros n m s. rewrite !lookup_insert_Some.
    intros [[<- <-]|[? Hn]] [[<- Hm]|[? Hm]]; [done| | |by eapply Hi].
    + apply Hr in Hm. lia.
    + subst s. apply Hr in Hn. lia.
Qed.

Lemma env_ok_set_slots (env : Environment) s v :
  env_ok env →
  env_ok {| env_parent := env_parent env; bindings := bindings env; slots := <[s := v]> (slots env) |}.
Proof. intros [Hr Hi]. split; cbn; [by intros n i; rewrite length_insert; apply Hr|done]. Qed.

(** Under consistency a defined name keeps its slot, a new one gets a fresh slot. *)
Lemma define_local_cases env name v :
  env_ok env →
  define_local env name v =
    match bindings env !! name with
    | Some s => {| env_parent := env_parent env; bindings := bindings env;
                   slots := <[s := v]> (slots env) |}
    | None => {| env_parent := env_parent env;
                 bindings := <[name := length (slots env)]> (bindings env);
                 slots := slots env ++ [v] |}
    end.
Proof.
  intros [Hr _]. unfold define_local. destruct (bindings env !! name) as [s|] eqn:Hb; [|done].
  destruct (slots env !! s) eqn:Hs; [done|].
  apply Hr in Hb. apply lookup_ge_None in Hs. lia.
Qed.

Lemma define_local_ok env name v : env_ok env → env_ok (define_local env name v).
Proof.
  intros H. rewrite define_local_cases by done.
  destruct (bindings env !! name); [by apply env_ok_set_slots|by apply env_ok_fresh].
Qed.

Lemma define_local_parent env name v : env_parent (define_local env name v) = env_parent env.
Proof. unfold define_local. by repeat case_match. Qed.

Lemma define_wf e name v st : store_wf st → store_wf (define e name v st).
Proof. apply alter_env_wf; [intros; by apply define_local_ok|intros; apply define_local_parent]. Qed.

Lemma env_clear_wf e st : store_wf st → store_wf (env_clear e st).
Proof. by apply alter_env_wf. Qed.

Lemma set_slot_wf e s v st : store_wf st → store_wf (set_slot e s v st).
Proof. apply alter_env_wf; [intros; by apply env_ok_set_slots|done]. Qed.

Lemma env_new_wf parent st :
  store_wf st → (∀ p, parent = Some p → is_Some (st_envs st !! p)) → store_wf (env_new parent st).2.
Proof.
  intros [We Wn Wp] Hpar. split; cbn [env_new snd st_envs st_next].
  - intros t env. rewrite lookup_insert_Some. intros [[_ <-]|[_ H]]; [by split|by eapply We].
  - intros t. rewrite lookup_insert_is_Some. intros [<-|[_ H%Wn]]; lia.
  - intros t env p. rewrite lookup_insert_Some, lookup_insert_is_Some'.
    intros [[<- <-]|[? Ht]]; cbn [env_parent].
    + intros Hp. destruct (Hpar _ Hp) as [penv He]. split; [by apply Wn|by eauto].
    + intros Hp. destruct (Wp _ _ _ Ht Hp). auto.
Qed.

(** ** Assignment *)

Lemma walk_loc_spec name d e t s st :
  walk_loc d st e name = Some t ∧ (∃ env, st_envs st !! t = Some env ∧ bindings env !! name = Some s) ↔
    resolves st name e d t s.
Proof.
  revert e. induction d as [|d IH]; intros e; cbn [walk_loc];
    destruct (st_envs st !! e) as [env'|] eqn:He.
  - split.
    + intros ([= <-] & env & Ht & Hb). simplify_eq. by eapply res_here.
    + intros Hr. inversion Hr; simplify_eq. eauto.
  - split; [by intros [? _]|]. intros Hr. inversion Hr; congruence.
  - destruct (bindings env' !! name) as [s'|] eqn:Hb.
    { split; [by intros [? _]|]. intros Hr. inversion Hr; congruence. }
    destruct (env_parent env') as [p|] eqn:Hp.
    + rewrite IH. split; [intros Hr; by eapply res_outer|]. intros Hr. inversion Hr; by simplify_eq.
    + split; [by intros [? _]|]. intros Hr. inversion Hr; congruence.
  - split; [by intros [? _]|]. intros Hr. inversion Hr; congruence.
Qed.

Section assignment.
Context (st : Store) (Hwf : store_wf st).

Lemma slot_in_range name e d t s env :
  resolves st name e d t s → st_envs st !! t = Some env → (length (slots env) <=? s)%nat = false.
Proof.
  intros Hr Ht. destruct (resolves_target _ _ _ _ _ _ Hr) as (env' & Ht' & Hb). simplify_eq.
  apply Nat.leb_gt. eapply eo_range; [by eapply sw_env|done].
Qed.

Lemma assign_loop_ok name v fuel e d0 a st' :
  N.to_nat e < fuel →
  assign_loop fuel (Some e) name v d0 st = (Ok a, st') ↔
    ∃ d t, resolves st name e d t (slot a) ∧ depth a = d0 + d ∧ st' = set_slot t (slot a) v st.
Proof.
  revert e d0. induction fuel as [|fuel IH]; intros e d0 Hf; [lia|]. cbn [assign_loop].
  destruct (st_envs st !! e) as [env|] eqn:He.
  2:{ split; [done|]. intros (d & t & Hr & _). inversion Hr; congruence. }
  destruct (bindings env !! name) as [s|] eqn:Hb.
  { assert (resolves st name e 0 e s) as Hr by (by eapply res_here).
    rewrite (slot_in_range _ _ _ _ _ _ Hr He). split.
    - intros [= <- <-]. exists 0, e. cbn. split; [done|]. split; [lia|done].
    - intros (d & t & Hr' & Hd & ->).
      destruct (resolves_det _ _ _ _ _ _ _ _ _ Hr Hr') as (<- & <- & Hs).
      destruct a as [da sa]. cbn in *. subst. by rewrite Nat.add_0_r. }
  destruct (env_parent env) as [p|] eqn:Hp.
  2:{ assert (assign_loop fuel None name v (S d0) st =
        (Err (evaluation_error_new ("undefined variable: " +:+ name)), st)) as -> by by destruct fuel.
      split; [done|]. intros (d & t & Hr & _). inversion Hr; congruence. }
  destruct (sw_parent _ Hwf e env p He Hp) as [Hlt _]. rewrite IH by lia. split.
  - intros (d & t & Hr & Hd & ->). exists (S d), t. split; [by eapply res_outer|]. split; [lia|done].
  - intros (d & t & Hr & Hd & ->). inversion Hr; simplify_eq. eexists _, t. split; [done|]. split; [lia|done].
Qed.

Lemma assign_resolved_ok name v e a st' :
  assign_resolved e name v st = (Ok a, st') ↔
    ∃ t, resolves st name e (depth a) t (slot a) ∧ st' = set_slot t (slot a) v st.
Proof.
  unfold assign_resolved, chain_fuel. rewrite assign_loop_ok by lia. split.
  - intros (d & t & Hr & Hd & ->). cbn in Hd. subst d. eauto.
  - intros (t & Hr & ->). eexists _, t. eauto.
Qed.

Lemma try_assign_address_ok name v e a st' :
  try_assign_address e name a v st = (Ok None, st') ↔
    ∃ t, resolves st name e (depth a) t (slot a) ∧ st' = set_slot t (slot a) v st.
Proof.
  unfold try_assign_address. split.
  - destruct (walk_loc _ _ _ _) as [t|] eqn:Hw; [|done].
    destruct (st_envs st !! t) as [env|] eqn:Ht; [|done]. case_decide as Hb; [|done].
    destruct (_ <=? _)%nat; [done|]. intros [= <-]. exists t. split; [|done].
    apply walk_loc_spec. eauto.
  - intros (t & Hr & ->). destruct (proj2 (walk_loc_spec _ _ _ _ _ _) Hr) as (Hw & env & Ht & Hb).
    rewrite Hw, Ht, decide_True by done. by rewrite (slot_in_range _ _ _ _ _ _ Hr Ht).
Qed.

(** A stale address is reported by handing the value back, with the store untouched:
    on a consistent store these are the only two outcomes. *)
Lemma try_assign_address_stale name v e a :
  (∀ t, ¬ resolves st name e (depth a) t (slot a)) →
  try_assign_address e name a v st = (Ok (Some v), st).
Proof.
  intros Hno. unfold try_assign_address. destruct (walk_loc _ _ _ _) as [t|] eqn:Hw; [|done].
  destruct (st_envs st !! t) as [env|] eqn:Ht; [|done]. case_decide as Hb; [|done].
  destruct (Hno t). apply walk_loc_spec. eauto.
Qed.
End assignment.

(** Assigning a slot does not change what any name resolves to. *)
Lemma resolves_set_slot st t0 s0 v name e d t s :
  resolves (set_slot t0 s0 v st) name e d t s ↔ resolves st name e d t s.
Proof.
  split.
  - induction 1 as [e env s He Hb|e env p d t s He Hb Hp _ IH];
      unfold set_slot in He; rewrite envs_alter_env in He; case_decide.
    + apply fmap_Some in He as (env0 & He & ->). by eapply res_here.
    + by eapply res_here.
    + apply fmap_Some in He as (env0 & He & ->). by eapply res_outer.
    + by eapply res_outer.
  - induction 1 as [e env s He Hb|e env p d t s He Hb Hp _ IH];
      destruct (decide (t0 = e)) as [->|].
    + eapply res_here; [unfold set_slot; rewrite envs_alter_env, decide_True, He by done; done|done].
    + eapply res_here; [unfold set_slot; rewrite envs_alter_env, decide_False by done; done|done].
    + eapply res_outer; [unfold set_slot; rewrite envs_alter_env, decide_True, He by done; done|done..].
    + eapply res_outer; [unfold set_slot; rewrite envs_alter_env, decide_False by done; done|done..].
Qed.

Lemma resolve_exact_at st name e d t s env :
  store_wf st → resolves st name e d t s → st_envs st !! t = Some env →
  resolve_exact st e name =
    (v ← checked_slot_value env name s; Ok (Some ({| depth := d; slot := s |}, v))).
Proof.
  intros Hwf Hr Ht.
  pose proof (resolve_loop_spec st Hwf name (chain_fuel e) e 0 ltac:(unfold chain_fuel; lia)) as H.
  unfold resolve_exact. destruct (resolve_loop _ _ _ _ _) as [[[a v]|]|err].
  - destruct H as (d' & t' & env' & Hr' & Hd & Ht' & Hv). cbn in Hd.
    destruct (resolves_det _ _ _ _ _ _ _ _ _ Hr Hr') as (<- & <- & ->). simplify_eq.
    rewrite Hv. cbn. by destruct a as [da sa]; cbn in *; subst.
  - by destruct (H _ _ _ Hr).
  - destruct H as (d' & t' & s' & env' & Hr' & Ht' & Hv).
    destruct (resolves_det _ _ _ _ _ _ _ _ _ Hr Hr') as (<- & <- & <-). simplify_eq. by rewrite Hv.
Qed.

Lemma resolves_dec st name e :
  store_wf st →
  (∃ d t s env, resolves st name e d t s ∧ st_envs st !! t = Some env)
  ∨ (resolve_exact st e name = Ok None ∧ ∀ d t s, ¬ resolves st name e d t s).
Proof.
  intros Hwf.
  pose proof (resolve_loop_spec st Hwf name (chain_fuel e) e 0 ltac:(unfold chain_fuel; lia)) as H.
  unfold resolve_exact. destruct (resolve_loop _ _ _ _ _) as [[[a v]|]|err].
  - destruct H as (d' & t' & env' & Hr' & Hd & Ht' & Hv). left. eauto 10.
  - by right.
  - destruct H as (d' & t' & s' & env' & Hr' & Ht' & Hv). left. eauto 10.
Qed.

(** Resolution depends on what the name resolves to and on the contents of that slot. *)
Lemma resolve_exact_stable st st' name e :
  store_wf st → store_wf st' →
  (∀ d t s, resolves st' name e d t s ↔ resolves st name e d t s) →
  (∀ d t s env, resolves st name e d t s → st_envs st !! t = Some env →
     ∃ env', st_envs st' !! t = Some env' ∧ slots env' !! s = slots env !! s) →
  resolve_exact st' e name = resolve_exact st e name.
Proof.
  intros Hwf Hwf' Hres Hslot.
  destruct (resolves_dec st name e Hwf) as [(d & t & s & env & Hr & Ht)|[-> Hno]].
  - destruct (Hslot _ _ _ _ Hr Ht) as (env' & Ht' & Hs).
    rewrite (resolve_exact_at _ _ _ _ _ _ _ Hwf Hr Ht).
    rewrite (resolve_exact_at st' name e d t s env' Hwf' (proj2 (Hres _ _ _) Hr) Ht').
    unfold checked_slot_value. by rewrite Hs.
  - destruct (resolves_dec st' name e Hwf') as [(d & t & s & env & Hr & Ht)|[-> _]]; [|done].
    apply Hres in Hr. by destruct (Hno _ _ _ Hr).
Qed.

Lemma set_slot_content st t0 s0 v t env :
  st_envs st !! t = Some env →
  ∃ env', st_envs (set_slot t0 s0 v st) !! t = Some env' ∧ bindings env' = bindings env ∧
    slots env' = if decide (t0 = t) then <[s0 := v]> (slots env) else slots env.
Proof.
  intros Ht. unfold set_slot. rewrite envs_alter_env, Ht. case_decide; cbn; eauto.
Qed.

(** Two names never share a slot, so resolving to the same slot means the same name. *)
Lemma resolves_same_name st n m e e' d d' t s :
  store_wf st → resolves st n e d t s → resolves st m e' d' t s → n = m.
Proof.
  intros Hwf Hn Hm. destruct (resolves_target _ _ _ _ _ _ Hn) as (env & Ht & Hbn).
  destruct (resolves_target _ _ _ _ _ _ Hm) as (env' & Ht' & Hbm). simplify_eq.
  eapply eo_inj; [by eapply sw_env|done..].
Qed.

(** C20: assignment through a cached address is assignment by name: on a
    consistent store [try_assign_address] succeeds at [a], with a given final
    store, exactly when [assign_resolved] succeeds at [a] with that store; at any
    other address it changes nothing and hands the value back. *)
Theorem try_assign_address_exact (st : Store) (e : Loc) (name : string) (a : LexicalAddress)
    (v : RuntimeValue) :
  store_wf st →
  (∀ st', try_assign_address e name a v st = (Ok None, st') ↔
          assign_resolved e name v st = (Ok a, st')) ∧
  ((∀ st', assign_resolved e name v st ≠ (Ok a, st')) →
   try_assign_address e name a v st = (Ok (Some v), st)).
Proof.
  intros Hwf. split.
  - intros st'. by rewrite try_assign_address_ok, assign_resolved_ok.
  - intros Hno. apply try_assign_address_stale. intros t Hr.
    eapply Hno. apply assign_resolved_ok; eauto.
Qed.

Lemma set_slot_read st name e d t s env v :
  store_wf st → resolves st name e d t s → st_envs st !! t = Some env →
  v ≠ VUninitializedTopLevel →
  resolve_exact (set_slot t s v st) e name = Ok (Some ({| depth := d; slot := s |}, v)).
Proof.
  intros Hwf Hr Ht Hv. destruct (set_slot_content st t s v t env Ht) as (env' & Ht' & Hb & Hs).
  rewrite decide_True in Hs by done.
  rewrite (resolve_exact_at _ name e d t s env');
    [|by apply set_slot_wf|by apply resolves_set_slot|done].
  unfold checked_slot_value. rewrite Hs, list_lookup_insert_eq; [by destruct v|].
  apply Nat.leb_gt. by eapply slot_in_range.
Qed.

(** C11: assignment updates one variable and nothing else. When [assign_resolved]
    succeeds with address [a], the name then resolves to [a] with the new value;
    the same holds from every environment that sees the same variable; and every
    other name, from every environment, resolves as before. *)
Theorem assign_exact (st st' : Store) (e : Loc) (name : string) (a : LexicalAddress)
    (v : RuntimeValue) :
  store_wf st → v ≠ VUninitializedTopLevel →
  assign_resolved e name v st = (Ok a, st') →
  resolve_exact st' e name = Ok (Some (a, v)) ∧
  ∃ t, resolves st name e (depth a) t (slot a) ∧
    (∀ e' d, resolves st name e' d t (slot a) →
       resolve_exact st' e' name = Ok (Some ({| depth := d; slot := slot a |}, v))) ∧
    (∀ e' m, (∀ d, ¬ resolves st m e' d t (slot a)) →
       resolve_exact st' e' m = resolve_exact st e' m) ∧
    (∀ e' m, m ≠ name → resolve_exact st' e' m = resolve_exact st e' m).
Proof.
  intros Hwf Hv H. apply assign_resolved_ok in H as (t & Hr & ->); [|done].
  destruct (resolves_target _ _ _ _ _ _ Hr) as (env & Ht & Hb).
  assert (∀ e' m, (∀ d, ¬ resolves st m e' d t (slot a)) →
    resolve_exact (set_slot t (slot a) v st) e' m = resolve_exact st e' m) as Hother.
  { intros e' m Hno. apply resolve_exact_stable;
      [done|by apply set_slot_wf|intros; apply resolves_set_slot|].
    intros d t' s env' Hr' Ht'.
    destruct (set_slot_content st t (slot a) v t' env' Ht') as (env2 & ? & _ & Hs).
    exists env2. split; [done|]. rewrite Hs. case_decide; [subst t'|done].
    destruct (decide (slot a = s)) as [<-|]; [by destruct (Hno d)|by apply list_lookup_insert_ne]. }
  split; [by erewrite set_slot_read by done; destruct a|].
  exists t. split; [done|]. split; [|split; [done|]].
  - intros e' d Hr'. by eapply set_slot_read.
  - intros e' m Hm. apply Hother. intros d Hr'. destruct Hm. by eapply resolves_same_name.
Qed.

(** ** Definition *)

(** What [define_local] does to the two parts of a frame. *)
Lemma define_local_content env name v :
  env_ok env →
  let env' := define_local env name v in
  (∃ s, bindings env' !! name = Some s ∧ slots env' !! s = Some v) ∧
  (∀ m, m ≠ name → bindings env' !! m = bindings env !! m) ∧
  (∀ m s, m ≠ name → bindings env !! m = Some s → slots env' !! s = slots env !! s).
Proof.
  intros Hok. cbn. rewrite define_local_cases by done. destruct Hok as [Hr Hi].
  destruct (bindings env !! name) as [s|] eqn:Hb; cbn.
  - split; [|split; [done|]].
    + exists s. split; [done|]. apply list_lookup_insert_eq. by eapply Hr.
    + intros m s' Hm Hs'. apply list_lookup_insert_ne. intros <-. by destruct Hm; eapply Hi.
  - split; [|split].
    + eexists. rewrite lookup_insert_eq. split; [done|]. by rewrite list_lookup_middle.
    + intros m Hm. by apply lookup_insert_ne.
    + intros m s' Hm Hs'. apply lookup_app_l. by eapply Hr.
Qed.

Lemma envs_define e name v st t :
  st_envs (define e name v st) !! t =
    if decide (e = t) then (λ env, define_local env name v) <$> st_envs st !! t else st_envs st !! t.
Proof. apply envs_alter_env. Qed.

(** A frame of the store before and after a definition of another name. *)
Lemma define_frame st e name v m t :
  store_wf st → m ≠ name →
  match st_envs st !! t with
  | Some env => ∃ env', st_envs (define e name v st) !! t = Some env' ∧
      env_parent env' = env_parent env ∧ bindings env' !! m = bindings env !! m ∧
      (∀ s, bindings env !! m = Some s → slots env' !! s = slots env !! s)
  | None => st_envs (define e name v st) !! t = None
  end.
Proof.
  intros Hwf Hm. rewrite envs_define. destruct (st_envs st !! t) as [env|] eqn:Ht.
  2:{ by case_decide. }
  case_decide; cbn; [|by eauto]. eexists. split; [done|].
  destruct (define_local_content env name v) as (_ & Hb & Hs); [by eapply sw_env|].
  split; [apply define_local_parent|]. split; [by apply Hb|]. intros s. by apply Hs.
Qed.

Lemma resolves_define st e name v m e' d t s :
  store_wf st → m ≠ name → resolves (define e name v st) m e' d t s ↔ resolves st m e' d t s.
Proof.
  intros Hwf Hm. split.
  - induction 1 as [x env s He Hb|x env p d t s He Hb Hp _ IH];
      pose proof (define_frame st e name v m x Hwf Hm) as Hx;
      destruct (st_envs st !! x) as [env0|] eqn:H0; try congruence;
      destruct Hx as (env' & He' & Hp' & Hb' & _); simplify_eq.
    + eapply res_here; [done|congruence].
    + eapply (res_outer _ _ _ _ p); [done|congruence|congruence|done].
  - induction 1 as [x env s He Hb|x env p d t s He Hb Hp _ IH];
      pose proof (define_frame st e name v m x Hwf Hm) as Hx; rewrite He in Hx;
      destruct Hx as (env' & He' & Hp' & Hb' & _).
    + eapply res_here; [done|congruence].
    + eapply (res_outer _ _ _ _ p); [done|congruence|congruence|done].
Qed.

(** C21: a definition is visible at once and disturbs no other name: after
    [define e name v] the name resolves in [e] itself, at depth 0, with value
    [v]; every other name resolves as before from every environment. *)
Theorem define_exact (st : Store) (e : Loc) (env : Environment) (name : string) (v : RuntimeValue) :
  store_wf st → st_envs st !! e = Some env → v ≠ VUninitializedTopLevel →
  (∃ s, resolve_exact (define e name v st) e name = Ok (Some ({| depth := 0; slot := s |}, v))) ∧
  (∀ e' m, m ≠ name → resolve_exact (define e name v st) e' m = resolve_exact st e' m).
Proof.
  intros Hwf He Hv. pose proof (define_wf e name v st Hwf) as Hwf'. split.
  - destruct (define_local_content env name v) as ((s & Hb & Hs) & _); [by eapply (sw_env _ Hwf)|].
    exists s. pose proof (envs_define e name v st e) as Ht. rewrite decide_True, He in Ht by done.
    rewrite (resolve_exact_at _ name e 0 e s (define_local env name v) Hwf'); [|by eapply res_here|done].
    unfold checked_slot_value. rewrite Hs. by destruct v.
  - intros e' m Hm. apply resolve_exact_stable; [done|done|intros; by apply resolves_define|].
    intros d t s env0 Hr Ht. destruct (resolves_target _ _ _ _ _ _ Hr) as (env1 & Ht1 & Hb).
    simplify_eq. pose proof (define_frame st e name v m t Hwf Hm) as Hx. rewrite Ht in Hx.
    destruct Hx as (env' & He' & _ & _ & Hs). eauto.
Qed.

(** ** Reachable stores *)

Definition empty_store : Store :=
  {| st_lists := ∅; st_maps := ∅; st_refs := ∅; st_envs := ∅; st_next := 0 |}.

(** One call of the environment interface. *)
Inductive env_step : Store → Store → Prop :=
  | step_new st parent :
      (∀ p, parent = Some p → is_Some (st_envs st !! p)) → env_step st (env_new parent st).2
  | step_define st e name v : env_step st (define e name v st)
  | step_define_uninitialized st e name : env_step st (define_uninitialized e name st)
  | step_clear st e : env_step st (env_clear e st)
  | step_assign st e name v : env_step st (assign e name v st).2
  | step_assign_address st e name a v : env_step st (try_assign_address e name a v st).2.

Inductive reachable_store : Store → Prop :=
  | reach_empty : reachable_store empty_store
  | reach_env_step st st' : reachable_store st → env_step st st' → reachable_store st'.

Lemma assign_loop_wf fuel cur name v d st :
  store_wf st → store_wf (assign_loop fuel cur name v d st).2.
Proof.
  intros Hwf. revert cur d. induction fuel as [|fuel IH]; intros [e|] d; cbn [assign_loop]; try done.
  repeat case_match; cbn [snd]; auto using set_slot_wf.
Qed.

Lemma assign_wf e name v st : store_wf st → store_wf (assign e name v st).2.
Proof.
  intros H. unfold assign, assign_resolved.
  pose proof (assign_loop_wf (chain_fuel e) (Some e) name v 0 st H) as H'.
  by destruct (assign_loop _ _ _ _ _ _) as [[] ?].
Qed.

Lemma try_assign_address_wf e name a v st :
  store_wf st → store_wf (try_assign_address e name a v st).2.
Proof. intros Hwf. unfold try_assign_address. repeat case_match; try done. by apply set_slot_wf. Qed.

Lemma empty_store_wf : store_wf empty_store.
Proof. split; cbn; intros *; rewrite lookup_empty; [done|by intros []|done]. Qed.

(** C22: every store that the environment operations can build is consistent:
    each binding has a slot of its own in range, and parent chains are finite
    because a parent is older than its child; so every walk along the chain ends. *)
Theorem reachable_store_wf (st : Store) : reachable_store st → store_wf st.
Proof.
  induction 1 as [|st st' _ IH Hs]; [apply empty_store_wf|].
  destruct Hs as [st parent Hp|st e name v|st e name|st e|st e name v|st e name a v].
  - by apply env_new_wf.
  - by apply define_wf.
  - by apply define_wf.
  - by apply env_clear_wf.
  - by apply assign_wf.
  - by apply try_assign_address_wf.
Qed.

(** ** A concrete store *)

(** A module frame, a function frame inside it and a block frame inside that. *)
Definition frames : Store :=
  define 1 "x" (VInt 2) (define 0 "y" (VInt 7) (define 0 "x" (VInt 1)
    (env_new (Some 1%N) (env_new (Some 0%N) (env_new None empty_store).2).2).2)).

Lemma frames_reachable : reachable_store frames.
Proof.
  unfold frames. do 3 (eapply reach_env_step; [|apply step_define]).
  do 2 (eapply reach_env_step; [|apply step_new; intros p [= <-]; eexists; vm_compute; reflexivity]).
  eapply reach_env_step; [apply reach_empty|]. by apply step_new.
Qed.

Lemma frames_wf : store_wf frames.
Proof.
  unfold frames. do 3 apply define_wf.
  do 2 (apply env_new_wf; [|intros p [= <-]; eexists; vm_compute; reflexivity]).
  apply env_new_wf; [apply empty_store_wf|done].
Qed.

Lemma lookup_address_exact_witness :
  resolve_exact frames 2 "y" = Ok (Some ({| depth := 2; slot := 1 |}, VInt 7)).
Proof.
  apply (lookup_address_exact frames 2 "y" {| depth := 2; slot := 1 |} (VInt 7) frames_wf).
  vm_compute. reflexivity.
Defined.

Lemma try_assign_address_exact_witness :
  try_assign_address 2 "x" {| depth := 2; slot := 0 |} (VInt 9) frames = (Ok (Some (VInt 9)), frames).
Proof.
  apply (try_assign_address_exact frames 2 "x" {| depth := 2; slot := 0 |} (VInt 9) frames_wf).
  intros st' H. apply (f_equal fst) in H. vm_compute in H. discriminate H.
Defined.

Lemma assign_exact_witness :
  let st' := (assign_resolved 2 "x" (VInt 9) frames).2 in
  resolve_exact st' 2 "x" = Ok (Some ({| depth := 1; slot := 0 |}, VInt 9)) ∧
  resolve_exact st' 1 "y" = resolve_exact frames 1 "y".
Proof.
  cbv zeta.
  destruct (assign_exact frames (assign_resolved 2 "x" (VInt 9) frames).2 2 "x"
    {| depth := 1; slot := 0 |} (VInt 9) frames_wf ltac:(discriminate)
    ltac:(vm_compute; reflexivity)) as (H & t & _ & _ & _ & Hm).
  split; [exact H|]. apply Hm. discriminate.
Defined.

Lemma define_exact_witness :
  let st' := define 2 "x" (VInt 3) frames in
  (∃ s, resolve_exact st' 2 "x" = Ok (Some ({| depth := 0; slot := s |}, VInt 3))) ∧
  resolve_exact st' 2 "y" = resolve_exact frames 2 "y".
Proof.
  cbv zeta.
  destruct (define_exact frames 2 {| env_parent := Some 1%N; bindings := ∅; slots := [] |} "x"
    (VInt 3) frames_wf ltac:(vm_compute; reflexivity) ltac:(discriminate)) as [H Hm].
  split; [exact H|]. apply Hm. discriminate.
Defined.

Lemma reachable_store_wf_witness : store_wf frames.
Proof. exact (reachable_store_wf frames frames_reachable). Defined.
