(* ===== verification/Compare.v ===== *)
(** Comparison of runtime values: [caap/src/builtins/value_compare.rs].

    The structural operations walk the heap and may meet cycles; the source
    stops at a pair of pointers already on its stack. Here the walk runs on fuel
    and returns [None] when it runs out; [compare_fuel] and [hash_fuel] are the
    bounds that [CompareTermination] proves sufficient for every finite heap. *)

From S2P Require Import Prelude Order Policy Source Ir Values.

Abbreviation ValResult := (Result EvalSignal).

(** ** Ordered comparison *)

Definition compare_lt (a b : RuntimeValue) : ValResult bool :=
  match a, b with
  | VInt x, VInt y => Ok (x <? y)%Z
  | VFloat x, VFloat y => Ok (f64_ltb x y)
  | VStr x, VStr y => Ok (bool_decide (str_cmp x y = Lt))
  | VInt x, VFloat y => Ok (f64_ltb (f64_of_i64 x) y)
  | VFloat x, VInt y => Ok (f64_ltb x (f64_of_i64 y))
  | _, _ =>
      Err (eval_err ("ordered comparison: cannot compare " +:+ canonical_type_tag a
                     +:+ " with " +:+ canonical_type_tag b))
  end.

Fixpoint all_pairs (holds : RuntimeValue → RuntimeValue → ValResult bool)
    (args : list RuntimeValue) : ValResult bool :=
  match args with
  | a :: (b :: _) as rest =>
      h ← holds a b;
      if negb h then Ok false else all_pairs holds rest
  | _ => Ok true
  end.

Definition all_lt : list RuntimeValue → ValResult bool := all_pairs compare_lt.
Definition all_gt : list RuntimeValue → ValResult bool := all_pairs (λ a b, compare_lt b a).
Definition all_le : list RuntimeValue → ValResult bool :=
  all_pairs (λ a b, lt ← compare_lt b a; Ok (negb lt)).
Definition all_ge : list RuntimeValue → ValResult bool :=
  all_pairs (λ a b, lt ← compare_lt a b; Ok (negb lt)).

(** ** The shallow sort key *)

Definition bool_cmp (x y : bool) : comparison :=
  match x, y with
  | false, true => Lt
  | true, false => Gt
  | _, _ => Eq
  end.

Definition sort_type_rank (value : RuntimeValue) : nat :=
  match value with
  | VNull => 0
  | VBool _ => 1
  | VInt _ => 2
  | VFloat _ => 3
  | VStr _ => 4
  | _ => 255
  end.

Definition runtime_value_cmp (a b : RuntimeValue) : comparison :=
  match a, b with
  | VNull, VNull => Eq
  | VBool x, VBool y => bool_cmp x y
  | VInt x, VInt y => Z.compare x y
  | VFloat x, VFloat y => f64_total_cmp x y
  | VStr x, VStr y => str_cmp x y
  | VInt x, VFloat y => f64_total_cmp (f64_of_i64 x) y
  | VFloat x, VInt y => f64_total_cmp x (f64_of_i64 y)
  | _, _ => Nat.compare (sort_type_rank a) (sort_type_rank b)
  end.

(** ** Structural equality *)

(** [iter().zip(..).all(..)]. *)
Fixpoint zip_all {A B} (f : A → B → option bool) (xs : list A) (ys : list B) : option bool :=
  match xs, ys with
  | x :: xs, y :: ys => r ← f x y; if (r : bool) then zip_all f xs ys else Some false
  | _, _ => Some true
  end.

(** [x.iter().all(|(key, value)| y.get(key).is_some_and(..))]. *)
Fixpoint entries_all {A} (f : A → A → option bool) (xs ys : list (MapKey * A)) : option bool :=
  match xs with
  | [] => Some true
  | (key, value) :: xs =>
      match index_map_get key ys with
      | None => Some false
      | Some other => r ← f value other; if (r : bool) then entries_all f xs ys else Some false
      end
  end.

Fixpoint deep_equal_inner (fuel : nat) (st : Store) (visiting : list (Loc * Loc))
    (a b : RuntimeValue) : option bool :=
  match fuel with
  | 0 => None
  | S fuel =>
      match a, b with
      | VList x, VList y =>
          if (x =? y)%N then Some true
          else if decide ((x, y) ∈ visiting) then Some true
          else
            let xs := list_items st x in
            let ys := list_items st y in
            if (length xs =? length ys)%nat then
              zip_all (deep_equal_inner fuel st ((x, y) :: visiting)) xs ys
            else Some false
      | VMap x, VMap y =>
          if (x =? y)%N then Some true
          else if decide ((x, y) ∈ visiting) then Some true
          else
            let xs := map_entries st x in
            let ys := map_entries st y in
            if (length xs =? length ys)%nat then
              entries_all (deep_equal_inner fuel st ((x, y) :: visiting)) xs ys
            else Some false
      | VTuple xs, VTuple ys =>
          if (length xs =? length ys)%nat then zip_all (deep_equal_inner fuel st visiting) xs ys
          else Some false
      | _, _ => Some (value_eqb a b)
      end
  end.

(** ** The structural order *)

Definition deep_type_rank (value : RuntimeValue) : N :=
  match value with
  | VNull => 0
  | VBool _ => 1
  | VInt _ => 2
  | VFloat _ => 3
  | VStr _ => 4
  | VBytes _ => 5
  | VTuple _ => 6
  | VList _ => 7
  | VMap _ => 8
  | VClosure _ => 9
  | VMacro _ => 10
  | VBuiltin _ => 11
  | VHostFunction _ => 12
  | VHostObject _ => 13
  | VRef _ => 14
  | VUninitializedTopLevel => 15
  end%N.

Definition identity_addr (value : RuntimeValue) : N :=
  match value with
  | VClosure p | VMacro p | VBuiltin p | VHostFunction p | VHostObject p | VRef p => p
  | _ => 0%N
  end.

(** The derived [Ord] of [MapKey]. *)
Definition map_key_cmp (a b : MapKey) : comparison :=
  match a, b with
  | KeyNull, KeyNull => Eq
  | KeyNull, _ => Lt
  | _, KeyNull => Gt
  | KeyBool x, KeyBool y => bool_cmp x y
  | KeyBool _, _ => Lt
  | _, KeyBool _ => Gt
  | KeyInt x, KeyInt y => Z.compare x y
  | KeyInt _, _ => Lt
  | _, KeyInt _ => Gt
  | KeyStr x, KeyStr y => str_cmp x y
  end.

Definition entry_key_cmp {A} (a b : MapKey * A) : comparison := map_key_cmp a.1 b.1.

(** The loop of [compare_slices]: the first difference, else the lengths. *)
Fixpoint compare_zip {A} (f : A → A → option comparison) (xs ys : list A) (otherwise : comparison) :
    option comparison :=
  match xs, ys with
  | a :: xs, b :: ys =>
      o ← f a b;
      match o with Eq => compare_zip f xs ys otherwise | o => Some o end
  | _, _ => Some otherwise
  end.

Definition compare_slices {A} (f : A → A → option comparison) (x y : list A) : option comparison :=
  compare_zip f x y (Nat.compare (length x) (length y)).

Definition compare_maps {A} (f : A → A → option comparison) (x y : list (MapKey * A)) :
    option comparison :=
  compare_slices (λ '(xk, xv) '(yk, yv),
      match map_key_cmp xk yk with Eq => f xv yv | key_ord => Some key_ord end)
    (isort entry_key_cmp x) (isort entry_key_cmp y).

Fixpoint deep_compare_inner (fuel : nat) (st : Store) (visiting : list (Loc * Loc))
    (a b : RuntimeValue) : option comparison :=
  match fuel with
  | 0 => None
  | S fuel =>
      match N.compare (deep_type_rank a) (deep_type_rank b) with
      | Eq =>
          match a, b with
          | VNull, VNull | VUninitializedTopLevel, VUninitializedTopLevel => Some Eq
          | VBool x, VBool y => Some (bool_cmp x y)
          | VInt x, VInt y => Some (Z.compare x y)
          | VFloat x, VFloat y => Some (f64_total_cmp x y)
          | VStr x, VStr y => Some (str_cmp x y)
          | VBytes x, VBytes y => Some (list_cmp N.compare x y)
          | VTuple x, VTuple y => compare_slices (deep_compare_inner fuel st visiting) x y
          | VList x, VList y =>
              if (x =? y)%N then Some Eq
              else if decide ((x, y) ∈ visiting) then Some Eq
              else compare_slices (deep_compare_inner fuel st ((x, y) :: visiting))
                     (list_items st x) (list_items st y)
          | VMap x, VMap y =>
              if (x =? y)%N then Some Eq
              else if decide ((x, y) ∈ visiting) then Some Eq
              else compare_maps (deep_compare_inner fuel st ((x, y) :: visiting))
                     (map_entries st x) (map_entries st y)
          | _, _ => Some (N.compare (identity_addr a) (identity_addr b))
          end
      | rank => Some rank
      end
  end.

(** ** The structural hash *)

Definition FNV_OFFSET : N := 0xcbf29ce484222325.
Definition FNV_PRIME : N := 0x100000001b3.

Definition fnv_mix (state : N) (bytes : list N) : N :=
  foldl (λ state byte, (N.lxor state byte * FNV_PRIME) mod 2 ^ 64)%N state bytes.

(** [to_le_bytes] of a [u64], and of an [i64] in two's complement. *)
Definition u64_to_le_bytes (n : N) : list N :=
  (λ i : nat, (N.shiftr n (8 * N.of_nat i)) mod 256)%N <$> seq 0 8.
Definition i64_to_le_bytes (z : Z) : list N := u64_to_le_bytes (Z.to_N (z mod 2 ^ 64)).

Definition str_bytes (s : string) : list N := Ascii.N_of_ascii <$> String.list_ascii_of_string s.

Definition hash_map_key (key : MapKey) (state : N) : N :=
  match key with
  | KeyNull => fnv_mix state [0%N]
  | KeyBool b => fnv_mix (fnv_mix state [1%N]) [N.b2n b]
  | KeyInt i => fnv_mix (fnv_mix state [2%N]) (i64_to_le_bytes i)
  | KeyStr s => fnv_mix (fnv_mix state [4%N]) (str_bytes s)
  end.

(** Threading the accumulator through the items. *)
Fixpoint hash_items {A} (f : A → N → option N) (items : list A) (state : N) : option N :=
  match items with
  | [] => Some state
  | item :: items => state ← f item state; hash_items f items state
  end.

(** The entries of a map, each in an accumulator of its own, combined by XOR. *)
Fixpoint hash_entries {A} (f : A → N → option N) (entries : list (MapKey * A)) (combined : N) :
    option N :=
  match entries with
  | [] => Some combined
  | (key, item) :: entries =>
      entry ← f item (hash_map_key key FNV_OFFSET);
      hash_entries f entries (N.lxor combined entry)
  end.

Fixpoint deep_hash_inner (fuel : nat) (st : Store) (visiting : list Loc) (value : RuntimeValue)
    (state : N) : option N :=
  match fuel with
  | 0 => None
  | S fuel =>
      let state := fnv_mix state [deep_type_rank value] in
      match value with
      | VNull | VUninitializedTopLevel => Some state
      | VBool b => Some (fnv_mix state [N.b2n b])
      | VInt i => Some (fnv_mix state (i64_to_le_bytes i))
      | VFloat f => Some (fnv_mix state (u64_to_le_bytes (f64_bits f)))
      | VStr s => Some (fnv_mix state (str_bytes s))
      | VBytes b => Some (fnv_mix state b)
      | VTuple items => hash_items (deep_hash_inner fuel st visiting) items state
      | VList l =>
          if decide (l ∈ visiting) then Some (fnv_mix state (str_bytes "<cycle>"))
          else hash_items (deep_hash_inner fuel st (l :: visiting)) (list_items st l) state
      | VMap l =>
          if decide (l ∈ visiting) then Some (fnv_mix state (str_bytes "<cycle>"))
          else
            combined ← hash_entries (deep_hash_inner fuel st (l :: visiting)) (map_entries st l) 0%N;
            Some (fnv_mix state (u64_to_le_bytes combined))
      | VClosure _ | VMacro _ | VBuiltin _ | VHostFunction _ | VHostObject _ | VRef _ => Some state
      end
  end.

(** [state as i64]. *)
Definition u64_as_i64 (n : N) : Z :=
  if (n <? 2 ^ 63)%N then Z.of_N n else (Z.of_N n - 2 ^ 64)%Z.

(** ** Fuel *)

(** Nesting of tuples in a value, without following the heap. *)
Fixpoint tuple_depth (v : RuntimeValue) : nat :=
  match v with
  | VTuple items => S (foldr (λ v n, Nat.max (tuple_depth v) n) 0 items)
  | _ => 0
  end.

Definition values_depth (vs : list RuntimeValue) : nat := max_list (tuple_depth <$> vs).

(** The deepest tuple nesting inside any list or map of the heap. *)
Definition store_depth (st : Store) : nat :=
  Nat.max (max_list ((λ e, values_depth e.2) <$> map_to_list (st_lists st)))
          (max_list ((λ e, values_depth (e.2).*2) <$> map_to_list (st_maps st))).

Definition container_locs (st : Store) : gset Loc := dom (st_lists st) ∪ dom (st_maps st).

Definition walk_fuel (nodes : nat) (st : Store) (v : RuntimeValue) : nat :=
  nodes * S (store_depth st) + S (tuple_depth v).

Definition compare_fuel (st : Store) (a : RuntimeValue) : nat :=
  walk_fuel (size (container_locs st) * size (container_locs st)) st a.

Definition hash_fuel (st : Store) (v : RuntimeValue) : nat :=
  walk_fuel (size (container_locs st)) st v.

(** ** Entry points *)

Definition deep_equal (st : Store) (a b : RuntimeValue) : option bool :=
  deep_equal_inner (compare_fuel st a) st [] a b.

Definition deep_compare (st : Store) (a b : RuntimeValue) : option comparison :=
  deep_compare_inner (compare_fuel st a) st [] a b.

Definition deep_hash (st : Store) (value : RuntimeValue) : option Z :=
  u64_as_i64 <$> deep_hash_inner (hash_fuel st value) st [] value FNV_OFFSET.
