(* ===== verification/CompareTermination.v ===== *)
(** The structural walks of [Compare] end on every heap, cyclic ones included:
    each list or map level consumes a pointer (pair) that was not on the stack,
    and between two levels only the tuple nesting of one value is crossed. *)

From S2P Require Import Prelude Order Policy Source Ir Values Compare.

(** ** Nesting bounds *)

Lemma max_list_ge (l : list nat) n : n ∈ l → n ≤ max_list l.
Proof. induction 1; cbn; lia. Qed.

Lemma tuple_depth_item items v : v ∈ items → tuple_depth v < tuple_depth (VTuple items).
Proof. cbn. induction 1; cbn in *; lia. Qed.

Lemma values_depth_ge vs v : v ∈ vs → tuple_depth v ≤ values_depth vs.
Proof. intros H. apply max_list_ge. by apply list_elem_of_fmap_2. Qed.

Lemma list_items_depth st l v : v ∈ list_items st l → tuple_depth v ≤ store_depth st.
Proof.
  unfold list_items. destruct (st_lists st !! l) as [vs|] eqn:Hl; cbn; [|by intros ?%not_elem_of_nil].
  intros Hv%values_depth_ge. etrans; [exact Hv|]. unfold store_depth. etrans; [|apply Nat.le_max_l].
  apply max_list_ge. apply list_elem_of_fmap. exists (l, vs). by rewrite elem_of_map_to_list.
Qed.

Lemma map_entries_depth st l k v : (k, v) ∈ map_entries st l → tuple_depth v ≤ store_depth st.
Proof.
  unfold map_entries. destruct (st_maps st !! l) as [es|] eqn:Hl; cbn; [|by intros ?%not_elem_of_nil].
  intros Hv. assert (v ∈ es.*2) as Hd%values_depth_ge by (by apply (list_elem_of_fmap_2 snd) in Hv).
  etrans; [exact Hd|]. unfold store_depth. etrans; [|apply Nat.le_max_r].
  apply max_list_ge. apply list_elem_of_fmap. exists (l, es). by rewrite elem_of_map_to_list.
Qed.

Lemma list_items_loc st l v : v ∈ list_items st l → l ∈ container_locs st.
Proof.
  unfold list_items, container_locs. destruct (st_lists st !! l) eqn:Hl; cbn; [|by intros ?%not_elem_of_nil].
  intros _. apply elem_of_union_l, elem_of_dom. by rewrite Hl.
Qed.

Lemma map_entries_loc st l e : e ∈ map_entries st l → l ∈ container_locs st.
Proof.
  unfold map_entries, container_locs. destruct (st_maps st !! l) eqn:Hl; cbn; [|by intros ?%not_elem_of_nil].
  intros _. apply elem_of_union_r, elem_of_dom. by rewrite Hl.
Qed.

(** ** What is left to visit *)

Section budget.
Context {A : Type} `{Countable A} (universe : gset A).

Definition unvisited (visiting : list A) : nat := size (universe ∖ list_to_set visiting).

Lemma unvisited_push x visiting :
  x ∈ universe → x ∉ visiting → unvisited (x :: visiting) < unvisited visiting.
Proof.
  intros Hx Hn. unfold unvisited. apply subset_size. split; [set_solver|].
  intros Hsub. assert (x ∈ universe ∖ list_to_set visiting) as Hin; [|apply Hsub in Hin; set_solver].
  apply elem_of_difference. by rewrite elem_of_list_to_set.
Qed.

(** The fuel of a level suffices for the next one: a pushed container pays for
    the tuples inside it. *)
Lemma budget_push D x visiting fuel d :
  x ∈ universe → x ∉ visiting → d ≤ D →
  unvisited visiting * S D < S fuel → unvisited (x :: visiting) * S D + d < fuel.
Proof. intros Hx Hn Hd Hf. pose proof (unvisited_push x visiting Hx Hn). nia. Qed.
End budget.

(** ** Termination of the loops *)

Lemma zip_all_is_Some {A B} (f : A → B → option bool) xs ys :
  (∀ x y, x ∈ xs → y ∈ ys → is_Some (f x y)) → is_Some (zip_all f xs ys).
Proof.
  revert ys. induction xs as [|x xs IH]; intros [|y ys] Hf; cbn; eauto.
  destruct (Hf x y) as [[] ->]; [left..| |]; cbn; [|by eauto].
  apply IH. intros x' y' ??. apply Hf; by right.
Qed.

Lemma index_map_get_elem {A} k (m : list (MapKey * A)) v : index_map_get k m = Some v → (k, v) ∈ m.
Proof.
  unfold index_map_get. intros ([i [k' v']] & Hf & [= <-])%bind_Some.
  apply list_find_Some in Hf as (Hi & Hk & _). cbn in Hk. subst. by eapply list_elem_of_lookup_2.
Qed.

Lemma entries_all_is_Some {A} (f : A → A → option bool) xs ys :
  (∀ k v k' w, (k, v) ∈ xs → (k', w) ∈ ys → is_Some (f v w)) → is_Some (entries_all f xs ys).
Proof.
  induction xs as [|[k v] xs IH]; intros Hf; cbn; [by eauto|].
  destruct (index_map_get k ys) as [w|] eqn:Hw; [|by eauto]. apply index_map_get_elem in Hw.
  destruct (Hf k v k w) as [[] ->]; [left|done| |]; cbn; [|by eauto].
  apply IH. intros * ??. eapply Hf; [by right|done].
Qed.

Lemma compare_zip_is_Some {A} (f : A → A → option comparison) xs ys o :
  (∀ x y, x ∈ xs → y ∈ ys → is_Some (f x y)) → is_Some (compare_zip f xs ys o).
Proof.
  revert ys. induction xs as [|x xs IH]; intros [|y ys] Hf; cbn; eauto.
  destruct (Hf x y) as [[] ->]; [left..| | |]; cbn; [|by eauto..].
  apply IH. intros x' y' ??. apply Hf; by right.
Qed.

Lemma compare_maps_is_Some {A} (f : A → A → option comparison) xs ys :
  (∀ k v k' w, (k, v) ∈ xs → (k', w) ∈ ys → is_Some (f v w)) → is_Some (compare_maps f xs ys).
Proof.
  intros Hf. apply compare_zip_is_Some. intros [k v] [k' w]. rewrite !isort_perm. intros ??.
  destruct (map_key_cmp k k'); eauto.
Qed.

Lemma hash_items_is_Some {A} (f : A → N → option N) xs s :
  (∀ x s, x ∈ xs → is_Some (f x s)) → is_Some (hash_items f xs s).
Proof.
  revert s. induction xs as [|x xs IH]; intros s Hf; cbn; [by eauto|].
  destruct (Hf x s) as [s' ->]; [left|]. cbn. apply IH. intros x' s'' ?. apply Hf. by right.
Qed.

Lemma hash_entries_is_Some {A} (f : A → N → option N) xs c :
  (∀ k x s, (k, x) ∈ xs → is_Some (f x s)) → is_Some (hash_entries f xs c).
Proof.
  revert c. induction xs as [|[k x] xs IH]; intros c Hf; cbn; [by eauto|].
  destruct (Hf k x (hash_map_key k FNV_OFFSET)) as [s' ->]; [left|]. cbn. apply IH.
  intros k' x' s'' ?. eapply Hf. by right.
Qed.

(** ** Termination of the walks *)

Section walks.
Context (st : Store).
Local Abbreviation U := (container_locs st).
Local Abbreviation UU := (gset_cprod U U).
Local Abbreviation D := (store_depth st).

Lemma deep_equal_inner_is_Some fuel visiting a b :
  unvisited UU visiting * S D + tuple_depth a < fuel →
  is_Some (deep_equal_inner fuel st visiting a b).
Proof.
  revert visiting a b. induction fuel as [|fuel IH]; intros visiting a b Hf; [lia|].
  destruct a as [| | | | | |xs| | | | | |x|x| |], b as [| | | | | |ys| | | | | |y|y| |]; cbn [deep_equal_inner];
    try (by eauto).
  - destruct (_ =? _)%nat; [|by eauto]. apply zip_all_is_Some. intros v w Hv _.
    apply IH. apply tuple_depth_item in Hv. lia.
  - destruct (_ =? _)%N; [by eauto|]. case_decide; [by eauto|]. destruct (_ =? _)%nat; [|by eauto].
    apply zip_all_is_Some. intros v w Hv Hw. apply IH. cbn in Hf. eapply budget_push; [|done| |lia].
    + apply elem_of_gset_cprod. split; by eapply list_items_loc.
    + by eapply list_items_depth.
  - destruct (_ =? _)%N; [by eauto|]. case_decide; [by eauto|]. destruct (_ =? _)%nat; [|by eauto].
    apply entries_all_is_Some. intros k v k' w Hv Hw. apply IH. cbn in Hf.
    eapply budget_push; [|done| |lia].
    + apply elem_of_gset_cprod. split; by eapply map_entries_loc.
    + by eapply map_entries_depth.
Qed.

Lemma deep_compare_inner_is_Some fuel visiting a b :
  unvisited UU visiting * S D + tuple_depth a < fuel →
  is_Some (deep_compare_inner fuel st visiting a b).
Proof.
  revert visiting a b. induction fuel as [|fuel IH]; intros visiting a b Hf; [lia|].
  cbn [deep_compare_inner]. destruct (N.compare _ _); [|by eauto..].
  destruct a as [| | | | | |xs| | | | | |x|x| |], b as [| | | | | |ys| | | | | |y|y| |];
    try (by eauto).
  - apply compare_zip_is_Some. intros v w Hv _. apply IH. apply tuple_depth_item in Hv. lia.
  - destruct (_ =? _)%N; [by eauto|]. case_decide; [by eauto|].
    apply compare_zip_is_Some. intros v w Hv Hw. apply IH. cbn in Hf. eapply budget_push; [|done| |lia].
    + apply elem_of_gset_cprod. split; by eapply list_items_loc.
    + by eapply list_items_depth.
  - destruct (_ =? _)%N; [by eauto|]. case_decide; [by eauto|].
    apply compare_maps_is_Some. intros k v k' w Hv Hw. apply IH. cbn in Hf.
    eapply budget_push; [|done| |lia].
    + apply elem_of_gset_cprod. split; by eapply map_entries_loc.
    + by eapply map_entries_depth.
Qed.

Lemma deep_hash_inner_is_Some fuel visiting v s :
  unvisited U visiting * S D + tuple_depth v < fuel →
  is_Some (deep_hash_inner fuel st visiting v s).
Proof.
  revert visiting v s. induction fuel as [|fuel IH]; intros visiting v s Hf; [lia|].
  destruct v as [| | | | | |xs| | | | | |x|x| |]; cbn [deep_hash_inner]; try (by eauto).
  - apply hash_items_is_Some. intros v s' Hv. apply IH. apply tuple_depth_item in Hv. lia.
  - case_decide; [by eauto|]. apply hash_items_is_Some. intros v s' Hv. apply IH. cbn in Hf.
    eapply budget_push; [by eapply list_items_loc|done|by eapply list_items_depth|lia].
  - case_decide; [by eauto|].
    edestruct (hash_entries_is_Some (deep_hash_inner fuel st (x :: visiting)) (map_entries st x) 0)
      as [c ->]; [|by eauto]. intros k v s' Hv. apply IH. cbn in Hf.
    eapply budget_push; [by eapply map_entries_loc|done|by eapply map_entries_depth|lia].
Qed.
End walks.

Lemma unvisited_all {A} `{Countable A} (U : gset A) : unvisited U [] = size U.
Proof. unfold unvisited. f_equal. set_solver. Qed.

Lemma size_gset_cprod (U : gset Loc) : size (gset_cprod U U) ≤ size U * size U.
Proof.
  change (size U) with (length (elements U)). rewrite <- length_prod. apply submseteq_length, NoDup_submseteq.
  { apply NoDup_elements. }
  intros [x y] Hxy%elem_of_elements%elem_of_gset_cprod. destruct Hxy as [Hx Hy].
  apply list_elem_of_In, in_prod; by apply list_elem_of_In, elem_of_elements.
Qed.

Lemma deep_equal_total st a b : is_Some (deep_equal st a b).
Proof.
  apply deep_equal_inner_is_Some. rewrite unvisited_all. unfold compare_fuel, walk_fuel.
  pose proof (size_gset_cprod (container_locs st)). nia.
Qed.

Lemma deep_compare_total st a b : is_Some (deep_compare st a b).
Proof.
  apply deep_compare_inner_is_Some. rewrite unvisited_all. unfold compare_fuel, walk_fuel.
  pose proof (size_gset_cprod (container_locs st)). nia.
Qed.

Lemma deep_hash_total st v : is_Some (deep_hash st v).
Proof.
  apply fmap_is_Some. apply deep_hash_inner_is_Some. rewrite unvisited_all.
  unfold hash_fuel, walk_fuel. lia.
Qed.

(** C16: structural equality, order and hash end on every heap. Lists and maps
    may contain themselves; with the fuel computed from the number of containers
    and the tuple nesting of the heap the three walks always return. *)
Theorem structural_walks_terminate (st : Store) (a b : RuntimeValue) :
  is_Some (deep_equal st a b) ∧ is_Some (deep_compare st a b) ∧ is_Some (deep_hash st a).
Proof.
  split; [apply deep_equal_total|]. split; [apply deep_compare_total|apply deep_hash_total].
Qed.
