(* ===== verification/CompareOrder.v ===== *)
(** The structural order of [Compare] is a total order on the trees that values
    denote. An acyclic value unfolds to a finite tree ([tree_of]): its kind, its
    scalar content and its keyed children, those of a map in key order. *)

From S2P Require Import Prelude Order Policy Source Ir Values Compare CompareTermination.

(** ** Trees *)

(** Kind rank, scalar content and children; items of lists and tuples all carry
    the key [KeyNull]. *)
Inductive Tree := Node (rank : N) (content : list Z) (children : list (MapKey * Tree)).

Section tree_ind.
Variable P : Tree → Prop.
Hypothesis Hnode : ∀ r p c, Forall (λ e, P e.2) c → P (Node r p c).

Fixpoint tree_induction (t : Tree) : P t :=
  match t as t return P t with
  | Node r p c =>
      Hnode r p c
        ((fix go (l : list (MapKey * Tree)) : Forall (λ e, P e.2) l :=
            match l with
            | [] => List.Forall_nil _
            | e :: l => List.Forall_cons _ e l (tree_induction e.2) (go l)
            end) c)
  end.
End tree_ind.

(** Lexicographic comparison of two results. *)
Definition then_cmp (a b : comparison) : comparison := match a with Eq => b | _ => a end.

Definition pair_cmp {A B} (f : A → A → comparison) (g : B → B → comparison) (x y : A * B) :
    comparison := then_cmp (f x.1 y.1) (g x.2 y.2).

Fixpoint tree_cmp (t u : Tree) : comparison :=
  match t, u with
  | Node r p c, Node r' p' c' =>
      then_cmp (N.compare r r')
        (then_cmp (list_cmp Z.compare p p') (list_cmp (pair_cmp map_key_cmp tree_cmp) c c'))
  end.

(** ** Total orders *)

Global Instance Ncmp_total : TotalCmp N.compare.
Proof.
  split; [apply N.compare_eq_iff|intros x y; apply N.compare_antisym|].
  intros x y z. rewrite !N.compare_lt_iff. lia.
Qed.

Global Instance Zcmp_total : TotalCmp Z.compare.
Proof.
  split; [apply Z.compare_eq_iff|intros x y; apply Z.compare_antisym|].
  intros x y z. rewrite !Z.compare_lt_iff. lia.
Qed.

Global Instance bool_total : TotalCmp bool_cmp.
Proof. split; [intros [] []; cbn; naive_solver|by intros [] []|by intros [] [] []]. Qed.

Global Instance map_key_total : TotalCmp map_key_cmp.
Proof.
  split.
  - intros [|x|x|x] [|y|y|y]; cbn; try naive_solver.
    + rewrite (cmp_eq bool_cmp). naive_solver.
    + rewrite (cmp_eq Z.compare). naive_solver.
    + rewrite (cmp_eq str_cmp). naive_solver.
  - intros [|x|x|x] [|y|y|y]; cbn; try done;
      [apply (cmp_opp bool_cmp)|apply (cmp_opp Z.compare)|apply (cmp_opp str_cmp)].
  - intros [|x|x|x] [|y|y|y] [|z|z|z]; cbn; try done;
      [apply (cmp_lt_trans bool_cmp)|apply (cmp_lt_trans Z.compare)|apply (cmp_lt_trans str_cmp)].
Qed.

(** The laws of an order at one left operand: the induction hypotheses for orders
    on nested data. *)
Definition eq_at {A} (cmp : A → A → comparison) (x : A) : Prop := ∀ y, cmp x y = Eq ↔ x = y.

Record order_at {A} (cmp : A → A → comparison) (x : A) : Prop := {
  oa_opp : ∀ y, cmp y x = CompOpp (cmp x y);
  oa_trans : ∀ y z, cmp x y = Lt → cmp y z = Lt → cmp x z = Lt;
}.

Lemma total_at {A} (cmp : A → A → comparison) :
  (∀ x, eq_at cmp x) → (∀ x, order_at cmp x) → TotalCmp cmp.
Proof. intros He Ho. split; intros x; [apply He|apply (Ho x)..]. Qed.

Lemma then_cmp_eq a b : then_cmp a b = Eq ↔ a = Eq ∧ b = Eq.
Proof. destruct a; naive_solver. Qed.

Lemma then_cmp_opp a b : CompOpp (then_cmp a b) = then_cmp (CompOpp a) (CompOpp b).
Proof. by destruct a. Qed.

Lemma pair_eq_at {A B} (f : A → A → comparison) (g : B → B → comparison) x :
  eq_at f x.1 → eq_at g x.2 → eq_at (pair_cmp f g) x.
Proof.
  destruct x as [a b]. intros fe ge [a' b']. unfold pair_cmp. cbn in *.
  rewrite then_cmp_eq, (fe a'), (ge b'). naive_solver.
Qed.

Lemma pair_order_at {A B} (f : A → A → comparison) (g : B → B → comparison) x :
  TotalCmp f → order_at g x.2 → order_at (pair_cmp f g) x.
Proof.
  destruct x as [a b]. cbn. intros Hf [go gt]. split; unfold pair_cmp; cbn.
  - intros [a' b']. cbn. by rewrite (cmp_opp f a a'), go, then_cmp_opp.
  - intros [a' b'] [a'' b'']. cbn.
    destruct (f a a') eqn:E1; cbn; [|destruct (f a' a'') eqn:E2|]; cbn; try done.
    + apply (cmp_eq f) in E1 as <-. intros Hb. destruct (f a a''); cbn; [by apply gt|done..].
    + apply (cmp_eq f) in E2 as ->. by rewrite E1.
    + by rewrite (cmp_lt_trans f _ _ _ E1 E2).
Qed.

Lemma list_eq_at {A} (cmp : A → A → comparison) l : Forall (eq_at cmp) l → eq_at (list_cmp cmp) l.
Proof.
  induction 1 as [|x l xe _ IH]; intros [|y k]; cbn; [naive_solver..|]. destruct (cmp x y) eqn:E.
  - apply xe in E as <-. rewrite (IH k). naive_solver.
  - split; [done|]. intros [= <- <-]. by rewrite (proj2 (xe x) eq_refl) in E.
  - split; [done|]. intros [= <- <-]. by rewrite (proj2 (xe x) eq_refl) in E.
Qed.

Lemma list_order_at {A} (cmp : A → A → comparison) l :
  (∀ x, eq_at cmp x) → Forall (order_at cmp) l → order_at (list_cmp cmp) l.
Proof.
  intros He. induction 1 as [|x l [xo xt] _ [lo lt]]; split.
  - by intros [|y k].
  - by intros [|y k] [|z m].
  - intros [|y k]; cbn; [done|]. rewrite xo. destruct (cmp x y); cbn; [apply lo|done..].
  - intros [|y k] [|z m]; cbn; try done. destruct (cmp x y) eqn:Exy; try done.
    + apply He in Exy as <-. intros ?. destruct (cmp x z); [by eapply lt|done..].
    + intros _. destruct (cmp y z) eqn:Eyz; try done.
      * apply He in Eyz as <-. by rewrite Exy.
      * intros _. by rewrite (xt _ _ Exy Eyz).
Qed.

Lemma tree_eq_at t : eq_at tree_cmp t.
Proof.
  induction t as [r p c IH] using tree_induction. intros [r' p' c']. cbn [tree_cmp].
  assert (eq_at (list_cmp (pair_cmp map_key_cmp tree_cmp)) c) as Hc.
  { apply list_eq_at. apply (Forall_impl _ _ _ IH). intros e He. apply pair_eq_at; [|done].
    intros k. apply (cmp_eq map_key_cmp). }
  rewrite !then_cmp_eq, (cmp_eq N.compare), (cmp_eq (list_cmp Z.compare)), (Hc c'). naive_solver.
Qed.

Lemma pair_tree_eq_at e : eq_at (pair_cmp map_key_cmp tree_cmp) e.
Proof. apply pair_eq_at; [intros k; apply (cmp_eq map_key_cmp)|apply tree_eq_at]. Qed.

Lemma tree_order_at t : order_at tree_cmp t.
Proof.
  induction t as [r p c IH] using tree_induction.
  assert (order_at (list_cmp (pair_cmp map_key_cmp tree_cmp)) c) as Hc.
  { apply list_order_at; [apply pair_tree_eq_at|]. apply (Forall_impl _ _ _ IH).
    intros e He. by apply pair_order_at; [apply _|]. }
  (* a node is compared as the pair of its parts *)
  set (parts := λ t : Tree, match t with Node r p c => (r, (p, c)) end).
  set (node_cmp := pair_cmp N.compare (pair_cmp (list_cmp Z.compare)
                     (list_cmp (pair_cmp map_key_cmp tree_cmp)))).
  assert (∀ t u, tree_cmp t u = node_cmp (parts t) (parts u)) as Hp by by intros [] [].
  assert (order_at node_cmp (r, (p, c))) as [Ho Ht].
  { do 2 (apply pair_order_at; [apply _|]). exact Hc. }
  split; [intros u|intros u w]; rewrite !Hp; [apply Ho|apply Ht].
Qed.

Global Instance tree_total : TotalCmp tree_cmp.
Proof. apply total_at; [apply tree_eq_at|apply tree_order_at]. Qed.

Global Instance pair_total {A B} (f : A → A → comparison) (g : B → B → comparison) :
  TotalCmp f → TotalCmp g → TotalCmp (pair_cmp f g).
Proof.
  intros Hf Hg. apply total_at.
  - intros x. apply pair_eq_at; intros y; [apply (cmp_eq f)|apply (cmp_eq g)].
  - intros x. apply pair_order_at; [done|]. split; [apply (cmp_opp g)|apply (cmp_lt_trans g)].
Qed.

(** ** The tree of a value *)

(** The content of a scalar; of an identity-typed value, its address. *)
Definition scalar_content (v : RuntimeValue) : list Z :=
  match v with
  | VBool b => [Z.b2z b]
  | VInt i => [i]
  | VFloat f => [f64_key f]
  | VStr s => Z.of_N <$> str_bytes s
  | VBytes b => Z.of_N <$> b
  | VClosure p | VMacro p | VBuiltin p | VHostFunction p | VHostObject p | VRef p => [Z.of_N p]
  | VNull | VTuple _ | VList _ | VMap _ | VUninitializedTopLevel => []
  end.

Definition children_of (st : Store) (v : RuntimeValue) : list (MapKey * RuntimeValue) :=
  match v with
  | VTuple items => (λ v, (KeyNull, v)) <$> items
  | VList l => (λ v, (KeyNull, v)) <$> list_items st l
  | VMap l => isort entry_key_cmp (map_entries st l)
  | _ => []
  end.

(** A list or map value points to a list or map of the heap. *)
Definition live (st : Store) (v : RuntimeValue) : Prop :=
  match v with
  | VList l => is_Some (st_lists st !! l)
  | VMap l => is_Some (st_maps st !! l)
  | _ => True
  end.

(** [v] unfolds to the finite tree [t]. *)
Inductive tree_of (st : Store) : RuntimeValue → Tree → Prop :=
  | tree_node v c :
      live st v →
      Forall2 (λ e e', e.1 = e'.1 ∧ tree_of st e.2 e'.2) (children_of st v) c →
      tree_of st v (Node (deep_type_rank v) (scalar_content v) c).

Abbreviation child_of st := (λ e e', e.1 = e'.1 ∧ tree_of st e.2 e'.2) (only parsing).

Lemma tree_of_inv st v t :
  tree_of st v t ↔
  ∃ c, t = Node (deep_type_rank v) (scalar_content v) c ∧ live st v ∧
    Forall2 (child_of st) (children_of st v) c.
Proof. split; [|intros (c & -> & Hl & Hc); by constructor]. intros H. inversion H; subst. eauto. Qed.

Lemma tree_of_det st v t u : tree_of st v t → tree_of st v u → t = u.
Proof.
  revert v u. induction t as [r p c IH] using tree_induction. intros v u Ht Hu.
  apply tree_of_inv in Ht as (c1 & [= -> -> ->] & _ & Hc1).
  apply tree_of_inv in Hu as (c2 & -> & _ & Hc2). f_equal.
  revert c2 Hc2 IH. induction Hc1 as [|[k v1] [k1 t1] l l1 [Hk Ht1] _ IHl]; intros c2 Hc2 IH.
  - by inversion Hc2.
  - apply Forall2_cons_inv_l in Hc2 as ([k2 t2] & c2' & [Hk2 Ht2] & Hc2 & ->).
    apply Forall_cons in IH as [IH1 IH]. cbn in *. subst. f_equal; [|by apply IHl].
    f_equal. by eapply IH1.
Qed.

Fixpoint height (t : Tree) : nat :=
  match t with Node _ _ c => S (foldr (λ e n, Nat.max (height e.2) n) 0 c) end.

Lemma height_child r p c e : e ∈ c → height e.2 < height (Node r p c).
Proof. cbn. induction 1; cbn in *; lia. Qed.

(** Lists and maps live at different addresses, and a map has each key once. *)
Record heap_ok (st : Store) : Prop := {
  ho_disjoint : ∀ l, is_Some (st_lists st !! l) → is_Some (st_maps st !! l) → False;
  ho_keys : ∀ l es, st_maps st !! l = Some es → NoDup es.*1;
}.

Definition container_at (x : Loc) (v : RuntimeValue) : Prop := v = VList x ∨ v = VMap x.

Lemma container_unique st x v w t u :
  heap_ok st → container_at x v → container_at x w → tree_of st v t → tree_of st w u → v = w.
Proof.
  intros Hok [->| ->] [->| ->] Ht Hu; try done;
    apply tree_of_inv in Ht as (? & _ & Hl & _); apply tree_of_inv in Hu as (? & _ & Hm & _);
    destruct (ho_disjoint _ Hok x); done.
Qed.

(** No container on the stack is inside [t]: their trees are higher. *)
Definition stack_above (st : Store) (on_stack : Loc → Prop) (t : Tree) : Prop :=
  ∀ x v u, on_stack x → container_at x v → tree_of st v u → height t < height u.

Lemma stack_above_not st P x v t :
  stack_above st P t → container_at x v → tree_of st v t → ¬ P x.
Proof. intros Hs Hx Ht HP. specialize (Hs x v t HP Hx Ht). lia. Qed.

Lemma stack_above_child st P r p c e :
  stack_above st P (Node r p c) → e ∈ c → stack_above st P e.2.
Proof.
  intros Hs He x v u HP Hx Hu. specialize (Hs x v u HP Hx Hu).
  pose proof (height_child r p c e He). lia.
Qed.

(** Pushing the container being walked, on entering one of its children. *)
Lemma stack_above_push st (P Q : Loc → Prop) v x r p c e :
  heap_ok st → container_at x v → tree_of st v (Node r p c) →
  stack_above st P (Node r p c) → e ∈ c → (∀ y, Q y → y = x ∨ P y) →
  stack_above st Q e.2.
Proof.
  intros Hok Hx Ht Hs He HQ y w u Hy Hw Hu. pose proof (height_child r p c e He).
  apply HQ in Hy as [->|Hy].
  - assert (w = v) as -> by (by eapply container_unique).
    by rewrite <- (tree_of_det _ _ _ _ Ht Hu).
  - specialize (Hs y w u Hy Hw Hu). lia.
Qed.

(** ** The order on values is the order on trees *)

Lemma list_cmp_of_N l k : list_cmp Z.compare (Z.of_N <$> l) (Z.of_N <$> k) = list_cmp N.compare l k.
Proof.
  revert k. induction l as [|x l IH]; intros [|y k]; cbn; [done..|].
  rewrite N2Z.inj_compare. destruct (x ?= y)%N; [apply IH|done..].
Qed.

Lemma list_cmp_str s t : list_cmp N.compare (str_bytes s) (str_bytes t) = str_cmp s t.
Proof.
  revert t. induction s as [|a s IH]; intros [|b t]; [done..|].
  unfold str_cmp. cbn. unfold Ascii.compare. destruct (_ ?= _)%N; [apply IH|done..].
Qed.

Lemma list_cmp_one x y : list_cmp Z.compare [x] [y] = Z.compare x y.
Proof. cbn. by destruct (x ?= y)%Z. Qed.

Lemma then_cmp_eq_r c : then_cmp c Eq = c.
Proof. by destruct c. Qed.

Lemma bool_cmp_b2z x y : bool_cmp x y = Z.compare (Z.b2z x) (Z.b2z y).
Proof. by destruct x, y. Qed.

Lemma compare_slices_refines {A B} (f : A → A → option comparison) (g : B → B → comparison)
    (R : A → B → Prop) xs ys ts us r :
  Forall2 R xs ts → Forall2 R ys us →
  (∀ x y t u o, t ∈ ts → R x t → R y u → f x y = Some o → o = g t u) →
  compare_slices f xs ys = Some r → r = list_cmp g ts us.
Proof.
  intros Hx. revert ys us. unfold compare_slices.
  induction Hx as [|x t xs ts Hxt Hx IH]; intros ys us Hy Hf;
    destruct Hy as [|y u ys us Hyu Hy]; cbn; [by intros [= <-]..|].
  intros (o & Ho & H)%bind_Some.
  assert (o = g t u) as -> by (eapply (Hf x y); [left|done..]).
  destruct (g t u); [|by injection H..]. eapply IH; [done| |done].
  intros x' y' t' u' o' Ht'. apply Hf. by right.
Qed.

(** The pairs of pointers on the stack, by their left component. *)
Definition fst_on (visiting : list (Loc * Loc)) (x : Loc) : Prop := ∃ y, (x, y) ∈ visiting.

Lemma fst_on_fresh st visiting a t x y :
  stack_above st (fst_on visiting) t → tree_of st a t → container_at x a → (x, y) ∉ visiting.
Proof. intros Hs Ha Hx Hin. destruct (stack_above_not st _ x a t Hs Hx Ha). by exists y. Qed.

Lemma fst_on_push st visiting a r p c x y e :
  heap_ok st → stack_above st (fst_on visiting) (Node r p c) → tree_of st a (Node r p c) →
  container_at x a → e ∈ c → stack_above st (fst_on ((x, y) :: visiting)) e.2.
Proof.
  intros Hok Hs Ha Hx He. eapply stack_above_push; [done|exact Hx|exact Ha|exact Hs|done|].
  intros z [y' Hz]. apply elem_of_cons in Hz as [[= -> ->]|Hz]; [by left|right; by exists y'].
Qed.

Section deep_compare.
Context (st : Store) (Hok : heap_ok st).

(** The children of lists and tuples, all under the same key. *)
Lemma compare_items_refines (f : RuntimeValue → RuntimeValue → option comparison) xs ys c c' r :
  Forall2 (child_of st) ((λ v, (KeyNull, v)) <$> xs) c →
  Forall2 (child_of st) ((λ v, (KeyNull, v)) <$> ys) c' →
  (∀ x y (e e' : MapKey * Tree) o, e ∈ c → tree_of st x e.2 → tree_of st y e'.2 → f x y = Some o →
     o = tree_cmp e.2 e'.2) →
  compare_slices f xs ys = Some r → r = list_cmp (pair_cmp map_key_cmp tree_cmp) c c'.
Proof.
  rewrite !Forall2_fmap_l. intros Hx Hy Hf.
  apply (compare_slices_refines f _ (λ v e, KeyNull = e.1 ∧ tree_of st v e.2) xs ys c c' r Hx Hy).
  intros x y [k t] [k' u] o Ht [Hk ?] [Hk' ?] Ho. cbn in *. subst.
  unfold pair_cmp. cbn. by eapply (Hf x y (KeyNull, t) (KeyNull, u)).
Qed.

Lemma compare_maps_refines (f : RuntimeValue → RuntimeValue → option comparison) xs ys c c' r :
  Forall2 (child_of st) (isort entry_key_cmp xs) c →
  Forall2 (child_of st) (isort entry_key_cmp ys) c' →
  (∀ x y (e e' : MapKey * Tree) o, e ∈ c → tree_of st x e.2 → tree_of st y e'.2 → f x y = Some o →
     o = tree_cmp e.2 e'.2) →
  compare_maps f xs ys = Some r → r = list_cmp (pair_cmp map_key_cmp tree_cmp) c c'.
Proof.
  intros Hx Hy Hf. apply (compare_slices_refines _ _ _ _ _ _ _ _ Hx Hy).
  intros [k x] [k' y] [k1 t] [k2 u] o He [Hk Ht] [Hk' Hu] Ho. cbn in *. subst.
  unfold pair_cmp. cbn. destruct (map_key_cmp k1 k2); cbn; [|by injection Ho..].
  by eapply (Hf x y (k1, t) (k2, u)).
Qed.

Lemma deep_compare_inner_refines fuel visiting a b ta tb r :
  tree_of st a ta → tree_of st b tb → stack_above st (fst_on visiting) ta →
  deep_compare_inner fuel st visiting a b = Some r → r = tree_cmp ta tb.
Proof.
  revert visiting a b ta tb r. induction fuel as [|fuel IH]; [done|].
  intros visiting a b ta tb r Ha Hb Hs. pose proof Ha as Ha'. pose proof Hb as Hb'.
  apply tree_of_inv in Ha as (c & -> & _ & Hc). apply tree_of_inv in Hb as (c' & -> & _ & Hc').
  cbn [deep_compare_inner tree_cmp].
  destruct (N.compare (deep_type_rank a) (deep_type_rank b)) eqn:Hrank; [|by intros [= <-]..].
  apply N.compare_eq_iff in Hrank.
  destruct a as [| | | | | |xs| | | | | |x|x| |], b as [| | | | | |ys| | | | | |y|y| |];
    try discriminate Hrank; cbn [then_cmp scalar_content children_of identity_addr] in *;
    rewrite ?list_cmp_one, ?list_cmp_of_N, ?list_cmp_str, <- ?N2Z.inj_compare.
  (* scalars and identities *)
  all: try (apply Forall2_nil_inv_l in Hc as ->; apply Forall2_nil_inv_l in Hc' as ->;
            intros [= <-]; rewrite ?bool_cmp_b2z; symmetry; apply then_cmp_eq_r).
  - apply (compare_items_refines _ _ _ _ _ _ Hc Hc').
    intros v w e e' o He Hv Hw. eapply IH; [done..|]. by eapply stack_above_child.
  - destruct (N.eqb_spec x y) as [->|_].
    { intros [= <-]. injection (tree_of_det _ _ _ _ Ha' Hb') as <-. symmetry. apply (cmp_refl (list_cmp _)). }
    rewrite decide_False by (eapply fst_on_fresh; [done..|by left]).
    apply (compare_items_refines _ _ _ _ _ _ Hc Hc').
    intros v w e e' o He Hv Hw. eapply IH; [done..|]. eapply fst_on_push; [done..|by left|done].
  - destruct (N.eqb_spec x y) as [->|_].
    { intros [= <-]. injection (tree_of_det _ _ _ _ Ha' Hb') as <-. symmetry. apply (cmp_refl (list_cmp _)). }
    rewrite decide_False by (eapply fst_on_fresh; [done..|by right]).
    apply (compare_maps_refines _ _ _ _ _ _ Hc Hc').
    intros v w e e' o He Hv Hw. eapply IH; [done..|]. eapply fst_on_push; [done..|by right|done].
Qed.
End deep_compare.

Lemma stack_above_empty st t : stack_above st (fst_on []) t.
Proof. intros x v u [y Hy]. by apply not_elem_of_nil in Hy. Qed.

Lemma deep_compare_tree st a b ta tb :
  heap_ok st → tree_of st a ta → tree_of st b tb → deep_compare st a b = Some (tree_cmp ta tb).
Proof.
  intros Hok Ha Hb. destruct (deep_compare_total st a b) as [r Hr]. rewrite Hr. f_equal.
  eapply deep_compare_inner_refines; [done|exact Ha|exact Hb| |exact Hr]. apply stack_above_empty.
Qed.

(** C4: on acyclic values [deep_compare] is a total order: it is the order
    [tree_cmp] on the trees the values unfold to, and [tree_cmp] is antisymmetric,
    transitive and says [Eq] exactly for equal trees. The insertion order of maps,
    sharing inside the values and the addresses of lists and maps do not matter. *)
Theorem deep_compare_total_order (st : Store) (a b : RuntimeValue) (ta tb : Tree) :
  heap_ok st → tree_of st a ta → tree_of st b tb →
  deep_compare st a b = Some (tree_cmp ta tb) ∧ TotalCmp tree_cmp ∧
  (deep_compare st a b = Some Eq ↔ ta = tb).
Proof.
  intros Hok Ha Hb. rewrite (deep_compare_tree st a b ta tb) by done.
  split; [done|]. split; [apply _|]. rewrite <- (cmp_eq tree_cmp). split; congruence.
Qed.
