(* ===== verification/CompareEqual.v ===== *)
(** Structural equality and the structural hash agree with the structural order
    on acyclic values without the two IEEE exceptions (NaN and negative zero); the
    exceptions, and cycles for the hash, are shown to be real. *)

From S2P Require Import Prelude Order Policy Source Ir Values Compare CompareTermination CompareOrder.

(** ** Plain floats *)

Definition f64_neg_zero : F64 := {| f64_bits := 2 ^ 63 |}.

(** Neither NaN nor [-0.0], and a 64-bit pattern. *)
Definition f64_plain (f : F64) : Prop :=
  f64_is_nan f = false ∧ f ≠ f64_neg_zero ∧ (f64_bits f < 2 ^ 64)%N.

(** A tree in which every float is plain. *)
Inductive plain : Tree → Prop :=
  | plain_node r p c :
      (∀ f, r = 3%N → p = [f64_key f] → f64_plain f) → Forall (λ e, plain e.2) c →
      plain (Node r p c).

Lemma f64_eqb_plain f g : f64_plain f → f64_plain g → f64_eqb f g = bool_decide (f = g).
Proof.
  intros (Hf & Hf0 & Hfb) (Hg & Hg0 & Hgb). unfold f64_eqb. rewrite Hf, Hg. cbn [negb andb].
  apply eq_true_iff_eq. rewrite orb_true_iff, andb_true_iff, bool_decide_eq_true, N.eqb_eq.
  unfold f64_is_zero. rewrite !N.eqb_eq. destruct f as [x], g as [y]. cbn [f64_bits] in *.
  assert (∀ z, (z < 2 ^ 64)%N → {| f64_bits := z |} ≠ f64_neg_zero → (z mod 2 ^ 63 = 0)%N → z = 0%N) as Hz.
  { intros z Hzb Hn Hm. apply N.Div0.mod_divides in Hm as [q ->].
    assert (q = 0 ∨ q = 1)%N as [->| ->] by lia; [done|]. by destruct Hn. }
  split; [|intros [= ->]; by left].
  intros [->|[Hx Hy]]; [done|]. by rewrite (Hz x), (Hz y).
Qed.

(** ** Equality *)

Section deep_equal.
Context (st : Store) (Hok : heap_ok st).

Lemma zip_all_refines {A} (f : A → A → option bool) (R : A → MapKey * Tree → Prop) xs ys c c' r :
  Forall2 R xs c → Forall2 R ys c' → length xs = length ys →
  (∀ x y e e' o, e ∈ c → e' ∈ c' → R x e → R y e' → f x y = Some o → (o = true ↔ e = e')) →
  zip_all f xs ys = Some r → (r = true ↔ c = c').
Proof.
  intros Hx. revert ys c'. induction Hx as [|x e xs c Hxe Hx IH]; intros ys c' Hy Hlen Hf;
    destruct Hy as [|y e' ys c' Hye Hy]; try discriminate Hlen; cbn.
  - by intros [= <-].
  - intros (o & Ho & H)%bind_Some.
    assert (o = true ↔ e = e') as Hoe by (eapply (Hf x y); [left|left|done..]).
    destruct o.
    + rewrite (IH ys c' Hy); [naive_solver|by injection Hlen| |done].
      intros x' y' e1 e2 o' H1 H2. apply Hf; by right.
    + injection H as <-. naive_solver.
Qed.

Lemma entries_all_cases {A} (f : A → A → option bool) xs ys r :
  entries_all f xs ys = Some r →
  if r then ∀ k v, (k, v) ∈ xs → ∃ w, index_map_get k ys = Some w ∧ f v w = Some true
  else ∃ k v, (k, v) ∈ xs ∧ ∀ w, index_map_get k ys = Some w → f v w = Some false.
Proof.
  revert r. induction xs as [|[k v] xs IH]; intros r; cbn.
  { intros [= <-] k v ?%not_elem_of_nil. done. }
  destruct (index_map_get k ys) as [w|] eqn:Hw.
  2:{ intros [= <-]. exists k, v. split; [left|congruence]. }
  intros (o & Ho & H)%bind_Some. destruct o.
  - specialize (IH _ H). destruct r.
    + intros k' v' [[= -> ->]|Hin]%elem_of_cons; eauto.
    + destruct IH as (k' & v' & Hin & Hf). exists k', v'. split; [by right|done].
  - injection H as <-. exists k, v. split; [left|]. intros w' Hw'. congruence.
Qed.

Lemma index_map_get_cons {A} k k' (v : A) m :
  index_map_get k ((k', v) :: m) = if decide (k' = k) then Some v else index_map_get k m.
Proof.
  unfold index_map_get. cbn. case_decide; [done|].
  by destruct (list_find (λ e : MapKey * A, e.1 = k) m) as [[]|].
Qed.

Lemma index_map_get_nodup {A} (m : list (MapKey * A)) k v :
  NoDup m.*1 → index_map_get k m = Some v ↔ (k, v) ∈ m.
Proof.
  induction m as [|[k' v'] m IH]; rewrite ?fmap_cons; cbn [fst].
  { intros _. split; [done|]. by intros ?%not_elem_of_nil. }
  intros [Hk Hnd]%NoDup_cons. rewrite index_map_get_cons, elem_of_cons. case_decide as Hd.
  - subst. split; [intros [= ->]; by left|]. intros [[= ->]|Hin]; [done|].
    destruct Hk. by apply (list_elem_of_fmap_2 fst) in Hin.
  - rewrite IH by done. naive_solver.
Qed.

(** The children of a map: the keys of the map, in strictly ascending order. *)
Lemma map_children_sorted {A} (xs : list (MapKey * A)) (c : list (MapKey * Tree)) :
  NoDup xs.*1 → (isort entry_key_cmp xs).*1 = c.*1 →
  StronglySorted (cmp_lt (pair_cmp map_key_cmp tree_cmp)) c.
Proof.
  intros Hnd Hc.
  assert (StronglySorted (cmp_lt map_key_cmp) c.*1) as Hs.
  { rewrite <- Hc. assert ((isort entry_key_cmp xs).*1 = isort map_key_cmp xs.*1) as ->.
    { clear. unfold isort. induction xs as [|x xs IH]; cbn; [done|]. rewrite <- IH.
      generalize (foldr (insert_sorted entry_key_cmp) [] xs). intros l.
      induction l as [|y l IHl]; cbn; [done|]. unfold entry_key_cmp at 1.
      destruct (map_key_cmp x.1 y.1); cbn; [done..|]. by rewrite <- IHl. }
    apply sorted_ascending; [apply _|apply isort_sorted; apply _|by rewrite isort_perm]. }
  clear Hc Hnd. induction c as [|[k t] c IH]; [constructor|]. cbn in Hs.
  apply StronglySorted_inv in Hs as [Hs Hk]. constructor; [by apply IH|].
  rewrite Forall_forall in Hk. apply Forall_forall. intros [k' t'] Hin. unfold cmp_lt, pair_cmp. cbn.
  rewrite (Hk k'); [done|]. by apply (list_elem_of_fmap_2 fst) in Hin.
Qed.

Lemma Forall2_elem_l {A B} (R : A → B → Prop) l k x :
  Forall2 R l k → x ∈ l → ∃ y, y ∈ k ∧ R x y.
Proof.
  intros Hl [i Hi]%list_elem_of_lookup. destruct (Forall2_lookup_l _ _ _ _ _ Hl Hi) as (y & Hy & ?).
  exists y. split; [by eapply list_elem_of_lookup_2|done].
Qed.

Lemma Forall2_elem_r {A B} (R : A → B → Prop) l k y :
  Forall2 R l k → y ∈ k → ∃ x, x ∈ l ∧ R x y.
Proof.
  intros Hl [i Hi]%list_elem_of_lookup. destruct (Forall2_lookup_r _ _ _ _ _ Hl Hi) as (x & Hx & ?).
  exists x. split; [by eapply list_elem_of_lookup_2|done].
Qed.

(** An entry of the map and the child it denotes. *)
Lemma map_child_of xs c k v :
  Forall2 (child_of st) (isort entry_key_cmp xs) c → (k, v) ∈ xs → ∃ t, (k, t) ∈ c ∧ tree_of st v t.
Proof.
  intros Hc Hin. rewrite <- (isort_perm entry_key_cmp) in Hin.
  destruct (Forall2_elem_l _ _ _ _ Hc Hin) as ([k' t] & Ht & Hk & Hv). cbn in *. subst. eauto.
Qed.

Lemma map_child_entry xs c k t :
  Forall2 (child_of st) (isort entry_key_cmp xs) c → (k, t) ∈ c → ∃ v, (k, v) ∈ xs ∧ tree_of st v t.
Proof.
  intros Hc Hin. destruct (Forall2_elem_r _ _ _ _ Hc Hin) as ([k' v] & Hv & Hk & Ht). cbn in *. subst.
  rewrite (isort_perm entry_key_cmp) in Hv. eauto.
Qed.

Lemma children_keys (xs : list (MapKey * RuntimeValue)) (c : list (MapKey * Tree)) :
  Forall2 (child_of st) xs c → xs.*1 = c.*1.
Proof. induction 1 as [|x e xs c [Hk _] _ IH]; cbn; congruence. Qed.

Lemma entries_all_refines (f : RuntimeValue → RuntimeValue → option bool) xs ys c c' r :
  NoDup xs.*1 → NoDup ys.*1 → length xs = length ys →
  Forall2 (child_of st) (isort entry_key_cmp xs) c →
  Forall2 (child_of st) (isort entry_key_cmp ys) c' →
  (∀ x y (e e' : MapKey * Tree) o, e ∈ c → e' ∈ c' → tree_of st x e.2 → tree_of st y e'.2 →
     f x y = Some o → (o = true ↔ e.2 = e'.2)) →
  entries_all f xs ys = Some r → (r = true ↔ c = c').
Proof.
  intros Hnx Hny Hlen Hc Hc' Hf Hr. apply entries_all_cases in Hr.
  pose proof (map_children_sorted xs c Hnx (children_keys _ _ Hc)) as Hsc.
  pose proof (map_children_sorted ys c' Hny (children_keys _ _ Hc')) as Hsc'.
  destruct r; split; try done.
  - intros _. apply (ascending_unique (pair_cmp map_key_cmp tree_cmp) c c' Hsc Hsc').
    assert (c ≡ₚ c') as Hp; [|by intros e; rewrite Hp].
    apply submseteq_length_Permutation.
    + apply NoDup_submseteq; [by eapply (ascending_cmp_NoDup (pair_cmp map_key_cmp tree_cmp))|].
      intros [k t] He. destruct (map_child_entry _ _ _ _ Hc He) as (v & Hv & Ht).
      destruct (Hr k v Hv) as (w & Hw%index_map_get_elem & Ho).
      destruct (map_child_of _ _ _ _ Hc' Hw) as (u & Hu & Hwu).
      assert (t = u) as <-; [|done]. by apply (Hf v w (k, t) (k, u) true).
    + apply Forall2_length in Hc, Hc'. rewrite (isort_perm entry_key_cmp) in Hc, Hc'. lia.
  - intros <-. destruct Hr as (k & v & Hv & Hw).
    destruct (map_child_of _ _ _ _ Hc Hv) as (t & He & Ht).
    destruct (map_child_entry _ _ _ _ Hc' He) as (w & Hwin & Hwt).
    specialize (Hw w (proj2 (index_map_get_nodup ys k w Hny) Hwin)).
    by apply (Hf v w (k, t) (k, t) false).
Qed.

(** Equality of atoms is equality of their kind and content. *)
Definition is_container (v : RuntimeValue) : bool :=
  match v with VTuple _ | VList _ | VMap _ => true | _ => false end.

Lemma value_eqb_rank a b : deep_type_rank a ≠ deep_type_rank b → value_eqb a b = false.
Proof. by destruct a, b. Qed.

Lemma str_content_inj s t : Z.of_N <$> str_bytes s = Z.of_N <$> str_bytes t ↔ s = t.
Proof.
  by rewrite <- (cmp_eq (list_cmp Z.compare)), list_cmp_of_N, list_cmp_str, (cmp_eq str_cmp).
Qed.

Lemma bytes_content_inj (l k : list N) : Z.of_N <$> l = Z.of_N <$> k ↔ l = k.
Proof.
  by rewrite <- (cmp_eq (list_cmp Z.compare)), list_cmp_of_N, (cmp_eq (list_cmp N.compare)).
Qed.

Lemma value_eqb_atom a b :
  is_container a = false → deep_type_rank a = deep_type_rank b →
  (∀ f, a = VFloat f → f64_plain f) → (∀ f, b = VFloat f → f64_plain f) →
  value_eqb a b = true ↔ scalar_content a = scalar_content b.
Proof.
  intros Hn Hr Hpa Hpb. destruct a, b; try discriminate Hr; try discriminate Hn;
    cbn [value_eqb scalar_content]; try done; rewrite ?N.eqb_eq; try naive_solver lia.
  - rewrite Bool.eqb_true_iff. split; [by intros ->|]. intros [= H]. by apply Z.b2z_inj.
  - rewrite Z.eqb_eq. split; congruence.
  - rewrite f64_eqb_plain, bool_decide_eq_true by auto. split; [by intros ->|].
    intros [= H]. by apply f64_key_inj.
  - by rewrite bool_decide_eq_true, str_content_inj.
  - by rewrite bool_decide_eq_true, bytes_content_inj.
Qed.

Lemma plain_float a c :
  plain (Node (deep_type_rank a) (scalar_content a) c) → ∀ f, a = VFloat f → f64_plain f.
Proof. intros H f ->. inversion H as [r p c' Hf _]; subst. by apply Hf. Qed.

Lemma plain_child r p c e : plain (Node r p c) → e ∈ c → plain e.2.
Proof. intros H He. inversion H as [r' p' c' _ Hc]; subst. by rewrite Forall_forall in Hc; apply Hc. Qed.

Lemma zip_items_refines (f : RuntimeValue → RuntimeValue → option bool) xs ys c c' r :
  length xs = length ys →
  Forall2 (child_of st) ((λ v, (KeyNull, v)) <$> xs) c →
  Forall2 (child_of st) ((λ v, (KeyNull, v)) <$> ys) c' →
  (∀ x y (e e' : MapKey * Tree) o, e ∈ c → e' ∈ c' → tree_of st x e.2 → tree_of st y e'.2 →
     f x y = Some o → (o = true ↔ e.2 = e'.2)) →
  zip_all f xs ys = Some r → (r = true ↔ c = c').
Proof.
  intros Hlen. rewrite !Forall2_fmap_l. intros Hx Hy Hf.
  apply (zip_all_refines f (λ v e, KeyNull = e.1 ∧ tree_of st v e.2) xs ys c c' r Hx Hy Hlen).
  intros x y [k t] [k' u] o He He' [Hk Ht] [Hk' Hu] Ho. cbn in *. subst.
  rewrite (Hf x y (KeyNull, t) (KeyNull, u) o He He' Ht Hu Ho). cbn. naive_solver.
Qed.

Lemma live_map_entries l : live st (VMap l) → NoDup (map_entries st l).*1.
Proof. intros [es Hes]. unfold map_entries. rewrite Hes. by eapply ho_keys. Qed.

(** Containers of different length have different children. *)
Lemma children_length (xs ys : list (MapKey * RuntimeValue)) (c c' : list (MapKey * Tree)) :
  Forall2 (child_of st) xs c → Forall2 (child_of st) ys c' → c = c' → length xs = length ys.
Proof. intros H1%Forall2_length H2%Forall2_length ->. lia. Qed.

Lemma node_children r r' p p' c c' : r = r' → p = p' → Node r p c = Node r' p' c' ↔ c = c'.
Proof. intros -> ->. naive_solver. Qed.

(** Values of different kinds. *)
Lemma deep_equal_kinds fuel visiting a b c c' r :
  deep_type_rank a ≠ deep_type_rank b → deep_equal_inner (S fuel) st visiting a b = Some r →
  r = true ↔ Node (deep_type_rank a) (scalar_content a) c = Node (deep_type_rank b) (scalar_content b) c'.
Proof.
  intros Hrank.
  assert (deep_equal_inner (S fuel) st visiting a b = Some (value_eqb a b)) as -> by by destruct a, b.
  rewrite value_eqb_rank by done. intros [= <-]. split; [done|]. by intros [= ?].
Qed.

(** Atoms of the same kind. *)
Lemma deep_equal_atoms fuel visiting a b c c' r :
  deep_type_rank a = deep_type_rank b → is_container a = false →
  Forall2 (child_of st) (children_of st a) c → Forall2 (child_of st) (children_of st b) c' →
  plain (Node (deep_type_rank a) (scalar_content a) c) →
  plain (Node (deep_type_rank b) (scalar_content b) c') →
  deep_equal_inner (S fuel) st visiting a b = Some r →
  r = true ↔ Node (deep_type_rank a) (scalar_content a) c = Node (deep_type_rank b) (scalar_content b) c'.
Proof.
  intros Hrank Hcont Hc Hc' Pa Pb.
  assert (deep_equal_inner (S fuel) st visiting a b = Some (value_eqb a b)) as -> by by destruct a, b.
  intros [= <-]. rewrite value_eqb_atom; [|done..|by eapply plain_float|by eapply plain_float].
  assert (is_container b = false) by by destruct a, b.
  assert (c = [] ∧ c' = []) as [-> ->].
  { split; [destruct a|destruct b]; try done; by eapply Forall2_nil_inv_l. }
  split; [by intros ->; rewrite Hrank|congruence].
Qed.

Lemma deep_equal_inner_refines fuel visiting a b ta tb r :
  tree_of st a ta → tree_of st b tb → plain ta → plain tb → stack_above st (fst_on visiting) ta →
  deep_equal_inner fuel st visiting a b = Some r → (r = true ↔ ta = tb).
Proof.
  revert visiting a b ta tb r. induction fuel as [|fuel IH]; [done|].
  intros visiting a b ta tb r Ha Hb Pa Pb Hs. pose proof Ha as Ha'. pose proof Hb as Hb'.
  apply tree_of_inv in Ha as (c & -> & La & Hc). apply tree_of_inv in Hb as (c' & -> & Lb & Hc').
  assert (∀ v w (e e' : MapKey * Tree) o vis, e ∈ c → e' ∈ c' → tree_of st v e.2 → tree_of st w e'.2 →
    stack_above st (fst_on vis) e.2 → deep_equal_inner fuel st vis v w = Some o →
    (o = true ↔ e.2 = e'.2)) as Hchild.
  { intros v w e e' o vis He He' Hv Hw. apply IH; [done..|exact (plain_child _ _ _ _ Pa He)|exact (plain_child _ _ _ _ Pb He')]. }
  destruct (decide (deep_type_rank a = deep_type_rank b)) as [Hrank|Hrank]; [|by eapply deep_equal_kinds].
  destruct (is_container a) eqn:Hcont; [|by eapply deep_equal_atoms].
  destruct a as [| | | | | |xs| | | | | |x|x| |], b as [| | | | | |ys| | | | | |y|y| |];
    try discriminate Hrank; try discriminate Hcont;
    rewrite (node_children _ _ _ _ c c' Hrank) by done;
    cbn [deep_equal_inner children_of] in *.
  - destruct (Nat.eqb_spec (length xs) (length ys)) as [Hlen|Hlen].
    + apply (zip_items_refines _ _ _ _ _ _ Hlen Hc Hc').
      intros v w e e' o He He' Hv Hw. apply Hchild; [done..|]. by eapply stack_above_child.
    + intros [= <-]. split; [done|]. intros H. destruct Hlen.
      apply (children_length _ _ _ _ Hc Hc') in H. by rewrite !length_fmap in H.
  - destruct (N.eqb_spec x y) as [->|_].
    { intros [= <-]. by injection (tree_of_det _ _ _ _ Ha' Hb') as <-. }
    rewrite decide_False by (eapply fst_on_fresh; [done..|by left]).
    destruct (Nat.eqb_spec (length (list_items st x)) (length (list_items st y))) as [Hlen|Hlen].
    + apply (zip_items_refines _ _ _ _ _ _ Hlen Hc Hc').
      intros v w e e' o He He' Hv Hw. apply Hchild; [done..|].
        eapply fst_on_push; [done..|by left|done].
    + intros [= <-]. split; [done|]. intros H. destruct Hlen.
      apply (children_length _ _ _ _ Hc Hc') in H. by rewrite !length_fmap in H.
  - destruct (N.eqb_spec x y) as [->|_].
    { intros [= <-]. by injection (tree_of_det _ _ _ _ Ha' Hb') as <-. }
    rewrite decide_False by (eapply fst_on_fresh; [done..|by right]).
    destruct (Nat.eqb_spec (length (map_entries st x)) (length (map_entries st y))) as [Hlen|Hlen].
    + apply (entries_all_refines _ _ _ _ _ _ (live_map_entries _ La) (live_map_entries _ Lb)
               Hlen Hc Hc').
      intros v w e e' o He He' Hv Hw. apply Hchild; [done..|].
        eapply fst_on_push; [done..|by right|done].
    + intros [= <-]. split; [done|]. intros H. destruct Hlen.
      apply (children_length _ _ _ _ Hc Hc') in H. by rewrite !(isort_perm entry_key_cmp) in H.
Qed.
End deep_equal.

Lemma deep_equal_tree st a b ta tb :
  heap_ok st → tree_of st a ta → tree_of st b tb → plain ta → plain tb →
  deep_equal st a b = Some true ↔ ta = tb.
Proof.
  intros Hok Ha Hb Pa Pb. destruct (deep_equal_total st a b) as [r Hr]. rewrite Hr.
  rewrite <- (deep_equal_inner_refines st Hok _ [] a b ta tb r Ha Hb Pa Pb (stack_above_empty st ta) Hr).
  split; congruence.
Qed.

(** ** The hash *)

(** The bytes that the content of a scalar of kind [r] contributes. *)
Definition content_bytes (r : N) (p : list Z) : list N :=
  match r, p with
  | 1%N, [b] => [Z.to_N b]
  | 2%N, [i] => i64_to_le_bytes i
  | 3%N, [k] => u64_to_le_bytes (Z.to_N (if (k <? 0)%Z then (2 ^ 63 - 1 - k)%Z else k))
  | (4 | 5)%N, p => Z.to_N <$> p
  | _, _ => []
  end.

Fixpoint tree_hash (t : Tree) (s : N) : N :=
  match t with
  | Node r p c =>
      let s := fnv_mix (fnv_mix s [r]) (content_bytes r p) in
      if (r =? 8)%N then
        fnv_mix s (u64_to_le_bytes
          (foldr (λ e x, N.lxor (tree_hash e.2 (hash_map_key e.1 FNV_OFFSET)) x) 0%N c))
      else foldl (λ s e, tree_hash e.2 s) s c
  end.

Lemma content_bytes_of_N (l : list N) : Z.to_N <$> (Z.of_N <$> l) = l.
Proof. induction l as [|x l IH]; cbn; [done|]. by rewrite N2Z.id, IH. Qed.

Lemma content_bytes_float f :
  content_bytes 3 [f64_key f] = u64_to_le_bytes (f64_bits f).
Proof.
  cbn [content_bytes]. apply (f_equal u64_to_le_bytes). unfold f64_key. set (b := Z.of_N (f64_bits f)).
  assert (0 ≤ b)%Z by lia.
  destruct (Z.ltb_spec b (2 ^ 63)).
  - destruct (Z.ltb_spec b 0); lia.
  - destruct (Z.ltb_spec (2 ^ 63 - 1 - b) 0); lia.
Qed.

Lemma hash_items_refines {A} (f : A → N → option N) (R : A → MapKey * Tree → Prop) xs c s r :
  Forall2 R xs c →
  (∀ x e s r, e ∈ c → R x e → f x s = Some r → r = tree_hash e.2 s) →
  hash_items f xs s = Some r → r = foldl (λ s e, tree_hash e.2 s) s c.
Proof.
  intros Hx. revert s. induction Hx as [|x e xs c Hxe Hx IH]; intros s Hf; cbn.
  - by intros [= <-].
  - intros (s' & Hs & H)%bind_Some. assert (s' = tree_hash e.2 s) as -> by (eapply Hf; [left|done..]).
    apply IH; [|done]. intros x' e' s1 r1 He'. apply Hf. by right.
Qed.

Definition xor_all (l : list N) : N := foldr N.lxor 0%N l.

Global Instance xor_all_perm : Proper ((≡ₚ) ==> (=)) xor_all.
Proof.
  induction 1 as [| x l k _ IH|x y l|l k m _ IH1 _ IH2]; unfold xor_all in *; cbn;
    [done|by rewrite IH| |congruence].
  rewrite <- !N.lxor_assoc. by rewrite (N.lxor_comm y x).
Qed.

(** The accumulator of [hash_entries] is the XOR of the hashes of the entries, so
    their order does not matter. *)
Definition entry_hash {A} (f : A → N → option N) (e : MapKey * A) : N :=
  default 0%N (f e.2 (hash_map_key e.1 FNV_OFFSET)).

Lemma hash_entries_xor {A} (f : A → N → option N) xs acc r :
  hash_entries f xs acc = Some r →
  r = N.lxor acc (xor_all (entry_hash f <$> xs)) ∧
  Forall (λ e, is_Some (f e.2 (hash_map_key e.1 FNV_OFFSET))) xs.
Proof.
  revert acc. induction xs as [|[k x] xs IH]; intros acc; cbn.
  - intros [= <-]. by rewrite N.lxor_0_r.
  - intros (y & Hy & H)%bind_Some. apply IH in H as [-> Hall]. split.
    + unfold entry_hash at 2. cbn. by rewrite Hy, N.lxor_assoc.
    + constructor; [by exists y|done].
Qed.

Lemma hash_entries_refines {A} (f : A → N → option N) (R : MapKey * A → MapKey * Tree → Prop) xs c r :
  Forall2 R (isort entry_key_cmp xs) c →
  (∀ x e s y, e ∈ c → R x e → f x.2 s = Some y → y = tree_hash e.2 s) →
  (∀ x e, R x e → x.1 = e.1) →
  hash_entries f xs 0 = Some r →
  r = foldr (λ e x, N.lxor (tree_hash e.2 (hash_map_key e.1 FNV_OFFSET)) x) 0%N c.
Proof.
  intros Hc Hf Hk [-> Hall]%hash_entries_xor. rewrite N.lxor_0_l.
  rewrite <- (isort_perm entry_key_cmp xs) in Hall |- *.
  induction Hc as [|[k x] [k' t] xs' c HR Hc IH]; cbn; [done|].
  apply Forall_cons in Hall as [[y Hy] Hall]. cbn in Hy.
  pose proof (Hk _ _ HR) as Hkk. cbn in Hkk. subst k'.
  unfold xor_all in IH. rewrite IH; [|intros x' e' s y' He'; apply Hf; by right|done].
  f_equal. unfold entry_hash. cbn. rewrite Hy. cbn.
  by apply (Hf (k, x) (k, t) _ y); [left|done..].
Qed.

Section deep_hash.
Context (st : Store) (Hok : heap_ok st).

Lemma hash_push visiting v r p c x e :
  stack_above st (λ y, y ∈ visiting) (Node r p c) → tree_of st v (Node r p c) →
  container_at x v → e ∈ c → stack_above st (λ y, y ∈ x :: visiting) e.2.
Proof.
  intros Hs Hv Hx He. eapply stack_above_push; [done|exact Hx|exact Hv|exact Hs|done|].
  intros y Hy. by apply elem_of_cons in Hy.
Qed.

Lemma tree_hash_leaf r p s :
  r ≠ 8%N → tree_hash (Node r p []) s = fnv_mix (fnv_mix s [r]) (content_bytes r p).
Proof. intros H%N.eqb_neq. cbn [tree_hash]. by rewrite H. Qed.

Lemma content_bytes_bool b : content_bytes 1 [Z.b2z b] = [N.b2n b].
Proof. by destruct b. Qed.

Lemma content_bytes_str r l :
  r = 4%N ∨ r = 5%N → content_bytes r (Z.of_N <$> l) = l.
Proof. intros [->| ->]; apply content_bytes_of_N. Qed.

Lemma deep_hash_inner_refines fuel visiting v t s r :
  tree_of st v t → stack_above st (λ x, x ∈ visiting) t →
  deep_hash_inner fuel st visiting v s = Some r → r = tree_hash t s.
Proof.
  revert visiting v t s r. induction fuel as [|fuel IH]; [done|].
  intros visiting v t s r Hv Hs. pose proof Hv as Hv'.
  apply tree_of_inv in Hv as (c & -> & Hl & Hc).
  destruct v as [| | | | | |xs| | | | | |x|x| |];
    cbn [deep_hash_inner deep_type_rank scalar_content children_of] in *;
    try (apply Forall2_nil_inv_l in Hc as ->; intros [= <-]; rewrite tree_hash_leaf by done;
         rewrite ?content_bytes_bool, ?content_bytes_float, ?content_bytes_str by auto; done).
  - rewrite Forall2_fmap_l in Hc. apply (hash_items_refines _ _ _ _ _ _ Hc).
    intros v e s' r' He [_ Hv]. apply IH; [done|]. by eapply stack_above_child.
  - rewrite decide_False by (intros Hin; eapply (stack_above_not st _ x); [exact Hs|by left|done|done]).
    rewrite Forall2_fmap_l in Hc. apply (hash_items_refines _ _ _ _ _ _ Hc).
    intros v e s' r' He [_ Hv]. apply IH; [done|]. eapply hash_push; [done..|by left|done].
  - rewrite decide_False by (intros Hin; eapply (stack_above_not st _ x); [exact Hs|by right|done|done]).
    intros (z & Hz & Hr)%bind_Some.
    apply (hash_entries_refines _ _ _ _ _ Hc) in Hz as ->; [|clear Hr|by intros ?? []].
    { change (Some (tree_hash (Node 8 [] c) s) = Some r) in Hr. congruence. }
    intros v e s' r' He [_ Hv]. apply IH; [done|]. eapply hash_push; [done..|by right|done].
Qed.
End deep_hash.

Lemma deep_hash_tree st v t :
  heap_ok st → tree_of st v t → deep_hash st v = Some (u64_as_i64 (tree_hash t FNV_OFFSET)).
Proof.
  intros Hok Hv. destruct (deep_hash_total st v) as [z Hz]. rewrite Hz. unfold deep_hash in Hz.
  apply fmap_Some in Hz as (r & Hr & ->). do 2 f_equal.
  eapply deep_hash_inner_refines; [done|exact Hv| |exact Hr].
  intros x w u Hx. by apply not_elem_of_nil in Hx.
Qed.

(** C14: on acyclic values without NaN and negative zero the three structural
    operations agree: [deep_equal] answers [true] exactly when [deep_compare]
    answers [Equal]. *)
Theorem deep_equal_iff_compare (st : Store) (a b : RuntimeValue) (ta tb : Tree) :
  heap_ok st → tree_of st a ta → tree_of st b tb → plain ta → plain tb →
  deep_equal st a b = Some true ↔ deep_compare st a b = Some Eq.
Proof.
  intros Hok Ha Hb Pa Pb. rewrite (deep_equal_tree st a b ta tb) by done.
  rewrite (deep_compare_tree st a b ta tb) by done. rewrite <- (cmp_eq tree_cmp).
  split; congruence.
Qed.

(** C15: values that compare equal hash equal: on acyclic values, whatever floats
    they hold and in whatever order their maps were built, [deep_compare] saying
    [Equal] implies the same [deep_hash]. *)
Theorem deep_compare_equal_hash (st : Store) (a b : RuntimeValue) (ta tb : Tree) :
  heap_ok st → tree_of st a ta → tree_of st b tb →
  deep_compare st a b = Some Eq → deep_hash st a = deep_hash st b.
Proof.
  intros Hok Ha Hb. rewrite (deep_compare_tree st a b ta tb) by done. intros [= H].
  apply (cmp_eq tree_cmp) in H as <-.
  by rewrite (deep_hash_tree st a ta), (deep_hash_tree st b ta) by done.
Qed.

(** ** Concrete heaps *)

(** Unfolding by computation, to any given depth. *)
Fixpoint unfold_value (fuel : nat) (st : Store) (v : RuntimeValue) : option Tree :=
  match fuel with
  | 0 => None
  | S fuel =>
      if match v with
         | VList l => bool_decide (is_Some (st_lists st !! l))
         | VMap l => bool_decide (is_Some (st_maps st !! l))
         | _ => true
         end
      then
        c ← mapM (λ e : MapKey * RuntimeValue, t ← unfold_value fuel st e.2; Some (e.1, t))
                 (children_of st v);
        Some (Node (deep_type_rank v) (scalar_content v) c)
      else None
  end.

Lemma unfold_value_sound fuel st v t : unfold_value fuel st v = Some t → tree_of st v t.
Proof.
  revert v t. induction fuel as [|fuel IH]; intros v t; cbn [unfold_value]; [done|].
  destruct (match v with VList _ => _ | _ => _ end) eqn:Hl; [|done].
  intros (c & Hc%mapM_Some & [= <-])%bind_Some. constructor.
  - destruct v; try done; by apply bool_decide_eq_true in Hl.
  - eapply Forall2_impl; [exact Hc|]. intros [k w] e (u & Hu & [= <-])%bind_Some.
    split; [done|]. by apply IH.
Qed.

Definition f64_one : F64 := {| f64_bits := 0x3ff0000000000000 |}.
Definition f64_nan : F64 := {| f64_bits := 0x7ff8000000000000 |}.
Definition f64_zero : F64 := {| f64_bits := 0 |}.

Definition heap_of (lists : list (Loc * list RuntimeValue))
    (maps : list (Loc * list (MapKey * RuntimeValue))) : Store :=
  {| st_lists := list_to_map lists; st_maps := list_to_map maps; st_refs := ∅; st_envs := ∅;
     st_next := 100 |}.

(** Two lists holding maps with the same entries, inserted in opposite orders. *)
Definition twin_heap : Store :=
  heap_of [(0%N, [VInt 1; VMap 2]); (1%N, [VInt 1; VMap 3])]
          [(2%N, [(KeyStr "a", VTuple [VBool true]); (KeyInt 5, VFloat f64_one)]);
           (3%N, [(KeyInt 5, VFloat f64_one); (KeyStr "a", VTuple [VBool true])])].

Definition twin_tree : Tree :=
  Node 7 [] [(KeyNull, Node 2 [1%Z] []);
             (KeyNull, Node 8 [] [(KeyInt 5, Node 3 [f64_key f64_one] []);
                                  (KeyStr "a", Node 6 [] [(KeyNull, Node 1 [1%Z] [])])])].

Lemma twin_heap_ok : heap_ok twin_heap.
Proof.
  split.
  - intros l [x Hx] [y Hy]. apply elem_of_list_to_map_2 in Hx, Hy. set_solver.
  - intros l es Hes. apply elem_of_list_to_map_2 in Hes.
    apply elem_of_cons in Hes as [[= -> ->]|[[= -> ->]|Hn%not_elem_of_nil]%elem_of_cons];
      [apply (bool_decide_unpack _); vm_compute; exact I..|done].
Qed.

Lemma twin_tree_of l : l = 0%N ∨ l = 1%N → tree_of twin_heap (VList l) twin_tree.
Proof. intros [->| ->]; apply (unfold_value_sound 4); by vm_compute. Qed.

Lemma twin_plain : plain twin_tree.
Proof.
  assert (∀ f, [f64_key f64_one] = [f64_key f] → f64_plain f) as H1.
  { intros f [= Hf]. change (f64_key f64_one = f64_key f) in Hf. apply f64_key_inj in Hf as <-.
    split; [done|]. split; [discriminate|done]. }
  repeat (constructor; try (intros f Hr Hf; first [discriminate Hr|by apply H1])).
Qed.

Lemma deep_compare_total_order_witness :
  deep_compare twin_heap (VList 0) (VList 1) = Some Eq ∧ (0 ≠ 1)%N.
Proof.
  split; [|discriminate].
  exact (proj2 (proj2 (proj2 (deep_compare_total_order twin_heap (VList 0) (VList 1) twin_tree twin_tree
    twin_heap_ok (twin_tree_of 0 (or_introl eq_refl)) (twin_tree_of 1 (or_intror eq_refl))))) eq_refl).
Defined.

Lemma deep_equal_iff_compare_witness :
  deep_equal twin_heap (VList 0) (VList 1) = Some true.
Proof.
  apply (deep_equal_iff_compare twin_heap (VList 0) (VList 1) twin_tree twin_tree
    twin_heap_ok (twin_tree_of 0 (or_introl eq_refl)) (twin_tree_of 1 (or_intror eq_refl))
    twin_plain twin_plain).
  vm_compute. reflexivity.
Defined.

Lemma deep_compare_equal_hash_witness :
  deep_hash twin_heap (VList 0) = deep_hash twin_heap (VList 1).
Proof.
  apply (deep_compare_equal_hash twin_heap (VList 0) (VList 1) twin_tree twin_tree
    twin_heap_ok (twin_tree_of 0 (or_introl eq_refl)) (twin_tree_of 1 (or_intror eq_refl))).
  vm_compute. reflexivity.
Defined.

(** ** Where equality, order and hash part *)

(** Two floats on which [deep_equal] and [deep_compare] disagree: zeros of opposite
    sign, or one NaN with itself. *)
Definition float_disagreement (x y : F64) : Prop :=
  (f64_is_zero x = true ∧ f64_is_zero y = true ∧ x ≠ y) ∨ (x = y ∧ f64_is_nan x = true).

Lemma f64_zero_not_nan x : f64_is_zero x = true → f64_is_nan x = false.
Proof. unfold f64_is_zero, f64_is_nan. intros ->%N.eqb_eq. done. Qed.

Lemma f64_eqb_total_cmp x y :
  (f64_eqb x y = true ↔ f64_total_cmp x y = Eq) ↔ ¬ float_disagreement x y.
Proof.
  assert (f64_total_cmp x y = Eq ↔ x = y) as ->.
  { unfold f64_total_cmp. rewrite Z.compare_eq_iff. split; [apply f64_key_inj|by intros ->]. }
  assert (f64_eqb x y = true ↔ f64_is_nan x = false ∧ f64_is_nan y = false ∧
    (x = y ∨ f64_is_zero x = true ∧ f64_is_zero y = true)) as ->.
  { unfold f64_eqb. rewrite !andb_true_iff, !negb_true_iff, orb_true_iff, andb_true_iff, N.eqb_eq.
    assert (f64_bits x = f64_bits y ↔ x = y) as ->; [|tauto].
    destruct x, y; cbn. split; [by intros ->|by intros [= ->]]. }
  pose proof (f64_zero_not_nan x). pose proof (f64_zero_not_nan y). unfold float_disagreement.
  assert (x = y → f64_is_nan x = f64_is_nan y) as Hxy by by intros ->.
  assert (Decision (x = y)) as [->|Hne] by (destruct x as [i], y as [j];
    destruct (decide (i = j)) as [->|]; [by left|right; congruence]).
  - destruct (f64_is_nan y); naive_solver.
  - naive_solver.
Qed.

(** A list holding itself, and two lists holding each other. *)
Record cyclic_lists (st : Store) (l a b : Loc) : Prop := {
  cy_self : st_lists st !! l = Some [VList l];
  cy_left : st_lists st !! a = Some [VList b];
  cy_right : st_lists st !! b = Some [VList a];
  cy_distinct : a ≠ b;
}.

Section cyclic.
Context (st : Store) (l a b : Loc) (Hc : cyclic_lists st l a b).

Lemma cyclic_items : list_items st l = [VList l] ∧ list_items st a = [VList b] ∧
  list_items st b = [VList a].
Proof. destruct Hc as [H1 H2 H3 _]. unfold list_items. by rewrite H1, H2, H3. Qed.

Lemma cyclic_ne : l ≠ a ∧ l ≠ b.
Proof. destruct Hc as [H1 H2 H3 Hne]. split; intros ->; rewrite H1 in *; congruence. Qed.

Lemma cyclic_locs : 3 ≤ size (container_locs st).
Proof.
  destruct Hc as [H1 H2 H3 Hne]. destruct cyclic_ne as [Hla Hlb].
  transitivity (size ({[l]} ∪ ({[a]} ∪ {[b]}) : gset Loc)).
  - rewrite !size_union, !size_singleton by set_solver. done.
  - apply subseteq_size. unfold container_locs. intros x Hx.
    apply elem_of_union_l, elem_of_dom. set_solver.
Qed.

Lemma cyclic_fuel : (∃ k, compare_fuel st (VList l) = S (S (S k))) ∧
  (∃ k, hash_fuel st (VList l) = S (S (S k))) ∧ (∃ k, hash_fuel st (VList a) = S (S (S k))).
Proof.
  pose proof cyclic_locs as Hs. unfold compare_fuel, hash_fuel, walk_fuel. cbn [tuple_depth].
  set (n := size (container_locs st)) in *.
  assert (3 ≤ n * n) as Hn by nia.
  assert (∀ m, 3 ≤ m → ∃ k, m * S (store_depth st) + 1 = S (S (S k))) as Hf.
  { intros m Hm. exists (m * S (store_depth st) - 2). nia. }
  split_and!; by apply Hf.
Qed.

Lemma cyclic_deep_equal : deep_equal st (VList l) (VList a) = Some true.
Proof.
  destruct cyclic_fuel as [[k Hk] _]. destruct cyclic_items as (Il & Ia & Ib).
  destruct cyclic_ne as [Hla Hlb]. pose proof (cy_distinct _ _ _ _ Hc) as Hab.
  unfold deep_equal. rewrite Hk. cbn [deep_equal_inner].
  rewrite (proj2 (N.eqb_neq l a) Hla), Il, Ia.
  rewrite decide_False by set_solver. cbn [length Nat.eqb zip_all].
  rewrite (proj2 (N.eqb_neq l b) Hlb), Il, Ib. cbn [length Nat.eqb zip_all].
  rewrite decide_False by (rewrite list_elem_of_singleton; congruence). cbn [zip_all].
  rewrite (proj2 (N.eqb_neq l a) Hla), decide_True by set_solver. done.
Qed.

Lemma cyclic_deep_compare : deep_compare st (VList l) (VList a) = Some Eq.
Proof.
  destruct cyclic_fuel as [[k Hk] _]. destruct cyclic_items as (Il & Ia & Ib).
  destruct cyclic_ne as [Hla Hlb]. pose proof (cy_distinct _ _ _ _ Hc) as Hab.
  unfold deep_compare. rewrite Hk.
  cbn [deep_compare_inner deep_type_rank N.compare Pos.compare Pos.compare_cont].
  rewrite (proj2 (N.eqb_neq l a) Hla), Il, Ia.
  rewrite decide_False by set_solver. unfold compare_slices. cbn [length Nat.compare compare_zip].
  rewrite (proj2 (N.eqb_neq l b) Hlb), Il, Ib. cbn [length Nat.compare compare_zip].
  rewrite decide_False by (rewrite list_elem_of_singleton; congruence). cbn [compare_zip].
  rewrite (proj2 (N.eqb_neq l a) Hla), decide_True by set_solver. done.
Qed.

Lemma cyclic_deep_hash : deep_hash st (VList l) ≠ deep_hash st (VList a).
Proof.
  destruct cyclic_fuel as (_ & [k Hk] & [j Hj]). destruct cyclic_items as (Il & Ia & Ib).
  destruct cyclic_ne as [Hla Hlb]. pose proof (cy_distinct _ _ _ _ Hc) as Hab.
  unfold deep_hash. rewrite Hk, Hj. cbn [deep_hash_inner].
  rewrite !(decide_False (P := _ ∈ [])) by set_solver. rewrite Il, Ia. cbn [hash_items].
  rewrite decide_True by set_solver.
  rewrite decide_False by (rewrite list_elem_of_singleton; congruence). rewrite Ib.
  cbn [hash_items]. rewrite decide_True by set_solver. vm_compute. discriminate.
Qed.
End cyclic.

(** C32: the limits of the agreement, in every store. On two floats, [deep_equal] says
    the same as [deep_compare] giving [Equal] except for zeros of opposite sign
    and for a NaN with itself; [0.0] and [-0.0] are [deep_equal] and have different
    hashes. A list whose only element is itself and one of two lists that hold
    each other are [deep_equal] and compare [Equal], and have different hashes. *)
Theorem structural_agreement_limits (st : Store) :
  (∀ x y, (deep_equal st (VFloat x) (VFloat y) = Some true ↔
           deep_compare st (VFloat x) (VFloat y) = Some Eq) ↔ ¬ float_disagreement x y) ∧
  (deep_equal st (VFloat f64_zero) (VFloat f64_neg_zero) = Some true ∧
   deep_hash st (VFloat f64_zero) ≠ deep_hash st (VFloat f64_neg_zero)) ∧
  (∀ l a b, cyclic_lists st l a b →
     deep_equal st (VList l) (VList a) = Some true ∧
     deep_compare st (VList l) (VList a) = Some Eq ∧
     deep_hash st (VList l) ≠ deep_hash st (VList a)).
Proof.
  assert (∀ n (v : F64), walk_fuel n st (VFloat v) = S (n * S (store_depth st))) as Hw.
  { intros n v. unfold walk_fuel. cbn. lia. }
  split; [|split].
  - intros x y. rewrite <-f64_eqb_total_cmp.
    unfold deep_equal, deep_compare, compare_fuel. rewrite Hw.
    cbn [deep_equal_inner deep_compare_inner value_eqb deep_type_rank N.compare Pos.compare
      Pos.compare_cont].
    assert (∀ A (u v : A), Some u = Some v ↔ u = v) as Hs.
    { intros A u v. split; [by intros [= ->]|by intros ->]. }
    by rewrite !Hs.
  - unfold deep_equal, deep_hash, compare_fuel, hash_fuel. rewrite !Hw. split; [done|].
    cbn [deep_hash_inner]. vm_compute. discriminate.
  - intros l a b Hc. split_and!; by eauto using cyclic_deep_equal, cyclic_deep_compare, cyclic_deep_hash.
Qed.

(** The cyclic lists of one heap. *)
Definition cyclic_heap : Store :=
  heap_of [(0%N, [VList 0]); (1%N, [VList 2]); (2%N, [VList 1])] [].

Lemma structural_agreement_limits_witness :
  deep_equal cyclic_heap (VList 0) (VList 1) = Some true ∧
  deep_hash cyclic_heap (VList 0) ≠ deep_hash cyclic_heap (VList 1) ∧
  ¬ (deep_equal cyclic_heap (VFloat f64_nan) (VFloat f64_nan) = Some true ↔
     deep_compare cyclic_heap (VFloat f64_nan) (VFloat f64_nan) = Some Eq).
Proof.
  destruct (structural_agreement_limits cyclic_heap) as (Hf & _ & Hcyc).
  destruct (Hcyc 0%N 1%N 2%N) as (H1 & _ & H3); [by split; vm_compute|].
  split; [exact H1|]. split; [exact H3|]. intros H. apply (Hf f64_nan f64_nan) in H.
  apply H. right. by vm_compute.
Defined.
