(* ===== verification/CompareSort.v ===== *)
(** The shallow sort key [runtime_value_cmp] of [value_compare.rs], used by
    [sequence_sort_by]: a total preorder as long as every integer involved is
    exactly representable as a float, and every other integer breaks it. *)

From S2P Require Import Prelude Order Policy Source Ir Values Compare CompareOrder.

(** ** Integers as floats *)

(** Units in the last place: an integer with leading bit [e] keeps 53 bits. *)
Definition ulp (m : Z) : Z := (2 ^ Z.max 0 (Z.log2 m - 52))%Z.

(** The integers a float represents exactly. *)
Definition exact_int (z : Z) : Prop := in_i64 z ∧ (ulp (Z.abs z) | z)%Z.

Global Instance exact_int_dec z : Decision (exact_int z).
Proof.
  destruct (decide (in_i64 z)); [|right; by intros []].
  destruct (decide (z mod ulp (Z.abs z) = 0)%Z) as [E|E].
  - left. split; [done|]. apply Z.mod_divide; [|done]. unfold ulp. lia.
  - right. intros [_ H]. apply E. apply Z.mod_divide; [|done]. unfold ulp. lia.
Defined.

(** Exponent and mantissa bits of the float nearest to a positive integer. *)
Definition magnitude_bits (m : Z) : Z :=
  let e := Z.log2 m in
  let mantissa :=
    if (e <=? 52)%Z then Z.shiftl m (52 - e)
    else
      let s := (e - 52)%Z in
      let q := Z.shiftr m s in
      let r := (m - Z.shiftl q s)%Z in
      let half := Z.shiftl 1 (s - 1) in
      if (half <? r)%Z || ((r =? half)%Z && Z.odd q) then (q + 1)%Z else q in
  (Z.shiftl (e + 1022) 52 + mantissa)%Z.

(** [m] as 53 leading bits [q] and a rest [r] below the unit in the last place. *)
Lemma magnitude_bits_split s q r :
  (1 ≤ s)%Z → (2 ^ 52 ≤ q < 2 ^ 53)%Z → (0 ≤ r < 2 ^ s)%Z →
  Z.log2 (q * 2 ^ s + r) = (s + 52)%Z ∧
  magnitude_bits (q * 2 ^ s + r) =
    ((s + 1074) * 2 ^ 52 +
     if (2 ^ (s - 1) <? r)%Z || ((r =? 2 ^ (s - 1))%Z && Z.odd q) then q + 1 else q)%Z.
Proof.
  intros Hs Hq Hr. assert (0 < 2 ^ s)%Z as Hp by lia.
  assert (Z.log2 (q * 2 ^ s + r) = s + 52)%Z as Hlog.
  { apply Z.log2_unique; [lia|]. replace (Z.succ (s + 52)) with (s + 53)%Z by lia.
    rewrite !Z.pow_add_r by lia. nia. }
  split; [done|]. unfold magnitude_bits. rewrite Hlog.
  destruct (Z.leb_spec (s + 52) 52) as [?|_]; [lia|]. cbv zeta.
  replace (s + 52 - 52)%Z with s by lia.
  rewrite !Z.shiftl_mul_pow2, Z.shiftr_div_pow2 by lia.
  rewrite (Z.div_add_l q (2 ^ s) r) by lia. rewrite (Z.div_small r) by lia.
  rewrite Z.add_0_r, Z.mul_1_l.
  replace (q * 2 ^ s + r - q * 2 ^ s)%Z with r by lia. lia.
Qed.

Lemma split_magnitude m :
  (52 < Z.log2 m)%Z →
  ∃ s q r, s = (Z.log2 m - 52)%Z ∧ m = (q * 2 ^ s + r)%Z ∧ (2 ^ 52 ≤ q < 2 ^ 53)%Z ∧ (0 ≤ r < 2 ^ s)%Z.
Proof.
  intros He. set (s := (Z.log2 m - 52)%Z). assert (1 ≤ s)%Z as Hs by lia.
  assert (0 < m)%Z as Hm. { destruct (Z.leb_spec m 0); [|lia]. rewrite Z.log2_nonpos in He; lia. }
  pose proof (Z.log2_spec m Hm) as [Hl Hu].
  replace (Z.log2 m) with (s + 52)%Z in Hl, Hu by lia.
  replace (Z.succ (s + 52)) with (s + 53)%Z in Hu by lia. rewrite Z.pow_add_r in Hl, Hu by lia.
  assert (0 < 2 ^ s)%Z as Hp by lia.
  exists s, (m / 2 ^ s)%Z, (m mod 2 ^ s)%Z. split; [done|].
  split; [rewrite Z.mul_comm; by apply Z.div_mod; lia|].
  split; [|by apply Z.mod_pos_bound]. split.
  - apply Z.div_le_lower_bound; lia.
  - apply Z.div_lt_upper_bound; lia.
Qed.

Lemma exact_magnitude m :
  (0 < m)%Z → (ulp m | m)%Z →
  magnitude_bits m = ((Z.log2 m + 1022) * 2 ^ 52 +
    (if (Z.log2 m <=? 52)%Z then m * 2 ^ (52 - Z.log2 m) else m / 2 ^ (Z.log2 m - 52)))%Z ∧
  ((Z.log2 m + 1023) * 2 ^ 52 ≤ magnitude_bits m < (Z.log2 m + 1024) * 2 ^ 52)%Z.
Proof.
  intros Hm Hu. pose proof (Z.log2_nonneg m) as Hn.
  destruct (Z.leb_spec (Z.log2 m) 52) as [Hle|Hgt].
  - unfold magnitude_bits. rewrite (proj2 (Z.leb_le _ _) Hle), !Z.shiftl_mul_pow2 by lia.
    split; [done|]. pose proof (Z.log2_spec m Hm) as [Hl Hh].
    assert (2 ^ 52 = 2 ^ Z.log2 m * 2 ^ (52 - Z.log2 m))%Z as Hp.
    { rewrite <- Z.pow_add_r by lia. f_equal. lia. }
    rewrite Z.pow_succ_r in Hh by lia. nia.
  - destruct (split_magnitude m Hgt) as (s & q & r & Hs & Hmq & Hq & Hr).
    assert (r = 0%Z) as ->.
    { unfold ulp in Hu. rewrite Z.max_r in Hu by lia. rewrite <- Hs in Hu.
      apply Z.mod_divide in Hu; [|lia]. rewrite Hmq in Hu.
      rewrite Z.add_comm, Z.mod_add, Z.mod_small in Hu by lia. done. }
    destruct (magnitude_bits_split s q 0 ltac:(lia) Hq Hr) as [Hlog Hb]. rewrite <- Hmq in Hlog, Hb.
    rewrite Hb, <- Hs. assert (m / 2 ^ s = q)%Z as ->.
    { rewrite Hmq, Z.add_0_r. apply Z.div_mul. lia. }
    assert (2 ^ (s - 1) > 0)%Z by lia.
    destruct (Z.ltb_spec (2 ^ (s - 1)) 0), (Z.eqb_spec 0 (2 ^ (s - 1))); cbn [orb andb]; lia.
Qed.

Lemma float_of_int z :
  z ≠ 0%Z →
  f64_of_i64 z = {| f64_bits := Z.to_N ((if (z <? 0)%Z then 2 ^ 63 else 0) + magnitude_bits (Z.abs z)) |}.
Proof.
  intros Hn. unfold f64_of_i64, magnitude_bits. rewrite (proj2 (Z.eqb_neq z 0) Hn). cbv zeta.
  do 2 f_equal. lia.
Qed.

Lemma log2_i64 z : in_i64 z → (Z.log2 (Z.abs z) ≤ 63)%Z.
Proof.
  intros Hz. change 63%Z with (Z.log2 (2 ^ 63)) at 1. apply Z.log2_le_mono.
  unfold in_i64, i64_min, i64_max in Hz. lia.
Qed.

(** Larger integers have larger floats. *)
Lemma magnitude_bits_lt m n :
  (0 < m)%Z → (m < n)%Z → (ulp m | m)%Z → (ulp n | n)%Z →
  (magnitude_bits m < magnitude_bits n)%Z.
Proof.
  intros Hm Hn Hum Hun. destruct (exact_magnitude m Hm Hum) as [Em Hbm].
  destruct (exact_magnitude n ltac:(lia) Hun) as [En Hbn].
  pose proof (Z.log2_le_mono m n ltac:(lia)) as Hle.
  destruct (Z.eq_dec (Z.log2 m) (Z.log2 n)) as [E|]; [|nia].
  unfold ulp in *. rewrite E in Em, Hum. rewrite Em, En. clear Em En Hbm Hbn.
  destruct (Z.leb_spec (Z.log2 n) 52) as [Hle'|Hgt].
  - assert (0 < 2 ^ (52 - Z.log2 n))%Z by lia. nia.
  - assert (m / 2 ^ (Z.log2 n - 52) < n / 2 ^ (Z.log2 n - 52))%Z; [|lia].
    rewrite Z.max_r in Hum, Hun by lia. set (s := (Z.log2 n - 52)%Z) in *.
    assert (0 < 2 ^ s)%Z as Hp by lia. clearbody s.
    destruct Hum as [a ->], Hun as [b ->]. rewrite !Z.div_mul by lia. nia.
Qed.

Definition signed_bits (z : Z) : Z :=
  if (z =? 0)%Z then 0%Z
  else if (z <? 0)%Z then (-1 - magnitude_bits (- z))%Z
  else magnitude_bits z.

Lemma exact_abs z : exact_int z → (ulp (Z.abs z) | Z.abs z)%Z.
Proof. intros [_ H]. by apply Z.divide_abs_r. Qed.

Lemma exact_float_key z : exact_int z → f64_key (f64_of_i64 z) = signed_bits z.
Proof.
  intros Hz. unfold signed_bits. destruct (Z.eqb_spec z 0) as [->|Hn]; [done|].
  pose proof (exact_abs z Hz) as Hu. destruct Hz as [Hz _]. pose proof (log2_i64 z Hz) as He.
  pose proof (Z.log2_nonneg (Z.abs z)) as He0.
  destruct (exact_magnitude (Z.abs z) ltac:(lia) Hu) as [_ Hb].
  unfold f64_key. rewrite (float_of_int z Hn). cbn [f64_bits].
  destruct (Z.ltb_spec z 0) as [Hneg|Hpos]; rewrite Z2N.id by lia.
  - rewrite Z.abs_neq in * by lia. destruct (Z.ltb_spec (2 ^ 63 + magnitude_bits (- z)) (2 ^ 63)); lia.
  - rewrite Z.abs_eq in * by lia. destruct (Z.ltb_spec (0 + magnitude_bits z) (2 ^ 63)); lia.
Qed.

Lemma signed_bits_lt x y : exact_int x → exact_int y → (x < y)%Z → (signed_bits x < signed_bits y)%Z.
Proof.
  intros Hx Hy Hlt. pose proof (exact_abs x Hx) as Hux. pose proof (exact_abs y Hy) as Huy.
  unfold signed_bits.
  assert (∀ m, (0 < m)%Z → (ulp m | m)%Z → (0 < magnitude_bits m)%Z) as Hpos.
  { intros m Hm Hu. pose proof (Z.log2_nonneg m). destruct (exact_magnitude m Hm Hu) as [_ ?]. lia. }
  destruct (Z.ltb_spec x 0), (Z.ltb_spec y 0); rewrite ?(Z.abs_neq x), ?(Z.abs_eq x),
    ?(Z.abs_neq y), ?(Z.abs_eq y) in * by lia; try lia;
    destruct (Z.eqb_spec x 0) as [->|], (Z.eqb_spec y 0) as [->|]; try lia.
  - pose proof (magnitude_bits_lt (- y) (- x) ltac:(lia) ltac:(lia) Huy Hux). lia.
  - pose proof (Hpos (- x)%Z ltac:(lia) Hux). lia.
  - pose proof (Hpos (- x)%Z ltac:(lia) Hux). pose proof (Hpos y ltac:(lia) Huy). lia.
  - by apply Hpos; [lia|].
  - by apply magnitude_bits_lt; [lia|..].
Qed.

Lemma exact_float_cmp x y :
  exact_int x → exact_int y →
  Z.compare (f64_key (f64_of_i64 x)) (f64_key (f64_of_i64 y)) = Z.compare x y.
Proof.
  intros Hx Hy. rewrite !exact_float_key by done. destruct (Z.compare_spec x y) as [->|Hlt|Hgt].
  - apply Z.compare_refl.
  - apply Z.compare_lt_iff. by apply signed_bits_lt.
  - apply Z.compare_gt_iff. by apply signed_bits_lt.
Qed.

(** ** The sort key *)

(** Numbers of both kinds share a rank and are ordered as floats. *)
Definition sort_key (v : RuntimeValue) : N * list Z :=
  match v with
  | VNull => (0%N, [])
  | VBool b => (1%N, [Z.b2z b])
  | VInt i => (2%N, [f64_key (f64_of_i64 i)])
  | VFloat f => (2%N, [f64_key f])
  | VStr s => (4%N, Z.of_N <$> str_bytes s)
  | _ => (255%N, [])
  end.

Definition exact_key (v : RuntimeValue) : Prop := ∀ i, v = VInt i → exact_int i.

Abbreviation sort_key_cmp := (pair_cmp N.compare (list_cmp Z.compare)).

Lemma runtime_value_cmp_key a b :
  exact_key a → exact_key b → runtime_value_cmp a b = sort_key_cmp (sort_key a) (sort_key b).
Proof.
  intros Ha Hb. unfold pair_cmp.
  destruct a, b; try done; cbn [runtime_value_cmp sort_key fst snd N.compare Pos.compare Pos.compare_cont then_cmp];
    rewrite ?list_cmp_one, ?list_cmp_of_N, ?list_cmp_str; try done.
  - apply bool_cmp_b2z.
  - symmetry. by apply exact_float_cmp; [apply Ha|apply Hb].
Qed.

(** C24: sorting by [runtime_value_cmp] is sound for keys whose integers are exactly
    representable as floats (all up to 2^53 in absolute value, and the larger ones
    that are multiples of their unit in the last place): on them the comparison is
    the total order of the sort keys, so it is antisymmetric and its [Less] and
    [Equal] are transitive, across all kinds and with integers and floats mixed. *)
Theorem runtime_value_cmp_preorder (a b c : RuntimeValue) :
  exact_key a → exact_key b → exact_key c →
  runtime_value_cmp a b = sort_key_cmp (sort_key a) (sort_key b) ∧
  runtime_value_cmp b a = CompOpp (runtime_value_cmp a b) ∧
  (runtime_value_cmp a b ≠ Gt → runtime_value_cmp b c ≠ Gt → runtime_value_cmp a c ≠ Gt).
Proof.
  intros Ha Hb Hc. rewrite !runtime_value_cmp_key by done. split; [done|].
  split; [apply (cmp_opp sort_key_cmp)|]. apply (cmp_le_trans sort_key_cmp).
Qed.

(** Every integer up to 2^53 is exact. *)
Lemma exact_int_small z : (- 2 ^ 53 ≤ z ≤ 2 ^ 53)%Z → exact_int z.
Proof.
  intros Hz. split; [unfold in_i64, i64_min, i64_max; lia|].
  apply (Z.divide_abs_r (ulp (Z.abs z)) z). set (m := Z.abs z). assert (0 ≤ m ≤ 2 ^ 53)%Z by lia.
  unfold ulp. destruct (decide (m = 2 ^ 53)%Z) as [->|Hne].
  - exists (2 ^ 52)%Z. by vm_compute.
  - assert (Z.log2 m ≤ 52)%Z as Hl.
    { change 52%Z with (Z.log2 (2 ^ 53 - 1)). apply Z.log2_le_mono. lia. }
    rewrite Z.max_l by lia. apply Z.divide_1_l.
Qed.

Lemma runtime_value_cmp_preorder_witness :
  runtime_value_cmp (VInt (2 ^ 60)) (VStr "x") ≠ Gt.
Proof.
  apply (runtime_value_cmp_preorder (VInt (2 ^ 60)) (VFloat (f64_of_i64 (2 ^ 60))) (VStr "x"));
    [intros i [= <-]; refine (bool_decide_unpack (exact_int (2 ^ 60)) _); vm_compute; exact I|discriminate|discriminate
    |vm_compute; discriminate..].
Defined.

(** ** Beyond the exact integers *)

(** Another positive integer with the same float as an inexact one. *)
Lemma inexact_twin m :
  (0 < m < 2 ^ 63)%Z → ¬ (ulp m | m)%Z →
  ∃ n, (0 < n < 2 ^ 63)%Z ∧ n ≠ m ∧ magnitude_bits n = magnitude_bits m.
Proof.
  intros Hm Hu. assert (52 < Z.log2 m)%Z as He.
  { destruct (Z.ltb_spec 52 (Z.log2 m)); [done|]. destruct Hu. unfold ulp.
    rewrite Z.max_l by lia. apply Z.divide_1_l. }
  destruct (split_magnitude m He) as (s & q & r & Hs & Hmq & Hq & Hr).
  assert (s ≤ 10)%Z as Hs10.
  { assert (Z.log2 m < 63)%Z by (apply Z.log2_lt_pow2; lia). lia. }
  assert (r ≠ 0)%Z as Hr0.
  { intros ->. apply Hu. unfold ulp. rewrite Z.max_r, <- Hs by lia. exists q. lia. }
  assert (0 < 2 ^ (s - 1) ∧ 2 ^ s = 2 * 2 ^ (s - 1))%Z as [Hp Hps].
  { split; [lia|]. rewrite <- Z.pow_succ_r by lia. f_equal. lia. }
  destruct (magnitude_bits_split s q r ltac:(lia) Hq Hr) as [_ Hb]. rewrite <- Hmq in Hb.
  (* A number with the same leading bits. *)
  assert (∀ r', (0 ≤ r' < 2 ^ s)%Z → (0 < q * 2 ^ s + r' < 2 ^ 63)%Z) as Hrange.
  { intros r' Hr'. assert (q * 2 ^ s + r' < 2 ^ 53 * 2 ^ s)%Z by nia.
    assert (2 ^ 53 * 2 ^ s ≤ 2 ^ 63)%Z; [|nia].
    rewrite <- Z.pow_add_r by lia. apply Z.pow_le_mono_r; lia. }
  destruct ((2 ^ (s - 1) <? r)%Z || ((r =? 2 ^ (s - 1))%Z && Z.odd q)) eqn:Hup.
  2:{ exists (q * 2 ^ s + 0)%Z. split; [apply Hrange; lia|]. split; [lia|].
      destruct (magnitude_bits_split s q 0 ltac:(lia) Hq ltac:(lia)) as [_ ->]. rewrite Hb.
      destruct (Z.ltb_spec (2 ^ (s - 1)) 0), (Z.eqb_spec 0 (2 ^ (s - 1))); cbn [orb andb]; lia. }
  assert (2 ^ (s - 1) ≤ r)%Z as Hhalf.
  { apply orb_true_iff in Hup as [?%Z.ltb_lt|[?%Z.eqb_eq _]%andb_true_iff]; lia. }
  assert (∀ r', (2 ^ (s - 1) < r' < 2 ^ s)%Z → r' ≠ r →
    ∃ n, (0 < n < 2 ^ 63)%Z ∧ n ≠ m ∧ magnitude_bits n = magnitude_bits m) as Hother.
  { intros r' Hr' Hne. exists (q * 2 ^ s + r')%Z. split; [apply Hrange; lia|]. split; [lia|].
    destruct (magnitude_bits_split s q r' ltac:(lia) Hq ltac:(lia)) as [_ ->]. rewrite Hb.
    by rewrite (proj2 (Z.ltb_lt _ _)) by lia. }
  destruct (decide (r + 1 < 2 ^ s)%Z) as [?|Hlast]; [apply (Hother (r + 1)%Z); lia|].
  destruct (decide (2 ^ (s - 1) < r - 1)%Z) as [?|Hsmall]; [apply (Hother (r - 1)%Z); lia|].
  (* One or two bits are lost, so the next multiple is still in range. *)
  assert (s ≤ 2)%Z as Hs2.
  { destruct (Z.leb_spec s 2); [done|].
    assert (2 ^ 2 ≤ 2 ^ (s - 1))%Z by (apply Z.pow_le_mono_r; lia). lia. }
  exists ((q + 1) * 2 ^ s)%Z. assert (2 ^ s ≤ 4)%Z by (change 4%Z with (2 ^ 2)%Z; apply Z.pow_le_mono_r; lia).
  split; [nia|]. split; [lia|]. rewrite Hb.
  destruct (decide (q + 1 < 2 ^ 53)%Z) as [Hq1|Hq1].
  - rewrite <- (Z.add_0_r ((q + 1) * 2 ^ s)).
    destruct (magnitude_bits_split s (q + 1) 0 ltac:(lia) ltac:(lia) ltac:(lia)) as [_ ->].
    destruct (Z.ltb_spec (2 ^ (s - 1)) 0), (Z.eqb_spec 0 (2 ^ (s - 1))); cbn [orb andb]; lia.
  - assert (q + 1 = 2 ^ 53)%Z as -> by lia.
    replace (2 ^ 53 * 2 ^ s)%Z with (2 ^ 52 * 2 ^ (s + 1) + 0)%Z by (rewrite Z.pow_add_r by lia; lia).
    destruct (magnitude_bits_split (s + 1) (2 ^ 52) 0 ltac:(lia) ltac:(lia) ltac:(lia)) as [_ ->].
    replace (s + 1 - 1)%Z with s by lia.
    destruct (Z.ltb_spec (2 ^ s) 0), (Z.eqb_spec 0 (2 ^ s)); cbn [orb andb]; lia.
Qed.

Lemma float_twin z :
  in_i64 z → ¬ exact_int z → ∃ y, in_i64 y ∧ y ≠ z ∧ f64_of_i64 y = f64_of_i64 z.
Proof.
  intros Hz Hn. unfold in_i64, i64_min, i64_max in *.
  assert (z ≠ 0%Z) as H0. { intros ->. apply Hn. by apply exact_int_small. }
  assert (z ≠ - 2 ^ 63)%Z as Hmin. { intros ->. apply Hn. by refine (bool_decide_unpack (exact_int (- 2 ^ 63)) _); vm_compute. }
  destruct (inexact_twin (Z.abs z)) as (n & Hr & Hne & Hb); [lia| |].
  { intros Hu. apply Hn. split; [done|]. by apply Z.divide_abs_r. }
  exists (if (z <? 0)%Z then - n else n)%Z.
  destruct (Z.ltb_spec z 0).
  - split; [lia|]. split; [lia|]. rewrite !float_of_int by lia.
    rewrite (proj2 (Z.ltb_lt (- n) 0)), (proj2 (Z.ltb_lt z 0)), (Z.abs_opp n), (Z.abs_eq n), Hb by lia.
    done.
  - split; [lia|]. split; [lia|]. rewrite !float_of_int by lia.
    rewrite (proj2 (Z.ltb_ge n 0)), (proj2 (Z.ltb_ge z 0)), (Z.abs_eq n), Hb by lia. done.
Qed.

(** C33: the condition of the sort key is the weakest one: every 64-bit integer that
    no float represents exactly breaks transitivity. It compares [Equal] to some
    float, that float compares [Equal] to another integer, and the two integers do
    not compare [Equal]. *)
Theorem runtime_value_cmp_intransitive (z : Z) :
  in_i64 z → ¬ exact_int z →
  ∃ f y, in_i64 y ∧ runtime_value_cmp (VInt z) (VFloat f) = Eq ∧
    runtime_value_cmp (VFloat f) (VInt y) = Eq ∧ runtime_value_cmp (VInt z) (VInt y) ≠ Eq.
Proof.
  intros Hz Hn. destruct (float_twin z Hz Hn) as (y & Hy & Hne & E).
  exists (f64_of_i64 z), y. cbn. rewrite E. unfold f64_total_cmp. rewrite Z.compare_refl.
  split_and!; [done..|]. by rewrite Z.compare_eq_iff.
Qed.

Lemma runtime_value_cmp_intransitive_witness :
  ¬ exact_int (2 ^ 53 + 1) ∧ ∃ f y, runtime_value_cmp (VInt (2 ^ 53 + 1)) (VFloat f) = Eq ∧
    runtime_value_cmp (VFloat f) (VInt y) = Eq ∧
    runtime_value_cmp (VInt (2 ^ 53 + 1)) (VInt y) ≠ Eq.
Proof.
  assert (¬ exact_int (2 ^ 53 + 1)) as Hn.
  { apply (bool_decide_eq_false (exact_int (2 ^ 53 + 1))). vm_compute. reflexivity. }
  split; [exact Hn|].
  destruct (runtime_value_cmp_intransitive (2 ^ 53 + 1)) as (f & y & _ & H1 & H2 & H3);
    [split; discriminate|exact Hn|].
  exists f, y. split; [exact H1|]. split; [exact H2|exact H3].
Defined.
