(* ===== verification/Gc.v ===== *)
(** The cycle collector: [clear_tracked_environments] of [caap/src/values.rs].

    The collector reasons about reference counts, so this file looks at runtime
    objects as the reference-counted cells they are: every shared object, tuples
    included, is a cell of the heap, and a value is at most one strong reference.
    [handles] are the strong references held outside these cells (stack frames,
    evaluators, host objects), as a multiset. No cell is mutably borrowed while
    the collector runs. Dropping the last reference frees a cell, which the
    language does as soon as the collector releases its own references. *)

From S2P Require Import Prelude Order Policy Source Ir Values.

Inductive RcValue :=
  | RvClosure (l : Loc)
  | RvMacro (l : Loc)
  | RvList (l : Loc)
  | RvMap (l : Loc)
  | RvTuple (l : Loc)
  | RvRef (l : Loc)
  | RvOther.

Inductive RcObject :=
  | ObEnv (parent : option Loc) (bindings : gmap string nat) (slots : list RcValue)
  | ObClosure (env : Loc)
  | ObMacro (env : Loc)
  | ObList (items : list RcValue)
  | ObMap (values : list RcValue)
  | ObTuple (items : list RcValue)
  | ObRef (content : RcValue).

Abbreviation RcHeap := (gmap Loc RcObject).

(** Occurrences of [x] in a list of references. *)
Definition occ (x : Loc) (l : list Loc) : nat := length (filter (x =.) l).

(** ** References *)

(** The strong reference a value is. *)
Definition value_refs (val : RcValue) : list Loc :=
  match val with
  | RvClosure l | RvMacro l | RvList l | RvMap l | RvTuple l | RvRef l => [l]
  | RvOther => []
  end.

(** All strong references a cell holds. *)
Definition strong_refs (o : RcObject) : list Loc :=
  match o with
  | ObEnv parent _ slots => option_list parent ++ (slots ≫= value_refs)
  | ObClosure env | ObMacro env => [env]
  | ObList vs | ObMap vs | ObTuple vs => vs ≫= value_refs
  | ObRef v => value_refs v
  end.

(** The references the collector follows: neither parents nor reference cells. *)
Definition collect_graph_nodes (val : RcValue) : list Loc :=
  match val with
  | RvClosure l | RvMacro l | RvList l | RvMap l | RvTuple l => [l]
  | RvRef _ | RvOther => []
  end.

Definition graph_refs (o : RcObject) : list Loc :=
  match o with
  | ObEnv _ _ slots => slots ≫= collect_graph_nodes
  | ObClosure env | ObMacro env => [env]
  | ObList vs | ObMap vs | ObTuple vs => vs ≫= collect_graph_nodes
  | ObRef _ => []
  end.

Definition heap_graph_refs (h : RcHeap) (l : Loc) : list Loc :=
  match h !! l with Some o => graph_refs o | None => [] end.

(** Strong references to [x] from cells and from outside. *)
Definition rc_count (h : RcHeap) (handles : list Loc) (x : Loc) : nat :=
  sum_list_with (λ e, occ x (strong_refs e.2)) (map_to_list h) + occ x handles.

(** ** The reachability graph *)

(** The worklist: [queue] is the stack, its top first. *)
Fixpoint build_loop (fuel : nat) (h : RcHeap) (queue : list Loc) (graph : gmap Loc (list Loc)) :
    option (gmap Loc (list Loc)) :=
  match fuel, queue with
  | _, [] => Some graph
  | 0, _ => None
  | S fuel, addr :: queue =>
      if decide (is_Some (graph !! addr)) then build_loop fuel h queue graph
      else
        let refs := heap_graph_refs h addr in
        build_loop fuel h (reverse refs ++ queue) (<[addr := refs]> graph)
  end.

(** Every edge is pushed at most once. *)
Definition edge_count (h : RcHeap) : nat :=
  sum_list_with (λ e, length (graph_refs e.2)) (map_to_list h).

Definition build_global_reachability_graph (h : RcHeap) (starts : list Loc) :
    option (gmap Loc (list Loc)) :=
  build_loop (length starts + edge_count h) h (reverse starts) ∅.

(** ** Liveness *)

Definition incoming (graph : gmap Loc (list Loc)) (x : Loc) : nat :=
  sum_list_with (λ e, occ x e.2) (map_to_list graph).

(** While the graph is held every node has one reference more, a candidate two. *)
Definition external_refs (h : RcHeap) (handles candidates : list Loc)
    (graph : gmap Loc (list Loc)) (addr : Loc) : nat :=
  let cand_ref := if decide (addr ∈ candidates) then 1 else 0 in
  let strong_count := rc_count h handles addr + 1 + cand_ref in
  strong_count - (1 + incoming graph addr + cand_ref).

Definition live_roots (h : RcHeap) (handles candidates : list Loc) (graph : gmap Loc (list Loc)) :
    list Loc :=
  filter (λ addr, 0 < external_refs h handles candidates graph addr) (map_to_list graph).*1.

(** One node of the queue: its unseen successors become live and are queued. *)
Definition push_live (refs : list Loc) (live : gset Loc) (queue : list Loc) : gset Loc * list Loc :=
  foldl (λ '(live, queue) r,
    if decide (r ∈ live) then (live, queue) else ({[r]} ∪ live, queue ++ [r])) (live, queue) refs.

Fixpoint live_loop (fuel : nat) (graph : gmap Loc (list Loc)) (live : gset Loc) (queue : list Loc) :
    option (gset Loc) :=
  match fuel, queue with
  | _, [] => Some live
  | 0, _ => None
  | S fuel, addr :: queue =>
      let refs := default [] (graph !! addr) in
      let '(live, queue) := push_live refs live queue in
      live_loop fuel graph live queue
  end.

(** Every node is queued at most once. *)
Definition live_set (h : RcHeap) (handles candidates : list Loc) (graph : gmap Loc (list Loc)) :
    option (gset Loc) :=
  let roots := live_roots h handles candidates graph in
  live_loop (size graph) graph (list_to_set roots) roots.

(** ** Clearing *)

Definition is_candidate (h : RcHeap) (l : Loc) : bool :=
  match h !! l with
  | Some (ObEnv parent _ slots) =>
      negb (match slots with [] => true | _ => false end) || bool_decide (is_Some parent)
  | _ => false
  end.

Definition candidates_of (h : RcHeap) (tracked : list Loc) : list Loc :=
  filter (λ l, is_candidate h l = true) tracked.

Definition clear_env (l : Loc) (h : RcHeap) : RcHeap :=
  alter (λ o, match o with ObEnv _ _ _ => ObEnv None ∅ [] | o => o end) l h.

(** Freeing the cells without references, and then those only they referenced. *)
Definition unreferenced (h : RcHeap) (handles : list Loc) : list Loc :=
  filter (λ l, rc_count h handles l = 0) (map_to_list h).*1.

Fixpoint free_loop (fuel : nat) (h : RcHeap) (handles : list Loc) : RcHeap :=
  match fuel with
  | 0 => h
  | S fuel =>
      match unreferenced h handles with
      | [] => h
      | dead => free_loop fuel (foldr delete h dead) handles
      end
  end.

Definition drop_unreferenced (h : RcHeap) (handles : list Loc) : RcHeap :=
  free_loop (size h) h handles.

(** The environments one iteration clears; [None] only if a loop ran out of fuel. *)
Definition garbage_of (h : RcHeap) (handles tracked : list Loc) : option (list Loc) :=
  let candidates := candidates_of h tracked in
  graph ← build_global_reachability_graph h candidates;
  live ← live_set h handles candidates graph;
  Some (filter (λ l, l ∉ live) candidates).

Fixpoint collect_loop (fuel : nat) (h : RcHeap) (handles tracked : list Loc) : option RcHeap :=
  match fuel with
  | 0 => None
  | S fuel =>
      match candidates_of h tracked with
      | [] => Some h
      | _ =>
          garbage ← garbage_of h handles tracked;
          match garbage with
          | [] => Some h
          | _ => collect_loop fuel (drop_unreferenced (foldr clear_env h garbage) handles) handles tracked
          end
      end
  end.

(** Each iteration but the last leaves one candidate less. *)
Definition clear_tracked_environments (h : RcHeap) (handles tracked : list Loc) :
    option (RcHeap * list Loc) :=
  h ← collect_loop (S (length tracked)) h handles tracked;
  Some (h, filter (λ l, is_Some (h !! l)) tracked).
