(* ===== verification/GcProps.v ===== *)
(** The cycle collector never touches a cell that the program can still reach,
    ends, and clears exactly the environments that nothing outside the references
    it follows keeps alive. *)

From S2P Require Import Prelude Order Policy Source Ir Values Gc.

(** ** Reachability *)

(** One strong reference, and one reference that the collector follows. *)
Definition strong_edge (h : RcHeap) (x y : Loc) : Prop := ∃ o, h !! x = Some o ∧ y ∈ strong_refs o.
Definition graph_edge (h : RcHeap) (x y : Loc) : Prop := y ∈ heap_graph_refs h x.

(** What the program can reach from outside the heap. *)
Definition reachable (h : RcHeap) (handles : list Loc) (x : Loc) : Prop :=
  ∃ r, r ∈ handles ∧ rtc (strong_edge h) r x.

Definition in_graph (h : RcHeap) (starts : list Loc) (x : Loc) : Prop :=
  ∃ c, c ∈ starts ∧ rtc (graph_edge h) c x.

Section build.
Context (h : RcHeap) (starts : list Loc).

(** What the worklist of [build_global_reachability_graph] maintains. *)
Record build_inv (queue : list Loc) (graph : gmap Loc (list Loc)) : Prop := {
  bi_refs : ∀ x r, graph !! x = Some r → r = heap_graph_refs h x;
  bi_closed : ∀ x y, is_Some (graph !! x) → graph_edge h x y → is_Some (graph !! y) ∨ y ∈ queue;
  bi_sound : ∀ x, is_Some (graph !! x) ∨ x ∈ queue → in_graph h starts x;
  bi_starts : ∀ x, x ∈ starts → is_Some (graph !! x) ∨ x ∈ queue;
}.

Lemma build_inv_skip addr queue graph :
  is_Some (graph !! addr) → build_inv (addr :: queue) graph → build_inv queue graph.
Proof.
  intros Ha [Hr Hc Hs Ht]. split; [done|..].
  - intros x y Hx Hy. destruct (Hc x y Hx Hy) as [|[->|]%elem_of_cons]; auto.
  - intros x [Hx|Hx]; apply Hs; [by left|right; by right].
  - intros x Hx. destruct (Ht x Hx) as [|[->|]%elem_of_cons]; auto.
Qed.

Lemma build_inv_visit addr queue graph :
  build_inv (addr :: queue) graph →
  build_inv (reverse (heap_graph_refs h addr) ++ queue) (<[addr := heap_graph_refs h addr]> graph).
Proof.
  intros [Hr Hc Hs Ht].
  assert (∀ y, y ∈ reverse (heap_graph_refs h addr) ++ queue ↔ graph_edge h addr y ∨ y ∈ queue) as Hq.
  { intros y. by rewrite elem_of_app, elem_of_reverse. }
  assert (in_graph h starts addr) as (c & Hcs & Hca) by (apply Hs; right; left).
  split.
  - intros x r. rewrite lookup_insert_Some. intros [[-> ->]|[_ H]]; [done|by apply Hr].
  - intros x y Hx Hxy. rewrite Hq, lookup_insert_is_Some'.
    destruct (decide (x = addr)) as [->|Hne]; [by auto|].
    rewrite lookup_insert_ne in Hx by done.
    destruct (Hc x y Hx Hxy) as [|[->|]%elem_of_cons]; auto.
  - intros x. rewrite Hq, lookup_insert_is_Some'. intros [[->|Hx]|[Hx|Hx]].
    + by exists c.
    + apply Hs. by left.
    + exists c. split; [done|]. by eapply rtc_r.
    + apply Hs. right. by right.
  - intros x Hx. rewrite Hq, lookup_insert_is_Some'.
    destruct (Ht x Hx) as [|[->|]%elem_of_cons]; auto.
Qed.

(** The edges of the nodes not visited yet. *)
Definition edges_left (graph : gmap Loc (list Loc)) : nat :=
  sum_list_with (λ e, length (graph_refs e.2)) (map_to_list (filter (λ e, graph !! e.1 = None) h)).

Lemma edges_left_visit graph addr :
  graph !! addr = None →
  edges_left (<[addr := heap_graph_refs h addr]> graph) + length (heap_graph_refs h addr) = edges_left graph.
Proof.
  intros Ha. unfold edges_left, heap_graph_refs.
  destruct (h !! addr) as [o|] eqn:Ho.
  - rewrite <- (map_to_list_delete (filter (λ e, graph !! e.1 = None) h) addr o)
      by (by apply map_lookup_filter_Some).
    cbn. rewrite Nat.add_comm. do 2 f_equal. f_equal. apply map_eq. intros i.
    apply option_eq. intros o'. rewrite lookup_delete_Some, !map_lookup_filter_Some. cbn.
    rewrite lookup_insert_None. naive_solver.
  - rewrite Nat.add_0_r. do 2 f_equal. apply map_eq. intros i.
    apply option_eq. intros o'. rewrite !map_lookup_filter_Some. cbn.
    rewrite lookup_insert_None. naive_solver.
Qed.

Lemma build_loop_spec fuel queue graph :
  build_inv queue graph → length queue + edges_left graph ≤ fuel →
  ∃ g, build_loop fuel h queue graph = Some g ∧ build_inv [] g.
Proof.
  revert queue graph. induction fuel as [|fuel IH]; intros [|addr queue] graph Hi Hf; cbn in *.
  - eauto.
  - lia.
  - eauto.
  - case_decide as Hd.
    + apply IH; [by eapply build_inv_skip|lia].
    + apply IH; [by apply build_inv_visit|].
      rewrite <- eq_None_not_Some in Hd. pose proof (edges_left_visit graph addr Hd).
      rewrite length_app, length_reverse. lia.
Qed.

Lemma build_inv_init : build_inv (reverse starts) ∅.
Proof.
  split.
  - intros x r. by rewrite lookup_empty.
  - intros x y. rewrite lookup_empty. by intros [].
  - intros x. rewrite lookup_empty, elem_of_reverse. intros [[]|Hx]; [done|]. by exists x.
  - intros x Hx. right. by apply elem_of_reverse.
Qed.

Lemma edges_left_empty : edges_left ∅ = edge_count h.
Proof.
  unfold edges_left, edge_count. do 2 f_equal. apply map_filter_id. intros i o _. apply lookup_empty.
Qed.

(** The graph holds exactly what the collector reaches, with its references. *)
Lemma build_spec :
  ∃ g, build_global_reachability_graph h starts = Some g ∧
    (∀ x, is_Some (g !! x) ↔ in_graph h starts x) ∧
    (∀ x r, g !! x = Some r → r = heap_graph_refs h x).
Proof.
  destruct (build_loop_spec (length starts + edge_count h) (reverse starts) ∅) as (g & Hg & [Hr Hc Hs Ht]).
  { apply build_inv_init. }
  { rewrite length_reverse, edges_left_empty. lia. }
  exists g. split; [done|]. split; [|done].
  assert (∀ x y, is_Some (g !! x) → graph_edge h x y → is_Some (g !! y)) as Hclosed.
  { intros x y Hx Hy. destruct (Hc x y Hx Hy) as [|?%not_elem_of_nil]; done. }
  intros x. split; [intros Hx; apply Hs; by left|]. intros (c & Hcs & Hrtc).
  assert (is_Some (g !! c)) as Hgc by (by destruct (Ht c Hcs) as [|?%not_elem_of_nil]).
  clear Hcs. induction Hrtc as [|c y x Hcy _ IH]; [done|]. apply IH. by eapply Hclosed.
Qed.
End build.

(** ** Liveness *)

Lemma push_live_spec refs live queue (D : gset Loc) :
  (∀ r, r ∈ refs → r ∈ D) →
  ∃ new, push_live refs live queue = (live ∪ list_to_set refs, queue ++ new) ∧
    (∀ x, x ∈ new → x ∈ refs) ∧
    (∀ x, x ∈ refs → x ∈ live ∨ x ∈ new) ∧
    length new + size (D ∖ (live ∪ list_to_set refs)) ≤ size (D ∖ live).
Proof.
  revert live queue. induction refs as [|r refs IH]; intros live queue HD.
  { exists []. cbn. rewrite app_nil_r, union_empty_r_L.
    split; [done|]. split; [done|]. split; [by intros x ?%not_elem_of_nil|lia]. }
  assert (∀ x, x ∈ refs → x ∈ D) as HD' by (intros x Hx; apply HD; by right).
  unfold push_live in *. cbn [foldl list_to_set]. case_decide as Hr.
  - destruct (IH live queue HD') as (new & -> & Hn1 & Hn2 & Hlen). exists new.
    assert (live ∪ ({[r]} ∪ list_to_set refs) = live ∪ list_to_set refs) as -> by set_solver.
    split; [done|]. split; [intros x Hx; right; by apply Hn1|]. split; [|done].
    intros x [->|Hx]%elem_of_cons; [by left|by apply Hn2].
  - destruct (IH ({[r]} ∪ live) (queue ++ [r]) HD') as (new & -> & Hn1 & Hn2 & Hlen).
    exists (r :: new). split; [f_equal; [set_solver|by rewrite <- app_assoc]|].
    split; [|split].
    + intros x [->|Hx]%elem_of_cons; [left|right; by apply Hn1].
    + intros x [->|Hx]%elem_of_cons; [right; left|].
      destruct (Hn2 x Hx) as [[->%elem_of_singleton|]%elem_of_union|]; [right; left|by left|right; by right].
    + assert (live ∪ ({[r]} ∪ list_to_set refs) = {[r]} ∪ live ∪ list_to_set refs) as -> by set_solver.
      assert (size (D ∖ ({[r]} ∪ live)) < size (D ∖ live)); [|cbn; lia].
      apply subset_size. assert (r ∈ D) by (apply HD; left). set_solver.
Qed.

Section live.
Context (graph : gmap Loc (list Loc)) (roots : list Loc).
Definition succ (x y : Loc) : Prop := y ∈ default [] (graph !! x).
Hypothesis Hclosed : ∀ x y, succ x y → y ∈ dom graph.
Hypothesis Hroots : ∀ x, x ∈ roots → x ∈ dom graph.

Record live_inv (live : gset Loc) (queue : list Loc) : Prop := {
  li_queue : ∀ x, x ∈ queue → x ∈ live;
  li_done : ∀ x y, x ∈ live → succ x y → x ∈ queue ∨ y ∈ live;
  li_sound : ∀ x, x ∈ live → ∃ r, r ∈ roots ∧ rtc succ r x;
  li_roots : ∀ x, x ∈ roots → x ∈ live;
}.

Lemma live_loop_spec fuel live queue :
  live_inv live queue → length queue + size (dom graph ∖ live) ≤ fuel →
  ∃ l, live_loop fuel graph live queue = Some l ∧ live_inv l [].
Proof.
  revert live queue. induction fuel as [|fuel IH]; intros live [|addr queue] Hi Hf; cbn in *; eauto; [lia|].
  destruct (push_live_spec (default [] (graph !! addr)) live queue (dom graph)) as
    (new & -> & Hn1 & Hn2 & Hlen); [intros r Hr; by apply (Hclosed addr)|].
  destruct Hi as [Hq Hd Hs Hr]. apply IH; [|rewrite length_app; lia]. split.
  - intros x [Hx|Hx]%elem_of_app; apply elem_of_union; [left; apply Hq; by right|].
    right. apply elem_of_list_to_set. by apply Hn1.
  - intros x y [Hx|Hx]%elem_of_union Hy.
    + destruct (Hd x y Hx Hy) as [[->|Hxq]%elem_of_cons|Hyl].
      * right. apply elem_of_union_r, elem_of_list_to_set, Hy.
      * left. apply elem_of_app. by left.
      * right. by apply elem_of_union_l.
    + apply elem_of_list_to_set in Hx. destruct (Hn2 x Hx) as [Hxl|Hxn].
      * destruct (Hd x y Hxl Hy) as [[->|Hxq]%elem_of_cons|Hyl].
        -- right. apply elem_of_union_r, elem_of_list_to_set, Hy.
        -- left. apply elem_of_app. by left.
        -- right. by apply elem_of_union_l.
      * left. apply elem_of_app. by right.
  - intros x [Hx|Hx]%elem_of_union; [by apply Hs|]. apply elem_of_list_to_set in Hx.
    destruct (Hs addr) as (r & Hrr & Hra); [apply Hq; left|].
    exists r. split; [done|]. by eapply rtc_r.
  - intros x Hx. apply elem_of_union_l. by apply Hr.
Qed.

Lemma live_spec :
  NoDup roots →
  ∃ l, live_loop (size graph) graph (list_to_set roots) roots = Some l ∧
    ∀ x, x ∈ l ↔ ∃ r, r ∈ roots ∧ rtc succ r x.
Proof.
  intros Hnd. destruct (live_loop_spec (size graph) (list_to_set roots) roots) as (l & Hl & [Hq Hd Hs Hr]).
  - split.
    + intros x. by rewrite elem_of_list_to_set.
    + intros x y. rewrite elem_of_list_to_set. by left.
    + intros x. rewrite elem_of_list_to_set. intros Hx. by exists x.
    + intros x. by rewrite elem_of_list_to_set.
  - rewrite <- (size_dom graph), size_difference, size_list_to_set by
      (try done; intros x; rewrite elem_of_list_to_set; apply Hroots).
    assert (size (list_to_set (C := gset Loc) roots) ≤ size (dom graph)) as Hle.
    { apply subseteq_size. intros x. rewrite elem_of_list_to_set. apply Hroots. }
    rewrite size_list_to_set in Hle by done. lia.
  - exists l. split; [done|]. intros x. split; [apply Hs|]. intros (r & Hrr & Hrtc).
    assert (r ∈ l) as Hrl by (by apply Hr). clear Hrr.
    induction Hrtc as [|r y x Hry _ IH]; [done|]. apply IH.
    by destruct (Hd r y Hrl Hry) as [?%not_elem_of_nil|].
Qed.
End live.

(** ** Counting references *)

Lemma occ_pos x l : 0 < occ x l ↔ x ∈ l.
Proof.
  unfold occ. induction l as [|y l IH].
  { split; [cbn; lia|by intros ?%not_elem_of_nil]. }
  rewrite elem_of_cons. destruct (decide (x = y)) as [->|Hne].
  - rewrite filter_cons_True by done. cbn. split; [by left|lia].
  - rewrite filter_cons_False by done. rewrite IH. naive_solver.
Qed.

Lemma occ_app x l k : occ x (l ++ k) = occ x l + occ x k.
Proof. unfold occ. by rewrite filter_app, length_app. Qed.

Global Instance occ_perm x : Proper ((≡ₚ) ==> (=)) (occ x).
Proof. intros l k H. unfold occ. by rewrite H. Qed.

(** The references that the collector does not follow. *)
Definition cell_refs (val : RcValue) : list Loc := match val with RvRef l => [l] | _ => [] end.

Definition untraced_refs (o : RcObject) : list Loc :=
  match o with
  | ObEnv parent _ slots => option_list parent ++ (slots ≫= cell_refs)
  | ObClosure _ | ObMacro _ => []
  | ObList vs | ObMap vs | ObTuple vs => vs ≫= cell_refs
  | ObRef v => value_refs v
  end.

Lemma value_refs_split vs :
  vs ≫= value_refs ≡ₚ (vs ≫= collect_graph_nodes) ++ (vs ≫= cell_refs).
Proof.
  induction vs as [|v vs IH]; cbn; [done|].
  assert (value_refs v ≡ₚ collect_graph_nodes v ++ cell_refs v) as -> by by destruct v.
  rewrite IH. solve_Permutation.
Qed.

Lemma strong_refs_split o : strong_refs o ≡ₚ graph_refs o ++ untraced_refs o.
Proof.
  destruct o; cbn; try done; rewrite ?value_refs_split; solve_Permutation.
Qed.

Section sums.
Context {A B : Type} (f : A → nat) (f' : B → nat).
Local Abbreviation sum f m := (sum_list_with (λ e, f e.2) (map_to_list m)).

Lemma sum_delete {C} (w : C → nat) (m : gmap Loc C) x :
  sum w m = default 0 (w <$> m !! x) + sum w (delete x m).
Proof.
  destruct (m !! x) as [c|] eqn:Hx; [by rewrite <- (map_to_list_delete m x c Hx)|].
  by rewrite delete_id.
Qed.

Lemma sum_le (g : gmap Loc A) (h : gmap Loc B) :
  (∀ x, default 0 (f <$> g !! x) ≤ default 0 (f' <$> h !! x)) → sum f g ≤ sum f' h.
Proof.
  revert h. induction g as [|x a g Hx IH] using map_ind; intros h Hle.
  { rewrite map_to_list_empty. cbn. lia. }
  rewrite (sum_delete f (<[x := a]> g) x), (sum_delete f' h x), delete_insert_id by done.
  pose proof (Hle x) as Hx'. specialize (IH (delete x h)).
  assert (∀ y, default 0 (f <$> g !! y) ≤ default 0 (f' <$> delete x h !! y)) as H'.
  { intros y. destruct (decide (x = y)) as [<-|Hne]; [rewrite Hx; cbn; lia|].
    specialize (Hle y). by rewrite lookup_insert_ne in Hle; [rewrite lookup_delete_ne|]. }
  specialize (IH H'). lia.
Qed.
End sums.

Lemma sum_lt_iff {A B} (f : A → nat) (f' : B → nat) (g : gmap Loc A) (h : gmap Loc B) :
  (∀ x, default 0 (f <$> g !! x) ≤ default 0 (f' <$> h !! x)) →
  sum_list_with (λ e, f e.2) (map_to_list g) < sum_list_with (λ e, f' e.2) (map_to_list h) ↔
    ∃ x b, h !! x = Some b ∧ default 0 (f <$> g !! x) < f' b.
Proof.
  intros Hle. split.
  - intros Hlt. destruct (decide (map_Forall (λ x b, f' b ≤ default 0 (f <$> g !! x)) h)) as [Hall|Hn].
    + assert (sum_list_with (λ e, f' e.2) (map_to_list h) ≤ sum_list_with (λ e, f e.2) (map_to_list g));
        [|lia].
      apply sum_le. intros x. destruct (h !! x) as [b|] eqn:Hb; cbn; [|lia]. by apply Hall.
    + apply map_not_Forall in Hn as (x & b & Hb & Hn); [|apply _]. exists x, b. split; [done|lia].
  - intros (x & b & Hb & Hlt). rewrite (sum_delete f g x), (sum_delete f' h x), Hb. cbn.
    assert (sum_list_with (λ e, f e.2) (map_to_list (delete x g)) ≤
            sum_list_with (λ e, f' e.2) (map_to_list (delete x h))); [|lia].
    apply sum_le. intros y. destruct (decide (x = y)) as [<-|Hne].
    + rewrite !lookup_delete_eq. cbn. lia.
    + rewrite !lookup_delete_ne by done. apply Hle.
Qed.

(** ** One pass *)

(** [x] is referenced by something other than the references followed from [starts]. *)
Definition held (h : RcHeap) (handles starts : list Loc) (x : Loc) : Prop :=
  x ∈ handles ∨
  ∃ y o, h !! y = Some o ∧
    (x ∈ untraced_refs o ∨ x ∈ strong_refs o ∧ ¬ in_graph h starts y).

Section pass.
Context (h : RcHeap) (handles starts : list Loc) (g : gmap Loc (list Loc)).
Hypothesis Hdom : ∀ x, is_Some (g !! x) ↔ in_graph h starts x.
Hypothesis Hrefs : ∀ x r, g !! x = Some r → r = heap_graph_refs h x.

Lemma graph_occ_le x y :
  default 0 (occ x <$> g !! y) ≤ default 0 ((λ o, occ x (strong_refs o)) <$> h !! y).
Proof.
  destruct (g !! y) as [r|] eqn:Hy; cbn; [|lia]. rewrite (Hrefs _ _ Hy).
  unfold heap_graph_refs. destruct (h !! y) as [o|]; cbn; [|lia].
  rewrite strong_refs_split, occ_app. lia.
Qed.

Lemma external_refs_pos cands x :
  0 < external_refs h handles cands g x ↔ held h handles starts x.
Proof.
  assert (0 < external_refs h handles cands g x ↔
    x ∈ handles ∨ incoming g x < sum_list_with (λ e, occ x (strong_refs e.2)) (map_to_list h)) as ->.
  { pose proof (sum_le (occ x) (λ o, occ x (strong_refs o)) g h (graph_occ_le x)) as Hle.
    rewrite <- occ_pos. unfold external_refs, rc_count, incoming in *. lia. }
  unfold incoming, held.
  rewrite (sum_lt_iff (occ x) (λ o, occ x (strong_refs o)) g h (graph_occ_le x)).
  do 2 f_equiv. intros y. f_equiv. intros o.
  split; intros [Ho Hlt]; (split; [done|]).
  - rewrite strong_refs_split, occ_app in Hlt. destruct (g !! y) as [r|] eqn:Hy; cbn in Hlt.
    + rewrite (Hrefs _ _ Hy) in Hlt. unfold heap_graph_refs in Hlt. rewrite Ho in Hlt.
      left. apply occ_pos. lia.
    + right. split; [rewrite strong_refs_split; apply occ_pos; rewrite occ_app; lia|].
      rewrite <- Hdom, Hy. by intros [].
  - rewrite strong_refs_split, occ_app. destruct Hlt as [Hu|[Hs Hn]].
    + apply occ_pos in Hu. destruct (g !! y) as [r|] eqn:Hy; cbn; [|lia].
      rewrite (Hrefs _ _ Hy). unfold heap_graph_refs. rewrite Ho. lia.
    + rewrite <- Hdom, <- eq_None_not_Some in Hn. rewrite Hn. cbn.
      rewrite strong_refs_split in Hs. apply occ_pos in Hs. rewrite occ_app in Hs. lia.
Qed.

Lemma elem_of_live_roots cands x :
  x ∈ live_roots h handles cands g ↔ in_graph h starts x ∧ held h handles starts x.
Proof.
  unfold live_roots. rewrite list_elem_of_filter, external_refs_pos, <- Hdom.
  rewrite list_elem_of_fmap. unfold is_Some. split.
  - intros [Hh ([k r] & -> & Hin)]. apply elem_of_map_to_list in Hin. eauto.
  - intros [[r Hr] Hh]. split; [done|]. exists (x, r). by rewrite elem_of_map_to_list.
Qed.

Lemma live_roots_NoDup cands : NoDup (live_roots h handles cands g).
Proof. unfold live_roots. apply NoDup_filter, NoDup_fst_map_to_list. Qed.

Lemma graph_succ x y : is_Some (g !! x) → succ g x y ↔ graph_edge h x y.
Proof. intros [r Hr]. unfold succ, graph_edge. rewrite Hr. cbn. by rewrite (Hrefs _ _ Hr). Qed.

Lemma in_graph_step x y : in_graph h starts x → graph_edge h x y → in_graph h starts y.
Proof. intros (c & ? & ?) ?. exists c. split; [done|]. by eapply rtc_r. Qed.

Lemma succ_closed x y : succ g x y → y ∈ dom g.
Proof.
  intros Hxy. apply elem_of_dom, Hdom. destruct (g !! x) as [r|] eqn:Hx.
  - assert (is_Some (g !! x)) as Hs by by rewrite Hx. eapply in_graph_step; [by apply Hdom|].
    by apply graph_succ.
  - unfold succ in Hxy. rewrite Hx in Hxy. by apply not_elem_of_nil in Hxy.
Qed.

Lemma rtc_succ x y : is_Some (g !! x) → rtc (succ g) x y ↔ rtc (graph_edge h) x y.
Proof.
  intros Hx. split; intros Hr.
  - induction Hr as [|x y z Hxy _ IH]; [done|]. eapply rtc_l; [by apply graph_succ|].
    apply IH. apply elem_of_dom. by eapply succ_closed.
  - induction Hr as [|x y z Hxy _ IH]; [done|]. apply graph_succ in Hxy; [|done].
    eapply rtc_l; [done|]. apply IH. apply elem_of_dom. by eapply succ_closed.
Qed.

(** A live node is one that a held node of the graph reaches. *)
Lemma live_set_spec cands :
  ∃ l, live_set h handles cands g = Some l ∧
    ∀ x, x ∈ l ↔ ∃ r, in_graph h starts r ∧ held h handles starts r ∧ rtc (graph_edge h) r x.
Proof.
  destruct (live_spec g (live_roots h handles cands g)) as (l & Hl & Hin).
  - intros x y. apply succ_closed.
  - intros x [Hx _]%elem_of_live_roots. by apply elem_of_dom, Hdom.
  - apply live_roots_NoDup.
  - exists l. split; [done|]. intros x. rewrite Hin. f_equiv. intros r.
    rewrite elem_of_live_roots. split.
    + intros [[Hg Hh] Hr]. apply rtc_succ in Hr; [done|by apply Hdom].
    + intros (Hg & Hh & Hr). split; [done|]. apply rtc_succ; [by apply Hdom|done].
Qed.
End pass.

(** An environment kept alive from outside the references the collector follows. *)
Definition kept (h : RcHeap) (handles starts : list Loc) (x : Loc) : Prop :=
  ∃ r, in_graph h starts r ∧ held h handles starts r ∧ rtc (graph_edge h) r x.

Lemma garbage_spec h handles tracked :
  ∃ garbage, garbage_of h handles tracked = Some garbage ∧
    (∀ x, in_graph h (candidates_of h tracked) x ∨ ¬ in_graph h (candidates_of h tracked) x) ∧
    ∀ x, (x ∈ garbage ↔ x ∈ candidates_of h tracked ∧ ¬ kept h handles (candidates_of h tracked) x) ∧
         (x ∈ candidates_of h tracked → x ∈ garbage ∨ kept h handles (candidates_of h tracked) x).
Proof.
  unfold garbage_of. set (cands := candidates_of h tracked).
  destruct (build_spec h cands) as (g & -> & Hdom & Hrefs). cbn.
  destruct (live_set_spec h handles cands g Hdom Hrefs cands) as (l & -> & Hl). cbn.
  eexists. split; [done|]. split.
  { intros x. rewrite <- Hdom. destruct (decide (is_Some (g !! x))); auto. }
  intros x. rewrite list_elem_of_filter. fold (kept h handles cands x) in Hl. unfold kept. rewrite <- Hl.
  split; [tauto|]. intros Hx. destruct (decide (x ∈ l)); auto.
Qed.

(** ** Safety *)

Lemma reachable_induction h handles (P : Loc → Prop) :
  (∀ r, r ∈ handles → P r) →
  (∀ y x o, reachable h handles y → P y → h !! y = Some o → x ∈ strong_refs o → P x) →
  ∀ x, reachable h handles x → P x.
Proof.
  intros Hbase Hstep x (r & Hr & Hrtc). revert x Hrtc. apply rtc_ind_r; [by apply Hbase|].
  intros y x Hry (o & Ho & Hx) Hy. eapply Hstep; [|done..]. by exists r.
Qed.

Lemma reachable_step h handles y x o :
  reachable h handles y → h !! y = Some o → x ∈ strong_refs o → reachable h handles x.
Proof.
  intros (r & Hr & Hrtc) Ho Hx. exists r. split; [done|]. eapply rtc_r; [done|]. by exists o.
Qed.

Lemma reachable_kept h handles starts x :
  (∀ y, in_graph h starts y ∨ ¬ in_graph h starts y) →
  reachable h handles x → in_graph h starts x → kept h handles starts x.
Proof.
  intros Hdec Hx. pattern x. revert x Hx.
  apply reachable_induction; [intros r Hr Hg|intros y x o _ IH Ho Hx Hg].
  - exists r. split; [done|]. split; [by left|done].
  - pose proof Hx as Hx'. rewrite strong_refs_split in Hx'. apply elem_of_app in Hx' as [Hx'|Hx'].
    + destruct (Hdec y) as [Hy|Hy].
      * destruct (IH Hy) as (z & Hz & Hhz & Hzy). exists z. split; [done|]. split; [done|].
        eapply rtc_r; [done|]. unfold graph_edge, heap_graph_refs. by rewrite Ho.
      * exists x. split; [done|]. split; [|done]. right. exists y, o. auto.
    + exists x. split; [done|]. split; [|done]. right. exists y, o. auto.
Qed.

(** Everything the program can reach is as it was. *)
Definition preserves (handles : list Loc) (h h' : RcHeap) : Prop :=
  ∀ x, reachable h handles x → h' !! x = h !! x.

Lemma preserves_reachable handles h h' x :
  preserves handles h h' → reachable h handles x → reachable h' handles x.
Proof.
  intros Hp Hx. pattern x. revert x Hx.
  apply reachable_induction; [intros r Hr|intros y x o Hy IH Ho Hx].
  - by exists r.
  - eapply reachable_step; [done| |done]. by rewrite Hp.
Qed.

Lemma preserves_trans handles h1 h2 h3 :
  preserves handles h1 h2 → preserves handles h2 h3 → preserves handles h1 h3.
Proof.
  intros H12 H23 x Hx. rewrite H23 by (by eapply preserves_reachable). by apply H12.
Qed.

Lemma lookup_clear_envs garbage h x :
  foldr clear_env h garbage !! x =
    if decide (x ∈ garbage) then
      (λ o, match o with ObEnv _ _ _ => ObEnv None ∅ [] | o => o end) <$> h !! x
    else h !! x.
Proof.
  induction garbage as [|y garbage IH]; [done|]. cbn [foldr]. unfold clear_env at 1.
  destruct (decide (y = x)) as [->|Hne].
  - rewrite lookup_alter_eq, IH, (decide_True (P := x ∈ x :: garbage)) by left.
    case_decide; [|done]. rewrite <- option_fmap_compose. by destruct (h !! x) as [[]|].
  - rewrite lookup_alter_ne, IH by done. destruct (decide (x ∈ garbage)) as [Hin|Hin].
    + by rewrite decide_True by by right.
    + rewrite decide_False; [done|]. intros [->|?]%elem_of_cons; done.
Qed.

Lemma clear_preserves handles h garbage :
  (∀ x, x ∈ garbage → ¬ reachable h handles x) → preserves handles h (foldr clear_env h garbage).
Proof. intros Hg x Hx. rewrite lookup_clear_envs, decide_False; [done|]. intros Hin. by apply (Hg x). Qed.

Lemma rc_count_reachable h handles x : reachable h handles x → rc_count h handles x ≠ 0.
Proof.
  intros Hx. pattern x. revert x Hx. unfold rc_count.
  apply reachable_induction; [intros r Hr%occ_pos; lia|intros y x o _ _ Ho Hx].
  assert (occ x (strong_refs o) ≤ sum_list_with (λ e, occ x (strong_refs e.2)) (map_to_list h)) as Hle.
  { change (occ x (strong_refs o)) with ((λ e : Loc * RcObject, occ x (strong_refs e.2)) (y, o)).
    apply sum_list_with_in. by apply elem_of_map_to_list. }
  apply occ_pos in Hx. lia.
Qed.

Lemma drop_preserves handles h : preserves handles h (drop_unreferenced h handles).
Proof.
  unfold drop_unreferenced. generalize (size h). intros fuel. revert h.
  induction fuel as [|fuel IH]; intros h; [done|]. cbn [free_loop].
  destruct (unreferenced h handles) as [|d dead] eqn:Hd; [done|].
  eapply preserves_trans; [|apply IH]. rewrite <- Hd. intros x Hx.
  apply lookup_foldr_delete_not_elem_of. unfold unreferenced. rewrite list_elem_of_filter.
  intros [H0 _]. by apply rc_count_reachable in Hx.
Qed.

(** ** The loop *)

Lemma filter_length_lt {A} (P Q : A → Prop) `{!∀ x, Decision (P x), !∀ x, Decision (Q x)} l x :
  (∀ y, Q y → P y) → x ∈ l → P x → ¬ Q x → length (filter Q l) < length (filter P l).
Proof.
  intros HQP [l' ->]%elem_of_Permutation HP HQ.
  rewrite (filter_cons_True P), (filter_cons_False Q) by done. cbn. apply le_n_S.
  induction l' as [|y l' IH]; [done|]. rewrite !filter_cons.
  repeat case_decide; cbn; try lia. naive_solver.
Qed.

(** Freed cells disappear, the others keep their content. *)
Lemma drop_lookup h handles x :
  drop_unreferenced h handles !! x = h !! x ∨ drop_unreferenced h handles !! x = None.
Proof.
  unfold drop_unreferenced. generalize (size h). intros fuel. revert h.
  induction fuel as [|fuel IH]; intros h; [by left|]. cbn [free_loop].
  destruct (unreferenced h handles) as [|d dead] eqn:Hd; [by left|].
  destruct (IH (foldr delete h (d :: dead))) as [->|]; [|by right].
  destruct (decide (x ∈ d :: dead)).
  - right. by apply lookup_foldr_delete.
  - left. by apply lookup_foldr_delete_not_elem_of.
Qed.

Lemma is_candidate_after h handles garbage x :
  is_candidate (drop_unreferenced (foldr clear_env h garbage) handles) x = true →
  is_candidate h x = true ∧ x ∉ garbage.
Proof.
  unfold is_candidate. destruct (drop_lookup (foldr clear_env h garbage) handles x) as [->| ->]; [|done].
  rewrite lookup_clear_envs. case_decide as Hg; [|done].
  destruct (h !! x) as [[]|]; cbn; done.
Qed.

Lemma candidates_decrease h handles tracked garbage x :
  x ∈ garbage → x ∈ candidates_of h tracked →
  length (candidates_of (drop_unreferenced (foldr clear_env h garbage) handles) tracked) <
  length (candidates_of h tracked).
Proof.
  unfold candidates_of. intros Hg [Hc Ht]%list_elem_of_filter. apply (filter_length_lt _ _ _ x).
  - intros y [Hy _]%is_candidate_after. done.
  - done.
  - done.
  - intros [_ Hn]%is_candidate_after. done.
Qed.

Lemma candidate_in_graph h starts x : x ∈ starts → in_graph h starts x.
Proof. intros Hx. by exists x. Qed.

(** What the collector leaves: reachable cells untouched, and no environment that
    only the references it follows keep alive. *)
Definition collected (handles tracked : list Loc) (h h' : RcHeap) : Prop :=
  preserves handles h h' ∧
  (∀ x, h' !! x = h !! x ∨ h' !! x = None ∨ h' !! x = Some (ObEnv None ∅ [])) ∧
  (∀ x, x ∈ candidates_of h' tracked → kept h' handles (candidates_of h' tracked) x).

Lemma collect_loop_spec fuel h handles tracked :
  length (candidates_of h tracked) < fuel →
  ∃ h', collect_loop fuel h handles tracked = Some h' ∧ collected handles tracked h h'.
Proof.
  revert h. induction fuel as [|fuel IH]; intros h Hf; [lia|]. cbn [collect_loop].
  destruct (candidates_of h tracked) as [|c0 cs] eqn:Hcands.
  { exists h. split; [done|]. split; [done|]. split; [by left|].
    intros x. rewrite Hcands. by intros ?%not_elem_of_nil. }
  rewrite <- Hcands in *. clear c0 cs Hcands.
  destruct (garbage_spec h handles tracked) as (garbage & Hg & Hdec & Hspec). rewrite Hg. cbn.
  destruct garbage as [|x garbage].
  { exists h. split; [done|]. split; [done|]. split; [by left|].
    intros x Hx. by destruct (proj2 (Hspec x) Hx) as [?%not_elem_of_nil|]. }
  set (dead := x :: garbage) in *. set (h1 := drop_unreferenced (foldr clear_env h dead) handles).
  assert (x ∈ dead) as Hxd by left.
  assert (x ∈ candidates_of h tracked) as Hxc by by apply Hspec.
  pose proof (candidates_decrease h handles tracked dead x Hxd Hxc) as Hlt.
  destruct (IH h1) as (h' & Hh' & Hp & Hc & Hk); [unfold h1; lia|].
  exists h'. split; [done|].
  assert (preserves handles h h1) as Hp1.
  { eapply preserves_trans; [|apply drop_preserves]. apply clear_preserves.
    intros y [Hy Hn]%Hspec Hr. apply Hn. apply reachable_kept; [done..|]. by apply candidate_in_graph. }
  split; [by eapply preserves_trans|]. split; [|done].
  intros y. destruct (Hc y) as [->|]; [|by auto]. unfold h1.
  destruct (drop_lookup (foldr clear_env h dead) handles y) as [->|]; [|by auto].
  rewrite lookup_clear_envs. case_decide; [|by left].
  destruct (h !! y) as [[]|]; cbn; auto.
Qed.

Lemma clear_tracked_spec h handles tracked :
  ∃ h', clear_tracked_environments h handles tracked =
          Some (h', filter (λ l, is_Some (h' !! l)) tracked) ∧ collected handles tracked h h'.
Proof.
  destruct (collect_loop_spec (S (length tracked)) h handles tracked) as (h' & Hh' & Hc).
  { unfold candidates_of. pose proof (length_filter (λ l, is_candidate h l = true) tracked). lia. }
  exists h'. unfold clear_tracked_environments. by rewrite Hh'.
Qed.

(** C3: the cycle collector is safe and always returns: every cell that the
    program can reach from its handles through any strong reference, parents and
    reference cells included, has the content it had, a reachable tracked
    environment stays tracked, and the other cells are unchanged, cleared
    environments, or freed. *)
Theorem collector_safe (h : RcHeap) (handles tracked : list Loc) :
  ∃ h' tracked', clear_tracked_environments h handles tracked = Some (h', tracked') ∧
    (∀ x, reachable h handles x → h' !! x = h !! x) ∧
    (∀ x, reachable h handles x → is_Some (h !! x) → x ∈ tracked → x ∈ tracked') ∧
    (∀ x, h' !! x = h !! x ∨ h' !! x = None ∨ h' !! x = Some (ObEnv None ∅ [])).
Proof.
  destruct (clear_tracked_spec h handles tracked) as (h' & Hh' & Hp & Hc & _).
  exists h', (filter (λ l, is_Some (h' !! l)) tracked). split; [done|]. split; [done|]. split; [|done].
  intros x Hr Hx Ht. apply list_elem_of_filter. by rewrite Hp.
Qed.

(** C19: the collector finishes its work: each environment it leaves with slots or
    a parent is reached, by the references it follows, from a cell that something
    else holds: a handle, the parent link of an environment, a reference cell, or
    a cell it cannot reach itself. *)
Theorem collector_complete (h h' : RcHeap) (handles tracked tracked' : list Loc) (e : Loc) :
  clear_tracked_environments h handles tracked = Some (h', tracked') →
  e ∈ tracked → is_candidate h' e = true →
  ∃ r, held h' handles (candidates_of h' tracked) r ∧ rtc (graph_edge h') r e.
Proof.
  intros H Ht He. destruct (clear_tracked_spec h handles tracked) as (h1 & H1 & _ & _ & Hk).
  rewrite H1 in H. injection H as -> <-.
  destruct (Hk e) as (r & _ & Hr & Hre); [by apply list_elem_of_filter|]. by exists r.
Qed.

(** ** Concrete heaps *)

(** A scope holding a closure over itself: the cycle the collector is for. *)
Definition self_cycle : RcHeap :=
  <[0%N := ObEnv None {["f" := 0]} [RvClosure 1]]> {[1%N := ObClosure 0]}.

(** A scope holding a closure over an inner scope, whose parent it is. *)
Definition parent_cycle : RcHeap :=
  <[0%N := ObEnv None {["counter" := 0]} [RvClosure 1]]> (<[1%N := ObClosure 2]>
    {[2%N := ObEnv (Some 0%N) {["n" := 0]} [RvOther]]}).

Lemma collector_complete_witness :
  ∃ r, held parent_cycle [] [0%N; 2%N] r ∧ rtc (graph_edge parent_cycle) r 2%N.
Proof.
  destruct (collector_complete parent_cycle parent_cycle [] [0%N; 2%N] [0%N; 2%N] 2%N
    ltac:(vm_compute; reflexivity) ltac:(right; left) ltac:(vm_compute; reflexivity)) as (r & Hr & Hre).
  exists r. split; [exact Hr|exact Hre].
Defined.

(** ** What the collector cannot see *)

(** [e] leads, by references the collector follows, to a cell that refers back to
    [e] by one it does not follow: a parent link or a reference cell. *)
Definition holds_itself (h : RcHeap) (e : Loc) : Prop :=
  ∃ inner o, rtc (graph_edge h) e inner ∧ h !! inner = Some o ∧ e ∈ untraced_refs o.

Lemma graph_edge_inv h x y : graph_edge h x y → ∃ o, h !! x = Some o ∧ y ∈ graph_refs o.
Proof.
  unfold graph_edge, heap_graph_refs. destruct (h !! x) as [o|]; [eauto|].
  by intros ?%not_elem_of_nil.
Qed.

Lemma holds_itself_kept h handles starts e x :
  (∀ y, in_graph h starts y ∨ ¬ in_graph h starts y) → holds_itself h e →
  rtc (graph_edge h) e x → in_graph h starts x → kept h handles starts x.
Proof.
  intros Hdec (inner & o & _ & Ho & He). revert x.
  apply (rtc_ind_r (λ x, in_graph h starts x → kept h handles starts x)).
  - intros Hg. exists e. split; [done|]. split; [|done]. right. exists inner, o. auto.
  - intros y x _ Hyx IH Hx. destruct (graph_edge_inv h y x Hyx) as (oy & Hoy & Hxy).
    destruct (Hdec y) as [Hy|Hy].
    + destruct (IH Hy) as (r & ? & ? & ?). exists r. split_and!; [done..|]. by eapply rtc_r.
    + exists x. split; [done|]. split; [|done]. right. exists y, oy. split; [done|]. right.
      split; [|done]. rewrite strong_refs_split. apply elem_of_app. by left.
Qed.

Lemma rc_count_referenced h handles y o x :
  h !! y = Some o → x ∈ strong_refs o → rc_count h handles x ≠ 0.
Proof.
  intros Ho Hx%occ_pos. unfold rc_count.
  assert (occ x (strong_refs o) ≤ sum_list_with (λ e, occ x (strong_refs e.2)) (map_to_list h)) as Hle.
  { change (occ x (strong_refs o)) with ((λ e : Loc * RcObject, occ x (strong_refs e.2)) (y, o)).
    apply sum_list_with_in. by apply elem_of_map_to_list. }
  lia.
Qed.

Lemma holds_itself_referenced h handles e x :
  holds_itself h e → rtc (graph_edge h) e x → rc_count h handles x ≠ 0.
Proof.
  intros (inner & o & _ & Ho & He). revert x.
  apply (rtc_ind_r (λ x, rc_count h handles x ≠ 0)).
  - eapply rc_count_referenced; [exact Ho|]. rewrite strong_refs_split. apply elem_of_app. by right.
  - intros y x _ Hyx _. destruct (graph_edge_inv h y x Hyx) as (oy & Hoy & Hxy).
    eapply rc_count_referenced; [exact Hoy|]. rewrite strong_refs_split. apply elem_of_app. by left.
Qed.

(** What [e] leads to is as it was. *)
Definition frozen (e : Loc) (h h' : RcHeap) : Prop :=
  ∀ x, rtc (graph_edge h) e x → h' !! x = h !! x.

Lemma frozen_rtc e h h' x : frozen e h h' → rtc (graph_edge h) e x → rtc (graph_edge h') e x.
Proof.
  intros Hf. revert x. apply (rtc_ind_r (λ x, rtc (graph_edge h') e x)); [done|].
  intros y x Hy Hyx IH.
  eapply rtc_r; [done|]. unfold graph_edge, heap_graph_refs in *. by rewrite (Hf y Hy).
Qed.

Lemma frozen_trans e h1 h2 h3 : frozen e h1 h2 → frozen e h2 h3 → frozen e h1 h3.
Proof. intros H12 H23 x Hx. rewrite H23 by by eapply frozen_rtc. by apply H12. Qed.

Lemma frozen_holds_itself e h h' : frozen e h h' → holds_itself h e → holds_itself h' e.
Proof.
  intros Hf (inner & o & Hi & Ho & He). exists inner, o. split; [by eapply frozen_rtc|].
  split; [|done]. by rewrite Hf.
Qed.

Lemma drop_frozen h handles e : holds_itself h e → frozen e h (drop_unreferenced h handles).
Proof.
  unfold drop_unreferenced. generalize (size h). intros fuel. revert h.
  induction fuel as [|fuel IH]; intros h He; [done|]. cbn [free_loop].
  destruct (unreferenced h handles) as [|d dead] eqn:Hd; [done|]. rewrite <- Hd.
  assert (frozen e h (foldr delete h (unreferenced h handles))) as Hf.
  { intros x Hx. apply lookup_foldr_delete_not_elem_of. unfold unreferenced.
    rewrite list_elem_of_filter. intros [H0 _]. by eapply holds_itself_referenced. }
  eapply frozen_trans; [exact Hf|]. apply IH. by eapply frozen_holds_itself.
Qed.

Lemma collect_loop_frozen fuel h handles tracked e h' :
  holds_itself h e → collect_loop fuel h handles tracked = Some h' → frozen e h h'.
Proof.
  revert h. induction fuel as [|fuel IH]; intros h He; cbn [collect_loop]; [done|].
  destruct (garbage_spec h handles tracked) as (garbage & Hg & Hdec & Hspec). rewrite Hg. cbn.
  destruct (candidates_of h tracked); [by intros [= <-]|].
  destruct garbage as [|d dead]; [by intros [= <-]|]. intros Hrun.
  set (garbage := d :: dead) in *.
  assert (frozen e h (foldr clear_env h garbage)) as Hf.
  { intros x Hx. rewrite lookup_clear_envs, decide_False; [done|]. intros Hin.
    apply Hspec in Hin as [Hc Hn]. apply Hn. eapply holds_itself_kept; [done..|].
    by apply candidate_in_graph. }
  eapply frozen_trans; [exact Hf|]. pose proof (frozen_holds_itself _ _ _ Hf He) as He'.
  eapply frozen_trans; [by apply drop_frozen|]. eapply IH; [|exact Hrun].
  eapply frozen_holds_itself; [|done]. by apply drop_frozen.
Qed.

(** C34: not all cyclic garbage is collected. On every heap, with any handles and any
    tracked environments: when a cell [e] leads, by references the collector
    follows, to a cell that refers back to [e] by one it does not follow (the
    parent link of an inner scope, a reference cell), then the collector leaves [e]
    and everything it leads to exactly as it was, whether or not a handle reaches
    it, and [e] stays tracked. *)
Theorem collector_leaks_parent_cycles (h : RcHeap) (handles tracked : list Loc)
    (e inner : Loc) (o : RcObject) :
  rtc (graph_edge h) e inner → h !! inner = Some o → e ∈ untraced_refs o →
  ∃ h' tracked', clear_tracked_environments h handles tracked = Some (h', tracked') ∧
    (∀ x, rtc (graph_edge h) e x → h' !! x = h !! x) ∧
    (e ∈ tracked → is_Some (h !! e) → e ∈ tracked').
Proof.
  intros Hi Ho He. assert (holds_itself h e) as Hh by (exists inner, o; done).
  unfold clear_tracked_environments.
  destruct (collect_loop_spec (S (length tracked)) h handles tracked) as (h' & Hh' & _).
  { unfold candidates_of. pose proof (length_filter (λ l, is_candidate h l = true) tracked). lia. }
  rewrite Hh'. cbn. eexists h', _. split; [done|].
  pose proof (collect_loop_frozen _ _ _ _ e h' Hh Hh') as Hf. split; [exact Hf|].
  intros Ht Hs. apply list_elem_of_filter. by rewrite (Hf e) by done.
Qed.

(** A scope holding a closure over an inner scope: nothing reaches it from outside,
    and it stays. The closure over the scope itself is collected. *)
Lemma collector_leaks_parent_cycles_witness :
  (∀ x, ¬ reachable parent_cycle [] x) ∧
  ∃ h' tracked', clear_tracked_environments parent_cycle [] [0%N; 2%N] = Some (h', tracked') ∧
    h' !! 0%N = parent_cycle !! 0%N ∧ 0%N ∈ tracked'.
Proof.
  split; [by intros x (r & Hr & _); apply not_elem_of_nil in Hr|].
  destruct (collector_leaks_parent_cycles parent_cycle [] [0%N; 2%N] 0%N 2%N
    (ObEnv (Some 0%N) {["n" := 0]} [RvOther])) as (h' & tracked' & H1 & H2 & H3).
  - apply (rtc_l _ 0%N 1%N); [|apply rtc_once].
    + apply (bool_decide_unpack (1%N ∈ heap_graph_refs parent_cycle 0%N)). vm_compute. exact I.
    + apply (bool_decide_unpack (2%N ∈ heap_graph_refs parent_cycle 1%N)). vm_compute. exact I.
  - vm_compute. reflexivity.
  - left.
  - exists h', tracked'. split; [exact H1|]. split; [apply H2; constructor|].
    apply H3; [left|]. vm_compute. eexists. reflexivity.
Defined.

Example self_cycle_collected :
  clear_tracked_environments self_cycle [] [0%N] = Some (∅, []).
Proof. vm_compute. reflexivity. Qed.
